(** * Fabrik: the PBR texture generator ([src/nani/src/utils/pbrGenerator.ts])

    A shallow embedding of the pixel pipeline that derives the ambient
    occlusion, roughness, metallic and normal maps from one RGBA8 pixel
    buffer, and of the resize rule and promise protocol of
    [generatePBRTextures].

    Numbers.  A JavaScript [number] is an IEEE 754 binary64 value, which is
    what Rocq's primitive [float] is: [+], [-], [*], [/], [sqrt], [abs] and
    the comparisons below are the very operations the source runs, rounding
    included.  Loop counters, pixel coordinates, buffer indices and the
    neighbour count are integer-valued numbers far below 2^53; they are
    modelled as [Z] and converted with [Z2F] where the source mixes them
    with fractional values.

    Buffers.  A [Uint8ClampedArray] is a [list Z] of samples in 0..255, a
    [Float32Array] a [list float] of single-precision values.  Reading past
    the end yields [undefined], which every use site coerces to NaN; writing
    past the end is ignored; a store converts the number with
    [ToUint8Clamp] (resp. [fround]), as the typed arrays do. *)

From Stdlib Require Import ZArith Floats Lia Bool String.
From stdpp Require Import base list.

Set Warnings "-inexact-float".
Local Open Scope Z_scope.

(** ** JavaScript numbers and typed arrays *)

Module JS.

(** An integer-valued number (a sample, a count, a dimension: all
    non-negative and below 2^63) as a binary64 value. *)
Definition Z2F (z : Z) : float := of_uint63 (Uint63.of_Z z).

(** The integer part of a finite number, rounded towards minus infinity;
    0 for NaN and the infinities. *)
Definition floorZ (v : float) : Z :=
  match Prim2SF v with
  | S754_finite s m e => Z.shiftl (cond_Zopp s (Zpos m)) e
  | _ => 0
  end.

(** [Math.max] and [Math.min] on two numbers: NaN if either is NaN, and
    [+0] above [-0]. *)
Definition Math_max (a b : float) : float :=
  if is_nan a || is_nan b then nan
  else if (a <? b)%float then b
  else if (b <? a)%float then a
  else if get_sign a then b else a.

Definition Math_min (a b : float) : float :=
  if is_nan a || is_nan b then nan
  else if (a <? b)%float then a
  else if (b <? a)%float then b
  else if get_sign a then a else b.

(** [Math.max(a, b, c)] and [Math.min(a, b, c)] fold from the left. *)
Definition Math_max3 (a b c : float) : float := Math_max (Math_max a b) c.
Definition Math_min3 (a b c : float) : float := Math_min (Math_min a b) c.

(** The conversion a [Uint8ClampedArray] applies on a store (ECMAScript
    ToUint8Clamp): NaN becomes 0, the value is clamped to 0..255 and rounded
    to the nearest integer, ties to even. *)
Definition ToUint8Clamp (v : float) : Z :=
  if is_nan v then 0
  else if (v <=? 0)%float then 0
  else if (255 <=? v)%float then 255
  else
    let f := floorZ v in
    let half := (Z2F f + 0.5)%float in
    if (v <? half)%float then f
    else if (half <? v)%float then f + 1
    else if Z.even f then f else f + 1.

(** The conversion a [Float32Array] applies on a store ([Math.fround]):
    round to the nearest binary32 value, ties to even. *)
Definition fround (v : float) : float :=
  match Prim2SF v with
  | S754_finite s m e => SF2Prim (binary_round 24 128 s m e)
  | _ => v
  end.

(** [data[idx]] on a [Uint8ClampedArray], already coerced to a number. *)
Definition rd8 (data : list Z) (idx : Z) : float :=
  if idx <? 0 then nan
  else match data !! Z.to_nat idx with
       | Some b => Z2F b
       | None => nan
       end.

(** [data[idx] = v] on a [Uint8ClampedArray]. *)
Definition wr8 (data : list Z) (idx : Z) (v : float) : list Z :=
  if idx <? 0 then data else <[Z.to_nat idx := ToUint8Clamp v]> data.

(** [data[idx]] and [data[idx] = v] on a [Float32Array]. *)
Definition rd32 (data : list float) (idx : Z) : float :=
  if idx <? 0 then nan
  else match data !! Z.to_nat idx with
       | Some v => v
       | None => nan
       end.

Definition wr32 (data : list float) (idx : Z) (v : float) : list float :=
  if idx <? 0 then data else <[Z.to_nat idx := fround v]> data.

(** [for (let i = lo; i < hi; i++) body] threading the variables the body
    updates. *)
Definition for_ {S : Type} (lo hi : Z) (body : Z -> S -> S) (s : S) : S :=
  foldl (fun acc i => body i acc) s (seqZ lo (hi - lo)).

End JS.

Import JS.

(** ** The generator module *)

Record PBROptions := {
  aoIntensity : float;
  roughnessIntensity : float;
  metallicIntensity : float;
  normalStrength : float
}.

(** Sobel operators, indexed [K[ky + 1][kx + 1]]. *)
Definition SOBEL_X : list (list float) :=
  [[-1; 0; 1]; [-2; 0; 2]; [-1; 0; 1]]%float.
Definition SOBEL_Y : list (list float) :=
  [[-1; -2; -1]; [0; 0; 0]; [1; 2; 1]]%float.

Definition kernel_at (K : list (list float)) (i j : Z) : float :=
  match K !! Z.to_nat i with
  | Some row => match row !! Z.to_nat j with Some v => v | None => nan end
  | None => nan
  end.

Definition pixel : Type := float * float * float * float.

Definition getPixel (data : list Z) (width x y : Z) : pixel :=
  let idx := (y * width + x) * 4 in
  (rd8 data idx, rd8 data (idx + 1), rd8 data (idx + 2), rd8 data (idx + 3)).

Definition setPixel (data : list Z) (width x y : Z) (r g b a : float) : list Z :=
  let idx := (y * width + x) * 4 in
  let data := wr8 data idx r in
  let data := wr8 data (idx + 1) g in
  let data := wr8 data (idx + 2) b in
  wr8 data (idx + 3) a.

Definition grayscale (r g b : float) : float :=
  (0.299 * r + 0.587 * g + 0.114 * b)%float.

Definition clamp (value min max : float) : float :=
  Math_max min (Math_min max value).

(** [clamp] applied to pixel coordinates. *)
Definition clampZ (value min max : Z) : Z :=
  Z.max min (Z.min max value).

(** [nx >= 0 && nx < width && ny >= 0 && ny < height] *)
Definition in_bounds (width height nx ny : Z) : bool :=
  (0 <=? nx) && (nx <? width) && (0 <=? ny) && (ny <? height).

(** *** generateAO *)

(** The body of the two window loops: the running [contrast] and [count]. *)
Definition ao_visit (srcData : list Z) (width height x y : Z) (lum : float)
    (dy dx : Z) (acc : float * Z) : float * Z :=
  let nx := x + dx in
  let ny := y + dy in
  if in_bounds width height nx ny then
    let '(nr, ng, nb, _) := getPixel srcData width nx ny in
    let nLum := grayscale nr ng nb in
    ((acc.1 + abs (lum - nLum))%float, acc.2 + 1)
  else acc.

Definition ao_window (srcData : list Z) (width height x y : Z) (lum : float)
    : float * Z :=
  for_ (-2) 3 (fun dy acc =>
    for_ (-2) 3 (fun dx acc => ao_visit srcData width height x y lum dy dx acc) acc)
    (0%float, 0).

(** The value passed to [setPixel] for pixel [(x, y)]. *)
Definition aoValue (srcData : list Z) (width height : Z) (intensity : float)
    (x y : Z) : float :=
  let '(r, g, b, _) := getPixel srcData width x y in
  let lum := grayscale r g b in
  let '(contrast, count) := ao_window srcData width height x y lum in
  let avgContrast := (contrast / Z2F count)%float in
  clamp (255 - (avgContrast * intensity * 2) - (255 - lum) * 0.3)%float 0 255.

Definition generateAO (srcData : list Z) (width height : Z) (intensity : float)
    : list Z :=
  let dstData := replicate (Z.to_nat (width * height * 4)) 0 in
  for_ 0 height (fun y dstData =>
    for_ 0 width (fun x dstData =>
      let v := aoValue srcData width height intensity x y in
      setPixel dstData width x y v v v 255) dstData)
    dstData.

(** *** generateRoughness *)

Definition roughness_visit (srcData : list Z) (width height x y : Z)
    (r g b : float) (dy dx : Z) (acc : float * Z) : float * Z :=
  let nx := x + dx in
  let ny := y + dy in
  if in_bounds width height nx ny then
    let '(nr, ng, nb, _) := getPixel srcData width nx ny in
    ((acc.1 + (abs (r - nr) + abs (g - ng) + abs (b - nb)))%float, acc.2 + 1)
  else acc.

Definition roughness_window (srcData : list Z) (width height x y : Z)
    (r g b : float) : float * Z :=
  for_ (-1) 2 (fun dy acc =>
    for_ (-1) 2 (fun dx acc =>
      roughness_visit srcData width height x y r g b dy dx acc) acc)
    (0%float, 0).

Definition roughnessValue (srcData : list Z) (width height : Z)
    (intensity : float) (x y : Z) : float :=
  let '(r, g, b, _) := getPixel srcData width x y in
  let lum := grayscale r g b in
  let '(variance, count) := roughness_window srcData width height x y r g b in
  let avgVariance := (variance / Z2F count)%float in
  clamp ((avgVariance * intensity * 0.5) + (255 - lum) * 0.3)%float 0 255.

Definition generateRoughness (srcData : list Z) (width height : Z)
    (intensity : float) : list Z :=
  let dstData := replicate (Z.to_nat (width * height * 4)) 0 in
  for_ 0 height (fun y dstData =>
    for_ 0 width (fun x dstData =>
      let v := roughnessValue srcData width height intensity x y in
      setPixel dstData width x y v v v 255) dstData)
    dstData.

(** *** generateMetallic *)

Definition metallicValue (srcData : list Z) (width : Z) (intensity : float)
    (x y : Z) : float :=
  let '(r, g, b, _) := getPixel srcData width x y in
  let lum := grayscale r g b in
  let max := Math_max3 r g b in
  let min := Math_min3 r g b in
  let saturation := if (max =? 0)%float then 0%float else ((max - min) / max)%float in
  clamp ((lum * intensity) * (1 - saturation * 0.5))%float 0 255.

Definition generateMetallic (srcData : list Z) (width height : Z)
    (intensity : float) : list Z :=
  let dstData := replicate (Z.to_nat (width * height * 4)) 0 in
  for_ 0 height (fun y dstData =>
    for_ 0 width (fun x dstData =>
      let v := metallicValue srcData width intensity x y in
      setPixel dstData width x y v v v 255) dstData)
    dstData.

(** *** generateNormal *)

(** First pass: the height map from luminance. *)
Definition buildHeightMap (srcData : list Z) (width height : Z) : list float :=
  let heightMap := replicate (Z.to_nat (width * height)) 0%float in
  for_ 0 height (fun y heightMap =>
    for_ 0 width (fun x heightMap =>
      let '(r, g, b, _) := getPixel srcData width x y in
      wr32 heightMap (y * width + x) (grayscale r g b / 255)%float) heightMap)
    heightMap.

(** The body of the two kernel loops: the running [dx] and [dy]. *)
Definition sobel_visit (heightMap : list float) (width height x y : Z)
    (ky kx : Z) (acc : float * float) : float * float :=
  let nx := clampZ (x + kx) 0 (width - 1) in
  let ny := clampZ (y + ky) 0 (height - 1) in
  let heightVal := rd32 heightMap (ny * width + nx) in
  ((acc.1 + heightVal * kernel_at SOBEL_X (ky + 1) (kx + 1))%float,
   (acc.2 + heightVal * kernel_at SOBEL_Y (ky + 1) (kx + 1))%float).

Definition sobel (heightMap : list float) (width height x y : Z) : float * float :=
  for_ (-1) 2 (fun ky acc =>
    for_ (-1) 2 (fun kx acc => sobel_visit heightMap width height x y ky kx acc) acc)
    (0%float, 0%float).

(** The length of the candidate vector [(normalX, normalY, 1)]. *)
Definition normalLen (normalX normalY normalZ : float) : float :=
  sqrt (normalX * normalX + normalY * normalY + normalZ * normalZ).

(** The three values passed to [setPixel] for pixel [(x, y)]. *)
Definition normalValue (heightMap : list float) (width height : Z)
    (strength : float) (x y : Z) : float * float * float :=
  let '(dx, dy) := sobel heightMap width height x y in
  let normalX := (- dx * strength)%float in
  let normalY := (- dy * strength)%float in
  let normalZ := 1%float in
  let len := normalLen normalX normalY normalZ in
  let nx := ((normalX / len + 1) * 0.5 * 255)%float in
  let ny := ((normalY / len + 1) * 0.5 * 255)%float in
  let nz := ((normalZ / len + 1) * 0.5 * 255)%float in
  (nx, ny, nz).

Definition generateNormal (srcData : list Z) (width height : Z)
    (strength : float) : list Z :=
  let dstData := replicate (Z.to_nat (width * height * 4)) 0 in
  let heightMap := buildHeightMap srcData width height in
  for_ 0 height (fun y dstData =>
    for_ 0 width (fun x dstData =>
      let '(nx, ny, nz) := normalValue heightMap width height strength x y in
      setPixel dstData width x y nx ny nz 255) dstData)
    dstData.

(** *** generatePBRTextures *)

Record PBRTextures := {
  albedo : string;
  ao : string;
  roughness : string;
  metallic : string;
  normal : string
}.

Definition maxSize : Z := 1024.

(** "Limit size for performance": the canvas size for an image of
    [img_width] x [img_height] pixels. *)
Definition canvasSize (img_width img_height : Z) : Z * Z :=
  if (img_width >? maxSize) || (img_height >? maxSize) then
    let ratio := Math_min (Z2F maxSize / Z2F img_width) (Z2F maxSize / Z2F img_height) in
    (floorZ (Z2F img_width * ratio), floorZ (Z2F img_height * ratio))
  else (img_width, img_height).

(** The browser operations the function calls.  [load] is the image
    element: [Some img] when [onload] fires, [None] when [onerror] does.
    Every canvas operation may throw. *)
Record Browser := {
  image : Type;
  canvas : Type;
  exn : Type;
  load : string -> option image;
  img_width : image -> Z;
  img_height : image -> Z;
  (** a fresh [width] x [height] canvas with the image drawn onto it *)
  drawImage : image -> Z -> Z -> exn + canvas;
  getImageData : canvas -> Z -> Z -> exn + list Z;
  (** a fresh [width] x [height] canvas holding the given samples *)
  putImageData : Z -> Z -> list Z -> exn + canvas;
  toDataURL : canvas -> exn + string
}.

(** What the promise is rejected with: [new Error(message)] or a value
    caught by [catch (error)]. *)
Inductive rejection (B : Browser) :=
  | Error (message : string)
  | Thrown (e : exn B).
Arguments Error {B} message.
Arguments Thrown {B} e.

Inductive settled (B : Browser) :=
  | Resolved (textures : PBRTextures)
  | Rejected (reason : rejection B).
Arguments Resolved {B} textures.
Arguments Rejected {B} reason.

(** Statements of a [try] block: the first one that throws ends it. *)
Definition try_bind {E A C : Type} (c : E + A) (k : A -> E + C) : E + C :=
  match c with
  | inl e => inl e
  | inr a => k a
  end.

Notation "x <- c ;; k" := (try_bind c (fun x => k))
  (at level 100, c at next level, right associativity).

(** The body of the [try] block of [img.onload]. *)
Definition onload (B : Browser) (img : image B) (options : PBROptions)
    : exn B + PBRTextures :=
  let '(width, height) := canvasSize (img_width B img) (img_height B img) in
  canvas <- drawImage B img width height ;;
  srcData <- getImageData B canvas width height ;;
  albedoCanvas <- drawImage B img width height ;;
  let aoData := generateAO srcData width height (aoIntensity options) in
  aoCanvas <- putImageData B width height aoData ;;
  let roughnessData := generateRoughness srcData width height (roughnessIntensity options) in
  roughnessCanvas <- putImageData B width height roughnessData ;;
  let metallicData := generateMetallic srcData width height (metallicIntensity options) in
  metallicCanvas <- putImageData B width height metallicData ;;
  let normalData := generateNormal srcData width height (normalStrength options) in
  normalCanvas <- putImageData B width height normalData ;;
  albedo <- toDataURL B albedoCanvas ;;
  ao <- toDataURL B aoCanvas ;;
  roughness <- toDataURL B roughnessCanvas ;;
  metallic <- toDataURL B metallicCanvas ;;
  normal <- toDataURL B normalCanvas ;;
  inr {| albedo := albedo; ao := ao; roughness := roughness;
         metallic := metallic; normal := normal |}.

(** How the promise returned by [generatePBRTextures] settles. *)
Definition generatePBRTextures (B : Browser) (imageSrc : string)
    (options : PBROptions) : settled B :=
  match load B imageSrc with
  | None => Rejected (Error "Failed to load image")
  | Some img =>
      match onload B img options with
      | inr textures => Resolved textures
      | inl error => Rejected (Thrown error)
      end
  end.

(** ** Reading the output buffers *)

(** Channel [c] (0 = R, 1 = G, 2 = B, 3 = A) of pixel [(x, y)] of a
    row-major RGBA8 buffer. *)
Definition stored (data : list Z) (width x y c : Z) : option Z :=
  data !! Z.to_nat ((y * width + x) * 4 + c).

(** The positions a pair of nested loops visits, outer loop first. *)
Definition grid (xlo xhi ylo yhi : Z) : list (Z * Z) :=
  y ← seqZ ylo (yhi - ylo); (λ x, (x, y)) <$> seqZ xlo (xhi - xlo).

(** One iteration of a generator's pixel loops: compute the three channel
    values of pixel [p] and store them with alpha 255. *)
Definition paint (width : Z) (f : Z -> Z -> float * float * float)
    (dst : list Z) (p : Z * Z) : list Z :=
  let '(r, g, b) := f p.1 p.2 in setPixel dst width p.1 p.2 r g b 255.

Definition channel (v : float * float * float) (c : Z) : float :=
  if c =? 0 then v.1.1 else if c =? 1 then v.1.2 else if c =? 2 then v.2 else 255.

(** Pixel [p] lies in a [width] x [height] image. *)
Definition inside (width height : Z) (p : Z * Z) : Prop :=
  0 <= p.1 < width /\ 0 <= p.2 < height.

(** The two pixel loops of a generator, run on a fresh buffer. *)
Definition render (width height : Z) (f : Z -> Z -> float * float * float) : list Z :=
  foldl (paint width f) (replicate (Z.to_nat (width * height * 4)) 0)
        (grid 0 width 0 height).

(** One iteration of the loops that fill the height map. *)
Definition fill (width : Z) (g : Z * Z -> float) (hm : list float) (p : Z * Z)
    : list float :=
  wr32 hm (p.2 * width + p.1) (g p).

(** ** The generators as the specification words them *)

Module Spec.

(** [luma = 0.299 R + 0.587 G + 0.114 B] at pixel [(x, y)]. *)
Definition luma (src : list Z) (width x y : Z) : float :=
  let '(r, g, b, _) := getPixel src width x y in grayscale r g b.

(** The in-bounds positions of the [(2 radius + 1)²] window centred on
    [(x, y)], row by row. *)
Definition window (radius width height x y : Z) : list (Z * Z) :=
  filter (λ p, in_bounds width height p.1 p.2 = true)
         (grid (x - radius) (x + radius + 1) (y - radius) (y + radius + 1)).

(** The mean of a list of numbers: their sum, accumulated from 0 in list
    order, over their count. *)
Definition sum (l : list float) : float := foldl PrimFloat.add 0%float l.
Definition mean (l : list float) : float :=
  (sum l / Z2F (Z.of_nat (length l)))%float.

(** 4.3: [ao = clamp(255 - contrast * aoIntensity * 2 - (255 - luma) * 0.3, 0, 255)] *)
Definition contrast (src : list Z) (width height x y : Z) : float :=
  mean ((λ p, abs (luma src width x y - luma src width p.1 p.2)%float)
          <$> window 2 width height x y).

Definition ao (src : list Z) (width height : Z) (aoIntensity : float) (x y : Z) : float :=
  clamp (255 - contrast src width height x y * aoIntensity * 2
             - (255 - luma src width x y) * 0.3)%float 0 255.

(** 4.4: [roughness = clamp(variance * roughnessIntensity * 0.5 + (255 - luma) * 0.3, 0, 255)] *)
Definition delta (src : list Z) (width x y nx ny : Z) : float :=
  let '(r, g, b, _) := getPixel src width x y in
  let '(nr, ng, nb, _) := getPixel src width nx ny in
  (abs (r - nr) + abs (g - ng) + abs (b - nb))%float.

Definition variance (src : list Z) (width height x y : Z) : float :=
  mean ((λ p, delta src width x y p.1 p.2) <$> window 1 width height x y).

Definition roughness (src : list Z) (width height : Z) (roughnessIntensity : float)
    (x y : Z) : float :=
  clamp (variance src width height x y * roughnessIntensity * 0.5
           + (255 - luma src width x y) * 0.3)%float 0 255.

(** 4.5: [metallic = clamp(luma * metallicIntensity * (1 - saturation * 0.5), 0, 255)] *)
Definition saturation (r g b : float) : float :=
  let max := Math_max3 r g b in
  let min := Math_min3 r g b in
  if (0 <? max)%float then ((max - min) / max)%float
  else if (max =? 0)%float then 0%float
  else nan.

Definition metallic (src : list Z) (width : Z) (metallicIntensity : float)
    (x y : Z) : float :=
  let '(r, g, b, _) := getPixel src width x y in
  clamp (luma src width x y * metallicIntensity * (1 - saturation r g b * 0.5))%float
        0 255.

(** 4.6: the height field (single-precision numbers), the two 3x3
    gradient kernels sampled at edge-clamped coordinates, and the encoded
    unit vector. *)
Definition height (src : list Z) (width x y : Z) : float :=
  fround (luma src width x y / 255).

Definition kernel_h : list (list float) := [[-1; 0; 1]; [-2; 0; 2]; [-1; 0; 1]]%float.
Definition kernel_v : list (list float) := [[-1; -2; -1]; [0; 0; 0]; [1; 2; 1]]%float.

(** The sum, over the nine kernel offsets [(kx, ky)] row by row, of the
    height at the clamped coordinate times the kernel entry. *)
Definition gradient (K : list (list float)) (src : list Z) (width height_ x y : Z) : float :=
  sum ((λ k, (height src width (clampZ (x + k.1) 0 (width - 1))
                                (clampZ (y + k.2) 0 (height_ - 1))
              * kernel_at K (k.2 + 1) (k.1 + 1))%float)
         <$> grid (-1) 2 (-1) 2).

Definition encode (v len : float) : float := ((v / len + 1) * 0.5 * 255)%float.

Definition normal (src : list Z) (width height_ : Z) (normalStrength : float)
    (x y : Z) : float * float * float :=
  let dx := gradient kernel_h src width height_ x y in
  let dy := gradient kernel_v src width height_ x y in
  let nx := (- dx * normalStrength)%float in
  let ny := (- dy * normalStrength)%float in
  let nz := 1%float in
  let len := sqrt (nx * nx + ny * ny + nz * nz) in
  (encode nx len, encode ny len, encode nz len).

End Spec.

(** ** The rules of the specification, read by themselves

    The formulas of the specification over the samples of the buffer,
    written without any of the functions of the source: what the
    generators are compared with. *)

Module Rule.

(** Sample [c] (0 = R, 1 = G, 2 = B) of pixel [(x, y)], as a number. *)
Definition colour (src : list Z) (width x y c : Z) : float :=
  match src !! Z.to_nat ((y * width + x) * 4 + c) with
  | Some b => Z2F b
  | None => nan
  end.

(** 4.2: [luma = 0.299 R + 0.587 G + 0.114 B]. *)
Definition luma (src : list Z) (width x y : Z) : float :=
  (0.299 * colour src width x y 0 + 0.587 * colour src width x y 1
   + 0.114 * colour src width x y 2)%float.

(** The positions of the [(2 radius + 1)²] window centred on [(x, y)]
    that lie in the image, row by row. *)
Definition neighbours (radius width height x y : Z) : list (Z * Z) :=
  filter (λ p, 0 <= p.1 < width /\ 0 <= p.2 < height)
    (ny ← seqZ (y - radius) (2 * radius + 1);
     (λ nx, (nx, ny)) <$> seqZ (x - radius) (2 * radius + 1)).

(** The mean of a list of numbers: their sum, in list order, over their
    count. *)
Definition mean (l : list float) : float :=
  (foldl PrimFloat.add 0 l / Z2F (Z.of_nat (length l)))%float.

(** [clamp(v, 0, 255)]: 0 below 0, 255 above 255, [v] in between. *)
Definition limit (v : float) : float :=
  if (v <=? 0)%float then 0%float
  else if (255 <=? v)%float then 255%float
  else v.

(** 4.3: [ao = clamp(255 - contrast * aoIntensity * 2 - (255 - luma) * 0.3, 0, 255)],
    [contrast] the mean of [|luma(centre) - luma(neighbour)|] over the
    5x5 window. *)
Definition contrast (src : list Z) (width height x y : Z) : float :=
  mean ((λ p, abs (luma src width x y - luma src width p.1 p.2)%float)
          <$> neighbours 2 width height x y).

Definition ao (src : list Z) (width height : Z) (aoIntensity : float) (x y : Z) : float :=
  limit (255 - contrast src width height x y * aoIntensity * 2
         - (255 - luma src width x y) * 0.3)%float.

(** 4.4: [roughness = clamp(variance * roughnessIntensity * 0.5 + (255 - luma) * 0.3, 0, 255)],
    [variance] the mean of [|dR| + |dG| + |dB|] over the 3x3 window. *)
Definition delta (src : list Z) (width x y nx ny : Z) : float :=
  (abs (colour src width x y 0 - colour src width nx ny 0)
   + abs (colour src width x y 1 - colour src width nx ny 1)
   + abs (colour src width x y 2 - colour src width nx ny 2))%float.

Definition variance (src : list Z) (width height x y : Z) : float :=
  mean ((λ p, delta src width x y p.1 p.2) <$> neighbours 1 width height x y).

Definition roughness (src : list Z) (width height : Z) (roughnessIntensity : float)
    (x y : Z) : float :=
  limit (variance src width height x y * roughnessIntensity * 0.5
         + (255 - luma src width x y) * 0.3)%float.

(** 4.5: [metallic = clamp(luma * metallicIntensity * (1 - saturation * 0.5), 0, 255)],
    [saturation = (max - min) / max] where [max > 0], and 0 where
    [max = 0]. *)
Definition larger (a b : float) : float := if (a <? b)%float then b else a.
Definition smaller (a b : float) : float := if (b <? a)%float then b else a.

Definition saturation (src : list Z) (width x y : Z) : float :=
  let r := colour src width x y 0 in
  let g := colour src width x y 1 in
  let b := colour src width x y 2 in
  let max := larger (larger r g) b in
  let min := smaller (smaller r g) b in
  if (0 <? max)%float then ((max - min) / max)%float else 0%float.

Definition metallic (src : list Z) (width : Z) (metallicIntensity : float)
    (x y : Z) : float :=
  limit (luma src width x y * metallicIntensity
         * (1 - saturation src width x y * 0.5))%float.

(** 4.1: the rule read exactly.  A side [a] scaled by
    [factor = min(1024 / w, 1024 / h)] and floored is
    [min(floor(1024 a / w), floor(1024 a / h))]. *)
Definition scaled (a w h : Z) : Z := Z.min (1024 * a / w) (1024 * a / h).

Definition canvasSize (w h : Z) : Z * Z :=
  if (w <=? 1024) && (h <=? 1024) then (w, h) else (scaled w w h, scaled h w h).
End Rule.

(** ** Well-formed pixel buffers *)

Definition byte (b : Z) : Prop := 0 <= b <= 255.

(** The PixelBuffer invariant: [width * height * 4] samples, each 0..255. *)
Definition wf_buffer (data : list Z) (width height : Z) : Prop :=
  length data = Z.to_nat (width * height * 4) /\ Forall byte data.

Definition bytes : list Z := seqZ 0 256.

(** ** Decoding the normal map *)

(** The vector a stored normal decodes to, and its length. *)
Definition decode (c : Z) : float := (Z2F c / 255 * 2 - 1)%float.

Definition magnitude (r g b : Z) : float :=
  let x := decode r in
  let y := decode g in
  let z := decode b in
  sqrt (x * x + y * y + z * z).

(** The tolerance a floating-point comparison of two lengths would use;
    the unit roundoff of binary64 is about 1.1e-16. *)
Definition tolerance : float := 1e-9.

(** The claim as the specification states it. *)
Definition unit_within_tolerance (src : list Z) (width height : Z) (strength : float)
    (x y : Z) : Prop :=
  exists r g b,
    stored (generateNormal src width height strength) width x y 0 = Some r /\
    stored (generateNormal src width height strength) width x y 1 = Some g /\
    stored (generateNormal src width height strength) width x y 2 = Some b /\
    (abs (magnitude r g b - 1) <=? tolerance)%float = true.

Definition checker : list Z :=
  [0; 0; 0; 255; 255; 255; 255; 255; 255; 255; 255; 255; 10; 200; 30; 255].

(** ** Concrete inputs *)

Definition defaults : PBROptions :=
  {| aoIntensity := 1; roughnessIntensity := 1; metallicIntensity := 0.5;
     normalStrength := 1 |}.

(** A browser that decodes every non-empty source to one opaque black
    pixel and never throws; used to run the function on concrete inputs. *)
Definition plain_browser : Browser := {|
  image := unit;
  canvas := list Z;
  exn := Empty_set;
  load := fun src => if String.eqb src "" then None else Some tt;
  img_width := fun _ => 1;
  img_height := fun _ => 1;
  drawImage := fun _ _ _ => inr [0; 0; 0; 255];
  getImageData := fun cv _ _ => inr cv;
  putImageData := fun _ _ data => inr data;
  toDataURL := fun cv =>
    inr (if decide (cv = [0; 0; 0; 255]) then "black"%string else "other"%string)
|}.




(** ** The generators on a heap of typed arrays

    The buffers of the source are objects: [srcData] is a reference, and
    [new Uint8ClampedArray(n)] creates an object no earlier reference
    points to.  Here the heap holds every typed array that exists, an
    address being the position the array was created at; a generator
    takes the heap and the address of the source, and returns the heap it
    leaves and the address of its output. *)

Inductive array :=
  | U8 (data : list Z)
  | F32 (data : list float).

Abbreviation Heap := (list array).

(** The samples of the [Uint8ClampedArray] (resp. [Float32Array]) at an
    address. *)
Definition u8 (h : Heap) (a : nat) : list Z :=
  match h !! a with Some (U8 data) => data | _ => [] end.

Definition f32 (h : Heap) (a : nat) : list float :=
  match h !! a with Some (F32 data) => data | _ => [] end.

(** [new Uint8ClampedArray(n)], [new Float32Array(n)]. *)
Definition alloc (h : Heap) (v : array) : Heap * nat := (h ++ [v], length h).

Module Shared.

Definition generateAO (h : Heap) (srcData : nat) (width height : Z) (intensity : float)
    : Heap * nat :=
  let '(h, dstData) := alloc h (U8 (replicate (Z.to_nat (width * height * 4)) 0)) in
  (for_ 0 height (fun y h =>
     for_ 0 width (fun x h =>
       let v := aoValue (u8 h srcData) width height intensity x y in
       <[dstData := U8 (setPixel (u8 h dstData) width x y v v v 255)]> h) h) h,
   dstData).

Definition generateRoughness (h : Heap) (srcData : nat) (width height : Z)
    (intensity : float) : Heap * nat :=
  let '(h, dstData) := alloc h (U8 (replicate (Z.to_nat (width * height * 4)) 0)) in
  (for_ 0 height (fun y h =>
     for_ 0 width (fun x h =>
       let v := roughnessValue (u8 h srcData) width height intensity x y in
       <[dstData := U8 (setPixel (u8 h dstData) width x y v v v 255)]> h) h) h,
   dstData).

Definition generateMetallic (h : Heap) (srcData : nat) (width height : Z)
    (intensity : float) : Heap * nat :=
  let '(h, dstData) := alloc h (U8 (replicate (Z.to_nat (width * height * 4)) 0)) in
  (for_ 0 height (fun y h =>
     for_ 0 width (fun x h =>
       let v := metallicValue (u8 h srcData) width intensity x y in
       <[dstData := U8 (setPixel (u8 h dstData) width x y v v v 255)]> h) h) h,
   dstData).

Definition generateNormal (h : Heap) (srcData : nat) (width height : Z)
    (strength : float) : Heap * nat :=
  let '(h, dstData) := alloc h (U8 (replicate (Z.to_nat (width * height * 4)) 0)) in
  let '(h, heightMap) := alloc h (F32 (replicate (Z.to_nat (width * height)) 0%float)) in
  let h :=
    for_ 0 height (fun y h =>
      for_ 0 width (fun x h =>
        let '(r, g, b, _) := getPixel (u8 h srcData) width x y in
        <[heightMap := F32 (wr32 (f32 h heightMap) (y * width + x)
                              (grayscale r g b / 255)%float)]> h) h) h in
  (for_ 0 height (fun y h =>
     for_ 0 width (fun x h =>
       let '(nx, ny, nz) := normalValue (f32 h heightMap) width height strength x y in
       <[dstData := U8 (setPixel (u8 h dstData) width x y nx ny nz 255)]> h) h) h,
   dstData).


End Shared.

(** ** Binary64 values as scaled integers *)

(** The exact value of a binary64 number is an integer multiple of
    [2^-1074]; counted in units of [2^-K] it is an integer, its [rank].
    The operations of IEEE 754 round the exact result to the nearest
    representable value, ties to even. *)
Module Rounding.

(** [v / 2^j] rounded to the nearest integer, ties to even. *)
Definition rne (j v : Z) : Z :=
  let q := v / 2 ^ j in
  let r := v mod 2 ^ j in
  if 2 * r <? 2 ^ j then q
  else if 2 ^ j <? 2 * r then q + 1
  else if Z.even q then q else q + 1.

Definition digits (v : Z) : Z := Z.log2 v + 1.

(** The exponent, in units, at which a value [v > 0] is rounded: binary64
    has 53 digits and its least exponent is -1074. *)
Definition place (K v : Z) : Z := Z.max (digits v - 53) (K - 1074).

(** [v] rounded to binary64, overflow apart. *)
Definition round (K v : Z) : Z := rne (place K v) v * 2 ^ place K v.

(** [mrs] is what is left of [m >= 0] after dropping its [n] low bits: the
    quotient, the last bit dropped, and whether a lower one was set. *)
Definition dropped (m n : Z) (mrs : shr_record) : Prop :=
  shr_m mrs = m / 2 ^ n /\
  shr_r mrs = (if n =? 0 then false else Z.odd (m / 2 ^ (n - 1))) /\
  shr_s mrs = (if n =? 0 then false else negb (m mod 2 ^ (n - 1) =? 0)).

Definition TOP (K : Z) : Z := 2 ^ (1024 + K).

(** The value of a number in units of [2^-K], with the infinities at
    [TOP] and [- TOP]. *)
Definition rank (K : Z) (x : spec_float) : Z :=
  match x with
  | S754_zero _ => 0
  | S754_infinity s => cond_Zopp s (TOP K)
  | S754_nan => 0
  | S754_finite s m e => cond_Zopp s (Zpos m * 2 ^ (e + K))
  end.

Definition is_number (x : spec_float) : bool :=
  match x with S754_nan => false | _ => true end.

Definition finite_or_zero (x : spec_float) : bool :=
  match x with S754_zero _ | S754_finite _ _ _ => true | _ => false end.

Definition sround (K v : Z) : Z := if v <? 0 then - round K (- v) else round K v.

Definition cap (K v : Z) : Z := Z.max (- TOP K) (Z.min (TOP K) v).

(** [fl v]: the rank of the binary64 number nearest to the exact value
    [v], an infinity when it is out of range. *)
Definition fl (K v : Z) : Z := cap K (sround K v).

End Rounding.

Module F64.
Import Rounding.

(** Products of two binary64 numbers are multiples of [2^-2148]. *)
Definition K : Z := 2148.

Global Opaque K.

Definition R (x : float) : Z := rank K (Prim2SF x).
Definition num (x : float) : bool := is_number (Prim2SF x).
Definition fin (x : float) : bool := finite_or_zero (Prim2SF x).

Definition top : Z := TOP K.
Definition near (v : Z) : Z := fl K v.

(** [le x y]: both are numbers and [x] is at most [y]. *)
Definition le (x y : float) : Prop := num x = true /\ num y = true /\ R x <= R y.

(** The sample a rank is stored as. *)
Definition sample (rho : Z) : Z :=
  if rho <=? 0 then 0
  else if 255 * 2 ^ K <=? rho then 255
  else rne K rho.

(** [bounded B x]: [x] is finite and at most [B] in absolute value. *)
Definition bounded (B : Z) (x : float) : Prop :=
  fin x = true /\ Z.abs (R x) <= B * 2 ^ K.

(** [clamp(255 - c * a * 2 - bias, 0, 255)] as stored. *)
Definition darkened (c bias a : float) : Z :=
  ToUint8Clamp (clamp (255 - c * a * 2 - bias) 0 255).

End F64.

(** * Properties *)

(** ** Loops *)

Section Loops.
Context {S : Type}.

Lemma for_nested (xlo xhi ylo yhi : Z) (body : Z -> Z -> S -> S) (s : S) :
  for_ ylo yhi (fun y s => for_ xlo xhi (fun x s => body x y s) s) s
  = foldl (fun s p => body p.1 p.2 s) s (grid xlo xhi ylo yhi).
Proof.
  unfold for_, grid.
  generalize (seqZ ylo (yhi - ylo)) as ys.
  intros ys; revert s.
  induction ys as [|y ys IH]; intros s; [reflexivity|].
  cbn [foldl mbind list_bind]. rewrite foldl_app, foldl_fmap. apply IH.
Qed.

Lemma foldl_guard {A} (P : A -> bool) (step : S -> A -> S) (s : S) (l : list A) :
  foldl (fun s a => if P a then step s a else s) s l
  = foldl step s (filter (λ a, P a = true) l).
Proof.
  revert s; induction l as [|a l IH]; intros s; [reflexivity|].
  cbn [foldl]. rewrite filter_cons.
  destruct (P a) eqn:E.
  - rewrite decide_True by reflexivity. cbn [foldl]. apply IH.
  - rewrite decide_False by congruence. apply IH.
Qed.
End Loops.

(** ** Writing pixels *)

Lemma length_wr8 d i v : length (wr8 d i v) = length d.
Proof. unfold wr8. destruct (i <? 0); [reflexivity | apply length_insert]. Qed.

Lemma lookup_wr8_eq d i v :
  0 <= i -> (Z.to_nat i < length d)%nat -> wr8 d i v !! Z.to_nat i = Some (ToUint8Clamp v).
Proof.
  intros Hi Hlen. unfold wr8.
  destruct (Z.ltb_spec i 0); [lia|]. by apply list_lookup_insert_eq.
Qed.

Lemma lookup_wr8_ne d i v (n : nat) :
  n <> Z.to_nat i -> wr8 d i v !! n = d !! n.
Proof.
  intros Hn. unfold wr8.
  destruct (i <? 0); [reflexivity|]. by apply list_lookup_insert_ne.
Qed.

Lemma length_setPixel d w x y r g b a : length (setPixel d w x y r g b a) = length d.
Proof. unfold setPixel. by rewrite !length_wr8. Qed.

Lemma lookup_setPixel_eq d w x y r g b a c :
  0 <= (y * w + x) * 4 -> (Z.to_nat ((y * w + x) * 4 + 3) < length d)%nat ->
  0 <= c < 4 ->
  setPixel d w x y r g b a !! Z.to_nat ((y * w + x) * 4 + c)
  = Some (ToUint8Clamp (if c =? 0 then r else if c =? 1 then g else if c =? 2 then b else a)).
Proof.
  intros H0 Hlen Hc. unfold setPixel.
  set (idx := (y * w + x) * 4) in *.
  assert (c = 0 \/ c = 1 \/ c = 2 \/ c = 3) as [-> | [-> | [-> | ->]]] by lia; cbn [Z.eqb].
  - rewrite Z.add_0_r.
    rewrite !lookup_wr8_ne by lia. apply lookup_wr8_eq; lia.
  - rewrite (lookup_wr8_ne _ (idx + 3)), (lookup_wr8_ne _ (idx + 2)) by lia.
    apply lookup_wr8_eq; rewrite ?length_wr8; lia.
  - rewrite (lookup_wr8_ne _ (idx + 3)) by lia.
    apply lookup_wr8_eq; rewrite ?length_wr8; lia.
  - apply lookup_wr8_eq; rewrite ?length_wr8; lia.
Qed.

Lemma lookup_setPixel_ne d w x y r g b a (n : nat) :
  0 <= (y * w + x) * 4 ->
  (n < Z.to_nat ((y * w + x) * 4) \/ Z.to_nat ((y * w + x) * 4 + 3) < n)%nat ->
  setPixel d w x y r g b a !! n = d !! n.
Proof.
  intros H0 Hn. unfold setPixel. rewrite !lookup_wr8_ne by lia. reflexivity.
Qed.

Section Paint.
Variables (width height : Z) (f : Z -> Z -> float * float * float).
Local Abbreviation inside := (inside width height).
Local Abbreviation render := (render width height f).

Lemma inside_index p :
  inside p -> 0 <= (p.2 * width + p.1) * 4 /\ (p.2 * width + p.1) * 4 + 3 < width * height * 4.
Proof. unfold inside. intros [? ?]. nia. Qed.

Lemma inside_apart p q :
  inside p -> inside q -> p <> q ->
  (q.2 * width + q.1) * 4 + 3 < (p.2 * width + p.1) * 4
  \/ (p.2 * width + p.1) * 4 + 3 < (q.2 * width + q.1) * 4.
Proof.
  destruct p as [px py], q as [qx qy]. unfold inside; cbn [fst snd].
  intros [? ?] [? ?] Hne.
  assert (py <> qy \/ px <> qx) as [Hy|Hx].
  { destruct (decide (py = qy)); [right|left]; congruence. }
  - nia.
  - destruct (decide (py = qy)); [subst; lia | nia].
Qed.

Lemma length_paint dst p : length (paint width f dst p) = length dst.
Proof. unfold paint. destruct (f p.1 p.2) as [[r g] b]. apply length_setPixel. Qed.

Lemma length_foldl_paint ps dst : length (foldl (paint width f) dst ps) = length dst.
Proof.
  revert dst; induction ps as [|p ps IH]; intros dst; [reflexivity|].
  cbn [foldl]. by rewrite IH, length_paint.
Qed.

Lemma stored_paint_eq dst p c :
  inside p -> length dst = Z.to_nat (width * height * 4) -> 0 <= c < 4 ->
  stored (paint width f dst p) width p.1 p.2 c
  = Some (ToUint8Clamp (channel (f p.1 p.2) c)).
Proof.
  intros Hp Hlen Hc. unfold stored, paint, channel.
  pose proof (inside_index p Hp) as [? ?].
  destruct (f p.1 p.2) as [[r g] b]; cbn [fst snd].
  apply lookup_setPixel_eq; lia.
Qed.

Lemma stored_paint_ne dst p q c :
  inside p -> inside q -> p <> q -> 0 <= c < 4 ->
  stored (paint width f dst p) width q.1 q.2 c = stored dst width q.1 q.2 c.
Proof.
  intros Hp Hq Hne Hc. unfold stored, paint.
  pose proof (inside_index p Hp) as [? ?].
  pose proof (inside_index q Hq) as [? ?].
  pose proof (inside_apart p q Hp Hq Hne).
  destruct (f p.1 p.2) as [[r g] b].
  apply lookup_setPixel_ne; lia.
Qed.

(** After painting the pixels of [ps], a painted pixel holds its value
    and every other pixel is as it was. *)
Lemma stored_foldl_paint ps dst q c :
  Forall inside ps -> inside q -> 0 <= c < 4 ->
  length dst = Z.to_nat (width * height * 4) ->
  stored (foldl (paint width f) dst ps) width q.1 q.2 c
  = if decide (q ∈ ps) then Some (ToUint8Clamp (channel (f q.1 q.2) c))
    else stored dst width q.1 q.2 c.
Proof.
  intros Hps Hq Hc. revert dst.
  induction Hps as [|p ps Hp Hps IH]; intros dst Hlen.
  { cbn [foldl]. rewrite decide_False; [reflexivity | apply not_elem_of_nil]. }
  cbn [foldl]. rewrite IH by (by rewrite length_paint).
  destruct (decide (q ∈ ps)) as [Hin|Hnin].
  - rewrite decide_True; [reflexivity | rewrite elem_of_cons; tauto].
  - destruct (decide (q = p)) as [->|Hne].
    + rewrite decide_True by (rewrite elem_of_cons; tauto).
      by apply stored_paint_eq.
    + rewrite decide_False by (rewrite elem_of_cons; tauto).
      by apply stored_paint_ne.
Qed.

Lemma elem_of_grid xlo xhi ylo yhi p :
  p ∈ grid xlo xhi ylo yhi <-> xlo <= p.1 < xhi /\ ylo <= p.2 < yhi.
Proof.
  unfold grid. rewrite list_elem_of_bind. split.
  - intros (y & Hp & Hy). apply list_elem_of_fmap in Hp as (x & -> & Hx).
    apply elem_of_seqZ in Hx, Hy. cbn [fst snd]. lia.
  - intros [Hx Hy]. exists p.2. split.
    + apply list_elem_of_fmap. exists p.1. split; [by destruct p|].
      apply elem_of_seqZ. lia.
    + apply elem_of_seqZ. lia.
Qed.

Lemma length_render : length render = Z.to_nat (width * height * 4).
Proof. unfold render. by rewrite length_foldl_paint, length_replicate. Qed.

Lemma stored_render x y c :
  0 <= x < width -> 0 <= y < height -> 0 <= c < 4 ->
  stored render width x y c = Some (ToUint8Clamp (channel (f x y) c)).
Proof.
  intros Hx Hy Hc. unfold render.
  pose proof (stored_foldl_paint (grid 0 width 0 height)
                (replicate (Z.to_nat (width * height * 4)) 0) (x, y) c) as H.
  cbn [fst snd] in H. rewrite H; [| | done | done | by rewrite length_replicate].
  - rewrite decide_True; [reflexivity|]. apply elem_of_grid. cbn. lia.
  - apply Forall_forall. intros p Hp. apply elem_of_grid in Hp. exact Hp.
Qed.
End Paint.

(** ** Windows *)

Lemma grid_shift (x y xlo xhi ylo yhi : Z) :
  (λ p, (x + p.1, y + p.2)) <$> grid xlo xhi ylo yhi
  = grid (x + xlo) (x + xhi) (y + ylo) (y + yhi).
Proof.
  unfold grid.
  replace (y + yhi - (y + ylo)) with (yhi - ylo) by lia.
  replace (x + xhi - (x + xlo)) with (xhi - xlo) by lia.
  rewrite <- (fmap_add_seqZ y ylo), <- (fmap_add_seqZ x xlo).
  generalize (seqZ ylo (yhi - ylo)) as ys, (seqZ xlo (xhi - xlo)) as xs.
  intros ys xs. induction ys as [|y0 ys IH]; [reflexivity|].
  cbn [mbind list_bind fmap list_fmap]. rewrite fmap_app, IH. f_equal.
  rewrite <- !list_fmap_compose. reflexivity.
Qed.

(** A window loop pair that visits the in-bounds neighbours of [(x, y)],
    adding [g] of the neighbour to a running sum and 1 to a running count,
    computes the sum and the length of the specification's window. *)
Lemma window_loops (radius width height x y : Z) (g : Z * Z -> float)
    (visit : Z -> Z -> float * Z -> float * Z) :
  (forall dy dx acc,
      visit dy dx acc
      = if in_bounds width height (x + dx) (y + dy)
        then (PrimFloat.add acc.1 (g (x + dx, y + dy)), acc.2 + 1) else acc) ->
  for_ (- radius) (radius + 1) (fun dy acc =>
    for_ (- radius) (radius + 1) (fun dx acc => visit dy dx acc) acc) (0%float, 0)
  = (Spec.sum (g <$> Spec.window radius width height x y),
     Z.of_nat (length (Spec.window radius width height x y))).
Proof.
  intros Hvisit.
  rewrite (for_nested _ _ _ _ (fun dx dy acc => visit dy dx acc)).
  unfold Spec.window.
  replace (x - radius) with (x + - radius) by lia.
  replace (y - radius) with (y + - radius) by lia.
  rewrite <- !Z.add_assoc, <- grid_shift.
  generalize (grid (- radius) (radius + 1) (- radius) (radius + 1)) as offs.
  intros offs. unfold Spec.sum.
  enough (forall a n,
    foldl (fun s p => visit p.2 p.1 s) (a, n) offs
    = (foldl PrimFloat.add a
         (g <$> filter (λ p, in_bounds width height p.1 p.2 = true)
                       ((λ p, (x + p.1, y + p.2)) <$> offs)),
       n + Z.of_nat (length (filter (λ p, in_bounds width height p.1 p.2 = true)
                                    ((λ p, (x + p.1, y + p.2)) <$> offs))))) as H
    by (rewrite H; reflexivity).
  induction offs as [|[dx dy] offs IH]; intros a n.
  { cbn. f_equal. lia. }
  cbn [foldl fmap list_fmap fst snd]. rewrite Hvisit, filter_cons. cbn [fst snd].
  destruct (in_bounds width height (x + dx) (y + dy)) eqn:E.
  - rewrite decide_True by done. cbn [fmap list_fmap foldl length].
    rewrite IH. f_equal. lia.
  - rewrite decide_False by done. apply IH.
Qed.

Lemma ao_window_spec src width height x y :
  ao_window src width height x y (Spec.luma src width x y)
  = (Spec.sum ((λ p, abs (Spec.luma src width x y - Spec.luma src width p.1 p.2)%float)
                 <$> Spec.window 2 width height x y),
     Z.of_nat (length (Spec.window 2 width height x y))).
Proof.
  unfold ao_window.
  apply (window_loops 2 width height x y
           (λ p, abs (Spec.luma src width x y - Spec.luma src width p.1 p.2)%float)).
  intros dy dx acc. unfold ao_visit. reflexivity.
Qed.

Lemma roughness_window_spec src width height x y :
  roughness_window src width height x y
    (getPixel src width x y).1.1.1 (getPixel src width x y).1.1.2
    (getPixel src width x y).1.2
  = (Spec.sum ((λ p, Spec.delta src width x y p.1 p.2)
                 <$> Spec.window 1 width height x y),
     Z.of_nat (length (Spec.window 1 width height x y))).
Proof.
  unfold roughness_window.
  apply (window_loops 1 width height x y (λ p, Spec.delta src width x y p.1 p.2)).
  intros dy dx acc. unfold roughness_visit. reflexivity.
Qed.

(** ** The generators are [render] loops *)

Lemma generateAO_render src width height intensity :
  generateAO src width height intensity
  = render width height
      (fun x y => let v := aoValue src width height intensity x y in (v, v, v)).
Proof.
  unfold generateAO, render.
  rewrite (for_nested 0 width 0 height
             (fun x y dst => let v := aoValue src width height intensity x y in
                             setPixel dst width x y v v v 255)).
  reflexivity.
Qed.

Lemma generateRoughness_render src width height intensity :
  generateRoughness src width height intensity
  = render width height
      (fun x y => let v := roughnessValue src width height intensity x y in (v, v, v)).
Proof.
  unfold generateRoughness, render.
  rewrite (for_nested 0 width 0 height
             (fun x y dst => let v := roughnessValue src width height intensity x y in
                             setPixel dst width x y v v v 255)).
  reflexivity.
Qed.

Lemma generateMetallic_render src width height intensity :
  generateMetallic src width height intensity
  = render width height
      (fun x y => let v := metallicValue src width intensity x y in (v, v, v)).
Proof.
  unfold generateMetallic, render.
  rewrite (for_nested 0 width 0 height
             (fun x y dst => let v := metallicValue src width intensity x y in
                             setPixel dst width x y v v v 255)).
  reflexivity.
Qed.

Lemma aoValue_spec src width height intensity x y :
  aoValue src width height intensity x y = Spec.ao src width height intensity x y.
Proof.
  unfold aoValue, Spec.ao, Spec.contrast, Spec.mean.
  pose proof (ao_window_spec src width height x y) as Hw.
  unfold Spec.luma in *. unfold getPixel in *. cbv zeta in *.
  rewrite Hw, length_fmap. reflexivity.
Qed.

Lemma roughnessValue_spec src width height intensity x y :
  roughnessValue src width height intensity x y
  = Spec.roughness src width height intensity x y.
Proof.
  unfold roughnessValue, Spec.roughness, Spec.variance, Spec.mean.
  pose proof (roughness_window_spec src width height x y) as Hw.
  unfold Spec.luma in *. unfold getPixel in *. cbv zeta in *. cbn [fst snd] in Hw.
  rewrite Hw, length_fmap. reflexivity.
Qed.

Lemma ToUint8Clamp_255 : ToUint8Clamp 255 = 255.
Proof. reflexivity. Qed.

(** ** Well-formed pixel buffers *)

Lemma byte_cases (P : Z -> bool) :
  forallb P bytes = true -> forall b, byte b -> P b = true.
Proof.
  intros H b Hb. rewrite forallb_forall in H. apply H.
  apply list_elem_of_In, elem_of_seqZ. unfold byte in Hb. lia.
Qed.

Lemma byte_cases2 (P : Z -> Z -> bool) :
  forallb (fun a => forallb (P a) bytes) bytes = true ->
  forall a b, byte a -> byte b -> P a b = true.
Proof.
  intros H a b Ha Hb.
  apply (byte_cases (P a)); [|exact Hb].
  apply (byte_cases (fun a => forallb (P a) bytes)); [exact H | exact Ha].
Qed.

Lemma rd8_wf src width height x y c :
  wf_buffer src width height -> 0 <= x < width -> 0 <= y < height -> 0 <= c < 4 ->
  exists b, byte b /\ src !! Z.to_nat ((y * width + x) * 4 + c) = Some b
            /\ rd8 src ((y * width + x) * 4 + c) = Z2F b.
Proof.
  intros [Hlen Hall] Hx Hy Hc.
  pose proof (inside_index width height (x, y) (conj Hx Hy)) as [H0 H3]; cbn [fst snd] in *.
  destruct (lookup_lt_is_Some_2 src (Z.to_nat ((y * width + x) * 4 + c))) as [b Hb]; [lia|].
  exists b. split; [|split; [exact Hb|]].
  - rewrite Forall_forall in Hall. apply Hall. by eapply list_elem_of_lookup_2.
  - unfold rd8. destruct (Z.ltb_spec ((y * width + x) * 4 + c) 0); [lia|]. by rewrite Hb.
Qed.

Lemma Math_max_bytes a b : byte a -> byte b -> Math_max (Z2F a) (Z2F b) = Z2F (Z.max a b).
Proof.
  intros Ha Hb. apply Leibniz.eqb_spec.
  revert a b Ha Hb.
  apply (byte_cases2 (fun a b => Leibniz.eqb (Math_max (Z2F a) (Z2F b)) (Z2F (Z.max a b)))).
  vm_compute. reflexivity.
Qed.

Lemma Math_max3_bytes a b c :
  byte a -> byte b -> byte c ->
  Math_max3 (Z2F a) (Z2F b) (Z2F c) = Z2F (Z.max (Z.max a b) c).
Proof.
  intros Ha Hb Hc. unfold Math_max3.
  rewrite Math_max_bytes by assumption.
  apply Math_max_bytes; [unfold byte in *; lia | assumption].
Qed.

Lemma byte_zero_or_positive b :
  byte b -> (Z2F b =? 0)%float = negb (0 <? Z2F b)%float.
Proof.
  intros Hb. apply eqb_prop. revert b Hb.
  apply (byte_cases (fun b => Bool.eqb (Z2F b =? 0)%float (negb (0 <? Z2F b)%float))).
  vm_compute. reflexivity.
Qed.

Lemma metallicValue_spec src width height intensity x y :
  wf_buffer src width height -> 0 <= x < width -> 0 <= y < height ->
  metallicValue src width intensity x y = Spec.metallic src width intensity x y.
Proof.
  intros Hwf Hx Hy.
  unfold metallicValue, Spec.metallic, Spec.luma, Spec.saturation, getPixel.
  destruct (rd8_wf src width height x y 0 Hwf Hx Hy) as (r & Hr & _ & Er); [lia|].
  destruct (rd8_wf src width height x y 1 Hwf Hx Hy) as (g & Hg & _ & Eg); [lia|].
  destruct (rd8_wf src width height x y 2 Hwf Hx Hy) as (b & Hb & _ & Eb); [lia|].
  rewrite Z.add_0_r in Er. rewrite Er, Eg, Eb.
  rewrite Math_max3_bytes by assumption.
  rewrite byte_zero_or_positive by (unfold byte in *; lia).
  destruct (0 <? Z2F (Z.max (Z.max r g) b))%float; reflexivity.
Qed.

(** ** The height map and the gradient loops *)

Lemma length_wr32 d i v : length (wr32 d i v) = length d.
Proof. unfold wr32. destruct (i <? 0); [reflexivity | apply length_insert]. Qed.

Lemma rd32_wr32_eq d i v :
  0 <= i -> (Z.to_nat i < length d)%nat -> rd32 (wr32 d i v) i = fround v.
Proof.
  intros Hi Hlen. unfold rd32, wr32.
  destruct (Z.ltb_spec i 0); [lia|]. by rewrite list_lookup_insert_eq.
Qed.

Lemma rd32_wr32_ne d i j v :
  0 <= i -> 0 <= j -> i <> j -> rd32 (wr32 d i v) j = rd32 d j.
Proof.
  intros Hi Hj Hne. unfold rd32, wr32.
  destruct (Z.ltb_spec i 0), (Z.ltb_spec j 0); try lia.
  rewrite list_lookup_insert_ne by lia. reflexivity.
Qed.

Section Fill.
Variables (width height : Z) (g : Z * Z -> float).
Local Abbreviation fill := (fill width g).

Lemma length_foldl_fill ps hm : length (foldl fill hm ps) = length hm.
Proof.
  revert hm; induction ps as [|p ps IH]; intros hm; [reflexivity|].
  cbn [foldl]. unfold fill at 2. by rewrite IH, length_wr32.
Qed.

Lemma rd32_foldl_fill ps hm q :
  Forall (inside width height) ps -> inside width height q ->
  length hm = Z.to_nat (width * height) ->
  rd32 (foldl fill hm ps) (q.2 * width + q.1)
  = if decide (q ∈ ps) then fround (g q) else rd32 hm (q.2 * width + q.1).
Proof.
  intros Hps Hq. revert hm.
  induction Hps as [|p ps Hp Hps IH]; intros hm Hlen.
  { cbn [foldl]. rewrite decide_False; [reflexivity | apply not_elem_of_nil]. }
  cbn [foldl]. rewrite IH by (unfold fill; by rewrite length_wr32).
  pose proof (inside_index width height p Hp) as [? ?].
  pose proof (inside_index width height q Hq) as [? ?].
  destruct (decide (q ∈ ps)) as [Hin|Hnin].
  - rewrite decide_True; [reflexivity | rewrite elem_of_cons; tauto].
  - destruct (decide (q = p)) as [->|Hne].
    + rewrite decide_True by (rewrite elem_of_cons; tauto).
      unfold fill. apply rd32_wr32_eq; lia.
    + rewrite decide_False by (rewrite elem_of_cons; tauto).
      pose proof (inside_apart width height p q Hp Hq) as Hap.
      unfold fill. apply rd32_wr32_ne; try lia.
      destruct Hap as [?|?]; [congruence | lia | lia].
Qed.
End Fill.

Lemma buildHeightMap_spec src width height x y :
  0 <= x < width -> 0 <= y < height ->
  rd32 (buildHeightMap src width height) (y * width + x) = Spec.height src width x y.
Proof.
  intros Hx Hy. unfold buildHeightMap.
  rewrite (for_nested 0 width 0 height
             (fun x y hm => let '(r, g, b, _) := getPixel src width x y in
                            wr32 hm (y * width + x) (grayscale r g b / 255)%float)).
  pose proof (rd32_foldl_fill width height
                (fun p => (Spec.luma src width p.1 p.2 / 255)%float)
                (grid 0 width 0 height)
                (replicate (Z.to_nat (width * height)) 0%float) (x, y)) as H.
  cbn [fst snd] in H. unfold fill, Spec.luma, getPixel in H. unfold getPixel.
  rewrite H; [| | done | by rewrite length_replicate].
  - rewrite decide_True; [reflexivity|]. apply elem_of_grid. cbn. lia.
  - apply Forall_forall. intros p Hp. apply elem_of_grid in Hp. exact Hp.
Qed.

Lemma sobel_sums (tX tY : Z * Z -> float) (visit : Z -> Z -> float * float -> float * float) :
  (forall ky kx acc,
      visit ky kx acc = (PrimFloat.add acc.1 (tX (kx, ky)), PrimFloat.add acc.2 (tY (kx, ky)))) ->
  for_ (-1) 2 (fun ky acc => for_ (-1) 2 (fun kx acc => visit ky kx acc) acc)
       (0%float, 0%float)
  = (Spec.sum (tX <$> grid (-1) 2 (-1) 2), Spec.sum (tY <$> grid (-1) 2 (-1) 2)).
Proof.
  intros Hvisit.
  rewrite (for_nested _ _ _ _ (fun kx ky acc => visit ky kx acc)).
  unfold Spec.sum. generalize (grid (-1) 2 (-1) 2) as l. intros l.
  enough (forall a b,
    foldl (fun s p => visit p.2 p.1 s) (a, b) l
    = (foldl PrimFloat.add a (tX <$> l), foldl PrimFloat.add b (tY <$> l))) as H
    by apply H.
  induction l as [|[kx ky] l IH]; intros a b; [reflexivity|].
  cbn [foldl fmap list_fmap fst snd]. rewrite Hvisit. apply IH.
Qed.

Lemma sobel_spec src width height x y :
  0 <= x < width -> 0 <= y < height ->
  sobel (buildHeightMap src width height) width height x y
  = (Spec.gradient Spec.kernel_h src width height x y,
     Spec.gradient Spec.kernel_v src width height x y).
Proof.
  intros Hx Hy. unfold sobel, Spec.gradient.
  apply (sobel_sums
    (λ k, (Spec.height src width (clampZ (x + k.1) 0 (width - 1))
                                 (clampZ (y + k.2) 0 (height - 1))
           * kernel_at Spec.kernel_h (k.2 + 1) (k.1 + 1))%float)
    (λ k, (Spec.height src width (clampZ (x + k.1) 0 (width - 1))
                                 (clampZ (y + k.2) 0 (height - 1))
           * kernel_at Spec.kernel_v (k.2 + 1) (k.1 + 1))%float)).
  intros ky kx acc. unfold sobel_visit. cbn [fst snd].
  rewrite buildHeightMap_spec by (unfold clampZ; lia).
  reflexivity.
Qed.

Lemma normalValue_spec src width height strength x y :
  0 <= x < width -> 0 <= y < height ->
  normalValue (buildHeightMap src width height) width height strength x y
  = Spec.normal src width height strength x y.
Proof.
  intros Hx Hy. unfold normalValue, Spec.normal.
  rewrite sobel_spec by assumption. reflexivity.
Qed.

Lemma generateNormal_render src width height strength :
  generateNormal src width height strength
  = render width height
      (normalValue (buildHeightMap src width height) width height strength).
Proof.
  unfold generateNormal, render.
  rewrite (for_nested 0 width 0 height
             (fun x y dst =>
                let '(nx, ny, nz) :=
                  normalValue (buildHeightMap src width height) width height strength x y in
                setPixel dst width x y nx ny nz 255)).
  reflexivity.
Qed.

(** C2.  For every pixel, [generateNormal] builds the height field
    [luma / 255] (held in single precision), applies the horizontal kernel
    [[-1,0,1],[-2,0,2],[-1,0,1]] and the vertical kernel
    [[-1,-2,-1],[0,0,0],[1,2,1]] at edge-clamped coordinates to get [dx]
    and [dy], forms [(-dx * normalStrength, -dy * normalStrength, 1)],
    divides by [len = sqrt(nx² + ny² + nz²)] and stores the samples of
    [(v / len + 1) * 0.5 * 255] in R (x), G (y), B (z), with alpha 255. *)
Theorem generateNormal_pixel src width height normalStrength x y :
  0 <= x < width -> 0 <= y < height ->
  let out := generateNormal src width height normalStrength in
  let '(ex, ey, ez) := Spec.normal src width height normalStrength x y in
  stored out width x y 0 = Some (ToUint8Clamp ex) /\
  stored out width x y 1 = Some (ToUint8Clamp ey) /\
  stored out width x y 2 = Some (ToUint8Clamp ez) /\
  stored out width x y 3 = Some 255.
Proof.
  intros Hx Hy out. subst out.
  rewrite generateNormal_render, <- normalValue_spec by assumption.
  destruct (normalValue _ _ _ _ _ _) as [[ex ey] ez] eqn:E.
  repeat split; rewrite stored_render by lia; rewrite E; reflexivity.
Qed.

(** ** The canvas size and the promise *)

Section Promise.
Variable B : Browser.


End Promise.

Lemma generateNormal_pixel_witness :
  (0 <= 1 < 2 /\ 0 <= 1 < 2) /\
  stored (generateNormal
            [0; 0; 0; 255; 255; 255; 255; 255; 255; 255; 255; 255; 10; 200; 30; 255]
            2 2 1) 2 1 1 2 = Some 229.
Proof.
  split; [lia|].
  pose proof (generateNormal_pixel
                [0; 0; 0; 255; 255; 255; 255; 255; 255; 255; 255; 255; 10; 200; 30; 255]
                2 2 1 1 1) as H.
  cbv zeta in H.
  destruct (Spec.normal _ _ _ _ _ _) as [[ex ey] ez] eqn:E.
  destruct H as (_ & _ & H & _); [lia | lia |].
  rewrite H. vm_compute in E. injection E as _ _ <-. reflexivity.
Defined.

(** * Round to nearest, ties to even, on scaled integers *)

Module RoundingFacts.
Import Rounding.

Lemma rne_bounds j v : 0 <= j -> v / 2 ^ j <= rne j v <= v / 2 ^ j + 1.
Proof.
  intros Hj. unfold rne.
  destruct (2 * (v mod 2 ^ j) <? 2 ^ j); [lia|].
  destruct (2 ^ j <? 2 * (v mod 2 ^ j)); [lia|].
  destruct (Z.even (v / 2 ^ j)); lia.
Qed.

Lemma rne_exact j a : 0 <= j -> rne j (a * 2 ^ j) = a.
Proof.
  intros Hj. unfold rne.
  assert (0 < 2 ^ j) by (apply Z.pow_pos_nonneg; lia).
  rewrite Z.div_mul, Z.mod_mul by lia.
  destruct (Z.ltb_spec (2 * 0) (2 ^ j)); [reflexivity | lia].
Qed.

Lemma rne_mono j v1 v2 : 0 <= j -> v1 <= v2 -> rne j v1 <= rne j v2.
Proof.
  intros Hj Hv.
  assert (0 < 2 ^ j) as Hp by (apply Z.pow_pos_nonneg; lia).
  pose proof (Z.div_le_mono v1 v2 (2 ^ j) Hp Hv) as Hq.
  destruct (Z.eq_dec (v1 / 2 ^ j) (v2 / 2 ^ j)) as [Heq|Hne].
  - assert (v1 mod 2 ^ j <= v2 mod 2 ^ j) as Hr.
    { rewrite !Z.mod_eq by lia. rewrite Heq. lia. }
    unfold rne. rewrite Heq.
    destruct (Z.ltb_spec (2 * (v1 mod 2 ^ j)) (2 ^ j)),
             (Z.ltb_spec (2 * (v2 mod 2 ^ j)) (2 ^ j)),
             (Z.ltb_spec (2 ^ j) (2 * (v1 mod 2 ^ j))),
             (Z.ltb_spec (2 ^ j) (2 * (v2 mod 2 ^ j)));
      destruct (Z.even (v2 / 2 ^ j)); lia.
  - pose proof (rne_bounds j v1 Hj). pose proof (rne_bounds j v2 Hj). lia.
Qed.

Lemma rne_le j v a : 0 <= j -> v <= a * 2 ^ j -> rne j v <= a.
Proof. intros Hj H. rewrite <- (rne_exact j a Hj). by apply rne_mono. Qed.

Lemma rne_ge j v a : 0 <= j -> a * 2 ^ j <= v -> a <= rne j v.
Proof. intros Hj H. rewrite <- (rne_exact j a Hj). by apply rne_mono. Qed.

Lemma rne_shift j t m : 0 <= j -> 0 <= t -> rne (j + t) (m * 2 ^ t) = rne j m.
Proof.
  intros Hj Ht. unfold rne.
  assert (0 < 2 ^ j) by (apply Z.pow_pos_nonneg; lia).
  assert (0 < 2 ^ t) by (apply Z.pow_pos_nonneg; lia).
  rewrite Z.pow_add_r by lia.
  rewrite Z.div_mul_cancel_r by lia.
  rewrite Z.mul_mod_distr_r by lia.
  replace (2 * (m mod 2 ^ j * 2 ^ t)) with (2 * (m mod 2 ^ j) * 2 ^ t) by lia.
  replace (2 * (m mod 2 ^ j) * 2 ^ t <? 2 ^ j * 2 ^ t)
    with (2 * (m mod 2 ^ j) <? 2 ^ j).
  2:{ destruct (Z.ltb_spec (2 * (m mod 2 ^ j)) (2 ^ j)),
               (Z.ltb_spec (2 * (m mod 2 ^ j) * 2 ^ t) (2 ^ j * 2 ^ t)); try reflexivity; nia. }
  replace (2 ^ j * 2 ^ t <? 2 * (m mod 2 ^ j) * 2 ^ t)
    with (2 ^ j <? 2 * (m mod 2 ^ j)).
  2:{ destruct (Z.ltb_spec (2 ^ j) (2 * (m mod 2 ^ j))),
               (Z.ltb_spec (2 ^ j * 2 ^ t) (2 * (m mod 2 ^ j) * 2 ^ t)); try reflexivity; nia. }
  reflexivity.
Qed.

Section Format.
(** The unit [2^-K] is fine enough for the exact product of two binary64
    numbers. *)
Variable K : Z.
Hypothesis HK : 2148 <= K.
Local Abbreviation place := (place K).
Local Abbreviation round := (round K).
Local Abbreviation TOP := (TOP K).
Local Abbreviation rank := (rank K).
Local Abbreviation sround := (sround K).
Local Abbreviation cap := (cap K).
Local Abbreviation fl := (fl K).

Lemma place_nonneg v : 0 <= place v.
Proof. unfold place. lia. Qed.

Lemma digits_mono v1 v2 : v1 <= v2 -> digits v1 <= digits v2.
Proof. intros H. unfold digits. pose proof (Z.log2_le_mono v1 v2 H). lia. Qed.

Lemma place_mono v1 v2 : v1 <= v2 -> place v1 <= place v2.
Proof. intros H. unfold place. pose proof (digits_mono v1 v2 H). lia. Qed.

Lemma digits_bounds v : 0 < v -> 2 ^ (digits v - 1) <= v < 2 ^ digits v.
Proof.
  intros Hv. unfold digits. pose proof (Z.log2_spec v Hv).
  replace (Z.log2 v + 1 - 1) with (Z.log2 v) by lia.
  replace (Z.log2 v + 1) with (Z.succ (Z.log2 v)) by lia. lia.
Qed.

Lemma round_mono v1 v2 : 0 <= v1 -> v1 <= v2 -> round v1 <= round v2.
Proof.
  intros H0 Hle. unfold round.
  pose proof (place_nonneg v1) as Hp1. pose proof (place_nonneg v2) as Hp2.
  pose proof (place_mono v1 v2 Hle) as Hpl.
  destruct (Z.eq_dec (place v1) (place v2)) as [Heq|Hne].
  - rewrite Heq. apply Z.mul_le_mono_nonneg_r; [apply Z.pow_nonneg; lia|].
    by apply rne_mono.
  - assert (place v1 < place v2) as Hlt by lia.
    assert (0 < v2) as Hv2.
    { destruct (Z.eq_dec v2 0) as [->|]; [|lia].
      assert (v1 = 0) as -> by lia. lia. }
    assert (place v2 = digits v2 - 53) as Hj2 by (unfold place in *; lia).
    assert (digits v1 < digits v2) as Hd by (unfold place in *; lia).
    (* the threshold 2^(digits v2 - 1) separates the two *)
    set (j1 := place v1) in *. set (j2 := place v2) in *.
    assert (2 ^ (j2 + 52) <= v2) as Hlow.
    { pose proof (digits_bounds v2 Hv2). replace (j2 + 52) with (digits v2 - 1) by lia. lia. }
    assert (v1 <= 2 ^ (j2 + 52)) as Hup.
    { destruct (Z.eq_dec v1 0) as [->|]; [apply Z.pow_nonneg; lia|].
      pose proof (digits_bounds v1 ltac:(lia)) as [_ Hb].
      assert (2 ^ digits v1 <= 2 ^ (j2 + 52)) by (apply Z.pow_le_mono_r; lia). lia. }
    transitivity (2 ^ (j2 + 52)).
    + replace (2 ^ (j2 + 52)) with (2 ^ (j2 + 52 - j1) * 2 ^ j1)
        by (rewrite <- Z.pow_add_r by lia; f_equal; lia).
      apply Z.mul_le_mono_nonneg_r; [apply Z.pow_nonneg; lia|].
      apply rne_le; [lia|].
      rewrite <- Z.pow_add_r by lia. replace (j2 + 52 - j1 + j1) with (j2 + 52) by lia. lia.
    + replace (2 ^ (j2 + 52)) with (2 ^ 52 * 2 ^ j2)
        by (rewrite <- Z.pow_add_r by lia; f_equal; lia).
      apply Z.mul_le_mono_nonneg_r; [apply Z.pow_nonneg; lia|].
      apply rne_ge; [lia|].
      rewrite <- Z.pow_add_r by lia. replace (52 + j2) with (j2 + 52) by lia. lia.
Qed.

Lemma round_0 : round 0 = 0.
Proof.
  unfold round. pose proof (place_nonneg 0).
  replace 0 with (0 * 2 ^ place 0) at 2 by lia. rewrite rne_exact by lia. lia.
Qed.

Lemma round_nonneg v : 0 <= v -> 0 <= round v.
Proof. intros H. rewrite <- round_0. apply round_mono; lia. Qed.


(** *** The shift-and-round of [SpecFloat] *)

Lemma digits2_digits m : Zpos (digits2_pos m) = digits (Zpos m).
Proof.
  unfold digits. induction m as [m IH|m IH|]; cbn [digits2_pos].
  - rewrite Pos2Z.inj_succ, IH. destruct m; cbn; lia.
  - rewrite Pos2Z.inj_succ, IH. destruct m; cbn; lia.
  - reflexivity.
Qed.

Lemma dropped_0 m : dropped m 0 (shr_record_of_loc m loc_Exact).
Proof. unfold dropped. cbn. rewrite Z.div_1_r. auto. Qed.

Lemma shr_1_m mrs : 0 <= shr_m mrs -> shr_m (shr_1 mrs) = shr_m mrs / 2.
Proof.
  destruct mrs as [m r s]; cbn [shr_m]. intros Hm.
  destruct m as [|[p|p|]|p]; cbn [shr_1 shr_m]; try lia; try reflexivity.
  - rewrite Pos2Z.inj_xI. apply Z.div_unique with 1; lia.
  - rewrite Pos2Z.inj_xO. apply Z.div_unique with 0; lia.
Qed.

Lemma shr_1_r mrs : 0 <= shr_m mrs -> shr_r (shr_1 mrs) = Z.odd (shr_m mrs).
Proof.
  destruct mrs as [m r s]; cbn [shr_m]. intros Hm.
  destruct m as [|[p|p|]|p]; cbn [shr_1 shr_r]; try lia; reflexivity.
Qed.

Lemma shr_1_s mrs : shr_s (shr_1 mrs) = shr_r mrs || shr_s mrs.
Proof. destruct mrs as [m r s]. destruct m as [|[p|p|]|[p|p|]]; reflexivity. Qed.

Lemma dropped_step m n mrs :
  0 <= m -> 0 <= n -> dropped m n mrs -> dropped m (n + 1) (shr_1 mrs).
Proof.
  intros Hm Hn (Hq & Hr & Hs).
  assert (0 < 2 ^ n) as Hp by (apply Z.pow_pos_nonneg; lia).
  assert (0 <= shr_m mrs) as Hq0 by (rewrite Hq; apply Z.div_pos; lia).
  unfold dropped. rewrite shr_1_m, shr_1_r, shr_1_s by assumption.
  replace (n + 1 - 1) with n by lia.
  destruct (Z.eqb_spec (n + 1) 0); [lia|].
  split; [|split].
  - rewrite Hq, Z.pow_add_r, Z.pow_1_r by lia. apply Z.div_div; lia.
  - by rewrite Hq.
  - rewrite Hr, Hs. destruct (Z.eqb_spec n 0) as [->|Hn0].
    + rewrite Z.pow_0_r, Z.mod_1_r. reflexivity.
    + assert (0 < 2 ^ (n - 1)) as Hp1 by (apply Z.pow_pos_nonneg; lia).
      assert (2 ^ n = 2 * 2 ^ (n - 1)) as E2.
      { rewrite <- Z.pow_succ_r by lia. f_equal. lia. }
      (* m mod 2^n = bit * 2^(n-1) + m mod 2^(n-1) *)
      assert (m mod 2 ^ n = (m / 2 ^ (n - 1)) mod 2 * 2 ^ (n - 1) + m mod 2 ^ (n - 1)) as Em.
      { replace (2 ^ n) with (2 ^ (n - 1) * 2) by lia. rewrite Z.rem_mul_r by lia. lia. }
      rewrite Em. rewrite Zmod_odd.
      pose proof (Z.mod_pos_bound m (2 ^ (n - 1)) Hp1).
      destruct (Z.odd (m / 2 ^ (n - 1))); cbn [orb negb].
      * destruct (Z.eqb_spec (1 * 2 ^ (n - 1) + m mod 2 ^ (n - 1)) 0); [lia | reflexivity].
      * rewrite Z.mul_0_l, Z.add_0_l. reflexivity.
Qed.

Lemma dropped_iter m p : forall n mrs,
  0 <= m -> 0 <= n -> dropped m n mrs -> dropped m (n + Zpos p) (SpecFloat.iter_pos shr_1 p mrs).
Proof.
  induction p as [p IH|p IH|]; intros n mrs Hm Hn H; cbn [SpecFloat.iter_pos].
  - replace (n + Zpos p~1) with (n + 1 + Zpos p + Zpos p) by lia.
    apply IH; [lia | lia |]. apply IH; [lia | lia |]. by apply dropped_step.
  - replace (n + Zpos p~0) with (n + Zpos p + Zpos p) by lia.
    apply IH; [lia | lia |]. by apply IH.
  - by apply dropped_step.
Qed.

(** Rounding what is left gives [rne]. *)
Lemma dropped_round m n mrs :
  0 <= m -> 0 <= n -> dropped m n mrs ->
  round_nearest_even (shr_m mrs) (loc_of_shr_record mrs) = rne n m.
Proof.
  intros Hm Hn (Hq & Hr & Hs). destruct mrs as [q r s]; cbn [shr_m shr_r shr_s] in *.
  subst q. unfold rne.
  destruct (Z.eqb_spec n 0) as [->|Hn0].
  - subst r s. cbn [loc_of_shr_record round_nearest_even].
    rewrite Z.pow_0_r, Z.mod_1_r. reflexivity.
  - assert (0 < 2 ^ (n - 1)) as Hp1 by (apply Z.pow_pos_nonneg; lia).
    assert (2 ^ n = 2 * 2 ^ (n - 1)) as E2.
    { rewrite <- Z.pow_succ_r by lia. f_equal. lia. }
    assert (m mod 2 ^ n = (m / 2 ^ (n - 1)) mod 2 * 2 ^ (n - 1) + m mod 2 ^ (n - 1)) as Em.
    { replace (2 ^ n) with (2 ^ (n - 1) * 2) by lia. rewrite Z.rem_mul_r by lia. lia. }
    pose proof (Z.mod_pos_bound m (2 ^ (n - 1)) Hp1) as Hb.
    rewrite Zmod_odd in Em. rewrite Em, E2. subst r s.
    destruct (Z.odd (m / 2 ^ (n - 1))), (Z.eqb_spec (m mod 2 ^ (n - 1)) 0) as [E0|E0];
      cbn [negb loc_of_shr_record round_nearest_even].
    + destruct (Z.ltb_spec (2 * (1 * 2 ^ (n - 1) + m mod 2 ^ (n - 1))) (2 * 2 ^ (n - 1))); [lia|].
      destruct (Z.ltb_spec (2 * 2 ^ (n - 1)) (2 * (1 * 2 ^ (n - 1) + m mod 2 ^ (n - 1)))); [lia|].
      reflexivity.
    + destruct (Z.ltb_spec (2 * (1 * 2 ^ (n - 1) + m mod 2 ^ (n - 1))) (2 * 2 ^ (n - 1))); [lia|].
      destruct (Z.ltb_spec (2 * 2 ^ (n - 1)) (2 * (1 * 2 ^ (n - 1) + m mod 2 ^ (n - 1)))); [|lia].
      reflexivity.
    + destruct (Z.ltb_spec (2 * (0 * 2 ^ (n - 1) + m mod 2 ^ (n - 1))) (2 * 2 ^ (n - 1))); [|lia].
      reflexivity.
    + destruct (Z.ltb_spec (2 * (0 * 2 ^ (n - 1) + m mod 2 ^ (n - 1))) (2 * 2 ^ (n - 1))); [|lia].
      reflexivity.
Qed.


Lemma fexp_64 z : fexp prec emax z = Z.max (z - 53) (-1074).
Proof. reflexivity. Qed.

Lemma Zdigits2_digits m : 0 < m -> Zdigits2 m = digits m.
Proof. destruct m as [|p|p]; try lia. intros _. apply digits2_digits. Qed.

Lemma digits_le m n : 0 < m -> 0 <= n -> m < 2 ^ n -> digits m <= n.
Proof.
  intros Hm Hn H. unfold digits.
  assert (Z.log2 m < n) by (apply Z.log2_lt_pow2; lia). lia.
Qed.

Lemma digits_shift m t : 0 < m -> 0 <= t -> digits (m * 2 ^ t) = digits m + t.
Proof. intros Hm Ht. unfold digits. rewrite Z.log2_mul_pow2 by lia. lia. Qed.

Lemma shr_exact m e k :
  0 <= m -> 0 <= k ->
  exists mrs, shr (shr_record_of_loc m loc_Exact) e k = (mrs, e + k) /\ dropped m k mrs.
Proof.
  intros Hm Hk. destruct k as [|p|p]; [| |lia].
  - exists (shr_record_of_loc m loc_Exact). rewrite Z.add_0_r. split; [reflexivity | apply dropped_0].
  - exists (SpecFloat.iter_pos shr_1 p (shr_record_of_loc m loc_Exact)).
    split; [reflexivity|].
    apply (dropped_iter m p 0); [lia | lia | apply dropped_0].
Qed.

Lemma shr_fexp_small m e :
  0 <= m < 2 ^ 53 -> -1074 <= e ->
  shr_fexp prec emax m e loc_Exact = (shr_record_of_loc m loc_Exact, e).
Proof.
  intros Hm He. unfold shr_fexp. rewrite fexp_64.
  assert (Zdigits2 m <= 53) as Hd.
  { destruct (Z.eq_dec m 0) as [->|]; [cbn; lia|].
    rewrite Zdigits2_digits by lia. apply digits_le; lia. }
  assert (Z.max (Zdigits2 m + e - 53) (-1074) - e <= 0) as Hk by lia.
  destruct (Z.max (Zdigits2 m + e - 53) (-1074) - e) as [|p|p]; [reflexivity | lia | reflexivity].
Qed.

Lemma shr_fexp_carry e :
  -1074 <= e ->
  shr_fexp prec emax (2 ^ 53) e loc_Exact
  = ({| shr_m := 2 ^ 52; shr_r := false; shr_s := false |}, e + 1).
Proof.
  intros He. unfold shr_fexp. rewrite fexp_64.
  change (Zdigits2 (2 ^ 53)) with 54.
  replace (Z.max (54 + e - 53) (-1074) - e) with 1 by lia.
  reflexivity.
Qed.

Lemma round_scaled m e :
  0 < m -> 0 <= e + K -> e <= Z.max (digits m + e - 53) (-1074) ->
  round (m * 2 ^ (e + K))
  = rne (Z.max (digits m + e - 53) (-1074) - e) m
    * 2 ^ (Z.max (digits m + e - 53) (-1074) + K).
Proof.
  intros Hm He Hk. unfold round, place.
  rewrite digits_shift by lia.
  replace (Z.max (digits m + (e + K) - 53) (K - 1074))
    with (Z.max (digits m + e - 53) (-1074) + K) by lia.
  set (f := Z.max (digits m + e - 53) (-1074)) in *.
  replace (f + K) with ((f - e) + (e + K)) at 1 by lia.
  rewrite rne_shift by lia. reflexivity.
Qed.

(** Rounding an exact positive mantissa: the value of the result. *)
Lemma binary_round_aux_rank s m e :
  0 < m -> 0 <= e + K -> e <= fexp prec emax (digits m + e) ->
  let r := binary_round_aux prec emax s m e loc_Exact in
  is_number r = true /\
  rank r = cond_Zopp s (Z.min (round (m * 2 ^ (e + K))) TOP).
Proof.
  intros Hm He Hk r. rewrite fexp_64 in Hk.
  rewrite round_scaled by assumption.
  set (f := Z.max (digits m + e - 53) (-1074)) in *.
  assert (r = let '(mrs'', e'') := shr_fexp prec emax (rne (f - e) m) f loc_Exact in
              match shr_m mrs'' with
              | Z0 => S754_zero s
              | Zpos m0 => if e'' <=? emax - prec then S754_finite s m0 e''
                           else S754_infinity s
              | Zneg _ => S754_nan
              end) as Hr.
  { subst r. unfold binary_round_aux, shr_fexp at 1.
    rewrite Zdigits2_digits, fexp_64 by assumption. fold f.
    destruct (shr_exact m e (f - e)) as (mrs & -> & Hd); [lia | lia |].
    rewrite (dropped_round m (f - e) mrs) by (assumption || lia).
    replace (e + (f - e)) with f by lia. reflexivity. }
  rewrite Hr. clear Hr r.
  set (m1 := rne (f - e) m).
  pose proof (digits_bounds m Hm) as [Hlo Hhi].
  assert (0 < 2 ^ (f - e)) as Hpk by (apply Z.pow_pos_nonneg; lia).
  assert (0 <= m1 <= 2 ^ 53) as Hm1.
  { split.
    - apply rne_ge; lia.
    - apply rne_le; [lia|]. rewrite <- Z.pow_add_r by lia.
      assert (2 ^ digits m <= 2 ^ (53 + (f - e))) by (apply Z.pow_le_mono_r; lia). lia. }
  assert (f <= 971 -> m1 < 2 ^ 53 -> m1 * 2 ^ (f + K) < TOP) as Hsmall.
  { intros Hf Hlt. unfold TOP.
    assert (2 ^ (f + K) <= 2 ^ (971 + K)) by (apply Z.pow_le_mono_r; lia).
    assert (0 < 2 ^ (f + K)) by (apply Z.pow_pos_nonneg; lia).
    replace (2 ^ (1024 + K)) with (2 ^ 53 * 2 ^ (971 + K))
      by (rewrite <- Z.pow_add_r by lia; f_equal; lia).
    nia. }
  assert (971 < f -> TOP <= m1 * 2 ^ (f + K)) as Hbig.
  { intros Hf. unfold TOP.
    assert (2 ^ 52 <= m1) as H52.
    { apply rne_ge; [lia|]. rewrite <- Z.pow_add_r by lia.
      replace (52 + (f - e)) with (digits m - 1) by lia. lia. }
    assert (2 ^ (972 + K) <= 2 ^ (f + K)) by (apply Z.pow_le_mono_r; lia).
    assert (0 < 2 ^ (972 + K)) by (apply Z.pow_pos_nonneg; lia).
    replace (2 ^ (1024 + K)) with (2 ^ 52 * 2 ^ (972 + K))
      by (rewrite <- Z.pow_add_r by lia; f_equal; lia).
    nia. }
  destruct (Z.eq_dec m1 (2 ^ 53)) as [E53|N53].
  - rewrite E53, shr_fexp_carry by lia. cbn [shr_m].
    change (2 ^ 52) with (Zpos (2 ^ 52)%positive).
    assert (Zpos (2 ^ 52)%positive * 2 ^ (f + 1 + K) = 2 ^ 53 * 2 ^ (f + K)) as Ev.
    { change (Zpos (2 ^ 52)%positive) with (2 ^ 52).
      rewrite <- !Z.pow_add_r by lia. f_equal. lia. }
    destruct (Z.leb_spec (f + 1) (emax - prec)) as [Hle|Hgt];
      change (emax - prec) with 971 in *; cbn [is_number rank]; (split; [reflexivity|]); f_equal.
    + rewrite Ev. unfold TOP.
      assert (2 ^ 53 * 2 ^ (f + K) < 2 ^ (1024 + K)).
      { rewrite <- Z.pow_add_r by lia. apply Z.pow_lt_mono_r; lia. }
      lia.
    + unfold TOP.
      assert (2 ^ (1024 + K) <= 2 ^ 53 * 2 ^ (f + K)).
      { rewrite <- Z.pow_add_r by lia. apply Z.pow_le_mono_r; lia. }
      lia.
  - rewrite shr_fexp_small by lia.
    destruct m1 as [|p|p] eqn:Em1; [| |lia]; cbn [shr_record_of_loc shr_m].
    + cbn [is_number rank]. split; [reflexivity|].
      rewrite Z.mul_0_l. unfold TOP.
      assert (0 < 2 ^ (1024 + K)) by (apply Z.pow_pos_nonneg; lia).
      rewrite Z.min_l by lia. destruct s; reflexivity.
    + destruct (Z.leb_spec f (emax - prec)) as [Hle|Hgt];
        change (emax - prec) with 971 in *; cbn [is_number rank]; (split; [reflexivity|]); f_equal.
      * specialize (Hsmall Hle ltac:(lia)). lia.
      * specialize (Hbig Hgt). lia.
Qed.


(** *** Valid binary64 numbers and their order *)

Abbreviation valid := (SpecFloat.valid_binary prec emax).

Lemma valid_finite s m e :
  valid (S754_finite s m e) = true ->
  -1074 <= e <= 971 /\ e = Z.max (digits (Zpos m) + e - 53) (-1074) /\
  Zpos m < 2 ^ 53 /\ (-1074 < e -> 2 ^ 52 <= Zpos m).
Proof.
  cbn [valid_binary]. unfold bounded, canonical_mantissa.
  rewrite andb_true_iff, Z.eqb_eq, Z.leb_le, fexp_64, digits2_digits.
  change (emax - prec) with 971. intros [Hc He].
  pose proof (digits_bounds (Zpos m) ltac:(lia)) as [Hlo Hhi].
  repeat split; try lia.
  - assert (digits (Zpos m) <= 53) by lia.
    assert (2 ^ digits (Zpos m) <= 2 ^ 53) by (apply Z.pow_le_mono_r; lia). lia.
  - intros Hn. assert (digits (Zpos m) = 53) as E by lia.
    rewrite E in Hlo. exact Hlo.
Qed.

Lemma pow2_pos n : 0 <= n -> 0 < 2 ^ n.
Proof. intros. apply Z.pow_pos_nonneg; lia. Qed.

Lemma TOP_pos : 0 < TOP.
Proof. apply pow2_pos. lia. Qed.

Lemma finite_lt_TOP s m e :
  valid (S754_finite s m e) = true -> 0 < Zpos m * 2 ^ (e + K) < TOP.
Proof.
  intros Hv. apply valid_finite in Hv as (He & _ & Hm & _).
  pose proof (pow2_pos (e + K) ltac:(lia)).
  split; [lia|]. unfold TOP.
  replace (2 ^ (1024 + K)) with (2 ^ 53 * 2 ^ (971 + K))
    by (rewrite <- Z.pow_add_r by lia; f_equal; lia).
  assert (2 ^ (e + K) <= 2 ^ (971 + K)) by (apply Z.pow_le_mono_r; lia).
  nia.
Qed.

Lemma rank_bounds x : valid x = true -> - TOP <= rank x <= TOP.
Proof.
  intros Hv. pose proof TOP_pos.
  destruct x as [s|s| |s m e]; cbn [rank].
  - lia.
  - destruct s; cbn; lia.
  - lia.
  - pose proof (finite_lt_TOP s m e Hv). destruct s; cbn; lia.
Qed.

(** Canonical mantissas make the order of the exponents the order of the
    values. *)
Lemma finite_exponent_lt m1 e1 m2 e2 s1 s2 :
  valid (S754_finite s1 m1 e1) = true -> valid (S754_finite s2 m2 e2) = true ->
  e1 < e2 -> Zpos m1 * 2 ^ (e1 + K) < Zpos m2 * 2 ^ (e2 + K).
Proof.
  intros H1 H2 Hlt.
  apply valid_finite in H1 as (He1 & _ & Hm1 & _).
  apply valid_finite in H2 as (He2 & _ & _ & Hm2).
  specialize (Hm2 ltac:(lia)).
  pose proof (pow2_pos (e1 + K) ltac:(lia)).
  assert (2 ^ 53 * 2 ^ (e1 + K) <= 2 ^ 52 * 2 ^ (e2 + K)).
  { rewrite <- !Z.pow_add_r by lia. apply Z.pow_le_mono_r; lia. }
  pose proof (pow2_pos (e2 + K) ltac:(lia)).
  nia.
Qed.

Ltac order_by_rank :=
  cbn [cond_Zopp]; f_equal; symmetry;
  first [ apply Z.compare_eq_iff; lia
        | apply Z.compare_lt_iff; lia
        | apply Z.compare_gt_iff; lia ].

Lemma SFcompare_rank x y :
  valid x = true -> valid y = true -> is_number x = true -> is_number y = true ->
  SFcompare x y = Some (rank x ?= rank y).
Proof.
  intros Hx Hy Nx Ny. pose proof TOP_pos as HT.
  destruct x as [sx|sx| |sx mx ex], y as [sy|sy| |sy my ey]; try discriminate;
    cbn [SFcompare rank].
  - reflexivity.
  - destruct sy; order_by_rank.
  - pose proof (finite_lt_TOP sy my ey Hy). destruct sy; order_by_rank.
  - destruct sx; order_by_rank.
  - destruct sx, sy; order_by_rank.
  - pose proof (finite_lt_TOP sy my ey Hy). destruct sx, sy; order_by_rank.
  - pose proof (finite_lt_TOP sx mx ex Hx). destruct sx; order_by_rank.
  - pose proof (finite_lt_TOP sx mx ex Hx). destruct sx, sy; order_by_rank.
  - pose proof (finite_lt_TOP sx mx ex Hx) as Bx.
    pose proof (finite_lt_TOP sy my ey Hy) as By.
    pose proof (valid_finite _ _ _ Hx) as (Hex & _).
    pose proof (valid_finite _ _ _ Hy) as (Hey & _).
    assert (ex = ey -> (Zpos mx * 2 ^ (ex + K) ?= Zpos my * 2 ^ (ey + K)) = (mx ?= my)%positive)
      as Hsame.
    { intros ->. pose proof (pow2_pos (ey + K) ltac:(lia)).
      rewrite Pos2Z.inj_compare.
      destruct (Z.compare_spec (Zpos mx) (Zpos my)).
      - apply Z.compare_eq_iff. congruence.
      - apply Z.compare_lt_iff. nia.
      - apply Z.compare_gt_iff. nia. }
    destruct sx, sy; cbn [cond_Zopp]; f_equal.
    + destruct (Z.compare_spec ex ey) as [E|L|G].
      * rewrite Z.compare_opp, (Z.compare_antisym (Zpos mx * _)), (Hsame E).
        rewrite Pos.compare_cont_spec. destruct (mx ?= my)%positive; reflexivity.
      * pose proof (finite_exponent_lt mx ex my ey true true Hx Hy L).
        symmetry. apply Z.compare_gt_iff. lia.
      * pose proof (finite_exponent_lt my ey mx ex true true Hy Hx ltac:(lia)).
        symmetry. apply Z.compare_lt_iff. lia.
    + symmetry. apply Z.compare_lt_iff. lia.
    + symmetry. apply Z.compare_gt_iff. lia.
    + destruct (Z.compare_spec ex ey) as [E|L|G].
      * rewrite (Hsame E), Pos.compare_cont_spec. destruct (mx ?= my)%positive; reflexivity.
      * pose proof (finite_exponent_lt mx ex my ey false false Hx Hy L).
        symmetry. apply Z.compare_lt_iff. lia.
      * pose proof (finite_exponent_lt my ey mx ex false false Hy Hx ltac:(lia)).
        symmetry. apply Z.compare_gt_iff. lia.
Qed.

Lemma SFltb_rank x y :
  valid x = true -> valid y = true -> is_number x = true -> is_number y = true ->
  SFltb x y = (rank x <? rank y).
Proof.
  intros. unfold SFltb, Z.ltb. rewrite SFcompare_rank by assumption.
  destruct (rank x ?= rank y); reflexivity.
Qed.

Lemma SFleb_rank x y :
  valid x = true -> valid y = true -> is_number x = true -> is_number y = true ->
  SFleb x y = (rank x <=? rank y).
Proof.
  intros. unfold SFleb, Z.leb. rewrite SFcompare_rank by assumption.
  destruct (rank x ?= rank y); reflexivity.
Qed.

Lemma SFeqb_rank x y :
  valid x = true -> valid y = true -> is_number x = true -> is_number y = true ->
  SFeqb x y = (rank x =? rank y).
Proof.
  intros. unfold SFeqb. rewrite SFcompare_rank by assumption.
  destruct (Z.compare_spec (rank x) (rank y)), (Z.eqb_spec (rank x) (rank y));
    try reflexivity; lia.
Qed.


(** *** The nearest binary64 value *)

Lemma sround_mono v1 v2 : v1 <= v2 -> sround v1 <= sround v2.
Proof.
  intros H. unfold sround.
  destruct (Z.ltb_spec v1 0), (Z.ltb_spec v2 0); try lia.
  - enough (round (- v2) <= round (- v1)) by lia. apply round_mono; lia.
  - pose proof (round_nonneg (- v1)). pose proof (round_nonneg v2). lia.
  - apply round_mono; lia.
Qed.

Lemma cap_mono v1 v2 : v1 <= v2 -> cap v1 <= cap v2.
Proof. unfold cap. lia. Qed.

Lemma fl_mono v1 v2 : v1 <= v2 -> fl v1 <= fl v2.
Proof. intros. unfold fl. by apply cap_mono, sround_mono. Qed.

Lemma fl_0 : fl 0 = 0.
Proof. unfold fl, sround, cap. cbn [Z.ltb Z.compare]. rewrite round_0. pose proof TOP_pos. lia. Qed.

Lemma fl_signed s a :
  0 < a -> cond_Zopp s (Z.min (round a) TOP) = fl (cond_Zopp s a).
Proof.
  intros Ha. pose proof (round_nonneg a ltac:(lia)). pose proof TOP_pos.
  unfold fl, sround, cap. destruct s; cbn [cond_Zopp].
  - destruct (Z.ltb_spec (- a) 0); [|lia]. rewrite Z.opp_involutive. lia.
  - destruct (Z.ltb_spec a 0); lia.
Qed.

Lemma fl_opp v : fl (- v) = - fl v.
Proof.
  unfold fl, sround, cap. pose proof TOP_pos.
  destruct (Z.ltb_spec (- v) 0), (Z.ltb_spec v 0); rewrite ?Z.opp_involutive; try lia.
  assert (v = 0) as -> by lia. change (- 0) with 0. rewrite round_0. lia.
Qed.

(** A binary64 number is its own nearest binary64 number. *)
Lemma fl_rank x : valid x = true -> fl (rank x) = rank x.
Proof.
  intros Hv. pose proof TOP_pos.
  destruct x as [s|s| |s m e]; cbn [rank]; try apply fl_0.
  - assert (fl TOP = TOP) as HT.
    { unfold fl, sround, cap. destruct (Z.ltb_spec TOP 0); [lia|].
      assert (round TOP = TOP) as ->; [|lia].
      unfold round. pose proof (place_nonneg TOP).
      assert (place TOP <= 1024 + K).
      { unfold place, TOP, digits. rewrite Z.log2_pow2 by lia. lia. }
      set (p := place TOP) in *.
      assert (TOP = 2 ^ (1024 + K - p) * 2 ^ p) as E.
      { unfold TOP. rewrite <- Z.pow_add_r by lia. f_equal. lia. }
      transitivity (rne p (2 ^ (1024 + K - p) * 2 ^ p) * 2 ^ p);
        [f_equal; f_equal; exact E | rewrite rne_exact by lia; lia]. }
    destruct s; cbn [cond_Zopp]; [rewrite fl_opp|]; lia.
  - pose proof (finite_lt_TOP s m e Hv) as Hb.
    pose proof (valid_finite s m e Hv) as (He & Hc & _).
    rewrite <- fl_signed by lia.
    rewrite round_scaled by lia. rewrite <- Hc.
    replace (e - e) with 0 by lia.
    replace (rne 0 (Zpos m)) with (Zpos m).
    2:{ symmetry. rewrite <- (Z.mul_1_r (Zpos m)) at 1.
        change 1 with (2 ^ 0) at 1. apply rne_exact. lia. }
    f_equal. lia.
Qed.

(** *** Multiplication *)

Lemma digits_mul a b : 0 < a -> 0 < b -> digits a + digits b - 1 <= digits (a * b).
Proof.
  intros Ha Hb.
  pose proof (digits_bounds a Ha) as [La _]. pose proof (digits_bounds b Hb) as [Lb _].
  assert (0 <= digits a - 1) by (unfold digits; pose proof (Z.log2_nonneg a); lia).
  assert (0 <= digits b - 1) by (unfold digits; pose proof (Z.log2_nonneg b); lia).
  assert (2 ^ (digits a - 1 + (digits b - 1)) <= a * b).
  { rewrite Z.pow_add_r by lia.
    pose proof (pow2_pos (digits a - 1) ltac:(lia)).
    pose proof (pow2_pos (digits b - 1) ltac:(lia)). nia. }
  assert (digits a - 1 + (digits b - 1) <= Z.log2 (a * b)).
  { apply Z.log2_le_pow2; [nia | assumption]. }
  unfold digits in *. lia.
Qed.

Lemma SFmul_rank x y :
  valid x = true -> valid y = true ->
  finite_or_zero x = true -> finite_or_zero y = true ->
  is_number (SF64mul x y) = true /\
  rank (SF64mul x y) = fl (rank x * rank y / 2 ^ K).
Proof.
  intros Hx Hy Fx Fy. pose proof (pow2_pos K ltac:(lia)) as HpK.
  destruct x as [sx|sx| |sx mx ex], y as [sy|sy| |sy my ey]; try discriminate;
    unfold SF64mul; cbn [SFmul rank is_number];
    rewrite ?Z.mul_0_l, ?Z.mul_0_r, ?Z.div_0_l, ?fl_0 by lia; try (split; reflexivity).
  pose proof (valid_finite sx mx ex Hx) as (Hex & Hcx & Hmx & Hnx).
  pose proof (valid_finite sy my ey Hy) as (Hey & Hcy & Hmy & Hny).
  pose proof (digits_mul (Zpos mx) (Zpos my) ltac:(lia) ltac:(lia)) as Hd.
  pose proof (digits_bounds (Zpos mx) ltac:(lia)) as [_ Hux].
  pose proof (digits_bounds (Zpos my) ltac:(lia)) as [_ Huy].
  assert (0 < digits (Zpos mx)) by (unfold digits; pose proof (Z.log2_nonneg (Zpos mx)); lia).
  assert (0 < digits (Zpos my)) by (unfold digits; pose proof (Z.log2_nonneg (Zpos my)); lia).
  rewrite Pos2Z.inj_mul.
  destruct (binary_round_aux_rank (xorb sx sy) (Zpos mx * Zpos my) (ex + ey))
    as [Hn Hr]; [lia | lia | rewrite fexp_64; lia |].
  split; [exact Hn|]. rewrite Hr, fl_signed by (apply Z.mul_pos_pos; [lia | apply pow2_pos; lia]).
  f_equal.
  assert (Zpos mx * 2 ^ (ex + K) * (Zpos my * 2 ^ (ey + K))
          = Zpos mx * Zpos my * 2 ^ (ex + ey + K) * 2 ^ K) as E.
  { assert (2 ^ (ex + K) * 2 ^ (ey + K) = 2 ^ (ex + ey + K) * 2 ^ K) as P
      by (rewrite <- !Z.pow_add_r by lia; f_equal; lia).
    transitivity (Zpos mx * Zpos my * (2 ^ (ex + K) * 2 ^ (ey + K))); [ring|].
    rewrite P. ring. }
  set (V := Zpos mx * Zpos my * 2 ^ (ex + ey + K)) in *.
  replace (cond_Zopp sx (Zpos mx * 2 ^ (ex + K)) * cond_Zopp sy (Zpos my * 2 ^ (ey + K)))
    with (cond_Zopp (xorb sx sy) V * 2 ^ K)
    by (destruct sx, sy; cbn [xorb cond_Zopp]; lia).
  rewrite Z.div_mul by lia. reflexivity.
Qed.


(** *** Addition and subtraction *)

Lemma iter_xO m d : Zpos (Pos.iter xO m d) = Zpos m * 2 ^ Zpos d.
Proof.
  induction d as [|d IH] using Pos.peano_ind.
  - cbn [Pos.iter]. rewrite Pos2Z.inj_xO. lia.
  - rewrite Pos.iter_succ, Pos2Z.inj_xO, IH, Pos2Z.inj_succ, Z.pow_succ_r by lia. lia.
Qed.

Lemma shl_align_spec m e e' :
  0 <= e + K -> 0 <= e' + K ->
  Zpos (shl_align m e e').1 * 2 ^ ((shl_align m e e').2 + K) = Zpos m * 2 ^ (e + K)
  /\ (shl_align m e e').2 = Z.min e e'
  /\ Zpos (shl_align m e e').1 = Zpos m * 2 ^ (e - Z.min e e').
Proof.
  intros He He'. unfold shl_align.
  destruct (e' - e) as [|d|d] eqn:Ed; cbn [fst snd].
  - replace (Z.min e e') with e by lia. rewrite Z.sub_diag. lia.
  - replace (Z.min e e') with e by lia. rewrite Z.sub_diag. lia.
  - replace (Z.min e e') with e' by lia. rewrite iter_xO.
    assert (e - e' = Zpos d) as <- by lia.
    split; [|split; reflexivity].
    rewrite <- Z.mul_assoc, <- Z.pow_add_r by lia. do 2 f_equal. lia.
Qed.

Lemma binary_round_rank s m e :
  0 <= e + K ->
  is_number (binary_round prec emax s m e) = true /\
  rank (binary_round prec emax s m e) = fl (cond_Zopp s (Zpos m * 2 ^ (e + K))).
Proof.
  intros He. unfold binary_round. rewrite fexp_64, digits2_digits.
  set (f := Z.max (digits (Zpos m) + e - 53) (-1074)).
  destruct (shl_align_spec m e f He ltac:(lia)) as (Hv & He' & Hm').
  destruct (shl_align m e f) as [m' e'] eqn:Es; cbn [fst snd] in *.
  assert (digits (Zpos m') + e' = digits (Zpos m) + e) as Hd.
  { rewrite Hm', digits_shift by lia. lia. }
  destruct (binary_round_aux_rank s (Zpos m') e') as [Hn Hr];
    [lia | lia | rewrite fexp_64, Hd; fold f; lia |].
  split; [exact Hn|].
  rewrite Hr, Hv. apply fl_signed.
  apply Z.mul_pos_pos; [lia | apply pow2_pos; lia].
Qed.

Lemma binary_normalize_rank m e sz :
  0 <= e + K ->
  is_number (binary_normalize prec emax m e sz) = true /\
  rank (binary_normalize prec emax m e sz) = fl (m * 2 ^ (e + K)).
Proof.
  intros He. destruct m as [|p|p]; cbn [binary_normalize].
  - cbn [rank is_number]. rewrite Z.mul_0_l, fl_0. auto.
  - apply (binary_round_rank false p e He).
  - destruct (binary_round_rank true p e He) as [Hn Hr]. split; [exact Hn|].
    rewrite Hr. cbn [cond_Zopp]. f_equal. lia.
Qed.

Lemma aligned_rank s m e e' :
  0 <= e + K -> 0 <= e' + K ->
  cond_Zopp s (Zpos (shl_align m e (Z.min e e')).1) * 2 ^ (Z.min e e' + K)
  = cond_Zopp s (Zpos m * 2 ^ (e + K)).
Proof.
  intros He He'.
  destruct (shl_align_spec m e (Z.min e e') He ltac:(lia)) as (Hv & Hs & _).
  replace (Z.min e (Z.min e e')) with (Z.min e e') in Hs by lia.
  rewrite Hs in Hv. destruct s; cbn [cond_Zopp]; lia.
Qed.

Lemma SFsub_rank x y :
  valid x = true -> valid y = true ->
  finite_or_zero x = true -> finite_or_zero y = true ->
  is_number (SF64sub x y) = true /\
  rank (SF64sub x y) = fl (rank x - rank y).
Proof.
  intros Hx Hy Fx Fy.
  destruct x as [sx|sx| |sx mx ex], y as [sy|sy| |sy my ey]; try discriminate;
    unfold SF64sub; cbn [SFsub].
  - replace (rank (S754_zero sx) - rank (S754_zero sy)) with 0 by reflexivity.
    rewrite fl_0. destruct sx, sy; auto.
  - cbn [is_number]. split; [reflexivity|].
    replace (rank (S754_zero sx) - rank (S754_finite sy my ey))
      with (rank (S754_finite (negb sy) my ey))
      by (cbn [rank]; destruct sy; cbn [negb cond_Zopp]; lia).
    symmetry. apply fl_rank. exact Hy.
  - split; [reflexivity|].
    replace (rank (S754_finite sx mx ex) - rank (S754_zero sy))
      with (rank (S754_finite sx mx ex)) by (cbn [rank]; lia).
    symmetry. apply fl_rank. exact Hx.
  - pose proof (valid_finite sx mx ex Hx) as (Hex & _).
    pose proof (valid_finite sy my ey Hy) as (Hey & _).
    destruct (binary_normalize_rank
                (cond_Zopp sx (Zpos (shl_align mx ex (Z.min ex ey)).1)
                 - cond_Zopp sy (Zpos (shl_align my ey (Z.min ex ey)).1))
                (Z.min ex ey) false ltac:(lia)) as [Hn Hr].
    split; [exact Hn|]. rewrite Hr. f_equal.
    rewrite Z.mul_sub_distr_r.
    rewrite (aligned_rank sx mx ex ey) by lia.
    rewrite (Z.min_comm ex ey), (aligned_rank sy my ey ex) by lia.
    reflexivity.
Qed.

Lemma SFadd_rank x y :
  valid x = true -> valid y = true ->
  finite_or_zero x = true -> finite_or_zero y = true ->
  is_number (SF64add x y) = true /\
  rank (SF64add x y) = fl (rank x + rank y).
Proof.
  intros Hx Hy Fx Fy.
  destruct x as [sx|sx| |sx mx ex], y as [sy|sy| |sy my ey]; try discriminate;
    unfold SF64add; cbn [SFadd].
  - replace (rank (S754_zero sx) + rank (S754_zero sy)) with 0 by reflexivity.
    rewrite fl_0. destruct sx, sy; auto.
  - split; [reflexivity|].
    replace (rank (S754_zero sx) + rank (S754_finite sy my ey))
      with (rank (S754_finite sy my ey)) by (cbn [rank]; lia).
    symmetry. apply fl_rank. exact Hy.
  - split; [reflexivity|].
    replace (rank (S754_finite sx mx ex) + rank (S754_zero sy))
      with (rank (S754_finite sx mx ex)) by (cbn [rank]; lia).
    symmetry. apply fl_rank. exact Hx.
  - pose proof (valid_finite sx mx ex Hx) as (Hex & _).
    pose proof (valid_finite sy my ey Hy) as (Hey & _).
    destruct (binary_normalize_rank
                (cond_Zopp sx (Zpos (shl_align mx ex (Z.min ex ey)).1)
                 + cond_Zopp sy (Zpos (shl_align my ey (Z.min ex ey)).1))
                (Z.min ex ey) false ltac:(lia)) as [Hn Hr].
    split; [exact Hn|]. rewrite Hr. f_equal.
    rewrite Z.mul_add_distr_r.
    rewrite (aligned_rank sx mx ex ey) by lia.
    rewrite (Z.min_comm ex ey), (aligned_rank sy my ey ex) by lia.
    reflexivity.
Qed.

(** *** Rounding never falls below a representable power of two *)

Lemma div_pow2_pow2 a n m : 0 <= n -> 0 <= m -> a / 2 ^ n / 2 ^ m = a / 2 ^ (n + m).
Proof.
  intros Hn Hm. pose proof (pow2_pos n Hn). pose proof (pow2_pos m Hm).
  rewrite Z.pow_add_r by lia. apply Z.div_div; lia.
Qed.

Lemma shr_m_iter p : forall mrs,
  0 <= shr_m mrs -> shr_m (SpecFloat.iter_pos shr_1 p mrs) = shr_m mrs / 2 ^ Zpos p.
Proof.
  assert (forall mrs, 0 <= shr_m mrs -> 0 <= shr_m (shr_1 mrs)) as Hnn.
  { intros mrs H. rewrite shr_1_m by assumption. apply Z.div_pos; lia. }
  induction p as [p IH|p IH|]; intros mrs Hm; cbn [SpecFloat.iter_pos].
  - assert (0 <= shr_m (SpecFloat.iter_pos shr_1 p (shr_1 mrs))) as H1.
    { rewrite IH by auto. apply Z.div_pos; [auto | apply pow2_pos; lia]. }
    rewrite IH, IH, shr_1_m by auto.
    change 2 with (2 ^ 1) at 1. rewrite !div_pow2_pow2 by lia.
    f_equal. f_equal. lia.
  - assert (0 <= shr_m (SpecFloat.iter_pos shr_1 p mrs)) as H1.
    { rewrite IH by auto. apply Z.div_pos; [auto | apply pow2_pos; lia]. }
    rewrite IH, IH by auto. rewrite div_pow2_pow2 by lia.
    f_equal. f_equal. lia.
  - rewrite shr_1_m by assumption. reflexivity.
Qed.

Lemma shr_floor mrs e k :
  0 <= shr_m mrs ->
  shr_m (shr mrs e k).1 = shr_m mrs / 2 ^ Z.max k 0 /\ (shr mrs e k).2 = e + Z.max k 0.
Proof.
  intros Hm. destruct k as [|p|p]; cbn [shr fst snd Z.max Z.compare].
  - rewrite Z.div_1_r. lia.
  - split; [by apply shr_m_iter | reflexivity].
  - rewrite Z.div_1_r. lia.
Qed.

Lemma shr_m_of_loc m l : shr_m (shr_record_of_loc m l) = m.
Proof. destruct l as [|[| |]]; reflexivity. Qed.

Lemma round_nearest_even_ge m l : m <= round_nearest_even m l.
Proof. destruct l as [|[| |]]; cbn [round_nearest_even]; try lia. destruct (Z.even m); lia. Qed.

(** Dropping the bits below the rounding place of [m * 2^e] keeps the
    value above a power of two [2^t] it was above. *)
Lemma floor_keeps m e t :
  0 < m -> 0 <= e + K -> -1074 <= t -> 2 ^ (t + K) <= m * 2 ^ (e + K) ->
  let k := Z.max (Z.max (digits m + e - 53) (-1074) - e) 0 in
  2 ^ (t + K) <= m / 2 ^ k * 2 ^ (e + k + K).
Proof.
  intros Hm He Ht Hle k.
  pose proof (digits_bounds m Hm) as [Hlo Hhi].
  assert (0 < digits m) by (unfold digits; pose proof (Z.log2_nonneg m); lia).
  pose proof (pow2_pos k ltac:(lia)) as Hpk.
  destruct (Z.le_gt_cases (e + k) t) as [Hs|Hs].
  - (* 2^t is a multiple of 2^(e+k) *)
    assert (2 ^ (t - (e + k)) <= m / 2 ^ k) as Hq.
    { apply Z.div_le_lower_bound; [lia|].
      rewrite Z.mul_comm, <- Z.pow_add_r by lia.
      replace (t - (e + k) + k) with (t - e) by lia.
      assert (2 ^ (t - e) * 2 ^ (e + K) <= m * 2 ^ (e + K)) as H2.
      { rewrite <- Z.pow_add_r by lia. replace (t - e + (e + K)) with (t + K) by lia. lia. }
      pose proof (pow2_pos (e + K) He). nia. }
    replace (2 ^ (t + K)) with (2 ^ (t - (e + k)) * 2 ^ (e + k + K))
      by (rewrite <- Z.pow_add_r by lia; f_equal; lia).
    apply Z.mul_le_mono_nonneg_r; [apply Z.pow_nonneg; lia | exact Hq].
  - (* the leading bit stays *)
    destruct (Z.eq_dec k 0) as [E0|N0].
    { rewrite E0, Z.pow_0_r, Z.div_1_r, Z.add_0_r. exact Hle. }
    assert (k = digits m - 53) as Ek by (subst k; lia).
    assert (2 ^ 52 <= m / 2 ^ k) as Hq.
    { apply Z.div_le_lower_bound; [lia|].
      rewrite Z.mul_comm, <- Z.pow_add_r by lia.
      replace (52 + k) with (digits m - 1) by lia. lia. }
    assert (2 ^ (t + K) <= 2 ^ 52 * 2 ^ (e + k + K)).
    { rewrite <- Z.pow_add_r by lia. apply Z.pow_le_mono_r; lia. }
    pose proof (pow2_pos (e + k + K) ltac:(lia)). nia.
Qed.

Lemma binary_round_aux_ge m e l t :
  0 < m -> 0 <= e + K -> -1074 <= t <= 1024 -> 2 ^ (t + K) <= m * 2 ^ (e + K) ->
  let r := binary_round_aux prec emax false m e l in
  is_number r = true /\ 2 ^ (t + K) <= rank r.
Proof.
  intros Hm He Ht Hle r. subst r. unfold binary_round_aux, shr_fexp.
  rewrite !fexp_64, (Zdigits2_digits m Hm).
  (* first shift *)
  pose proof (shr_floor (shr_record_of_loc m l) e
                (Z.max (digits m + e - 53) (-1074) - e)) as [Hm1 He1];
    [rewrite shr_m_of_loc; lia|].
  rewrite shr_m_of_loc in Hm1.
  pose proof (floor_keeps m e t Hm He ltac:(lia) Hle) as Hk1. cbv zeta in Hk1.
  set (k1 := Z.max (Z.max (digits m + e - 53) (-1074) - e) 0) in *.
  destruct (shr (shr_record_of_loc m l) e (Z.max (digits m + e - 53) (-1074) - e))
    as [mrs1 e1]; cbn [fst snd] in Hm1, He1. subst e1.
  set (m1 := round_nearest_even (shr_m mrs1) (loc_of_shr_record mrs1)).
  assert (m / 2 ^ k1 <= m1) as Hge1 by (subst m1; rewrite <- Hm1; apply round_nearest_even_ge).
  pose proof (pow2_pos (t + K) ltac:(lia)) as Hpt.
  pose proof (pow2_pos (e + k1 + K) ltac:(lia)) as Hp1.
  assert (2 ^ (t + K) <= m1 * 2 ^ (e + k1 + K)) as Hv1 by nia.
  assert (0 < m1) as Hm1pos by nia.
  (* second shift *)
  rewrite (Zdigits2_digits m1 Hm1pos), ?fexp_64.
  pose proof (shr_floor (shr_record_of_loc m1 loc_Exact) (e + k1)
                (Z.max (digits m1 + (e + k1) - 53) (-1074) - (e + k1))) as [Hm2 He2];
    [cbn; lia|].
  rewrite shr_m_of_loc in Hm2.
  pose proof (floor_keeps m1 (e + k1) t Hm1pos ltac:(lia) ltac:(lia) Hv1) as Hk2.
  cbv zeta in Hk2.
  set (k2 := Z.max (Z.max (digits m1 + (e + k1) - 53) (-1074) - (e + k1)) 0) in *.
  destruct (shr (shr_record_of_loc m1 loc_Exact) (e + k1)
              (Z.max (digits m1 + (e + k1) - 53) (-1074) - (e + k1)))
    as [mrs2 e2]; cbn [fst snd] in Hm2, He2. subst e2.
  rewrite Hm2.
  pose proof (pow2_pos (e + k1 + k2 + K) ltac:(lia)) as Hp2.
  destruct (m1 / 2 ^ k2) as [|p|p] eqn:Eq; [lia| |lia].
  destruct (Z.leb_spec (e + k1 + k2) (emax - prec)); cbn [is_number rank cond_Zopp].
  - split; [reflexivity | lia].
  - split; [reflexivity|]. unfold TOP. apply Z.pow_le_mono_r; lia.
Qed.

(** *** The square root of a number that is at least 1 *)

Lemma SFsqrt_ge_1 x :
  valid x = true -> is_number x = true -> 2 ^ K <= rank x ->
  is_number (SF64sqrt x) = true /\ 2 ^ K <= rank (SF64sqrt x).
Proof.
  intros Hv Hn Hx. pose proof (pow2_pos K ltac:(lia)) as HpK.
  destruct x as [s|s| |s m e]; try discriminate; cbn [rank] in Hx; [lia| |].
  - destruct s; cbn [cond_Zopp] in Hx.
    + pose proof TOP_pos. lia.
    + unfold SF64sqrt. cbn [SFsqrt is_number rank cond_Zopp]. auto.
  - pose proof (valid_finite s m e Hv) as (He & _).
    pose proof (pow2_pos (e + K) ltac:(lia)) as Hpe.
    destruct s; cbn [cond_Zopp] in Hx; [lia|].
    unfold SF64sqrt. cbn [SFsqrt]. unfold SFsqrt_core_binary.
    rewrite fexp_64.
    set (e' := Z.min (Z.max (Z.div2 (Zdigits2 (Zpos m) + e + 1) - 53) (-1074)) (Z.div2 e)).
    assert (2 * Z.div2 e <= e) as Hd2 by (rewrite Z.div2_div; apply Z.mul_div_le; lia).
    assert (e - 1 <= 2 * Z.div2 e) as Hd2'.
    { rewrite Z.div2_div. pose proof (Z.mod_pos_bound e 2 ltac:(lia)).
      pose proof (Z.div_mod e 2 ltac:(lia)). lia. }
    assert (-1074 <= e' /\ 2 * e' <= e) as [He'lo He'hi] by (subst e'; lia).
    set (m' := match e - 2 * e' with
               | Zpos _ => Z.shiftl (Zpos m) (e - 2 * e')
               | Z0 => Zpos m
               | Zneg _ => 0
               end).
    assert (m' = Zpos m * 2 ^ (e - 2 * e')) as Em'.
    { subst m'. destruct (e - 2 * e') as [|p|p] eqn:Es; [lia| |lia].
      rewrite Z.shiftl_mul_pow2 by lia. reflexivity. }
    pose proof (Z.sqrtrem_sqrt m') as Hsq.
    destruct (Z.sqrtrem m') as [q r] eqn:Eqr. cbn [fst] in Hsq. subst q.
    pose proof (pow2_pos (e - 2 * e') ltac:(lia)) as Hps.
    (* the integer square root is at least 2^(-e') *)
    assert (0 < Z.sqrt m' /\ 2 ^ K <= Z.sqrt m' * 2 ^ (e' + K)) as [Hq0 Hq].
    { destruct (Z.le_gt_cases 0 e') as [Hpos|Hneg].
      - assert (1 <= Z.sqrt m') as H1.
        { change 1 with (Z.sqrt 1). apply Z.sqrt_le_mono. nia. }
        split; [lia|].
        assert (2 ^ K <= 2 ^ (e' + K)) by (apply Z.pow_le_mono_r; lia). nia.
      - assert (2 ^ (- e') <= Z.sqrt m') as H1.
        { rewrite <- (Z.sqrt_square (2 ^ (- e'))) by (apply Z.pow_nonneg; lia).
          apply Z.sqrt_le_mono. rewrite <- Z.pow_add_r by lia. rewrite Em'.
          (* m * 2^e >= 1 *)
          assert (2 ^ (- e' + - e') * 2 ^ (2 * e' + K) <= Zpos m * 2 ^ (e - 2 * e') * 2 ^ (2 * e' + K)).
          { rewrite <- Z.mul_assoc, <- !Z.pow_add_r by lia.
            replace (- e' + - e' + (2 * e' + K)) with K by lia.
            replace (e - 2 * e' + (2 * e' + K)) with (e + K) by lia. exact Hx. }
          pose proof (pow2_pos (2 * e' + K) ltac:(lia)). nia. }
        pose proof (pow2_pos (- e') ltac:(lia)).
        split; [lia|].
        replace (2 ^ K) with (2 ^ (- e') * 2 ^ (e' + K))
          by (rewrite <- Z.pow_add_r by lia; f_equal; lia).
        apply Z.mul_le_mono_nonneg_r; [apply Z.pow_nonneg; lia | exact H1]. }
    apply (binary_round_aux_ge (Z.sqrt m') e' _ 0); [lia | lia | lia |].
    rewrite Z.add_0_l. exact Hq.
Qed.


(** *** Faithful rounding of an inexact mantissa *)

Lemma round_nearest_even_le m l : round_nearest_even m l <= m + 1.
Proof. destruct l as [|[| |]]; cbn [round_nearest_even]; try lia. destruct (Z.even m); lia. Qed.

(** The second stage of [binary_round_aux]: a mantissa of at most 53
    bits, or [2^53], at a representable exponent. *)
Lemma finish_rank s m1 f :
  0 <= m1 <= 2 ^ 53 -> -1074 <= f -> (971 < f -> 2 ^ 52 <= m1) ->
  let r := (let '(mrs'', e'') := shr_fexp prec emax m1 f loc_Exact in
            match shr_m mrs'' with
            | Z0 => S754_zero s
            | Zpos m0 => if e'' <=? emax - prec then S754_finite s m0 e''
                         else S754_infinity s
            | Zneg _ => S754_nan
            end) in
  is_number r = true /\ rank r = cond_Zopp s (Z.min (m1 * 2 ^ (f + K)) TOP).
Proof.
  intros Hm1 Hf H52 r. subst r.
  assert (f <= 971 -> m1 < 2 ^ 53 -> m1 * 2 ^ (f + K) < TOP) as Hsmall.
  { intros Hf' Hlt. unfold TOP.
    assert (2 ^ (f + K) <= 2 ^ (971 + K)) by (apply Z.pow_le_mono_r; lia).
    assert (0 < 2 ^ (f + K)) by (apply Z.pow_pos_nonneg; lia).
    replace (2 ^ (1024 + K)) with (2 ^ 53 * 2 ^ (971 + K))
      by (rewrite <- Z.pow_add_r by lia; f_equal; lia).
    nia. }
  assert (971 < f -> TOP <= m1 * 2 ^ (f + K)) as Hbig.
  { intros Hf'. specialize (H52 Hf'). unfold TOP.
    assert (2 ^ (972 + K) <= 2 ^ (f + K)) by (apply Z.pow_le_mono_r; lia).
    assert (0 < 2 ^ (972 + K)) by (apply Z.pow_pos_nonneg; lia).
    replace (2 ^ (1024 + K)) with (2 ^ 52 * 2 ^ (972 + K))
      by (rewrite <- Z.pow_add_r by lia; f_equal; lia).
    nia. }
  destruct (Z.eq_dec m1 (2 ^ 53)) as [E53|N53].
  - rewrite E53, shr_fexp_carry by lia. cbn [shr_m].
    change (2 ^ 52) with (Zpos (2 ^ 52)%positive).
    assert (Zpos (2 ^ 52)%positive * 2 ^ (f + 1 + K) = 2 ^ 53 * 2 ^ (f + K)) as Ev.
    { change (Zpos (2 ^ 52)%positive) with (2 ^ 52).
      rewrite <- !Z.pow_add_r by lia. f_equal. lia. }
    destruct (Z.leb_spec (f + 1) (emax - prec)) as [Hle|Hgt];
      change (emax - prec) with 971 in *; cbn [is_number rank]; (split; [reflexivity|]); f_equal.
    + rewrite Ev. unfold TOP.
      assert (2 ^ 53 * 2 ^ (f + K) < 2 ^ (1024 + K)).
      { rewrite <- Z.pow_add_r by lia. apply Z.pow_lt_mono_r; lia. }
      lia.
    + unfold TOP.
      assert (2 ^ (1024 + K) <= 2 ^ 53 * 2 ^ (f + K)).
      { rewrite <- Z.pow_add_r by lia. apply Z.pow_le_mono_r; lia. }
      lia.
  - rewrite shr_fexp_small by lia.
    destruct m1 as [|p|p] eqn:Em1; [| |lia]; cbn [shr_record_of_loc shr_m].
    + cbn [is_number rank]. split; [reflexivity|].
      rewrite Z.mul_0_l. unfold TOP.
      assert (0 < 2 ^ (1024 + K)) by (apply Z.pow_pos_nonneg; lia).
      rewrite Z.min_l by lia. destruct s; reflexivity.
    + destruct (Z.leb_spec f (emax - prec)) as [Hle|Hgt];
        change (emax - prec) with 971 in *; cbn [is_number rank]; (split; [reflexivity|]); f_equal.
      * specialize (Hsmall Hle ltac:(lia)). lia.
      * specialize (Hbig Hgt). lia.
Qed.

(** Rounding a mantissa with any location information: the result lies
    between the two neighbours of the truncated mantissa. *)
Lemma binary_round_aux_faithful s m e l :
  0 <= m -> 0 <= e + K ->
  let f := Z.max (Zdigits2 m + e - 53) (-1074) in
  e <= f ->
  let r := binary_round_aux prec emax s m e l in
  exists m1, m / 2 ^ (f - e) <= m1 <= m / 2 ^ (f - e) + 1 /\
    (-1074 < f -> 2 ^ 52 <= m / 2 ^ (f - e)) /\
    is_number r = true /\ rank r = cond_Zopp s (Z.min (m1 * 2 ^ (f + K)) TOP).
Proof.
  intros Hm He f Hk r.
  assert (exists r0, r0 = r) as [r0 Er0] by (eexists; reflexivity).
  rewrite <- Er0. subst r. unfold binary_round_aux, shr_fexp at 1 in Er0.
  rewrite fexp_64 in Er0. fold f in Er0.
  pose proof (shr_floor (shr_record_of_loc m l) e (f - e)) as [Hm1 He1];
    [rewrite shr_m_of_loc; lia|].
  rewrite shr_m_of_loc, Z.max_l in Hm1 by lia. rewrite Z.max_l in He1 by lia.
  destruct (shr (shr_record_of_loc m l) e (f - e)) as [mrs1 e1]; cbn [fst snd] in Hm1, He1.
  replace e1 with f in Er0 by lia. clear He1 e1.
  set (m1 := round_nearest_even (shr_m mrs1) (loc_of_shr_record mrs1)).
  pose proof (round_nearest_even_ge (shr_m mrs1) (loc_of_shr_record mrs1)) as Hge.
  pose proof (round_nearest_even_le (shr_m mrs1) (loc_of_shr_record mrs1)) as Hle.
  fold m1 in Hge, Hle. rewrite Hm1 in Hge, Hle.
  pose proof (pow2_pos (f - e) ltac:(lia)) as Hpk.
  assert (0 <= m / 2 ^ (f - e)) as Hq0 by (apply Z.div_pos; lia).
  assert (m / 2 ^ (f - e) < 2 ^ 53) as Hq53.
  { apply Z.div_lt_upper_bound; [lia|].
    destruct (Z.eq_dec m 0) as [->|Hne]; [nia|].
    pose proof (digits_bounds m ltac:(lia)) as [_ Hhi].
    assert (f = Z.max (digits m + e - 53) (-1074)) as Ef
      by (unfold f; rewrite Zdigits2_digits by lia; reflexivity).
    rewrite Z.mul_comm, <- Z.pow_add_r by lia.
    assert (2 ^ digits m <= 2 ^ (53 + (f - e))) by (apply Z.pow_le_mono_r; lia). lia. }
  assert (-1074 < f -> 2 ^ 52 <= m / 2 ^ (f - e)) as H52.
  { intros Hf. destruct (Z.eq_dec m 0) as [E0|Hne].
    { exfalso. subst m. change (Zdigits2 0) with 0 in f. lia. }
    pose proof (digits_bounds m ltac:(lia)) as [Hlo _].
    assert (f = Z.max (digits m + e - 53) (-1074)) as Ef
      by (unfold f; rewrite Zdigits2_digits by lia; reflexivity).
    apply Z.div_le_lower_bound; [lia|].
    rewrite Z.mul_comm, <- Z.pow_add_r by lia.
    replace (52 + (f - e)) with (digits m - 1) by lia. lia. }
  exists m1. split; [lia|]. split; [exact H52|].
  assert (971 < f -> 2 ^ 52 <= m1) as H52' by (intros; specialize (H52 ltac:(lia)); lia).
  rewrite Er0. exact (finish_rank s m1 f ltac:(lia) ltac:(lia) H52').
Qed.


(** *** Division *)

Lemma quotient_between m' my q rem m0 p P Py :
  0 < my -> m' = my * q + rem -> 0 <= rem < my ->
  m0 * p <= q < (m0 + 1) * p -> 0 < P -> 0 < Py ->
  m0 * (p * P) * (my * Py) <= m' * P * Py /\
  m' * P * Py < (m0 * (p * P) + p * P) * (my * Py).
Proof.
  intros Hmy Hdm Hrem Hq HP HPy.
  assert (m0 * p * my <= m') as H1 by nia.
  assert (m' < (m0 + 1) * p * my) as H2 by nia.
  assert (0 < P * Py) as H3 by (apply Z.mul_pos_pos; assumption).
  split.
  - replace (m0 * (p * P) * (my * Py)) with (m0 * p * my * (P * Py)) by ring.
    replace (m' * P * Py) with (m' * (P * Py)) by ring.
    apply Z.mul_le_mono_nonneg_r; lia.
  - replace ((m0 * (p * P) + p * P) * (my * Py)) with ((m0 + 1) * p * my * (P * Py)) by ring.
    replace (m' * P * Py) with (m' * (P * Py)) by ring.
    apply Z.mul_lt_mono_pos_r; lia.
Qed.

(** The mantissa and exponent [SFdiv_core_binary] hands to the rounding:
    the quotient has 53 digits unless the exponent is the least one. *)
Lemma div_core mx ex my ey :
  0 < mx < 2 ^ 53 -> 0 < my < 2 ^ 53 -> -1074 <= ex <= 971 -> -1074 <= ey <= 971 ->
  exists q e' rem,
    SFdiv_core_binary prec emax mx ex my ey = (q, e', new_location my rem) /\
    -1074 - 971 <= e' <= ex - ey /\
    mx * 2 ^ (ex - ey - e') = my * q + rem /\ 0 <= rem < my /\ 0 <= q /\
    e' <= Z.max (Zdigits2 q + e' - 53) (-1074).
Proof.
  intros Hmx Hmy Hex Hey. unfold SFdiv_core_binary.
  rewrite fexp_64, !Zdigits2_digits by lia.
  pose proof (digits_bounds mx ltac:(lia)) as [Hxlo Hxhi].
  pose proof (digits_bounds my ltac:(lia)) as [Hylo Hyhi].
  assert (0 < digits mx <= 53) as Hdx.
  { split; [unfold digits; pose proof (Z.log2_nonneg mx); lia | apply digits_le; lia]. }
  assert (0 < digits my <= 53) as Hdy.
  { split; [unfold digits; pose proof (Z.log2_nonneg my); lia | apply digits_le; lia]. }
  set (e' := Z.min (Z.max (digits mx + ex - (digits my + ey) - 53) (-1074)) (ex - ey)).
  assert (-1074 - 971 <= e' <= ex - ey) as He' by (subst e'; lia).
  assert (-1074 < e' -> 53 - digits mx + digits my <= ex - ey - e') as Hs' by (subst e'; lia).
  clearbody e'.
  set (m' := match ex - ey - e' with
             | Zpos _ => Z.shiftl mx (ex - ey - e')
             | Z0 => mx
             | Zneg _ => 0
             end).
  assert (m' = mx * 2 ^ (ex - ey - e')) as Em'.
  { subst m'. destruct (ex - ey - e') as [|p|p] eqn:Es; [lia| |lia].
    rewrite Z.shiftl_mul_pow2 by lia. reflexivity. }
  clearbody m'.
  pose proof (Z_div_mod m' my ltac:(lia)) as Hdm.
  destruct (Z.div_eucl m' my) as [q rem]. destruct Hdm as [Hdm Hrem].
  pose proof (pow2_pos (ex - ey - e') ltac:(lia)) as Hps.
  assert (0 <= q) as Hq0 by nia.
  exists q, e', rem. split; [reflexivity|]. split; [exact He'|].
  split; [lia|]. split; [exact Hrem|]. split; [exact Hq0|].
  destruct (Z.le_gt_cases e' (-1074)) as [Hl|Hg]; [lia|].
  specialize (Hs' Hg).
  enough (2 ^ 52 <= q) as Hq52.
  { assert (53 <= digits q).
    { unfold digits. assert (52 <= Z.log2 q) by (apply Z.log2_le_pow2; lia). lia. }
    rewrite Zdigits2_digits by lia. lia. }
  assert (2 ^ 52 * 2 ^ digits my <= m') as Hm'.
  { rewrite Em'.
    assert (2 ^ (53 - digits mx + digits my) <= 2 ^ (ex - ey - e'))
      by (apply Z.pow_le_mono_r; lia).
    replace (2 ^ 52 * 2 ^ digits my)
      with (2 ^ (digits mx - 1) * 2 ^ (53 - digits mx + digits my))
      by (rewrite <- !Z.pow_add_r by lia; f_equal; lia).
    pose proof (pow2_pos (53 - digits mx + digits my) ltac:(lia)).
    clear - Hxlo H H0 Hmx. nia. }
  clear - Hm' Hyhi Hdm Hrem Hmy. nia.
Qed.

(** The quotient of two finite numbers: the result is one of the two
    neighbours [lo], [lo + ulp] of the exact quotient (up to overflow),
    and the step [ulp] is at most [2^-52] of the quotient, or the
    smallest subnormal step. *)
Lemma SFdiv_faithful sx mx ex sy my ey :
  valid (S754_finite sx mx ex) = true -> valid (S754_finite sy my ey) = true ->
  let r := SF64div (S754_finite sx mx ex) (S754_finite sy my ey) in
  exists lo ulp rho,
    0 <= lo /\ 0 < ulp /\ 2 ^ 52 * ulp <= lo + 2 ^ (K - 1022) /\
    lo * (Zpos my * 2 ^ (ey + K)) <= Zpos mx * 2 ^ (ex + K) * 2 ^ K /\
    Zpos mx * 2 ^ (ex + K) * 2 ^ K < (lo + ulp) * (Zpos my * 2 ^ (ey + K)) /\
    lo <= rho <= lo + ulp /\
    is_number r = true /\ rank r = cond_Zopp (xorb sx sy) (Z.min rho TOP).
Proof.
  intros Hvx Hvy r.
  apply valid_finite in Hvx as (Hex & _ & Hmx & _).
  apply valid_finite in Hvy as (Hey & _ & Hmy & _).
  subst r. unfold SF64div. cbn [SFdiv].
  destruct (div_core (Zpos mx) ex (Zpos my) ey) as (q & e' & rem & -> & He' & Hdm & Hrem & Hq0 & Hk);
    [lia | lia | lia | lia |].
  destruct (binary_round_aux_faithful (xorb sx sy) q e' (new_location (Zpos my) rem)
              Hq0 ltac:(lia) Hk) as (m1 & Hm1 & H52 & Hnum & Hrank).
  revert Hnum Hrank. generalize (binary_round_aux prec emax (xorb sx sy) q e'
                                   (new_location (Zpos my) rem)) as r.
  assert (-1074 <= Z.max (Zdigits2 q + e' - 53) (-1074)) as Hf by lia.
  revert Hk Hm1 H52 Hf. generalize (Z.max (Zdigits2 q + e' - 53) (-1074)) as f.
  intros f Hk Hm1 H52 Hf r Hnum Hrank.
  pose proof (pow2_pos (f - e') ltac:(lia)) as Hpk.
  pose proof (pow2_pos (f + K) ltac:(lia)) as Hpf.
  pose proof (pow2_pos (e' + K) ltac:(lia)) as Hpe'.
  pose proof (pow2_pos (ey + K) ltac:(lia)) as Hpey.
  pose proof (Z.div_mod q (2 ^ (f - e')) ltac:(lia)) as Hqm.
  pose proof (Z.mod_pos_bound q (2 ^ (f - e')) ltac:(lia)) as Hqr.
  assert (0 <= q / 2 ^ (f - e')) as Hm0 by (apply Z.div_pos; lia).
  revert Hm1 H52 Hqm Hqr Hm0. generalize (q / 2 ^ (f - e')) as m0.
  generalize (q mod 2 ^ (f - e')) as qr. intros qr m0 Hm1 H52 Hqm Hqr Hm0.
  assert (m0 * 2 ^ (f - e') <= q < (m0 + 1) * 2 ^ (f - e')) as Hfloor by (clear - Hqm Hqr; lia).
  assert (2 ^ (f + K) = 2 ^ (f - e') * 2 ^ (e' + K)) as Epf
    by (rewrite <- Z.pow_add_r by lia; f_equal; lia).
  assert (Zpos mx * 2 ^ (ex + K) * 2 ^ K
          = Zpos mx * 2 ^ (ex - ey - e') * 2 ^ (e' + K) * 2 ^ (ey + K)) as Ev.
  { rewrite <- !Z.mul_assoc, <- !Z.pow_add_r by lia. do 2 f_equal. lia. }
  destruct (quotient_between (Zpos mx * 2 ^ (ex - ey - e')) (Zpos my) q rem m0
              (2 ^ (f - e')) (2 ^ (e' + K)) (2 ^ (ey + K))
              ltac:(lia) Hdm Hrem Hfloor Hpe' Hpey) as [Hlow Hupp].
  rewrite <- Epf, <- Ev in Hlow, Hupp.
  exists (m0 * 2 ^ (f + K)), (2 ^ (f + K)), (m1 * 2 ^ (f + K)).
  assert (0 <= m0 * 2 ^ (f + K)) as Hlo0 by (apply Z.mul_nonneg_nonneg; lia).
  split; [exact Hlo0|]. split; [exact Hpf|]. split.
  { destruct (Z.eq_dec f (-1074)) as [Ef|Nf].
    - assert (2 ^ 52 * 2 ^ (f + K) = 2 ^ (K - 1022)) as E
        by (rewrite <- Z.pow_add_r by lia; f_equal; lia).
      clear - E Hlo0. lia.
    - specialize (H52 ltac:(lia)).
      pose proof (pow2_pos (K - 1022) ltac:(lia)) as Hp.
      assert (2 ^ 52 * 2 ^ (f + K) <= m0 * 2 ^ (f + K))
        by (apply Z.mul_le_mono_nonneg_r; lia).
      clear - H Hp. lia. }
  split; [exact Hlow|]. split; [exact Hupp|].
  split.
  { split; [apply Z.mul_le_mono_nonneg_r; lia|].
    replace (m0 * 2 ^ (f + K) + 2 ^ (f + K)) with ((m0 + 1) * 2 ^ (f + K)) by ring.
    apply Z.mul_le_mono_nonneg_r; lia. }
  split; assumption.
Qed.


(** *** Rounding to single precision *)

Lemma fexp_32 z : fexp 24 128 z = Z.max (z - 24) (-149).
Proof. reflexivity. Qed.

Lemma digits_value m e t :
  0 < m -> 0 <= e + K -> m * 2 ^ (e + K) <= 2 ^ (t + K) -> e <= t /\ digits m + e <= t + 1.
Proof.
  intros Hm He Hv. pose proof (digits_bounds m Hm) as [Hlo _].
  pose proof (pow2_pos (e + K) He) as Hp.
  assert (0 < digits m) by (unfold digits; pose proof (Z.log2_nonneg m); lia).
  assert (2 ^ (digits m - 1 + (e + K)) <= 2 ^ (t + K)) as H1.
  { rewrite Z.pow_add_r by lia. nia. }
  assert (0 <= t + K).
  { destruct (Z.le_gt_cases 0 (t + K)); [assumption|].
    rewrite (Z.pow_neg_r 2 (t + K)) in Hv by lia. nia. }
  apply Z.pow_le_mono_r_iff in H1; lia.
Qed.

(** Rounding a value of at most [2^T] to single precision gives a zero or
    a finite number of at most 24 bits and at most [2^(T+1)]. *)
Lemma binary_round_aux_single s M E l T :
  0 < M -> 0 <= E + K -> -149 <= T <= 104 -> M * 2 ^ (E + K) <= 2 ^ (T + K) ->
  let r := binary_round_aux 24 128 s M E l in
  r = S754_zero s \/
  exists m2 e2, r = S754_finite s m2 e2 /\ Zpos m2 < 2 ^ 24 /\ -149 <= e2 <= T /\
                Zpos m2 * 2 ^ (e2 + K) <= 2 ^ (T + 1 + K).
Proof.
  intros HM HE HT Hv r. subst r. unfold binary_round_aux, shr_fexp.
  rewrite !fexp_32, (Zdigits2_digits M HM).
  destruct (digits_value M E T HM HE Hv) as [HET HdT].
  pose proof (pow2_pos (E + K) HE) as HpE.
  (* first shift *)
  pose proof (shr_floor (shr_record_of_loc M l) E (Z.max (digits M + E - 24) (-149) - E))
    as [Hm1 He1]; [rewrite shr_m_of_loc; lia|].
  rewrite shr_m_of_loc in Hm1.
  set (k1 := Z.max (Z.max (digits M + E - 24) (-149) - E) 0) in *.
  destruct (shr (shr_record_of_loc M l) E (Z.max (digits M + E - 24) (-149) - E))
    as [mrs1 e1]; cbn [fst snd] in Hm1, He1. subst e1.
  set (m1 := round_nearest_even (shr_m mrs1) (loc_of_shr_record mrs1)).
  pose proof (round_nearest_even_ge (shr_m mrs1) (loc_of_shr_record mrs1)) as Hge.
  pose proof (round_nearest_even_le (shr_m mrs1) (loc_of_shr_record mrs1)) as Hle.
  fold m1 in Hge, Hle. rewrite Hm1 in Hge, Hle. clearbody m1. clear Hm1 mrs1.
  rewrite ?fexp_32.
  assert (0 <= k1) as Hk1 by (subst k1; lia).
  assert (-149 <= E + k1 <= T) as He1 by (subst k1; lia).
  pose proof (pow2_pos k1 Hk1) as Hpk1.
  assert (0 <= M / 2 ^ k1) as Hq0 by (apply Z.div_pos; lia).
  pose proof (Z.mul_div_le M (2 ^ k1) Hpk1) as Hfl.
  assert (2 ^ (E + k1 + K) = 2 ^ k1 * 2 ^ (E + K)) as Ep1
    by (rewrite <- Z.pow_add_r by lia; f_equal; lia).
  assert (2 ^ (E + k1 + K) <= 2 ^ (T + K)) as Hp1T by (apply Z.pow_le_mono_r; lia).
  pose proof (pow2_pos (E + k1 + K) ltac:(lia)) as Hp1.
  assert (2 ^ (T + 1 + K) = 2 * 2 ^ (T + K)) as ET1
    by (rewrite <- Z.pow_succ_r by lia; f_equal; lia).
  assert (m1 * 2 ^ (E + k1 + K) <= 2 ^ (T + 1 + K)) as Hv1.
  { assert (M / 2 ^ k1 * 2 ^ (E + k1 + K) <= M * 2 ^ (E + K)) as H1.
    { rewrite Ep1.
      replace (M / 2 ^ k1 * (2 ^ k1 * 2 ^ (E + K))) with (2 ^ k1 * (M / 2 ^ k1) * 2 ^ (E + K))
        by ring.
      apply Z.mul_le_mono_nonneg_r; lia. }
    assert (m1 * 2 ^ (E + k1 + K) <= (M / 2 ^ k1 + 1) * 2 ^ (E + k1 + K)) as H2
      by (apply Z.mul_le_mono_nonneg_r; lia).
    lia. }
  clearbody k1. clear Hfl. revert Hq0 Hge Hle. generalize (M / 2 ^ k1) as q0.
  intros q0 Hq0 Hge Hle.
  (* second shift *)
  destruct (Z.eq_dec m1 0) as [E0|N0].
  { left. rewrite E0. change (Zdigits2 0) with 0.
    pose proof (shr_floor (shr_record_of_loc 0 loc_Exact) (E + k1)
                  (Z.max (0 + (E + k1) - 24) (-149) - (E + k1))) as [Hm2 _];
      [cbn; lia|].
    destruct (shr (shr_record_of_loc 0 loc_Exact) (E + k1)
                (Z.max (0 + (E + k1) - 24) (-149) - (E + k1))) as [mrs2 e2].
    cbn [fst] in Hm2. rewrite Hm2. cbn [shr_record_of_loc shr_m]. rewrite Z.div_0_l; [reflexivity|].
    apply Z.pow_nonzero; lia. }
  assert (0 < m1) as Hm1pos by lia.
  rewrite (Zdigits2_digits m1 Hm1pos).
  destruct (digits_value m1 (E + k1) (T + 1) Hm1pos ltac:(lia) Hv1) as [_ Hd1].
  pose proof (digits_bounds m1 Hm1pos) as [_ Hm1hi].
  pose proof (shr_floor (shr_record_of_loc m1 loc_Exact) (E + k1)
                (Z.max (digits m1 + (E + k1) - 24) (-149) - (E + k1))) as [Hm2 He2];
    [cbn; lia|].
  rewrite shr_m_of_loc in Hm2.
  set (k2 := Z.max (Z.max (digits m1 + (E + k1) - 24) (-149) - (E + k1)) 0) in *.
  destruct (shr (shr_record_of_loc m1 loc_Exact) (E + k1)
              (Z.max (digits m1 + (E + k1) - 24) (-149) - (E + k1)))
    as [mrs2 e2]; cbn [fst snd] in Hm2, He2. subst e2. rewrite Hm2. clear Hm2 mrs2.
  assert (0 <= k2) as Hk2 by (subst k2; lia).
  assert (digits m1 - 24 <= k2) as Hk2d by (subst k2; lia).
  assert (-149 <= E + k1 + k2 <= T) as He2 by (subst k2; lia).
  clearbody k2.
  pose proof (pow2_pos k2 Hk2) as Hpk2.
  assert (0 <= m1 / 2 ^ k2) as Hq2 by (apply Z.div_pos; lia).
  assert (m1 / 2 ^ k2 < 2 ^ 24) as H24.
  { apply Z.div_lt_upper_bound; [lia|].
    rewrite <- Z.pow_add_r by lia.
    assert (0 < digits m1) by (unfold digits; pose proof (Z.log2_nonneg m1); lia).
    assert (2 ^ digits m1 <= 2 ^ (k2 + 24)) by (apply Z.pow_le_mono_r; lia). lia. }
  assert (m1 / 2 ^ k2 * 2 ^ (E + k1 + k2 + K) <= 2 ^ (T + 1 + K)) as Hv2.
  { pose proof (Z.mul_div_le m1 (2 ^ k2) Hpk2) as Hfl2.
    replace (2 ^ (E + k1 + k2 + K)) with (2 ^ k2 * 2 ^ (E + k1 + K))
      by (rewrite <- Z.pow_add_r by lia; f_equal; lia).
    replace (m1 / 2 ^ k2 * (2 ^ k2 * 2 ^ (E + k1 + K)))
      with (2 ^ k2 * (m1 / 2 ^ k2) * 2 ^ (E + k1 + K)) by ring.
    transitivity (m1 * 2 ^ (E + k1 + K)); [|exact Hv1].
    apply Z.mul_le_mono_nonneg_r; lia. }
  revert Hq2 H24 Hv2. generalize (m1 / 2 ^ k2) as m2. intros m2 Hq2 H24 Hv2.
  destruct m2 as [|p|p]; [left; reflexivity | | lia].
  right. exists p, (E + k1 + k2).
  destruct (Z.leb_spec (E + k1 + k2) (128 - 24)) as [_|Hgt]; [|lia].
  split; [reflexivity|]. split; [exact H24|]. split; [exact He2 | exact Hv2].
Qed.

Lemma binary_round_single s m e T :
  0 <= e + K -> -149 <= T <= 104 -> Zpos m * 2 ^ (e + K) <= 2 ^ (T + K) ->
  let r := binary_round 24 128 s m e in
  r = S754_zero s \/
  exists m2 e2, r = S754_finite s m2 e2 /\ Zpos m2 < 2 ^ 24 /\ -149 <= e2 <= T /\
                Zpos m2 * 2 ^ (e2 + K) <= 2 ^ (T + 1 + K).
Proof.
  intros He HT Hv r. subst r. unfold binary_round. rewrite fexp_32.
  set (f := Z.max (Zpos (digits2_pos m) + e - 24) (-149)).
  destruct (shl_align_spec m e f He ltac:(subst f; lia)) as (Hv' & He' & _).
  destruct (shl_align m e f) as [m' e'] eqn:Es; cbn [fst snd] in *.
  apply binary_round_aux_single; [lia | subst f; lia | exact HT | rewrite Hv'; exact Hv].
Qed.


(** Two valid finite numbers of the same value are the same number. *)
Lemma finite_rank_inj s1 m1 e1 s2 m2 e2 :
  valid (S754_finite s1 m1 e1) = true -> valid (S754_finite s2 m2 e2) = true ->
  rank (S754_finite s1 m1 e1) = rank (S754_finite s2 m2 e2) ->
  S754_finite s1 m1 e1 = S754_finite s2 m2 e2.
Proof.
  intros H1 H2 Hr. cbn [rank] in Hr.
  pose proof (finite_lt_TOP s1 m1 e1 H1) as [P1 _].
  pose proof (finite_lt_TOP s2 m2 e2 H2) as [P2 _].
  assert (s1 = s2) as <- by (destruct s1, s2; cbn [cond_Zopp] in Hr; try reflexivity; lia).
  assert (Zpos m1 * 2 ^ (e1 + K) = Zpos m2 * 2 ^ (e2 + K)) as Hv
    by (destruct s1; cbn [cond_Zopp] in Hr; lia).
  assert (e1 = e2) as <-.
  { destruct (Z.lt_trichotomy e1 e2) as [Hlt | [Heq | Hgt]]; [|exact Heq|].
    - pose proof (finite_exponent_lt m1 e1 m2 e2 s1 s1 H1 H2 Hlt). lia.
    - pose proof (finite_exponent_lt m2 e2 m1 e1 s1 s1 H2 H1 ltac:(lia)). lia. }
  apply valid_finite in H1 as (He1 & _).
  pose proof (pow2_pos (e1 + K) ltac:(lia)).
  assert (Zpos m1 = Zpos m2) as Hm by nia.
  injection Hm as <-. reflexivity.
Qed.

End Format.

Section SquareRoot.
Variable K : Z.
Hypothesis HK : 2148 <= K.
Local Abbreviation valid := (SpecFloat.valid_binary prec emax).

(** *** The square root: faithful rounding *)

Lemma SFsqrt_faithful m e :
  valid (S754_finite false m e) = true ->
  let r := SF64sqrt (S754_finite false m e) in
  exists lo ulp rho,
    0 <= lo /\ 0 < ulp /\ 2 ^ 52 * ulp <= lo + 2 ^ (K - 1022) /\
    lo * lo <= Zpos m * 2 ^ (e + K) * 2 ^ K /\
    Zpos m * 2 ^ (e + K) * 2 ^ K < (lo + ulp) * (lo + ulp) /\
    lo <= rho <= lo + ulp /\
    is_number r = true /\ rank K r = Z.min rho (TOP K).
Proof.
  intros Hv r. apply valid_finite in Hv as (He & _ & Hm & _).
  subst r. unfold SF64sqrt. cbn [SFsqrt]. unfold SFsqrt_core_binary.
  rewrite fexp_64.
  assert (0 < Zpos m) as Hm0 by lia.
  rewrite (Zdigits2_digits (Zpos m) Hm0).
  set (d := digits (Zpos m)).
  set (e' := Z.min (Z.max (Z.div2 (d + e + 1) - 53) (-1074)) (Z.div2 e)).
  assert (2 * Z.div2 e <= e) as Hd2 by (rewrite Z.div2_div; apply Z.mul_div_le; lia).
  assert (2 * Z.div2 (d + e + 1) <= d + e + 1) as Hd3
    by (rewrite Z.div2_div; apply Z.mul_div_le; lia).
  assert (e - 1 <= 2 * Z.div2 e) as Hd2'.
  { rewrite Z.div2_div. pose proof (Z.mod_pos_bound e 2 ltac:(lia)).
    pose proof (Z.div_mod e 2 ltac:(lia)). lia. }
  assert (-1074 <= e' /\ 2 * e' <= e) as [He'lo He'hi] by (subst e'; lia).
  set (m' := match e - 2 * e' with
             | Zpos _ => Z.shiftl (Zpos m) (e - 2 * e')
             | Z0 => Zpos m
             | Zneg _ => 0
             end).
  assert (m' = Zpos m * 2 ^ (e - 2 * e')) as Em'.
  { subst m'. destruct (e - 2 * e') as [|p|p] eqn:Es; [lia| |lia].
    rewrite Z.shiftl_mul_pow2 by lia. reflexivity. }
  pose proof (pow2_pos (e - 2 * e') ltac:(lia)) as Hps.
  assert (0 < m') as Hm'0 by nia.
  pose proof (Z.sqrtrem_sqrt m') as Hsq.
  pose proof (Z.sqrt_spec m' ltac:(lia)) as Hspec. cbv zeta in Hspec.
  destruct (Z.sqrtrem m') as [q rm] eqn:Eqr. cbn [fst] in Hsq. subst q.
  set (q := Z.sqrt m') in *.
  assert (0 < q) as Hq0.
  { pose proof (Z.sqrt_nonneg m') as Hnn. fold q in Hnn.
    destruct (Z.eq_dec q 0) as [E0|]; [|lia]. rewrite E0 in Hspec. lia. }
  (* the truncated root has 53 digits unless the exponent is the least one *)
  assert (e' <= Z.max (Zdigits2 q + e' - 53) (-1074)) as Hk.
  { rewrite (Zdigits2_digits q Hq0).
    destruct (Z.eq_dec e' (-1074)) as [->|Hne]; [lia|].
    assert (e' <= Z.div2 (d + e + 1) - 53) as He'1 by (subst e'; lia).
    assert (105 <= digits m') as Hdm.
    { rewrite Em', digits_shift by lia. fold d. lia. }
    assert (2 ^ 104 <= m') as H104.
    { pose proof (digits_bounds m' Hm'0) as [Hlo _].
      assert (2 ^ 104 <= 2 ^ (digits m' - 1)) by (apply Z.pow_le_mono_r; lia). lia. }
    assert (2 ^ 52 <= q) as H52.
    { unfold q. rewrite <- (Z.sqrt_square (2 ^ 52)) by (apply Z.pow_nonneg; lia).
      apply Z.sqrt_le_mono. rewrite <- Z.pow_add_r by lia. exact H104. }
    assert (53 <= digits q); [|lia].
    pose proof (digits_bounds q Hq0) as [_ Hhi].
    destruct (Z.le_gt_cases 53 (digits q)) as [|Hlt]; [assumption|].
    assert (2 ^ digits q <= 2 ^ 52) by (apply Z.pow_le_mono_r; [lia|lia]). lia. }
  set (l := if rm =? 0 then loc_Exact else loc_Inexact (if rm <=? q then Lt else Gt)).
  destruct (binary_round_aux_faithful K HK false q e' l ltac:(lia) ltac:(lia) Hk)
    as (m1 & Hm1 & H52 & Hnum & Hrank).
  revert Hnum Hrank. generalize (binary_round_aux prec emax false q e' l) as r.
  assert (-1074 <= Z.max (Zdigits2 q + e' - 53) (-1074)) as Hf by lia.
  revert Hk Hm1 H52 Hf. generalize (Z.max (Zdigits2 q + e' - 53) (-1074)) as f.
  intros f Hk Hm1 H52 Hf r Hnum Hrank.
  pose proof (pow2_pos (f - e') ltac:(lia)) as Hpk.
  pose proof (pow2_pos (f + K) ltac:(lia)) as Hpf.
  pose proof (pow2_pos (e' + K) ltac:(lia)) as Hpe'.
  pose proof (pow2_pos (e + K) ltac:(lia)) as Hpe.
  pose proof (pow2_pos K ltac:(lia)) as HpK.
  pose proof (Z.div_mod q (2 ^ (f - e')) ltac:(lia)) as Hqm.
  pose proof (Z.mod_pos_bound q (2 ^ (f - e')) ltac:(lia)) as Hqr.
  assert (0 <= q / 2 ^ (f - e')) as Hm00 by (apply Z.div_pos; lia).
  revert Hm1 H52 Hqm Hqr Hm00. generalize (q / 2 ^ (f - e')) as m0.
  generalize (q mod 2 ^ (f - e')) as t. intros t m0 Hm1 H52 Hqm Hqr Hm00.
  assert (2 ^ (f + K) = 2 ^ (f - e') * 2 ^ (e' + K)) as Ef
    by (rewrite <- Z.pow_add_r by lia; f_equal; lia).
  assert (Zpos m * 2 ^ (e + K) * 2 ^ K = m' * (2 ^ (e' + K) * 2 ^ (e' + K))) as EX.
  { rewrite Em', <- !Z.mul_assoc, <- !Z.pow_add_r by lia. do 2 f_equal. lia. }
  exists (m0 * 2 ^ (f + K)), (2 ^ (f + K)), (m1 * 2 ^ (f + K)).
  split; [nia|]. split; [lia|].
  split.
  { destruct (Z.eq_dec f (-1074)) as [->|Hne].
    - replace (2 ^ 52 * 2 ^ (-1074 + K)) with (2 ^ (K - 1022))
        by (rewrite <- Z.pow_add_r by lia; f_equal; lia).
      nia.
    - specialize (H52 ltac:(lia)).
      assert (2 ^ 52 * 2 ^ (f + K) <= m0 * 2 ^ (f + K))
        by (apply Z.mul_le_mono_nonneg_r; lia).
      pose proof (pow2_pos (K - 1022) ltac:(lia)). lia. }
  split.
  { rewrite EX, Ef.
    replace (m0 * (2 ^ (f - e') * 2 ^ (e' + K)) * (m0 * (2 ^ (f - e') * 2 ^ (e' + K))))
      with ((m0 * 2 ^ (f - e')) * (m0 * 2 ^ (f - e')) * (2 ^ (e' + K) * 2 ^ (e' + K))) by ring.
    apply Z.mul_le_mono_nonneg_r; [nia|].
    apply (Z.le_trans _ (q * q)); [|lia].
    assert (m0 * 2 ^ (f - e') <= q) by lia.
    apply Z.mul_le_mono_nonneg; nia. }
  split.
  { rewrite EX, Ef.
    replace ((m0 * (2 ^ (f - e') * 2 ^ (e' + K)) + 2 ^ (f - e') * 2 ^ (e' + K))
             * (m0 * (2 ^ (f - e') * 2 ^ (e' + K)) + 2 ^ (f - e') * 2 ^ (e' + K)))
      with (((m0 + 1) * 2 ^ (f - e')) * ((m0 + 1) * 2 ^ (f - e'))
            * (2 ^ (e' + K) * 2 ^ (e' + K))) by ring.
    apply Z.mul_lt_mono_pos_r; [nia|].
    apply (Z.lt_le_trans _ (Z.succ q * Z.succ q)); [lia|].
    assert (Z.succ q <= (m0 + 1) * 2 ^ (f - e')) by lia.
    apply Z.mul_le_mono_nonneg; lia. }
  split; [split; [apply Z.mul_le_mono_nonneg_r; lia|]|].
  { replace (m0 * 2 ^ (f + K) + 2 ^ (f + K)) with ((m0 + 1) * 2 ^ (f + K)) by ring.
    apply Z.mul_le_mono_nonneg_r; lia. }
  split; [exact Hnum|]. rewrite Hrank. reflexivity.
Qed.

End SquareRoot.
End RoundingFacts.

(** * Binary64 numbers through their ranks *)

Module F64Facts.
Import Rounding RoundingFacts F64.

Lemma K_ge : 2148 <= K.
Proof. apply Z.leb_le. vm_compute. reflexivity. Qed.

Lemma num_fin x : fin x = true -> num x = true.
Proof. unfold fin, num. by destruct (Prim2SF x). Qed.

Lemma R_bounds x : - top <= R x <= top.
Proof. apply (rank_bounds K K_ge), Prim2SF_valid. Qed.

Lemma top_pos : 0 < top.
Proof. apply (TOP_pos K K_ge). Qed.

Lemma near_mono v1 v2 : v1 <= v2 -> near v1 <= near v2.
Proof. apply (fl_mono K K_ge). Qed.

Lemma near_R x : near (R x) = R x.
Proof. apply (fl_rank K K_ge), Prim2SF_valid. Qed.

Lemma near_0 : near 0 = 0.
Proof. apply (fl_0 K K_ge). Qed.

Lemma near_bounds v : - top <= near v <= top.
Proof. unfold near, fl, cap, top. pose proof (TOP_pos K K_ge). lia. Qed.

(** A number is finite exactly when its rank is strictly inside the
    infinities. *)
Lemma fin_R x : num x = true -> fin x = (- top <? R x) && (R x <? top).
Proof.
  unfold num, fin, R, top. pose proof (Prim2SF_valid x) as Hv. pose proof (TOP_pos K K_ge).
  destruct (Prim2SF x) as [s|s| |s m e]; cbn [is_number finite_or_zero rank]; try discriminate;
    intros _; symmetry.
  - apply andb_true_iff. rewrite !Z.ltb_lt. lia.
  - apply andb_false_iff. rewrite !Z.ltb_ge. destruct s; cbn [cond_Zopp]; lia.
  - pose proof (finite_lt_TOP K K_ge s m e Hv).
    apply andb_true_iff. rewrite !Z.ltb_lt. destruct s; cbn [cond_Zopp]; lia.
Qed.

Lemma ltb_R x y : num x = true -> num y = true -> (x <? y)%float = (R x <? R y).
Proof. intros. rewrite ltb_spec. apply (SFltb_rank K K_ge); auto using Prim2SF_valid. Qed.

Lemma leb_R x y : num x = true -> num y = true -> (x <=? y)%float = (R x <=? R y).
Proof. intros. rewrite leb_spec. apply (SFleb_rank K K_ge); auto using Prim2SF_valid. Qed.

Lemma eqb_R x y : num x = true -> num y = true -> (x =? y)%float = (R x =? R y).
Proof. intros. rewrite FloatAxioms.eqb_spec. apply (SFeqb_rank K K_ge); auto using Prim2SF_valid. Qed.

Lemma ltb_num x y : (x <? y)%float = true -> num x = true /\ num y = true.
Proof.
  rewrite ltb_spec. unfold num, SFltb.
  destruct (Prim2SF x), (Prim2SF y); cbn; try discriminate; auto.
Qed.

Lemma leb_num x y : (x <=? y)%float = true -> num x = true /\ num y = true.
Proof.
  rewrite leb_spec. unfold num, SFleb.
  destruct (Prim2SF x), (Prim2SF y); cbn; try discriminate; auto.
Qed.

Lemma leb_le x y : (x <=? y)%float = true <-> le x y.
Proof.
  unfold le. split.
  - intros H. destruct (leb_num x y H) as [Hx Hy].
    rewrite leb_R in H by assumption. apply Z.leb_le in H. auto.
  - intros (Hx & Hy & H). rewrite leb_R by assumption. by apply Z.leb_le.
Qed.

Lemma is_nan_num x : is_nan x = negb (num x).
Proof.
  unfold is_nan, num. rewrite FloatAxioms.eqb_spec. pose proof (Prim2SF_valid x) as Hv.
  destruct (Prim2SF x) as [s|s| |s m e] eqn:E; cbn [is_number negb].
  - reflexivity.
  - destruct s; reflexivity.
  - reflexivity.
  - rewrite (SFeqb_rank K K_ge) by auto. by rewrite Z.eqb_refl.
Qed.

(** *** Arithmetic on finite numbers *)

Lemma mul_R x y :
  fin x = true -> fin y = true ->
  num (x * y) = true /\ R (x * y) = near (R x * R y / 2 ^ K).
Proof.
  intros Hx Hy. unfold num, R. rewrite mul_spec.
  apply (SFmul_rank K K_ge); auto using Prim2SF_valid.
Qed.

Lemma add_R x y :
  fin x = true -> fin y = true ->
  num (x + y) = true /\ R (x + y) = near (R x + R y).
Proof.
  intros Hx Hy. unfold num, R. rewrite add_spec.
  apply (SFadd_rank K K_ge); auto using Prim2SF_valid.
Qed.

Lemma sub_R x y :
  fin x = true -> fin y = true ->
  num (x - y) = true /\ R (x - y) = near (R x - R y).
Proof.
  intros Hx Hy. unfold num, R. rewrite sub_spec.
  apply (SFsub_rank K K_ge); auto using Prim2SF_valid.
Qed.

(** *** Exactly representable values *)

Lemma round_exact m t :
  0 < m < 2 ^ 53 -> K - 1074 <= t -> round K (m * 2 ^ t) = m * 2 ^ t.
Proof.
  intros Hm Ht. pose proof K_ge. unfold round.
  assert (0 <= place K (m * 2 ^ t) <= t) as Hp.
  { unfold place. rewrite digits_shift by lia.
    pose proof (digits_le m 53 ltac:(lia) ltac:(lia) ltac:(lia)). lia. }
  set (p := place K (m * 2 ^ t)) in *.
  replace (m * 2 ^ t) with (m * 2 ^ (t - p) * 2 ^ p) at 1
    by (rewrite <- Z.mul_assoc, <- Z.pow_add_r by lia; do 2 f_equal; lia).
  rewrite rne_exact by lia.
  rewrite <- Z.mul_assoc, <- Z.pow_add_r by lia. do 2 f_equal. lia.
Qed.

Lemma near_exact m t :
  0 <= m < 2 ^ 53 -> K - 1074 <= t <= K + 971 -> near (m * 2 ^ t) = m * 2 ^ t.
Proof.
  intros Hm Ht. pose proof K_ge.
  destruct (Z.eq_dec m 0) as [->|Hne]; [rewrite Z.mul_0_l; apply near_0|].
  unfold near, fl, sround, cap.
  pose proof (pow2_pos t ltac:(lia)).
  destruct (Z.ltb_spec (m * 2 ^ t) 0); [nia|].
  rewrite round_exact by lia.
  assert (m * 2 ^ t < TOP K).
  { unfold TOP. replace (2 ^ (1024 + K)) with (2 ^ 53 * 2 ^ (971 + K))
      by (rewrite <- Z.pow_add_r by lia; f_equal; lia).
    assert (2 ^ t <= 2 ^ (971 + K)) by (apply Z.pow_le_mono_r; lia). nia. }
  pose proof (TOP_pos K K_ge). nia.
Qed.

Lemma R_Z2F n :
  0 <= n < 2 ^ 53 -> fin (Z2F n) = true /\ R (Z2F n) = n * 2 ^ K.
Proof.
  intros Hn. pose proof K_ge.
  assert (R (Z2F n) = n * 2 ^ K /\ num (Z2F n) = true) as [HR Hnum].
  { unfold R, num, Z2F. rewrite of_uint63_spec, Uint63.of_Z_spec.
    rewrite Z.mod_small by (change Uint63.wB with (2 ^ 63); lia).
    destruct (binary_normalize_rank K K_ge n 0 false ltac:(lia)) as [Hnum HR].
    split; [|exact Hnum]. rewrite HR, Z.add_0_l.
    apply (near_exact n K); lia. }
  split; [|exact HR]. rewrite (fin_R _ Hnum), HR.
  pose proof (pow2_pos K ltac:(lia)).
  assert (n * 2 ^ K < top).
  { unfold top, TOP. rewrite Z.pow_add_r by lia.
    assert (2 ^ 53 < 2 ^ 1024) by (apply Z.pow_lt_mono_r; lia). nia. }
  pose proof top_pos.
  apply andb_true_iff. rewrite !Z.ltb_lt. nia.
Qed.

Lemma R_0 : R 0 = 0.
Proof. reflexivity. Qed.

Lemma R_255 : R 255 = 255 * 2 ^ K.
Proof. change 255%float with (Z2F 255). apply R_Z2F. lia. Qed.

Lemma R_1 : R 1 = 2 ^ K.
Proof. change 1%float with (Z2F 1). rewrite (proj2 (R_Z2F 1 ltac:(lia))). lia. Qed.

Lemma R_half : fin 0.5 = true /\ R 0.5 = 2 ^ (K - 1).
Proof.
  pose proof K_ge. split; [reflexivity|].
  unfold R. change (Prim2SF 0.5) with (S754_finite false (2 ^ 52)%positive (-53)).
  cbn [rank cond_Zopp]. change (Zpos (2 ^ 52)%positive) with (2 ^ 52).
  rewrite <- Z.pow_add_r by lia. f_equal.
Qed.

(** *** Clamping and the 8-bit store *)

Lemma Math_min_R a b :
  num a = true -> num b = true ->
  num (Math_min a b) = true /\ R (Math_min a b) = Z.min (R a) (R b).
Proof.
  intros Ha Hb. unfold Math_min. rewrite !is_nan_num, Ha, Hb. cbn [negb orb].
  rewrite !ltb_R by assumption.
  destruct (Z.ltb_spec (R a) (R b)); [split; [assumption | lia]|].
  destruct (Z.ltb_spec (R b) (R a)); [split; [assumption | lia]|].
  destruct (get_sign a); split; assumption || lia.
Qed.

Lemma Math_max_R a b :
  num a = true -> num b = true ->
  num (Math_max a b) = true /\ R (Math_max a b) = Z.max (R a) (R b).
Proof.
  intros Ha Hb. unfold Math_max. rewrite !is_nan_num, Ha, Hb. cbn [negb orb].
  rewrite !ltb_R by assumption.
  destruct (Z.ltb_spec (R a) (R b)); [split; [assumption | lia]|].
  destruct (Z.ltb_spec (R b) (R a)); [split; [assumption | lia]|].
  destruct (get_sign a); split; assumption || lia.
Qed.

Lemma clamp_R z :
  num z = true ->
  num (clamp z 0 255) = true /\
  R (clamp z 0 255) = Z.max 0 (Z.min (255 * 2 ^ K) (R z)).
Proof.
  intros Hz. unfold clamp.
  destruct (Math_min_R 255 z eq_refl Hz) as [Hn Hr].
  destruct (Math_max_R 0 (Math_min 255 z) eq_refl Hn) as [Hn' Hr'].
  split; [exact Hn'|]. rewrite Hr', Hr, R_0, R_255. reflexivity.
Qed.

Lemma clamp_nan z : num z = false -> num (clamp z 0 255) = false.
Proof.
  intros Hz. unfold clamp, Math_min, Math_max.
  rewrite !is_nan_num, Hz. cbn [negb orb]. reflexivity.
Qed.

Lemma floorZ_R v : fin v = true -> floorZ v = R v / 2 ^ K.
Proof.
  pose proof K_ge. unfold fin, floorZ, R. pose proof (Prim2SF_valid v) as Hv.
  destruct (Prim2SF v) as [s|s| |s m e]; cbn [finite_or_zero rank]; try discriminate; intros _.
  - rewrite Z.div_0_l; [reflexivity|]. pose proof (pow2_pos K); lia.
  - pose proof (valid_finite s m e Hv) as (He & _).
    replace (cond_Zopp s (Zpos m * 2 ^ (e + K))) with (cond_Zopp s (Zpos m) * 2 ^ (e + K))
      by (destruct s; cbn [cond_Zopp]; lia).
    pose proof (pow2_pos K ltac:(lia)).
    destruct (Z.le_gt_cases 0 e).
    + rewrite Z.shiftl_mul_pow2, Z.pow_add_r, Z.mul_assoc, Z.div_mul by lia. reflexivity.
    + rewrite Z.shiftl_div_pow2 by lia.
      replace (2 ^ K) with (2 ^ (- e) * 2 ^ (e + K))
        by (rewrite <- Z.pow_add_r by lia; f_equal; lia).
      rewrite Z.div_mul_cancel_r; [reflexivity | |]; apply Z.neq_sym, Z.lt_neq, pow2_pos; lia.
Qed.

Lemma sample_bounds rho : 0 <= sample rho <= 255.
Proof.
  pose proof K_ge. unfold sample.
  destruct (Z.leb_spec rho 0); [lia|].
  destruct (Z.leb_spec (255 * 2 ^ K) rho); [lia|].
  split; [apply rne_ge | apply rne_le]; lia.
Qed.

Lemma sample_mono rho1 rho2 : rho1 <= rho2 -> sample rho1 <= sample rho2.
Proof.
  intros H. pose proof K_ge. unfold sample.
  destruct (Z.leb_spec rho1 0), (Z.leb_spec rho2 0); try lia;
    destruct (Z.leb_spec (255 * 2 ^ K) rho1), (Z.leb_spec (255 * 2 ^ K) rho2); try lia.
  - apply rne_ge; lia.
  - apply rne_le; lia.
  - apply rne_mono; lia.
Qed.

Lemma ToUint8Clamp_nan v : num v = false -> ToUint8Clamp v = 0.
Proof. intros Hv. unfold ToUint8Clamp. rewrite is_nan_num, Hv. reflexivity. Qed.

Lemma ToUint8Clamp_R v : num v = true -> ToUint8Clamp v = sample (R v).
Proof.
  intros Hv. pose proof K_ge. unfold ToUint8Clamp, sample.
  rewrite is_nan_num, Hv. cbn [negb].
  rewrite !leb_R, R_0, R_255 by (assumption || reflexivity).
  destruct (Z.leb_spec (R v) 0); [reflexivity|].
  destruct (Z.leb_spec (255 * 2 ^ K) (R v)); [reflexivity|].
  pose proof (pow2_pos K ltac:(lia)) as HpK.
  assert (fin v = true) as Hf.
  { rewrite (fin_R _ Hv). pose proof top_pos.
    assert (255 * 2 ^ K < top).
    { unfold top, TOP. rewrite Z.pow_add_r by lia.
      assert (2 ^ 8 < 2 ^ 1024) by (apply Z.pow_lt_mono_r; lia). nia. }
    apply andb_true_iff. rewrite !Z.ltb_lt. lia. }
  rewrite (floorZ_R v Hf).
  set (f := R v / 2 ^ K).
  assert (0 <= f < 255) as Hfb.
  { subst f. split; [apply Z.div_pos; lia | apply Z.div_lt_upper_bound; lia]. }
  destruct (R_Z2F f ltac:(lia)) as [Ff Rf].
  destruct R_half as [Fh Rh].
  destruct (add_R (Z2F f) 0.5 Ff Fh) as [Nh RH].
  assert (R (Z2F f + 0.5) = (2 * f + 1) * 2 ^ (K - 1)) as EH.
  { rewrite RH, Rf, Rh.
    replace (f * 2 ^ K + 2 ^ (K - 1)) with ((2 * f + 1) * 2 ^ (K - 1)).
    - apply near_exact; lia.
    - replace (2 ^ K) with (2 * 2 ^ (K - 1))
        by (rewrite <- Z.pow_succ_r by lia; f_equal; lia). lia. }
  rewrite !ltb_R, EH by assumption.
  unfold rne. fold f.
  assert (2 ^ K = 2 * 2 ^ (K - 1)) as E2
    by (rewrite <- Z.pow_succ_r by lia; f_equal; lia).
  assert (R v mod 2 ^ K = R v - f * 2 ^ K) as Em
    by (subst f; rewrite Z.mod_eq by lia; lia).
  rewrite Em, E2. clear Em.
  destruct (Z.ltb_spec (R v) ((2 * f + 1) * 2 ^ (K - 1))),
           (Z.ltb_spec (2 * (R v - f * (2 * 2 ^ (K - 1)))) (2 * 2 ^ (K - 1)));
    try lia.
  destruct (Z.ltb_spec ((2 * f + 1) * 2 ^ (K - 1)) (R v)),
           (Z.ltb_spec (2 * 2 ^ (K - 1)) (2 * (R v - f * (2 * 2 ^ (K - 1)))));
    try lia; reflexivity.
Qed.

(** What [setPixel] stores for a value clamped to 0..255. *)
Lemma stored_sample z :
  ToUint8Clamp (clamp z 0 255) = if num z then sample (R z) else 0.
Proof.
  pose proof K_ge. destruct (num z) eqn:Hz.
  - destruct (clamp_R z Hz) as [Hn Hr].
    rewrite (ToUint8Clamp_R _ Hn), Hr. unfold sample.
    pose proof (pow2_pos K ltac:(lia)).
    destruct (Z.leb_spec (R z) 0).
    { rewrite Z.max_l by lia. reflexivity. }
    destruct (Z.leb_spec (255 * 2 ^ K) (R z)).
    { rewrite Z.max_r, Z.min_l by lia.
      destruct (Z.leb_spec (255 * 2 ^ K) 0); [lia|].
      destruct (Z.leb_spec (255 * 2 ^ K) (255 * 2 ^ K)); [reflexivity | lia]. }
    rewrite Z.max_r, Z.min_r by lia.
    destruct (Z.leb_spec (R z) 0); [lia|].
    destruct (Z.leb_spec (255 * 2 ^ K) (R z)); [lia | reflexivity].
  - apply ToUint8Clamp_nan, clamp_nan, Hz.
Qed.

(** *** Monotone operations *)

(** A number that is not finite is one of the two infinities. *)
Lemma infinite_R x :
  num x = true -> fin x = false -> R x = top \/ R x = - top.
Proof.
  intros Hn Hf. rewrite (fin_R _ Hn) in Hf. pose proof (R_bounds x) as Hb.
  apply andb_false_iff in Hf as [H|H]; apply Z.ltb_ge in H; lia.
Qed.

Lemma finite_R x : fin x = true -> - top < R x < top.
Proof.
  intros Hf. pose proof (num_fin _ Hf) as Hn. rewrite (fin_R _ Hn) in Hf.
  apply andb_true_iff in Hf as [H1 H2]. apply Z.ltb_lt in H1, H2. lia.
Qed.

(** An operation that rounds a monotone function of the rank of a finite
    argument and maps each infinity to itself is monotone. *)
Lemma monotone_extended (f : Z -> Z) (op : float -> float) x y :
  (forall v1 v2, v1 <= v2 -> f v1 <= f v2) ->
  (forall z, num z = true ->
     num (op z) = true /\ R (op z) = if fin z then near (f (R z)) else R z) ->
  le x y -> le (op x) (op y).
Proof.
  intros Hf Hop (Hx & Hy & Hle).
  destruct (Hop x Hx) as [Nx Rx]. destruct (Hop y Hy) as [Ny Ry].
  split; [exact Nx | split; [exact Ny|]].
  rewrite Rx, Ry. pose proof top_pos.
  destruct (fin x) eqn:Fx, (fin y) eqn:Fy.
  - apply near_mono, Hf, Hle.
  - pose proof (finite_R x Fx). pose proof (near_bounds (f (R x))).
    destruct (infinite_R y Hy Fy); lia.
  - pose proof (finite_R y Fy). pose proof (near_bounds (f (R y))).
    destruct (infinite_R x Hx Fx); lia.
  - exact Hle.
Qed.

(** The same for an operation that maps each infinity to the other. *)
Lemma antitone_extended (f : Z -> Z) (op : float -> float) x y :
  (forall v1 v2, v1 <= v2 -> f v2 <= f v1) ->
  (forall z, num z = true ->
     num (op z) = true /\ R (op z) = if fin z then near (f (R z)) else - R z) ->
  le x y -> le (op y) (op x).
Proof.
  intros Hf Hop (Hx & Hy & Hle).
  destruct (Hop x Hx) as [Nx Rx]. destruct (Hop y Hy) as [Ny Ry].
  split; [exact Ny | split; [exact Nx|]].
  rewrite Rx, Ry. pose proof top_pos.
  destruct (fin x) eqn:Fx, (fin y) eqn:Fy.
  - apply near_mono, Hf, Hle.
  - pose proof (finite_R x Fx). pose proof (near_bounds (f (R x))).
    destruct (infinite_R y Hy Fy); lia.
  - pose proof (finite_R y Fy). pose proof (near_bounds (f (R y))).
    destruct (infinite_R x Hx Fx); lia.
  - lia.
Qed.

(** A positive finite number, as [SpecFloat] sees it. *)
Lemma positive_finite c :
  fin c = true -> 0 < R c -> exists m e, Prim2SF c = S754_finite false m e.
Proof.
  unfold fin, R. destruct (Prim2SF c) as [s|s| |s m e]; cbn [finite_or_zero rank];
    try discriminate; try lia.
  intros _ H. destruct s; [|eauto].
  cbn [cond_Zopp] in H. pose proof K_ge.
  pose proof (pow2_pos (e + K)). lia.
Qed.

Lemma finite_cases c : fin c = true -> exists s, Prim2SF c = S754_zero s \/
                                        exists m e, Prim2SF c = S754_finite s m e.
Proof.
  unfold fin. destruct (Prim2SF c) as [s|s| |s m e]; cbn [finite_or_zero]; try discriminate;
    intros _; exists s; eauto.
Qed.

Lemma mul_pos_l_R c z :
  fin c = true -> 0 < R c -> num z = true ->
  num (c * z) = true /\
  R (c * z) = if fin z then near (R c * R z / 2 ^ K) else R z.
Proof.
  intros Fc Pc Nz. destruct (fin z) eqn:Fz; [by apply mul_R|].
  destruct (positive_finite c Fc Pc) as (m & e & Ec).
  unfold num, R, fin in *. rewrite mul_spec, Ec.
  destruct (Prim2SF z) as [s|s| |s mz ez]; try discriminate. auto.
Qed.

Lemma mul_pos_r_R c z :
  fin c = true -> 0 < R c -> num z = true ->
  num (z * c) = true /\
  R (z * c) = if fin z then near (R c * R z / 2 ^ K) else R z.
Proof.
  intros Fc Pc Nz. destruct (fin z) eqn:Fz.
  - rewrite Z.mul_comm. by apply mul_R.
  - destruct (positive_finite c Fc Pc) as (m & e & Ec).
    unfold num, R, fin in *. rewrite mul_spec, Ec.
    destruct (Prim2SF z) as [s|s| |s mz ez]; try discriminate.
    cbn. destruct s; auto.
Qed.

Lemma scale_mono c v1 v2 : 0 < c -> v1 <= v2 -> c * v1 / 2 ^ K <= c * v2 / 2 ^ K.
Proof.
  intros Hc Hv. pose proof K_ge.
  apply Z.div_le_mono; [apply pow2_pos; lia | nia].
Qed.

Lemma mul_pos_l_mono c x y :
  fin c = true -> 0 < R c -> le x y -> le (c * x) (c * y).
Proof.
  intros Fc Pc. apply (monotone_extended (fun v => R c * v / 2 ^ K) (mul c)).
  - intros. by apply scale_mono.
  - intros. by apply mul_pos_l_R.
Qed.

Lemma mul_pos_r_mono c x y :
  fin c = true -> 0 < R c -> le x y -> le (x * c) (y * c).
Proof.
  intros Fc Pc. apply (monotone_extended (fun v => R c * v / 2 ^ K) (fun z => mul z c)).
  - intros. by apply scale_mono.
  - intros. by apply mul_pos_r_R.
Qed.

Lemma sub_l_R a z :
  fin a = true -> num z = true ->
  num (a - z) = true /\ R (a - z) = if fin z then near (R a - R z) else - R z.
Proof.
  intros Fa Nz. destruct (fin z) eqn:Fz; [by apply sub_R|].
  unfold num, R, fin in *. rewrite sub_spec.
  destruct (Prim2SF z) as [s|s| |s mz ez]; try discriminate.
  destruct (Prim2SF a) as [sa|sa| |sa ma ea]; try discriminate;
    cbn; destruct s; cbn; auto with lia.
Qed.

Lemma sub_r_R b z :
  fin b = true -> num z = true ->
  num (z - b) = true /\ R (z - b) = if fin z then near (R z - R b) else R z.
Proof.
  intros Fb Nz. destruct (fin z) eqn:Fz; [by apply sub_R|].
  unfold num, R, fin in *. rewrite sub_spec.
  destruct (Prim2SF z) as [s|s| |s mz ez]; try discriminate.
  destruct (Prim2SF b) as [sb|sb| |sb mb eb]; try discriminate; cbn; auto.
Qed.

Lemma sub_l_anti a x y : fin a = true -> le x y -> le (a - y) (a - x).
Proof.
  intros Fa. apply (antitone_extended (fun v => R a - v) (sub a)).
  - intros. lia.
  - intros. by apply sub_l_R.
Qed.

Lemma sub_r_mono b x y : fin b = true -> le x y -> le (x - b) (y - b).
Proof.
  intros Fb. apply (monotone_extended (fun v => v - R b) (fun z => sub z b)).
  - intros. lia.
  - intros. by apply sub_r_R.
Qed.

(** The stored sample is monotone, and a NaN is stored as 0. *)
Lemma stored_mono x y :
  le x y -> ToUint8Clamp (clamp x 0 255) <= ToUint8Clamp (clamp y 0 255).
Proof.
  intros (Hx & Hy & Hle). rewrite !stored_sample, Hx, Hy. by apply sample_mono.
Qed.

Lemma stored_bounds z : 0 <= ToUint8Clamp (clamp z 0 255) <= 255.
Proof. rewrite stored_sample. destruct (num z); [apply sample_bounds | lia]. Qed.

(** *** The ambient occlusion formula as a function of the intensity *)

Lemma sample_nonpositive rho : rho <= 0 -> sample rho = 0.
Proof. intros H. unfold sample. destruct (Z.leb_spec rho 0); [reflexivity | lia]. Qed.

Lemma stored_nan z : num z = false -> ToUint8Clamp (clamp z 0 255) = 0.
Proof. intros Hz. by rewrite stored_sample, Hz. Qed.

Lemma stored_nonpositive z : R z <= 0 -> ToUint8Clamp (clamp z 0 255) = 0.
Proof.
  intros Hz. rewrite stored_sample. destruct (num z); [|reflexivity].
  by apply sample_nonpositive.
Qed.

Lemma sub_nan_l x b : num x = false -> num (x - b) = false.
Proof.
  unfold num. rewrite sub_spec. destruct (Prim2SF x); try discriminate. reflexivity.
Qed.

Lemma sub_nan_r x b : num b = false -> num (x - b) = false.
Proof.
  unfold num. rewrite sub_spec. destruct (Prim2SF b); try discriminate.
  destruct (Prim2SF x); reflexivity.
Qed.

(** Subtracting an infinity gives the opposite infinity or NaN. *)
Lemma sub_infinity x s :
  num x = true ->
  Prim2SF (x - SF2Prim (S754_infinity s))
  = if SFeqb (Prim2SF x) (S754_infinity s) then S754_nan else S754_infinity (negb s).
Proof.
  unfold num. rewrite sub_spec, Prim2SF_SF2Prim by reflexivity.
  destruct (Prim2SF x) as [sx|sx| |sx mx ex]; try discriminate; intros _;
    destruct s; try destruct sx; reflexivity.
Qed.

Lemma infinite_cases b :
  num b = true -> fin b = false -> exists s, b = SF2Prim (S754_infinity s).
Proof.
  unfold num, fin. intros Hn Hf.
  destruct (Prim2SF b) as [s|s| |s m e] eqn:E; try discriminate.
  exists s. rewrite <- E. symmetry. apply SF2Prim_Prim2SF.
Qed.

Lemma R_infinity s : R (SF2Prim (S754_infinity s)) = if s then - top else top.
Proof. unfold R. rewrite Prim2SF_SF2Prim by reflexivity. destruct s; reflexivity. Qed.

(** [v - bias] as stored, for two numbers [v2 <= v1] and any [bias]. *)
Lemma stored_sub_mono v1 v2 bias :
  le v2 v1 ->
  ToUint8Clamp (clamp (v2 - bias) 0 255) <= ToUint8Clamp (clamp (v1 - bias) 0 255).
Proof.
  intros Hle. pose proof Hle as (N2 & N1 & HR).
  destruct (num bias) eqn:Nb.
  2:{ rewrite !stored_nan by (by apply sub_nan_r). lia. }
  destruct (fin bias) eqn:Fb.
  { apply stored_mono. by apply sub_r_mono. }
  destruct (infinite_cases bias Nb Fb) as [s ->].
  pose proof top_pos as HT.
  assert (forall v, num v = true ->
            (num (v - SF2Prim (S754_infinity s)) = false /\
             R v = (if s then - top else top))
            \/ (num (v - SF2Prim (S754_infinity s)) = true /\
                R (v - SF2Prim (S754_infinity s)) = (if s then top else - top) /\
                R v <> (if s then - top else top))) as Hsub.
  { intros v Nv. pose proof (sub_infinity v s Nv) as E.
    assert (SFeqb (Prim2SF v) (S754_infinity s) = (R v =? (if s then - top else top))) as Eq.
    { rewrite (SFeqb_rank K K_ge); [|apply Prim2SF_valid|reflexivity|exact Nv|reflexivity].
      unfold R, top. destruct s; reflexivity. }
    rewrite Eq in E.
    destruct (Z.eqb_spec (R v) (if s then - top else top)) as [Heq|Hne].
    - left. split; [|exact Heq]. unfold num. rewrite E. reflexivity.
    - right. unfold num, R at 1. rewrite E. destruct s; auto. }
  destruct s.
  - (* bias = -infinity: +infinity is stored as 255, NaN as 0 *)
    destruct (Hsub v1 N1) as [[Nz1 E1]|(Nz1 & Rz1 & _)].
    + destruct (Hsub v2 N2) as [[Nz2 _]|(_ & _ & Ne2)].
      * rewrite !stored_nan by assumption. lia.
      * pose proof (R_bounds v2). lia.
    + pose proof (stored_bounds (v2 - SF2Prim (S754_infinity true))).
      rewrite (stored_sample (v1 - _)), Nz1, Rz1.
      assert (sample top = 255) as ->; [|lia].
      unfold sample. destruct (Z.leb_spec top 0); [lia|].
      destruct (Z.leb_spec (255 * 2 ^ K) top) as [_|Hlt]; [reflexivity|].
      pose proof K_ge. unfold top, TOP in Hlt. rewrite Z.pow_add_r in Hlt by lia.
      assert (2 ^ 8 < 2 ^ 1024) by (apply Z.pow_lt_mono_r; lia).
      pose proof (pow2_pos K ltac:(lia)). nia.
  - (* bias = +infinity: -infinity and NaN are both stored as 0 *)
    assert (forall v, num v = true ->
              ToUint8Clamp (clamp (v - SF2Prim (S754_infinity false)) 0 255) = 0) as H0.
    { intros v Nv. destruct (Hsub v Nv) as [[Nz _]|(Nz & Rz & _)].
      - by apply stored_nan.
      - apply stored_nonpositive. lia. }
    rewrite !H0 by assumption. lia.
Qed.

Lemma fin_2 : fin 2 = true /\ 0 < R 2.
Proof.
  change 2%float with (Z2F 2). destruct (R_Z2F 2 ltac:(lia)) as [F E].
  split; [exact F|]. rewrite E. pose proof K_ge. pose proof (pow2_pos K). lia.
Qed.

Lemma fin_255 : fin 255 = true.
Proof. change 255%float with (Z2F 255). apply R_Z2F. lia. Qed.

Lemma darkened_antitone c bias a1 a2 :
  (0 <? c)%float = true -> (a1 <=? a2)%float = true ->
  darkened c bias a2 <= darkened c bias a1.
Proof.
  intros Hc Ha. unfold darkened.
  destruct (ltb_num _ _ Hc) as [_ Nc].
  rewrite ltb_R, R_0 in Hc by (reflexivity || assumption). apply Z.ltb_lt in Hc.
  apply leb_le in Ha. pose proof Ha as (N1 & N2 & HR).
  destruct fin_2 as [F2 P2].
  destruct (fin c) eqn:Fc.
  - (* a finite contrast: every step is monotone *)
    apply stored_sub_mono.
    apply (sub_l_anti 255 _ _ fin_255).
    apply (mul_pos_r_mono 2 _ _ F2 P2).
    by apply mul_pos_l_mono.
  - (* an infinite contrast: the product is an infinity or NaN *)
    destruct (infinite_cases c Nc Fc) as [s ->].
    rewrite R_infinity in Hc. pose proof top_pos.
    destruct s; [lia|].
    assert (forall a, num a = true -> R a < 0 ->
              (SF2Prim (S754_infinity false) * a)%float = neg_infinity) as Hneg.
    { intros a Na Ra. apply Prim2SF_inj. rewrite mul_spec, Prim2SF_SF2Prim by reflexivity.
      unfold num, R in *. pose proof K_ge.
      destruct (Prim2SF a) as [sa|sa| |sa ma ea]; try discriminate; cbn [rank] in Ra; try lia.
      - destruct sa; [reflexivity|]. cbn [cond_Zopp] in Ra.
        pose proof (TOP_pos K K_ge). lia.
      - destruct sa; [reflexivity|]. cbn [cond_Zopp] in Ra.
        pose proof (pow2_pos (ea + K)). lia. }
    assert (forall a, num a = true -> 0 <= R a ->
              ToUint8Clamp
                (clamp (255 - SF2Prim (S754_infinity false) * a * 2 - bias)%float 0 255)
              = 0) as Hnonneg.
    { intros a Na Ra.
      assert (SF2Prim (S754_infinity false) * a = nan
              \/ SF2Prim (S754_infinity false) * a = infinity)%float as [-> | ->].
      { unfold num, R in *. pose proof K_ge.
        destruct (Prim2SF a) as [sa|sa| |sa ma ea] eqn:Ea; try discriminate.
        - left. apply Prim2SF_inj. rewrite mul_spec, Prim2SF_SF2Prim, Ea by reflexivity.
          reflexivity.
        - right. apply Prim2SF_inj. rewrite mul_spec, Prim2SF_SF2Prim, Ea by reflexivity.
          destruct sa; [|reflexivity]. cbn [rank cond_Zopp] in Ra.
          pose proof (TOP_pos K K_ge). lia.
        - right. apply Prim2SF_inj. rewrite mul_spec, Prim2SF_SF2Prim, Ea by reflexivity.
          destruct sa; [|reflexivity]. cbn [rank cond_Zopp] in Ra.
          pose proof (Prim2SF_valid a) as Va. rewrite Ea in Va.
          apply valid_finite in Va as (He & _).
          pose proof (pow2_pos (ea + K)). lia. }
      - change (255 - nan * 2)%float with nan. apply stored_nan, sub_nan_l. reflexivity.
      - change (255 - infinity * 2)%float with neg_infinity.
        destruct (num (neg_infinity - bias)) eqn:Nz; [|by apply stored_nan].
        apply stored_nonpositive.
        unfold R, num in *. rewrite sub_spec in *.
        change (Prim2SF neg_infinity) with (S754_infinity true) in *.
        destruct (Prim2SF bias) as [sb|sb| |sb mb eb]; try discriminate;
          try destruct sb; try discriminate; cbn; lia. }
    destruct (Z.lt_ge_cases (R a2) 0).
    + rewrite !Hneg by (assumption || lia). lia.
    + rewrite (Hnonneg a2) by (assumption || lia). apply stored_bounds.
Qed.

(** *** The length of the candidate normal *)

Lemma ToUint8Clamp_bounds v : 0 <= ToUint8Clamp v <= 255.
Proof.
  destruct (num v) eqn:Hv.
  - rewrite ToUint8Clamp_R by assumption. apply sample_bounds.
  - rewrite ToUint8Clamp_nan by assumption. lia.
Qed.

Lemma mul_num x y : num (x * y) = true -> num x = true /\ num y = true.
Proof.
  unfold num. rewrite mul_spec.
  destruct (Prim2SF x), (Prim2SF y); cbn; try discriminate; auto.
Qed.

Lemma add_num x y : num (x + y) = true -> num x = true /\ num y = true.
Proof.
  unfold num. rewrite add_spec.
  destruct (Prim2SF x), (Prim2SF y); cbn; try discriminate; auto.
Qed.

Lemma sqrt_num x : num (sqrt x) = true -> num x = true.
Proof. unfold num. rewrite sqrt_spec. destruct (Prim2SF x); cbn; try discriminate; auto. Qed.

(** A square is never negative. *)
Lemma square_nonneg x : num (x * x) = true -> 0 <= R (x * x).
Proof.
  intros Hn. destruct (mul_num x x Hn) as [Nx _].
  destruct (fin x) eqn:Fx.
  - destruct (mul_R x x Fx Fx) as [_ ->]. rewrite <- near_0. apply near_mono.
    pose proof K_ge. apply Z.div_pos; [nia | apply pow2_pos; lia].
  - unfold num, fin, R in *. rewrite mul_spec in *.
    destruct (Prim2SF x) as [s|s| |s m e]; try discriminate.
    cbn. pose proof (TOP_pos K K_ge). destruct s; cbn; lia.
Qed.

(** Neither is the sum of two numbers that are not negative. *)
Lemma add_nonneg a b :
  num (a + b) = true -> 0 <= R a -> 0 <= R b -> 0 <= R (a + b).
Proof.
  intros Hn Ha Hb. destruct (add_num a b Hn) as [Na Nb].
  destruct (fin a) eqn:Fa, (fin b) eqn:Fb.
  - destruct (add_R a b Fa Fb) as [_ ->]. rewrite <- near_0. apply near_mono. lia.
  - pose proof top_pos. destruct (infinite_R b Nb Fb) as [Eb|Eb]; [|lia].
    unfold num, fin, R in *. rewrite add_spec in *.
    destruct (Prim2SF a) as [sa|sa| |sa ma ea], (Prim2SF b) as [sb|sb| |sb mb eb];
      try discriminate; cbn in *; lia.
  - pose proof top_pos. destruct (infinite_R a Na Fa) as [Ea|Ea]; [|lia].
    unfold num, fin, R in *. rewrite add_spec in *.
    destruct (Prim2SF a) as [sa|sa| |sa ma ea], (Prim2SF b) as [sb|sb| |sb mb eb];
      try discriminate; cbn in *; lia.
  - pose proof top_pos.
    destruct (infinite_R a Na Fa) as [Ea|Ea]; [|lia].
    destruct (infinite_R b Nb Fb) as [Eb|Eb]; [|lia].
    unfold num, fin, R in *. rewrite add_spec in *.
    destruct (Prim2SF a) as [sa|sa| |sa ma ea], (Prim2SF b) as [sb|sb| |sb mb eb];
      try discriminate; destruct sa, sb; cbn in *; try discriminate; lia.
Qed.

(** Adding 1 to a number that is not negative gives at least 1. *)
Lemma add_1_ge_1 a : num (a + 1) = true -> 0 <= R a -> 2 ^ K <= R (a + 1).
Proof.
  intros Hn Ha. destruct (add_num a 1 Hn) as [Na _].
  destruct (fin a) eqn:Fa.
  - destruct (add_R a 1 Fa eq_refl) as [_ ->].
    pose proof (near_mono (R 1) (R a + R 1) ltac:(lia)) as H.
    rewrite near_R, R_1 in H. rewrite R_1. exact H.
  - pose proof top_pos. destruct (infinite_R a Na Fa) as [Ea|Ea]; [|lia].
    assert (R (a + 1) = top) as ->.
    { unfold num, fin, R in *. rewrite add_spec in *.
      change (Prim2SF 1) with (S754_finite false 4503599627370496 (-52)) in *.
      destruct (Prim2SF a) as [sa|sa| |sa ma ea]; try discriminate. exact Ea. }
    pose proof K_ge. unfold top, TOP. apply Z.pow_le_mono_r; lia.
Qed.

Lemma sqrt_ge_1 z : num z = true -> 2 ^ K <= R z -> num (sqrt z) = true /\ 2 ^ K <= R (sqrt z).
Proof.
  intros Hn Hz. unfold num, R. rewrite sqrt_spec.
  apply (SFsqrt_ge_1 K K_ge); [apply Prim2SF_valid | exact Hn | exact Hz].
Qed.

(** [sqrt(nx² + ny² + 1)] is at least 1 whenever it is a number: it is
    never below 1, and never zero. *)
Lemma normalLen_ge_1 nx ny :
  let len := normalLen nx ny 1 in
  (num len = true -> 2 ^ K <= R len) /\
  (len <? 1)%float = false /\ (len =? 0)%float = false.
Proof.
  intros len.
  assert (num len = true -> 2 ^ K <= R len) as Hge.
  { intros Hn. subst len. unfold normalLen in *.
    change (1 * 1)%float with 1%float in *.
    pose proof (sqrt_num _ Hn) as Nt.
    destruct (add_num _ _ Nt) as [Ns _].
    destruct (add_num _ _ Ns) as [Nxx Nyy].
    apply sqrt_ge_1; [exact Nt|].
    apply add_1_ge_1; [exact Nt|].
    apply add_nonneg; [exact Ns | by apply square_nonneg | by apply square_nonneg]. }
  split; [exact Hge|].
  pose proof K_ge. pose proof (pow2_pos K ltac:(lia)).
  destruct (num len) eqn:Hn.
  - specialize (Hge eq_refl).
    rewrite ltb_R, eqb_R, R_1, R_0 by (assumption || reflexivity).
    split; [apply Z.ltb_ge | apply Z.eqb_neq]; lia.
  - rewrite ltb_spec, FloatAxioms.eqb_spec. unfold num in Hn.
    destruct (Prim2SF len); try discriminate. auto.
Qed.

(** *** The rounding error of the 8-bit store *)

Lemma sample_error rho :
  0 <= rho <= 255 * 2 ^ K -> 2 * Z.abs (sample rho * 2 ^ K - rho) <= 2 ^ K.
Proof.
  intros Hr. pose proof K_ge. pose proof (pow2_pos K ltac:(lia)) as HpK.
  unfold sample.
  destruct (Z.leb_spec rho 0); [lia|].
  destruct (Z.leb_spec (255 * 2 ^ K) rho); [lia|].
  unfold rne.
  pose proof (Z.div_mod rho (2 ^ K) ltac:(lia)) as Hdm.
  pose proof (Z.mod_pos_bound rho (2 ^ K) HpK) as Hmb.
  set (q := rho / 2 ^ K) in *. set (r := rho mod 2 ^ K) in *.
  destruct (Z.ltb_spec (2 * r) (2 ^ K)); [lia|].
  destruct (Z.ltb_spec (2 ^ K) (2 * r)); [lia|].
  destruct (Z.even q); lia.
Qed.

(** A channel value within 0..255 is stored as the nearest integer. *)
Lemma ToUint8Clamp_nearest e :
  (0 <=? e)%float = true -> (e <=? 255)%float = true ->
  2 * Z.abs (ToUint8Clamp e * 2 ^ K - R e) <= 2 ^ K.
Proof.
  intros H0 H255. destruct (leb_num _ _ H0) as [_ Ne].
  rewrite leb_R, R_0 in H0 by (reflexivity || assumption).
  rewrite leb_R, R_255 in H255 by (reflexivity || assumption).
  apply Z.leb_le in H0, H255.
  rewrite ToUint8Clamp_R by assumption. apply sample_error. lia.
Qed.


(** *** Bounded numbers *)

Lemma near_opp v : near (- v) = - near v.
Proof. apply (fl_opp K K_ge). Qed.

Lemma whole_lt_top B : 0 <= B < 2 ^ 53 -> B * 2 ^ K < top.
Proof.
  intros HB. pose proof K_ge. pose proof (pow2_pos K ltac:(lia)).
  unfold top, TOP. rewrite Z.pow_add_r by lia.
  assert (2 ^ 53 < 2 ^ 1024) by (apply Z.pow_lt_mono_r; lia). nia.
Qed.

Lemma near_whole B : 0 <= B < 2 ^ 53 -> near (B * 2 ^ K) = B * 2 ^ K.
Proof. intros HB. pose proof K_ge. apply near_exact; lia. Qed.

Lemma near_within v B :
  0 <= B < 2 ^ 53 -> Z.abs v <= B * 2 ^ K -> Z.abs (near v) <= B * 2 ^ K.
Proof.
  intros HB Hv.
  pose proof (near_mono v (B * 2 ^ K) ltac:(lia)) as H1.
  pose proof (near_mono (- (B * 2 ^ K)) v ltac:(lia)) as H2.
  rewrite near_opp in H2. rewrite near_whole in H1, H2 by assumption. lia.
Qed.

Lemma bounded_fin x B :
  num x = true -> 0 <= B < 2 ^ 53 -> Z.abs (R x) <= B * 2 ^ K -> bounded B x.
Proof.
  intros Hn HB Hx. split; [|exact Hx].
  rewrite (fin_R x Hn). pose proof (whole_lt_top B HB).
  apply andb_true_iff. rewrite !Z.ltb_lt. lia.
Qed.

Lemma bounded_weaken B B' x : B <= B' -> bounded B x -> bounded B' x.
Proof.
  intros HB [Hf Hx]. split; [exact Hf|].
  pose proof K_ge. pose proof (pow2_pos K ltac:(lia)). nia.
Qed.

Lemma bounded_nonneg B x : bounded B x -> 0 <= B.
Proof.
  intros [_ Hx]. pose proof K_ge. pose proof (pow2_pos K ltac:(lia)).
  pose proof (Z.abs_nonneg (R x)). nia.
Qed.

Lemma bounded_Z2F n B : 0 <= n <= B -> B < 2 ^ 53 -> bounded B (Z2F n).
Proof.
  intros Hn HB. destruct (R_Z2F n ltac:(lia)) as [Hf HR]. split; [exact Hf|].
  rewrite HR. pose proof K_ge. pose proof (pow2_pos K ltac:(lia)). nia.
Qed.

Lemma scaled_product_within a b A B :
  Z.abs a <= A * 2 ^ K -> Z.abs b <= B * 2 ^ K -> 0 <= A -> 0 <= B ->
  Z.abs (a * b / 2 ^ K) <= A * B * 2 ^ K.
Proof.
  intros Ha Hb HA HB. pose proof K_ge. pose proof (pow2_pos K ltac:(lia)) as HpK.
  assert (Z.abs (a * b) <= A * B * 2 ^ K * 2 ^ K) as Hab.
  { rewrite Z.abs_mul.
    transitivity (A * 2 ^ K * (B * 2 ^ K)); [|lia].
    apply Z.mul_le_mono_nonneg; lia. }
  assert (a * b / 2 ^ K <= A * B * 2 ^ K).
  { apply Z.div_le_upper_bound; lia. }
  assert (- (A * B * 2 ^ K) <= a * b / 2 ^ K).
  { apply Z.div_le_lower_bound; lia. }
  lia.
Qed.

Lemma bounded_mul B1 B2 x y :
  bounded B1 x -> bounded B2 y -> B1 * B2 < 2 ^ 53 -> bounded (B1 * B2) (x * y).
Proof.
  intros Hx Hy HB.
  pose proof (bounded_nonneg _ _ Hx). pose proof (bounded_nonneg _ _ Hy).
  destruct Hx as [Hfx Hx], Hy as [Hfy Hy].
  destruct (mul_R x y Hfx Hfy) as [Hn HR].
  apply bounded_fin; [exact Hn | nia |].
  rewrite HR. apply near_within; [nia|]. by apply scaled_product_within.
Qed.

Lemma bounded_add B1 B2 x y :
  bounded B1 x -> bounded B2 y -> B1 + B2 < 2 ^ 53 -> bounded (B1 + B2) (x + y).
Proof.
  intros Hx Hy HB.
  pose proof (bounded_nonneg _ _ Hx). pose proof (bounded_nonneg _ _ Hy).
  destruct Hx as [Hfx Hx], Hy as [Hfy Hy].
  destruct (add_R x y Hfx Hfy) as [Hn HR].
  apply bounded_fin; [exact Hn | lia |].
  rewrite HR. apply near_within; [lia|]. lia.
Qed.

Lemma bounded_sub B1 B2 x y :
  bounded B1 x -> bounded B2 y -> B1 + B2 < 2 ^ 53 -> bounded (B1 + B2) (x - y).
Proof.
  intros Hx Hy HB.
  pose proof (bounded_nonneg _ _ Hx). pose proof (bounded_nonneg _ _ Hy).
  destruct Hx as [Hfx Hx], Hy as [Hfy Hy].
  destruct (sub_R x y Hfx Hfy) as [Hn HR].
  apply bounded_fin; [exact Hn | lia |].
  rewrite HR. apply near_within; [lia|]. lia.
Qed.

(** The absolute value and the opposite change the sign only. *)
Lemma abs_R x : num (abs x) = num x /\ fin (abs x) = fin x /\ R (abs x) = Z.abs (R x).
Proof.
  unfold num, fin, R. rewrite abs_spec. pose proof (TOP_pos K K_ge).
  pose proof K_ge.
  destruct (Prim2SF x) as [s|s| |s m e]; cbn [SFabs is_number finite_or_zero rank cond_Zopp];
    repeat split; try reflexivity.
  - destruct s; cbn [cond_Zopp]; lia.
  - pose proof (pow2_pos (e + K)). destruct s; cbn [cond_Zopp]; nia.
Qed.

Lemma opp_R x : num (- x) = num x /\ fin (- x) = fin x /\ R (- x) = - R x.
Proof.
  unfold num, fin, R. rewrite opp_spec.
  destruct (Prim2SF x) as [s|s| |s m e]; cbn [SFopp is_number finite_or_zero rank];
    repeat split; try reflexivity; destruct s; cbn [cond_Zopp negb]; lia.
Qed.

Lemma bounded_abs B x : bounded B x -> bounded B (abs x).
Proof.
  intros [Hf Hx]. destruct (abs_R x) as (_ & Hf' & HR).
  split; [congruence|]. rewrite HR. lia.
Qed.

Lemma bounded_opp B x : bounded B x -> bounded B (- x).
Proof.
  intros [Hf Hx]. destruct (opp_R x) as (_ & Hf' & HR).
  split; [congruence|]. rewrite HR. lia.
Qed.

(** A finite number given by its mantissa and a non-positive exponent. *)
Lemma R_finite c s m e :
  Prim2SF c = S754_finite s m e -> - K <= e <= 0 ->
  fin c = true /\ R c * 2 ^ (- e) = cond_Zopp s (Zpos m) * 2 ^ K.
Proof.
  intros E He. unfold fin, R. rewrite E. cbn [finite_or_zero rank]. split; [reflexivity|].
  replace (2 ^ K) with (2 ^ (e + K) * 2 ^ (- e))
    by (rewrite <- Z.pow_add_r by lia; f_equal; lia).
  destruct s; cbn [cond_Zopp]; ring.
Qed.

Lemma bounded_finite c s m e B :
  Prim2SF c = S754_finite s m e -> - K <= e <= 0 -> Zpos m <= B * 2 ^ (- e) ->
  bounded B c.
Proof.
  intros E He Hm. destruct (R_finite c s m e E He) as [Hf HR]. split; [exact Hf|].
  pose proof (pow2_pos (- e) ltac:(lia)) as Hp. pose proof K_ge.
  pose proof (pow2_pos K ltac:(lia)) as HpK.
  assert (Z.abs (R c) * 2 ^ (- e) <= B * 2 ^ K * 2 ^ (- e)) as Hle.
  { rewrite <- (Z.abs_eq (2 ^ (- e))) at 1 by lia. rewrite <- Z.abs_mul, HR.
    rewrite Z.abs_mul, (Z.abs_eq (2 ^ K)) by lia.
    replace (Z.abs (cond_Zopp s (Zpos m))) with (Zpos m) by (destruct s; cbn; lia).
    nia. }
  nia.
Qed.


Lemma is_finite_fin x : is_finite x = fin x.
Proof.
  unfold is_finite, is_infinity. rewrite is_nan_num.
  destruct (num x) eqn:Hn; cbn [negb orb].
  - destruct (abs_R x) as (Hna & _ & HRa).
    rewrite eqb_R by (rewrite ?Hna; auto). rewrite HRa, (fin_R x Hn).
    change infinity with (SF2Prim (S754_infinity false)). rewrite R_infinity.
    pose proof (R_bounds x). pose proof top_pos.
    destruct (Z.eqb_spec (Z.abs (R x)) top), (Z.ltb_spec (- top) (R x)),
      (Z.ltb_spec (R x) top); cbn [negb andb]; try reflexivity; lia.
  - symmetry. destruct (fin x) eqn:Hf; [|reflexivity].
    apply num_fin in Hf. congruence.
Qed.

Lemma add_le a a' b b' :
  fin a = true -> fin a' = true -> fin b = true -> fin b' = true ->
  R a <= R a' -> R b <= R b' -> le (a + b) (a' + b').
Proof.
  intros Ha Ha' Hb Hb' H1 H2.
  destruct (add_R a b Ha Hb) as [Hn HR], (add_R a' b' Ha' Hb') as [Hn' HR'].
  split; [exact Hn|]. split; [exact Hn'|]. rewrite HR, HR'. apply near_mono. lia.
Qed.

Lemma positive_constant c s m e :
  Prim2SF c = S754_finite s m e -> s = false -> - K <= e <= 0 -> 0 < R c.
Proof.
  intros E -> He. destruct (R_finite c false m e E He) as [_ HR]. cbn [cond_Zopp] in HR.
  pose proof K_ge. pose proof (pow2_pos K ltac:(lia)). pose proof (pow2_pos (- e) ltac:(lia)).
  nia.
Qed.

(** The three luminance weights. *)
Lemma weight_R : bounded 1 0.299 /\ 0 < R 0.299 /\ bounded 1 0.587 /\ 0 < R 0.587
                 /\ bounded 1 0.114 /\ 0 < R 0.114.
Proof.
  pose proof K_ge.
  repeat split;
    try (eapply bounded_finite;
         [vm_compute; reflexivity | lia | apply Z.leb_le; vm_compute; reflexivity]);
    (eapply positive_constant; [vm_compute; reflexivity | reflexivity | lia]).
Qed.

Lemma le_Z2F n n' : 0 <= n <= n' -> n' < 2 ^ 53 -> le (Z2F n) (Z2F n').
Proof.
  intros Hn Hn'. destruct (R_Z2F n ltac:(lia)) as [Hf HR], (R_Z2F n' ltac:(lia)) as [Hf' HR'].
  split; [by apply num_fin|]. split; [by apply num_fin|]. rewrite HR, HR'.
  pose proof K_ge. pose proof (pow2_pos K ltac:(lia)). nia.
Qed.

Lemma weighted_byte c r :
  bounded 1 c -> byte r -> bounded 255 (c * Z2F r).
Proof.
  intros Hc Hr. change 255 with (1 * 255).
  apply bounded_mul; [exact Hc | apply bounded_Z2F; unfold byte in Hr; lia | lia].
Qed.

Lemma grayscale_bounded r g b :
  byte r -> byte g -> byte b -> bounded 765 (grayscale (Z2F r) (Z2F g) (Z2F b)).
Proof.
  intros Hr Hg Hb. destruct weight_R as (H1 & _ & H2 & _ & H3 & _).
  unfold grayscale. change 765 with (255 + 255 + 255).
  apply bounded_add; [apply bounded_add | | lia]; try lia; by apply weighted_byte.
Qed.

Lemma grayscale_mono r g b r' g' b' :
  byte r -> byte g -> byte b -> byte r' -> byte g' -> byte b' ->
  r <= r' -> g <= g' -> b <= b' ->
  le (grayscale (Z2F r) (Z2F g) (Z2F b)) (grayscale (Z2F r') (Z2F g') (Z2F b')).
Proof.
  intros Hr Hg Hb Hr' Hg' Hb' H1 H2 H3. unfold byte in *.
  destruct weight_R as (B1 & P1 & B2 & P2 & B3 & P3).
  pose proof (mul_pos_l_mono 0.299 _ _ (proj1 B1) P1 (le_Z2F r r' ltac:(lia) ltac:(lia)))
    as (_ & _ & L1).
  pose proof (mul_pos_l_mono 0.587 _ _ (proj1 B2) P2 (le_Z2F g g' ltac:(lia) ltac:(lia)))
    as (_ & _ & L2).
  pose proof (mul_pos_l_mono 0.114 _ _ (proj1 B3) P3 (le_Z2F b b' ltac:(lia) ltac:(lia)))
    as (_ & _ & L3).
  assert (forall c v, bounded 1 c -> 0 <= v <= 255 -> fin (c * Z2F v) = true) as Hfin.
  { intros c v Hc Hv. apply (weighted_byte c v Hc). exact Hv. }
  unfold grayscale.
  assert (le (0.299 * Z2F r + 0.587 * Z2F g) (0.299 * Z2F r' + 0.587 * Z2F g')) as L12
    by (apply add_le; auto).
  assert (forall v w, 0 <= v <= 255 -> 0 <= w <= 255 ->
                      fin (0.299 * Z2F v + 0.587 * Z2F w) = true) as Hfin2.
  { intros v w Hv Hw.
    apply (bounded_add 255 255); [by apply weighted_byte | by apply weighted_byte | lia]. }
  apply add_le; auto. apply L12.
Qed.


(** *** Exact zeros *)

Lemma bounded_0 x : bounded 0 x <-> fin x = true /\ R x = 0.
Proof. unfold bounded. rewrite Z.mul_0_l. split; intros [Hf Hx]; (split; [exact Hf | lia]). Qed.

Lemma bounded_0_zero : bounded 0 0.
Proof. apply bounded_0. split; reflexivity. Qed.

Lemma sub_self x : fin x = true -> bounded 0 (x - x).
Proof.
  intros Hx. destruct (sub_R x x Hx Hx) as [Hn HR].
  apply bounded_fin; [exact Hn | lia |]. rewrite HR, Z.sub_diag, near_0. lia.
Qed.

Lemma sum_zeros l : Forall (bounded 0) l -> bounded 0 (Spec.sum l).
Proof.
  unfold Spec.sum. intros Hl.
  assert (bounded 0 0%float) as H0 by apply bounded_0_zero.
  revert H0. generalize 0%float as acc.
  induction Hl as [|z l Hz Hl IH]; intros acc Hacc; [exact Hacc|].
  cbn [foldl]. apply IH. change 0 with (0 + 0). apply bounded_add; [exact Hacc | exact Hz | lia].
Qed.

Lemma zero_cases x : bounded 0 x -> exists s, Prim2SF x = S754_zero s.
Proof.
  intros Hx. apply bounded_0 in Hx as [Hf HR]. unfold fin, R in *.
  pose proof (Prim2SF_valid x) as Hv.
  destruct (Prim2SF x) as [s|s| |s m e]; try discriminate; [by exists s|].
  pose proof (finite_lt_TOP K K_ge s m e Hv). cbn [rank] in HR.
  destruct s; cbn [cond_Zopp] in HR; lia.
Qed.

Lemma nonzero_cases y :
  fin y = true -> R y <> 0 -> exists s m e, Prim2SF y = S754_finite s m e.
Proof.
  intros Hf HR. unfold fin, R in *.
  destruct (Prim2SF y) as [s|s| |s m e]; try discriminate; [cbn in HR; lia|].
  by exists s, m, e.
Qed.

Lemma div_zero x y : bounded 0 x -> fin y = true -> R y <> 0 -> bounded 0 (x / y).
Proof.
  intros Hx Hy HR.
  destruct (zero_cases x Hx) as [sx Ex], (nonzero_cases y Hy HR) as (sy & my & ey & Ey).
  apply bounded_0. unfold fin, R. rewrite div_spec, Ex, Ey. split; reflexivity.
Qed.

Lemma mul_zero_l z a : bounded 0 z -> fin a = true -> bounded 0 (z * a).
Proof.
  intros Hz Ha. apply bounded_0 in Hz as [Hf HR].
  destruct (mul_R z a Hf Ha) as [Hn HR'].
  apply bounded_fin; [exact Hn | lia |].
  rewrite HR', HR, Z.mul_0_l, Z.div_0_l, near_0; [lia|].
  pose proof K_ge. pose proof (pow2_pos K ltac:(lia)). lia.
Qed.

(** Two numbers with the same exact value are stored as the same sample. *)
Lemma same_sample u v :
  num u = num v -> R u = R v -> ToUint8Clamp u = ToUint8Clamp v.
Proof.
  intros Hn HR. destruct (num v) eqn:Hv.
  - rewrite !ToUint8Clamp_R, HR by assumption. reflexivity.
  - rewrite !ToUint8Clamp_nan by assumption. reflexivity.
Qed.

Lemma sub_zero_r x z : fin x = true -> bounded 0 z -> num (x - z) = true /\ R (x - z) = R x.
Proof.
  intros Hx Hz. apply bounded_0 in Hz as [Hf HR].
  destruct (sub_R x z Hx Hf) as [Hn HR']. split; [exact Hn|].
  rewrite HR', HR, Z.sub_0_r. apply near_R.
Qed.

Lemma add_zero_l z x : bounded 0 z -> fin x = true -> num (z + x) = true /\ R (z + x) = R x.
Proof.
  intros Hz Hx. apply bounded_0 in Hz as [Hf HR].
  destruct (add_R z x Hf Hx) as [Hn HR']. split; [exact Hn|].
  rewrite HR', HR, Z.add_0_l. apply near_R.
Qed.

Lemma same_R_fin u v : num u = true -> num v = true -> R u = R v -> fin u = fin v.
Proof. intros Hu Hv HR. rewrite (fin_R u Hu), (fin_R v Hv), HR. reflexivity. Qed.

(** The explicit clamp to 0..255 does not change the stored sample. *)
Lemma stored_unclamped z : ToUint8Clamp (clamp z 0 255) = ToUint8Clamp z.
Proof.
  rewrite stored_sample. destruct (num z) eqn:Hn.
  - symmetry. by apply ToUint8Clamp_R.
  - symmetry. by apply ToUint8Clamp_nan.
Qed.


Lemma unit_pos : 0 < 2 ^ K.
Proof. pose proof K_ge. apply Z.pow_pos_nonneg; lia. Qed.


(** *** Division *)

(** The quotient of a finite number by a finite non-zero one is a number;
    its magnitude [rho] (before overflow) lies between the two neighbours
    [lo] and [lo + ulp] of the exact quotient, and its sign is the product
    of the signs. *)
Lemma div_R x y :
  fin x = true -> fin y = true -> R y <> 0 ->
  num (x / y) = true /\
  exists lo ulp rho,
    0 <= lo /\ lo <= rho <= lo + ulp /\ 0 < ulp /\
    2 ^ 52 * ulp <= lo + 2 ^ (K - 1022) /\
    lo * Z.abs (R y) <= Z.abs (R x) * 2 ^ K /\
    Z.abs (R x) * 2 ^ K < (lo + ulp) * Z.abs (R y) /\
    R (x / y) = Z.sgn (R x) * Z.sgn (R y) * Z.min rho top.
Proof.
  intros Hx Hy HRy. pose proof K_ge as HK. pose proof unit_pos as HpK.
  destruct (nonzero_cases y Hy HRy) as (sy & my & ey & Ey).
  pose proof (Prim2SF_valid y) as Hvy. rewrite Ey in Hvy.
  pose proof (finite_lt_TOP K K_ge sy my ey Hvy) as Hpy.
  assert (Z.abs (R y) = Zpos my * 2 ^ (ey + K) /\ Z.sgn (R y) = if sy then -1 else 1)
    as [Eay Esy].
  { unfold R. rewrite Ey. cbn [rank]. destruct sy; cbn [cond_Zopp]; lia. }
  destruct (finite_cases x Hx) as [sx [Ex | (mx & ex & Ex)]].
  - (* a zero numerator *)
    assert (R x = 0) as HRx by (unfold R; rewrite Ex; reflexivity).
    assert (num (x / y) = true /\ R (x / y) = 0) as [Hn HR].
    { unfold num, R. rewrite div_spec, Ex, Ey. split; reflexivity. }
    split; [exact Hn|].
    exists 0, (2 ^ (K - 1074)), 0.
    pose proof (RoundingFacts.pow2_pos (K - 1074) ltac:(lia)).
    rewrite HR, HRx, Eay. split; [lia|]. split; [lia|]. split; [lia|].
    split; [|split; [|split]].
    + rewrite <- Z.pow_add_r by lia. rewrite Z.add_0_l.
      apply Z.pow_le_mono_r; lia.
    + cbn. lia.
    + cbn [Z.abs]. rewrite Z.mul_0_l, Z.add_0_l. apply Z.mul_pos_pos; lia.
    + cbn. reflexivity.
  - pose proof (Prim2SF_valid x) as Hvx. rewrite Ex in Hvx.
    pose proof (finite_lt_TOP K K_ge sx mx ex Hvx) as Hpx.
    assert (Z.abs (R x) = Zpos mx * 2 ^ (ex + K) /\ Z.sgn (R x) = if sx then -1 else 1)
      as [Eax Esx].
    { unfold R. rewrite Ex. cbn [rank]. destruct sx; cbn [cond_Zopp]; lia. }
    destruct (SFdiv_faithful K K_ge sx mx ex sy my ey Hvx Hvy)
      as (lo & ulp & rho & Hlo & Hulp & Hstep & Hlow & Hupp & Hrho & Hn & HR).
    assert (Prim2SF (x / y) = SF64div (S754_finite sx mx ex) (S754_finite sy my ey)) as Ed
      by (rewrite div_spec, Ex, Ey; reflexivity).
    split; [unfold num; rewrite Ed; exact Hn|].
    exists lo, ulp, rho. rewrite Eax, Eay, Esx, Esy.
    split; [exact Hlo|]. split; [exact Hrho|]. split; [exact Hulp|].
    split; [exact Hstep|]. split; [exact Hlow|]. split; [exact Hupp|].
    unfold R. rewrite Ed, HR. fold top. generalize (Z.min rho top). intros v.
    destruct sx, sy; cbn [xorb cond_Zopp]; lia.
Qed.

Lemma div_num x y : num (x / y) = true -> num x = true /\ num y = true.
Proof.
  unfold num. rewrite div_spec.
  destruct (Prim2SF x) as [| | |], (Prim2SF y) as [| | |]; cbn; auto; discriminate.
Qed.

(** Dividing by a number of magnitude at least 1 does not increase the
    magnitude by more than one unit. *)
Lemma div_bounded B x y :
  bounded B x -> fin y = true -> 2 ^ K <= Z.abs (R y) -> B <= 2 ^ 51 ->
  bounded (B + 1) (x / y).
Proof.
  intros Hx Hy Hy1 HB. pose proof K_ge as HK. pose proof unit_pos as HpK.
  pose proof (bounded_nonneg _ _ Hx) as HB0. destruct Hx as [Hfx Hx].
  destruct (div_R x y Hfx Hy ltac:(lia))
    as (Hn & lo & ulp & rho & Hlo & Hrho & Hulp & Hstep & Hlow & _ & HR).
  assert (2 ^ 51 < 2 ^ 53) as H5153 by (apply Z.pow_lt_mono_r; lia).
  apply bounded_fin; [exact Hn | lia |].
  assert (lo <= B * 2 ^ K) as Hlo'.
  { assert (lo * 2 ^ K <= B * 2 ^ K * 2 ^ K); [|nia].
    transitivity (lo * Z.abs (R y)); [apply Z.mul_le_mono_nonneg_l; lia|].
    transitivity (Z.abs (R x) * 2 ^ K); [exact Hlow|].
    apply Z.mul_le_mono_nonneg_r; lia. }
  assert (ulp <= 2 ^ K) as Hulp'.
  { assert (2 ^ (K - 1022) <= 2 ^ K) by (apply Z.pow_le_mono_r; lia).
    assert (2 ^ 52 * ulp <= 2 ^ 52 * 2 ^ K); [|nia].
    replace (2 ^ 52) with (2 * 2 ^ 51) at 2 by (rewrite <- Z.pow_succ_r by lia; reflexivity).
    nia. }
  rewrite HR. pose proof top_pos.
  assert (0 <= Z.min rho top <= (B + 1) * 2 ^ K) as Hm by lia.
  revert Hm. generalize (Z.min rho top). intros v Hv.
  destruct (Z.sgn_spec (R x)) as [[_ ->] | [[_ ->] | [_ ->]]],
    (Z.sgn_spec (R y)) as [[_ ->] | [[_ ->] | [_ ->]]]; lia.
Qed.

Lemma div_nonneg x y :
  fin x = true -> fin y = true -> 0 <= R x -> 0 < R y ->
  num (x / y) = true /\ 0 <= R (x / y).
Proof.
  intros Hx Hy Hx0 Hy0.
  destruct (div_R x y Hx Hy ltac:(lia))
    as (Hn & lo & ulp & rho & Hlo & Hrho & _ & _ & _ & _ & HR).
  split; [exact Hn|]. rewrite HR. pose proof top_pos.
  assert (0 <= Z.min rho top) by lia.
  assert (0 <= Z.sgn (R x)) by (apply Z.sgn_nonneg; lia).
  assert (Z.sgn (R y) = 1) as -> by (apply Z.sgn_pos; lia).
  nia.
Qed.


(** *** Sums, and adding a finite number *)

Lemma add_r_R b z :
  fin b = true -> num z = true ->
  num (z + b) = true /\ R (z + b) = if fin z then near (R z + R b) else R z.
Proof.
  intros Fb Nz. destruct (fin z) eqn:Fz; [by apply add_R|].
  unfold num, R, fin in *. rewrite add_spec.
  destruct (Prim2SF z) as [s|s| |s mz ez]; try discriminate.
  destruct (Prim2SF b) as [sb|sb| |sb mb eb]; try discriminate; cbn; auto.
Qed.

Lemma add_r_mono b x y : fin b = true -> le x y -> le (x + b) (y + b).
Proof.
  intros Fb. apply (monotone_extended (fun v => v + R b) (fun z => add z b)).
  - intros. lia.
  - intros. by apply add_r_R.
Qed.

Lemma sum_bounded B l :
  Forall (bounded B) l -> 0 <= B -> B * Z.of_nat (length l) < 2 ^ 53 ->
  bounded (B * Z.of_nat (length l)) (Spec.sum l).
Proof.
  unfold Spec.sum. intros Hl HB.
  enough (forall acc A, bounded A acc -> A + B * Z.of_nat (length l) < 2 ^ 53 ->
            bounded (A + B * Z.of_nat (length l)) (foldl PrimFloat.add acc l)) as H.
  { intros Hlen. apply (H 0%float 0); [apply bounded_0_zero | lia]. }
  induction Hl as [|z l Hz Hl IH]; intros acc A Hacc Hlen.
  - cbn [foldl length]. eapply bounded_weaken; [|exact Hacc]. lia.
  - cbn [foldl]. rewrite length_cons, Nat2Z.inj_succ in *.
    replace (A + B * Z.succ (Z.of_nat (length l))) with ((A + B) + B * Z.of_nat (length l))
      by lia.
    pose proof (bounded_nonneg _ _ Hacc).
    apply IH; [|lia]. apply bounded_add; [exact Hacc | exact Hz | nia].
Qed.

(** A zero times a number that is not finite is NaN. *)
Lemma zero_product_sample z a f :
  bounded 0 z -> fin f = true -> ToUint8Clamp (z * a * f) = 0.
Proof.
  intros Hz Hf. destruct (fin a) eqn:Ha.
  - pose proof (mul_zero_l _ f (mul_zero_l _ a Hz Ha) Hf) as H.
    apply bounded_0 in H as [Hfin HR].
    rewrite ToUint8Clamp_R by (by apply num_fin). rewrite HR. reflexivity.
  - apply ToUint8Clamp_nan.
    destruct (num (z * a * f)) eqn:E; [|reflexivity].
    apply mul_num in E as [E _]. exfalso.
    destruct (zero_cases z Hz) as [s Ez].
    unfold num, fin in *. rewrite mul_spec, Ez in E.
    destruct (Prim2SF a) as [| | |]; cbn in *; discriminate.
Qed.


(** *** Numbers given by their value *)

Lemma R_inj x y : fin x = true -> fin y = true -> R x = R y -> R x <> 0 -> x = y.
Proof.
  intros Hx Hy HR Hnz.
  destruct (nonzero_cases x Hx Hnz) as (sx & mx & ex & Ex).
  destruct (nonzero_cases y Hy ltac:(congruence)) as (sy & my & ey & Ey).
  apply Prim2SF_inj. rewrite Ex, Ey.
  pose proof (Prim2SF_valid x) as Vx. pose proof (Prim2SF_valid y) as Vy.
  rewrite Ex in Vx. rewrite Ey in Vy.
  apply (finite_rank_inj K K_ge); [exact Vx | exact Vy |].
  unfold R in HR. rewrite Ex, Ey in HR. exact HR.
Qed.

Lemma ldexp_R m e :
  0 < m < 2 ^ 53 -> -1074 <= e <= 970 ->
  num (Z.ldexp (Z2F m) e) = true /\ R (Z.ldexp (Z2F m) e) = m * 2 ^ (e + K).
Proof.
  intros Hm He. pose proof K_ge. pose proof unit_pos.
  destruct (R_Z2F m ltac:(lia)) as [Hf HR].
  destruct (positive_finite (Z2F m) Hf ltac:(rewrite HR; nia)) as (mp & ep & Ep).
  pose proof (Prim2SF_valid (Z2F m)) as Vp. rewrite Ep in Vp.
  apply valid_finite in Vp as (Hep & _).
  unfold R in HR. rewrite Ep in HR. cbn [rank cond_Zopp] in HR.
  unfold num, R. rewrite Z_ldexp_spec, Ep. cbn [SFldexp].
  destruct (binary_round_rank K K_ge false mp (ep + e) ltac:(lia)) as [Hn Hr].
  split; [exact Hn|]. rewrite Hr. cbn [cond_Zopp].
  assert (Zpos mp * 2 ^ (ep + e + K) = m * 2 ^ (e + K)) as ->.
  { destruct (Z.le_gt_cases 0 e) as [Hpos | Hneg].
    - replace (2 ^ (ep + e + K)) with (2 ^ (ep + K) * 2 ^ e)
        by (rewrite <- Z.pow_add_r by lia; f_equal; lia).
      replace (2 ^ (e + K)) with (2 ^ K * 2 ^ e)
        by (rewrite <- Z.pow_add_r by lia; f_equal; lia).
      rewrite !Z.mul_assoc, HR. reflexivity.
    - apply (Z.mul_reg_r _ _ (2 ^ (- e))); [apply Z.pow_nonzero; lia|].
      rewrite <- !Z.mul_assoc, <- !Z.pow_add_r by lia.
      replace (ep + e + K + - e) with (ep + K) by lia.
      replace (e + K + - e) with K by lia. exact HR. }
  apply (near_exact m (e + K)); lia.
Qed.

Lemma SF2Prim_finite_R s m e :
  Zpos m < 2 ^ 53 -> -1074 <= e <= 970 ->
  fin (SF2Prim (S754_finite s m e)) = true /\
  R (SF2Prim (S754_finite s m e)) = cond_Zopp s (Zpos m * 2 ^ (e + K)).
Proof.
  intros Hm He. pose proof K_ge. pose proof unit_pos.
  destruct (ldexp_R (Zpos m) e ltac:(lia) He) as [Hn HR].
  assert (fin (Z.ldexp (Z2F (Zpos m)) e) = true) as Hf.
  { rewrite (fin_R _ Hn), HR. pose proof top_pos.
    pose proof (RoundingFacts.pow2_pos (e + K) ltac:(lia)).
    assert (Zpos m * 2 ^ (e + K) < top).
    { unfold top, TOP.
      assert (2 ^ (e + K) <= 2 ^ (970 + K)) by (apply Z.pow_le_mono_r; lia).
      replace (2 ^ (1024 + K)) with (2 ^ 54 * 2 ^ (970 + K))
        by (rewrite <- Z.pow_add_r by lia; f_equal; lia).
      assert (2 ^ 53 < 2 ^ 54) by (apply Z.pow_lt_mono_r; lia). nia. }
    apply andb_true_iff. rewrite !Z.ltb_lt. nia. }
  cbn [SF2Prim]. fold (Z2F (Zpos m)).
  destruct s; cbn [cond_Zopp].
  - destruct (opp_R (Z.ldexp (Z2F (Zpos m)) e)) as (_ & Hf' & HR').
    rewrite Hf', HR', HR. auto.
  - rewrite HR. auto.
Qed.

(** [Math.fround] of a finite number of magnitude at most [2^T]: a finite
    number with a mantissa of at most 24 bits. *)
Lemma fround_R v T :
  fin v = true -> Z.abs (R v) <= 2 ^ (T + K) -> -149 <= T <= 104 ->
  fin (fround v) = true /\ Z.abs (R (fround v)) <= 2 ^ (T + 1 + K) /\
  (0 <= R v -> 0 <= R (fround v)) /\
  exists m2 e2, 0 <= m2 < 2 ^ 24 /\ -149 <= e2 <= 104 /\
                Z.abs (R (fround v)) = m2 * 2 ^ (e2 + K).
Proof.
  intros Hf Hv HT. pose proof K_ge. pose proof unit_pos.
  pose proof (RoundingFacts.pow2_pos (T + 1 + K) ltac:(lia)) as HpT.
  assert (0 < 2 ^ 24) as H24' by reflexivity.
  destruct (finite_cases v Hf) as [s [Ez | (m & e & Ef)]].
  - unfold fround. rewrite Ez. split; [exact Hf|].
    assert (R v = 0) as -> by (unfold R; rewrite Ez; reflexivity).
    split; [cbn; lia|]. split; [lia|]. exists 0, 0. cbn. lia.
  - pose proof (Prim2SF_valid v) as Vv. rewrite Ef in Vv.
    pose proof (finite_lt_TOP K K_ge s m e Vv) as [Pv _].
    apply valid_finite in Vv as (He & _).
    assert (R v = cond_Zopp s (Zpos m * 2 ^ (e + K))) as ERv by (unfold R; rewrite Ef; reflexivity).
    assert (Zpos m * 2 ^ (e + K) <= 2 ^ (T + K)) as Hv'
      by (rewrite ERv in Hv; destruct s; cbn [cond_Zopp] in Hv; lia).
    unfold fround. rewrite Ef.
    destruct (binary_round_single K K_ge s m e T ltac:(lia) HT Hv')
      as [-> | (m2 & e2 & -> & H24 & He2 & Hv2)].
    + split; [destruct s; reflexivity|].
      assert (R (SF2Prim (S754_zero s)) = 0) as -> by (destruct s; reflexivity).
      split; [cbn; lia|]. split; [lia|]. exists 0, 0. cbn. lia.
    + assert (2 ^ 24 < 2 ^ 53) by (apply Z.pow_lt_mono_r; lia).
      destruct (SF2Prim_finite_R s m2 e2 ltac:(lia) ltac:(lia)) as [Hf2 HR2].
      split; [exact Hf2|]. rewrite HR2, ERv.
      pose proof (RoundingFacts.pow2_pos (e2 + K) ltac:(lia)).
      split; [destruct s; cbn [cond_Zopp]; nia|].
      split; [destruct s; cbn [cond_Zopp]; nia|].
      exists (Zpos m2), e2. split; [lia|]. split; [lia|].
      destruct s; cbn [cond_Zopp]; nia.
Qed.


(** *** Numbers that stay numbers *)

Lemma square_num x : num x = true -> num (x * x) = true.
Proof.
  intros Hn. destruct (fin x) eqn:Fx; [by apply mul_R|].
  unfold num, fin in *. rewrite mul_spec.
  destruct (Prim2SF x) as [s|s| |s m e]; try discriminate. reflexivity.
Qed.

Lemma add_nonneg_num a b :
  num a = true -> num b = true -> 0 <= R a -> 0 <= R b -> num (a + b) = true.
Proof.
  intros Na Nb Ha Hb. pose proof top_pos.
  destruct (fin a) eqn:Fa, (fin b) eqn:Fb.
  - by apply add_R.
  - destruct (infinite_R b Nb Fb) as [Eb|Eb]; [|lia].
    unfold num, fin, R in *. rewrite add_spec.
    destruct (Prim2SF a) as [sa|sa| |sa ma ea], (Prim2SF b) as [sb|sb| |sb mb eb];
      try discriminate; reflexivity.
  - destruct (infinite_R a Na Fa) as [Ea|Ea]; [|lia].
    unfold num, fin, R in *. rewrite add_spec.
    destruct (Prim2SF a) as [sa|sa| |sa ma ea], (Prim2SF b) as [sb|sb| |sb mb eb];
      try discriminate; reflexivity.
  - destruct (infinite_R a Na Fa) as [Ea|Ea]; [|lia].
    destruct (infinite_R b Nb Fb) as [Eb|Eb]; [|lia].
    unfold num, fin, R in *. rewrite add_spec.
    destruct (Prim2SF a) as [sa|sa| |sa ma ea], (Prim2SF b) as [sb|sb| |sb mb eb];
      try discriminate; destruct sa, sb; cbn in *; try reflexivity; lia.
Qed.

(** The length of the candidate vector is a number whenever its first two
    components are. *)
Lemma normalLen_num nx ny :
  num nx = true -> num ny = true -> num (normalLen nx ny 1) = true.
Proof.
  intros Nx Ny. unfold normalLen. change (1 * 1)%float with 1%float.
  pose proof (square_num nx Nx) as Sx. pose proof (square_num ny Ny) as Sy.
  pose proof (add_nonneg_num _ _ Sx Sy (square_nonneg _ Sx) (square_nonneg _ Sy)) as Ns.
  pose proof (add_nonneg _ _ Ns (square_nonneg _ Sx) (square_nonneg _ Sy)) as Hs.
  assert (num (nx * nx + ny * ny + 1) = true) as Nt.
  { apply add_nonneg_num; [exact Ns | reflexivity | exact Hs |]. rewrite R_1.
    pose proof unit_pos. lia. }
  apply sqrt_ge_1; [exact Nt|]. by apply add_1_ge_1.
Qed.

(** At least 1/2 once 1 is added to the reciprocal of the length and the
    sum is halved: the blue sample is at least 128. *)
Lemma blue_ge_128 len :
  num len = true -> 2 ^ K <= R len -> 128 <= ToUint8Clamp (Spec.encode 1 len).
Proof.
  intros Hn Hge. pose proof unit_pos.
  assert (bounded 2 (1 / len) /\ 0 <= R (1 / len)) as [[Hf _] H0].
  { destruct (fin len) eqn:Hfl.
    - assert (fin 1 = true) as H1 by reflexivity.
      destruct (div_nonneg 1 len H1 Hfl ltac:(rewrite R_1; lia) ltac:(lia)) as [_ H0].
      split; [|exact H0]. change 2 with (1 + 1).
      apply div_bounded; [| exact Hfl | lia | ].
      + split; [exact H1|]. rewrite R_1. lia.
      + change 1 with (2 ^ 0). apply Z.pow_le_mono_r; lia.
    - destruct (infinite_cases len Hn Hfl) as [s ->].
      rewrite R_infinity in Hge. pose proof top_pos.
      destruct s; [lia|]. change (1 / SF2Prim (S754_infinity false))%float with 0%float.
      split; [|rewrite R_0; lia]. apply (bounded_weaken 0); [lia | apply bounded_0_zero]. }
  assert (le (0 + 1) (1 / len + 1)) as L1.
  { apply add_le; try reflexivity; [exact Hf | rewrite R_0; exact H0]. }
  pose proof (mul_pos_r_mono 0.5 _ _ (proj1 R_half)
                ltac:(rewrite (proj2 R_half); apply Z.pow_pos_nonneg;
                      pose proof K_ge; lia) L1) as L2.
  pose proof (mul_pos_r_mono 255 _ _ fin_255 ltac:(rewrite R_255; lia) L2) as L3.
  apply stored_mono in L3. rewrite !stored_unclamped in L3. exact L3.
Qed.


(** A bound checked by evaluation. *)
Lemma bounded_check B z :
  0 <= B < 2 ^ 53 -> is_finite z = true -> (abs z <=? Z2F B)%float = true -> bounded B z.
Proof.
  intros HB Hf Hle. rewrite is_finite_fin in Hf. split; [exact Hf|].
  destruct (abs_R z) as (Hn & _ & HR). destruct (R_Z2F B HB) as [HfB HRB].
  rewrite leb_R in Hle by (rewrite ?Hn; auto using num_fin).
  rewrite HR, HRB in Hle. by apply Z.leb_le in Hle.
Qed.

Lemma near_multiple c m e :
  0 <= m < 2 ^ 24 -> -149 <= e <= 104 -> Z.abs c <= 2 ^ 20 ->
  near (c * (m * 2 ^ (e + K))) = c * (m * 2 ^ (e + K)).
Proof.
  intros Hm He Hc. pose proof K_ge.
  assert (2 ^ 20 * 2 ^ 24 < 2 ^ 53) as H44 by reflexivity.
  assert (0 < 2 ^ 20) by reflexivity.
  assert (forall d, 0 <= d <= 2 ^ 20 ->
            near (d * (m * 2 ^ (e + K))) = d * (m * 2 ^ (e + K))) as Hpos.
  { intros d Hd. rewrite Z.mul_assoc. apply near_exact; [nia | lia]. }
  destruct (Z.le_gt_cases 0 c) as [Hc0 | Hc0].
  - apply Hpos. lia.
  - replace (c * (m * 2 ^ (e + K))) with (- (- c * (m * 2 ^ (e + K)))) by ring.
    rewrite near_opp, Hpos by lia. reflexivity.
Qed.

Lemma near_multiple_of H c m e :
  Z.abs H = m * 2 ^ (e + K) ->
  0 <= m < 2 ^ 24 -> -149 <= e <= 104 -> Z.abs c <= 2 ^ 20 ->
  near (c * H) = c * H.
Proof.
  intros EH Hm He Hc.
  destruct (Z.abs_spec H) as [[_ E] | [_ E]]; rewrite E in EH.
  - rewrite EH. by apply near_multiple.
  - replace (c * H) with (- c * (- H)) by ring. rewrite EH.
    apply near_multiple; auto. lia.
Qed.


(** A zero is one of the two signed zeros. *)
Lemma zero_float z : bounded 0 z -> z = 0%float \/ z = (-0)%float.
Proof.
  intros Hz. destruct (zero_cases z Hz) as [s Hs].
  rewrite <- (SF2Prim_Prim2SF z), Hs. destruct s; [right | left]; reflexivity.
Qed.

(** The small integers the gradient kernels are made of. *)
Lemma small_int_R k c :
  -2 <= c <= 2 -> k = (if c <? 0 then (- Z2F (- c))%float else Z2F c) ->
  fin k = true /\ R k = c * 2 ^ K.
Proof.
  intros Hc ->. assert (2 < 2 ^ 53) by reflexivity.
  destruct (Z.ltb_spec c 0).
  - destruct (R_Z2F (- c) ltac:(lia)) as [Hf HR], (opp_R (Z2F (- c))) as (_ & Hf' & HR').
    rewrite Hf', HR', HR. split; [exact Hf | ring].
  - apply R_Z2F. lia.
Qed.

(** A product of a single-precision height and a small integer is exact. *)
Lemma scaled_term h k c m e :
  bounded 2048 h -> Z.abs (R h) = m * 2 ^ (e + K) ->
  0 <= m < 2 ^ 24 -> -149 <= e <= 104 ->
  fin k = true -> R k = c * 2 ^ K -> Z.abs c <= 2 ->
  fin (h * k) = true /\ R (h * k) = c * R h.
Proof.
  intros Hh EH Hm He Hk Rk Hc. pose proof unit_pos as Hu.
  assert (bounded 2 k) as Hbk.
  { split; [exact Hk|]. rewrite Rk, Z.abs_mul, (Z.abs_eq (2 ^ K)) by lia. nia. }
  destruct (bounded_mul 2048 2 h k Hh Hbk eq_refl) as [Hf _].
  split; [exact Hf|].
  destruct (mul_R h k (proj1 Hh) Hk) as [_ HR]. rewrite HR, Rk.
  replace (R h * (c * 2 ^ K)) with (c * R h * 2 ^ K) by ring.
  rewrite Z.div_mul by lia. apply (near_multiple_of _ c m e); auto.
  assert (2 <= 2 ^ 20) by (vm_compute; discriminate). lia.
Qed.

(** A sum of small integer multiples of one single-precision height is
    computed without rounding. *)
Lemma weighted_sum h m e :
  bounded 2048 h -> Z.abs (R h) = m * 2 ^ (e + K) ->
  0 <= m < 2 ^ 24 -> -149 <= e <= 104 ->
  forall l cs, Forall2 (λ z c, (fin z = true /\ R z = c * R h) /\ Z.abs c <= 2) l cs ->
  forall acc A, fin acc = true -> R acc = A * R h ->
    Z.abs A + 2 * Z.of_nat (length cs) <= 2 ^ 20 ->
    fin (foldl PrimFloat.add acc l) = true /\
    R (foldl PrimFloat.add acc l) = (A + foldr Z.add 0 cs) * R h.
Proof.
  intros Hh EH Hm He l cs Hl. pose proof unit_pos as Hu.
  induction Hl as [|z c l cs [[Hfz HRz] Hc] Hl IH]; intros acc A Hf HR HA.
  - cbn [foldl foldr]. rewrite Z.add_0_r. auto.
  - cbn [foldl foldr length] in *.
    destruct (add_R acc z Hf Hfz) as [Hn HR'].
    assert (R (acc + z) = (A + c) * R h) as HR2.
    { rewrite HR', HR, HRz, <- Z.mul_add_distr_r.
      apply (near_multiple_of _ _ m e); auto. lia. }
    assert (fin (acc + z) = true) as Hf2.
    { assert (2 ^ 20 * 2048 < 2 ^ 53) by reflexivity.
      assert (0 < 2 ^ 20) by reflexivity.
      apply (bounded_fin _ (2 ^ 20 * 2048)); [exact Hn | lia |].
      rewrite HR2, Z.abs_mul. destruct Hh as [_ Hh].
      pose proof (Z.abs_nonneg (R h)). pose proof (Z.abs_nonneg (A + c)).
      assert (Z.abs (A + c) <= 2 ^ 20) by lia.
      generalize dependent (Z.abs (R h)). generalize dependent (Z.abs (A + c)).
      generalize dependent (2 ^ 20). generalize dependent (2 ^ K). clear. intros. nia. }
    destruct (IH (acc + z)%float (A + c) Hf2 HR2 ltac:(lia)) as [Hf3 HR3].
    split; [exact Hf3|]. rewrite HR3. f_equal. lia.
Qed.


Lemma mul_zero_r x z : fin x = true -> bounded 0 z -> bounded 0 (x * z).
Proof.
  intros Hx Hz. apply bounded_0 in Hz as [Hf HR].
  destruct (mul_R x z Hx Hf) as [Hn HR'].
  apply bounded_fin; [exact Hn | lia |].
  rewrite HR', HR, Z.mul_0_r, Z.div_0_l, near_0; [lia|].
  pose proof unit_pos. lia.
Qed.

Lemma sqrt_R x :
  fin x = true -> 0 < R x ->
  num (sqrt x) = true /\
  exists lo ulp rho,
    0 <= lo /\ 0 < ulp /\ 2 ^ 52 * ulp <= lo + 2 ^ (K - 1022) /\
    lo * lo <= R x * 2 ^ K /\ R x * 2 ^ K < (lo + ulp) * (lo + ulp) /\
    lo <= rho <= lo + ulp /\ R (sqrt x) = Z.min rho top.
Proof.
  intros Hf Hp. destruct (positive_finite x Hf Hp) as (m & e & E).
  pose proof (Prim2SF_valid x) as Hv. rewrite E in Hv.
  destruct (SFsqrt_faithful K K_ge m e Hv)
    as (lo & ulp & rho & H1 & H2 & H3 & H4 & H5 & H6 & Hn & HR).
  unfold num, R in *. rewrite sqrt_spec, E in *. cbn [rank cond_Zopp] in *.
  split; [exact Hn|]. exists lo, ulp, rho. auto 10.
Qed.

(** The square root of a finite positive number is finite. *)
Lemma sqrt_fin x : fin x = true -> 0 < R x -> fin (sqrt x) = true.
Proof.
  intros Hf Hp. pose proof K_ge as HK. pose proof unit_pos as Hu.
  destruct (sqrt_R x Hf Hp) as (Hn & lo & ulp & rho & Hlo & Hulp & Hstep & Hlow & _ & Hrho & HR).
  pose proof (finite_R x Hf) as [_ Hx].
  assert (lo < 2 ^ (512 + K)) as Hlo'.
  { destruct (Z.lt_ge_cases lo (2 ^ (512 + K))) as [|Hge]; [assumption|exfalso].
    assert (2 ^ (512 + K) * 2 ^ (512 + K) <= lo * lo) as H
      by (apply Z.mul_le_mono_nonneg; try lia; apply Z.pow_nonneg; lia).
    rewrite <- Z.pow_add_r in H by lia.
    assert (R x * 2 ^ K < 2 ^ (1024 + K) * 2 ^ K) as H'
      by (apply Z.mul_lt_mono_pos_r; [lia | exact Hx]).
    rewrite <- Z.pow_add_r in H' by lia.
    replace (512 + K + (512 + K)) with (1024 + K + K) in H by lia. lia. }
  assert (2 ^ (K - 1022) <= 2 ^ (512 + K)) as Ht by (apply Z.pow_le_mono_r; lia).
  assert (2 ^ 52 = 4503599627370496) as E52 by reflexivity.
  assert (ulp <= 2 ^ (512 + K)) as Hulp' by lia.
  assert (rho < top) as Hrt.
  { unfold top, TOP.
    assert (2 * 2 ^ (512 + K) <= 2 ^ (1024 + K)); [|lia].
    rewrite <- Z.pow_succ_r by lia. apply Z.pow_le_mono_r; lia. }
  rewrite (fin_R _ Hn), HR, Z.min_l by lia.
  pose proof top_pos. apply andb_true_iff. rewrite !Z.ltb_lt. lia.
Qed.

(** *** Magnitudes bounded by a power of two *)

Lemma near_within_pow t v :
  0 <= t <= 971 -> Z.abs v <= 2 ^ t * 2 ^ K -> Z.abs (near v) <= 2 ^ t * 2 ^ K.
Proof.
  intros Ht Hv. pose proof K_ge.
  assert (2 ^ t * 2 ^ K = 1 * 2 ^ (t + K)) as E
    by (rewrite Z.pow_add_r by lia; ring).
  rewrite E in *.
  assert (near (1 * 2 ^ (t + K)) = 1 * 2 ^ (t + K)) as Ne
    by (apply near_exact; [split; [lia | reflexivity] | lia]).
  pose proof (near_mono v (1 * 2 ^ (t + K)) ltac:(lia)) as H1.
  pose proof (near_mono (- (1 * 2 ^ (t + K))) v ltac:(lia)) as H2.
  rewrite near_opp in H2. rewrite Ne in H1, H2. lia.
Qed.

Lemma bounded_pow_fin x t :
  num x = true -> 0 <= t <= 971 -> Z.abs (R x) <= 2 ^ t * 2 ^ K -> bounded (2 ^ t) x.
Proof.
  intros Hn Ht Hx. split; [|exact Hx]. pose proof K_ge.
  rewrite (fin_R x Hn).
  assert (2 ^ t * 2 ^ K < top).
  { unfold top, TOP. rewrite <- Z.pow_add_r by lia. apply Z.pow_lt_mono_r; lia. }
  apply andb_true_iff. rewrite !Z.ltb_lt. lia.
Qed.

Lemma bounded_mul_pow a b x y :
  0 <= a -> 0 <= b -> a + b <= 971 ->
  bounded (2 ^ a) x -> bounded (2 ^ b) y -> bounded (2 ^ (a + b)) (x * y).
Proof.
  intros Ha Hb Hab [Hfx Hx] [Hfy Hy].
  destruct (mul_R x y Hfx Hfy) as [Hn HR].
  apply bounded_pow_fin; [exact Hn | lia |].
  rewrite HR. apply near_within_pow; [lia|].
  rewrite Z.pow_add_r by lia.
  apply scaled_product_within; auto; apply Z.pow_nonneg; lia.
Qed.

Lemma bounded_add_pow a x y :
  0 <= a < 971 ->
  bounded (2 ^ a) x -> bounded (2 ^ a) y -> bounded (2 ^ (a + 1)) (x + y).
Proof.
  intros Ha [Hfx Hx] [Hfy Hy].
  destruct (add_R x y Hfx Hfy) as [Hn HR].
  apply bounded_pow_fin; [exact Hn | lia |].
  rewrite HR. apply near_within_pow; [lia|].
  rewrite (Z.pow_add_r 2 a 1) by lia. change (2 ^ 1) with 2. lia.
Qed.

Lemma bounded_pow_weaken a b x : 0 <= a <= b -> bounded (2 ^ a) x -> bounded (2 ^ b) x.
Proof.
  intros Hab. apply bounded_weaken. apply Z.pow_le_mono_r; lia.
Qed.

Lemma bounded_div_pow a x y :
  0 <= a < 971 -> bounded (2 ^ a) x -> fin y = true -> 2 ^ K <= Z.abs (R y) ->
  bounded (2 ^ (a + 1)) (x / y).
Proof.
  intros Ha [Hfx Hx] Hy Hy1. pose proof K_ge as HK. pose proof unit_pos as HpK.
  pose proof (Z.pow_pos_nonneg 2 a ltac:(lia) ltac:(lia)) as Hpa.
  destruct (div_R x y Hfx Hy ltac:(lia))
    as (Hn & lo & ulp & rho & Hlo & Hrho & Hulp & Hstep & Hlow & _ & HR).
  apply bounded_pow_fin; [exact Hn | lia |].
  assert (lo <= 2 ^ a * 2 ^ K) as Hlo'.
  { apply (Z.mul_le_mono_pos_r _ _ (2 ^ K)); [lia|].
    transitivity (lo * Z.abs (R y)); [apply Z.mul_le_mono_nonneg_l; lia|].
    transitivity (Z.abs (R x) * 2 ^ K); [exact Hlow|].
    apply Z.mul_le_mono_nonneg_r; lia. }
  assert (2 ^ (K - 1022) <= 2 ^ K) as Ht by (apply Z.pow_le_mono_r; lia).
  assert (2 ^ 52 = 4503599627370496) as E52 by reflexivity.
  assert (ulp <= 2 ^ a * 2 ^ K) as Hulp' by nia.
  assert (2 ^ (a + 1) * 2 ^ K < top) as Htop.
  { unfold top, TOP. rewrite <- Z.pow_add_r by lia. apply Z.pow_lt_mono_r; lia. }
  rewrite (Z.pow_add_r 2 a 1) in * by lia. change (2 ^ 1) with 2 in *.
  rewrite HR.
  assert (0 <= Z.min rho top <= 2 ^ a * 2 * 2 ^ K) as Hr by lia.
  revert Hr. generalize (Z.min rho top) as r. intros r Hr.
  destruct (Z.sgn_spec (R x)) as [[_ ->] | [[_ ->] | [_ ->]]],
    (Z.sgn_spec (R y)) as [[_ ->] | [[_ ->] | [_ ->]]]; lia.
Qed.

(** ** Every value the generators compute is a finite number *)


Lemma bounded_one t : 0 <= t -> bounded (2 ^ t) 1.
Proof.
  intros Ht. split; [reflexivity|]. rewrite R_1. pose proof unit_pos.
  assert (1 <= 2 ^ t) by (pose proof (Z.pow_pos_nonneg 2 t ltac:(lia) Ht); lia).
  rewrite Z.abs_eq by lia. nia.
Qed.


Lemma strength_bounded s : (abs s <=? 0x1p400)%float = true -> bounded (2 ^ 400) s.
Proof.
  intros Hs. pose proof K_ge. destruct (leb_num _ _ Hs) as [Hn Hn'].
  destruct (abs_R s) as (En & _ & ER). rewrite En in Hn.
  rewrite leb_R, ER in Hs by (rewrite ?En; assumption). apply Z.leb_le in Hs.
  assert (R 0x1p400 = 2 ^ 400 * 2 ^ K) as E400.
  { change 0x1p400%float with (SF2Prim (S754_finite false (2 ^ 52) 348)).
    rewrite (proj2 (SF2Prim_finite_R false (2 ^ 52) 348 ltac:(reflexivity) ltac:(lia))).
    cbn [cond_Zopp]. change (Zpos (2 ^ 52)) with (2 ^ 52).
    rewrite <- !Z.pow_add_r by lia. f_equal; lia. }
  rewrite E400 in Hs. apply bounded_pow_fin; [exact Hn | lia | exact Hs].
Qed.


End F64Facts.

(** * The claims about the values *)

Import F64 F64Facts.

(** ** Monotonicity in the intensity *)

Lemma stored_ao src width height a x y c :
  0 <= x < width -> 0 <= y < height -> 0 <= c < 3 ->
  stored (generateAO src width height a) width x y c
  = Some (ToUint8Clamp (Spec.ao src width height a x y)).
Proof.
  intros Hx Hy Hc. rewrite generateAO_render, stored_render by lia.
  rewrite aoValue_spec.
  assert (c = 0 \/ c = 1 \/ c = 2) as [-> | [-> | ->]] by lia; reflexivity.
Qed.

(** C9.  For every pixel with a positive local contrast and every two
    intensities [a1 <= a2], the sample [generateAO] stores for [a2] is at
    most the one it stores for [a1], in each of R, G and B. *)
Theorem generateAO_antitone src width height x y a1 a2 c :
  0 <= x < width -> 0 <= y < height ->
  (0 <? Spec.contrast src width height x y)%float = true ->
  (a1 <=? a2)%float = true ->
  0 <= c < 3 ->
  exists v1 v2,
    stored (generateAO src width height a1) width x y c = Some v1 /\
    stored (generateAO src width height a2) width x y c = Some v2 /\
    v2 <= v1.
Proof.
  intros Hx Hy Hc Ha Hch.
  exists (ToUint8Clamp (Spec.ao src width height a1 x y)),
         (ToUint8Clamp (Spec.ao src width height a2 x y)).
  split; [by apply stored_ao|]. split; [by apply stored_ao|].
  apply (darkened_antitone (Spec.contrast src width height x y)
           ((255 - Spec.luma src width x y) * 0.3)%float a1 a2 Hc Ha).
Qed.

(** ** Divisors *)

Lemma window_center radius width height x y :
  0 <= radius -> 0 <= x < width -> 0 <= y < height ->
  (x, y) ∈ Spec.window radius width height x y.
Proof.
  intros Hr Hx Hy. unfold Spec.window. apply list_elem_of_filter. split.
  - unfold in_bounds. cbn [fst snd].
    destruct (Z.leb_spec 0 x), (Z.ltb_spec x width), (Z.leb_spec 0 y), (Z.ltb_spec y height);
      try lia; reflexivity.
  - apply elem_of_grid. cbn [fst snd]. lia.
Qed.

Lemma window_count radius width height x y :
  0 <= radius -> 0 <= x < width -> 0 <= y < height ->
  1 <= Z.of_nat (length (Spec.window radius width height x y)).
Proof.
  intros Hr Hx Hy. pose proof (window_center radius width height x y Hr Hx Hy) as Hin.
  destruct (Spec.window radius width height x y); [|cbn [length]; lia].
  by apply not_elem_of_nil in Hin.
Qed.



(** ** Decoding the normal map *)

(** C8, as stated, fails: pixel (0, 0) of a 2 x 2 image stores the normal
    (41, 41, 162), which decodes to a vector of length 0.9968...: three
    thousandths short of 1, where the tolerance is a billionth. *)
Lemma decoded_normal_not_unit :
  stored (generateNormal checker 2 2 1) 2 0 0 0 = Some 41 /\
  stored (generateNormal checker 2 2 1) 2 0 0 1 = Some 41 /\
  stored (generateNormal checker 2 2 1) 2 0 0 2 = Some 162 /\
  (magnitude 41 41 162 <? 0.997)%float = true /\
  ~ unit_within_tolerance checker 2 2 1 0 0.
Proof.
  assert (stored (generateNormal checker 2 2 1) 2 0 0 0 = Some 41) as H0
    by (vm_compute; reflexivity).
  assert (stored (generateNormal checker 2 2 1) 2 0 0 1 = Some 41) as H1
    by (vm_compute; reflexivity).
  assert (stored (generateNormal checker 2 2 1) 2 0 0 2 = Some 162) as H2
    by (vm_compute; reflexivity).
  split; [exact H0|]. split; [exact H1|]. split; [exact H2|].
  split; [vm_compute; reflexivity|].
  intros (r & g & b & Hr & Hg & Hb & Hm).
  rewrite H0 in Hr. rewrite H1 in Hg. rewrite H2 in Hb.
  injection Hr as <-. injection Hg as <-. injection Hb as <-.
  vm_compute in Hm. discriminate.
Qed.

(** ** Concrete runs *)

Lemma generateAO_antitone_witness :
  exists v1 v2,
    stored (generateAO checker 2 2 1) 2 0 0 0 = Some v1 /\
    stored (generateAO checker 2 2 2) 2 0 0 0 = Some v2 /\
    v2 <= v1.
Proof.
  apply (generateAO_antitone checker 2 2 0 0 1 2 0);
    [lia | lia | vm_compute; reflexivity | vm_compute; reflexivity | lia].
Defined.

(** * Further properties of the generator module *)

(** ** Pixel access ([getPixel], [setPixel]) *)

Lemma rd8_lookup data idx b :
  0 <= idx -> data !! Z.to_nat idx = Some b -> rd8 data idx = Z2F b.
Proof. intros H0 Hb. unfold rd8. destruct (Z.ltb_spec idx 0); [lia|]. by rewrite Hb. Qed.

Lemma rd8_outside data idx :
  idx < 0 \/ Z.of_nat (length data) <= idx -> is_nan (rd8 data idx) = true.
Proof.
  intros H. unfold rd8. destruct (Z.ltb_spec idx 0); [reflexivity|].
  rewrite lookup_ge_None_2 by lia. reflexivity.
Qed.

Lemma wr8_outside data idx v :
  idx < 0 \/ Z.of_nat (length data) <= idx -> wr8 data idx v = data.
Proof.
  intros H. unfold wr8. destruct (Z.ltb_spec idx 0); [reflexivity|].
  apply list_insert_ge. lia.
Qed.

Lemma lookup_wr8_other d i v (n : Z) :
  0 <= n -> n <> i -> wr8 d i v !! Z.to_nat n = d !! Z.to_nat n.
Proof.
  intros Hn Hne. unfold wr8. destruct (Z.ltb_spec i 0); [reflexivity|].
  apply list_lookup_insert_ne. lia.
Qed.

(** X1.  Writing a pixel that lies inside the buffer and reading it back
    returns the four values as the array holds them: each converted to an
    integer sample in 0..255. *)
Theorem getPixel_setPixel data width x y r g b a :
  0 <= (y * width + x) * 4 ->
  (y * width + x) * 4 + 3 < Z.of_nat (length data) ->
  getPixel (setPixel data width x y r g b a) width x y
  = (Z2F (ToUint8Clamp r), Z2F (ToUint8Clamp g), Z2F (ToUint8Clamp b),
     Z2F (ToUint8Clamp a)).
Proof.
  intros H0 Hlen. unfold getPixel. cbv zeta.
  pose proof (fun c => lookup_setPixel_eq data width x y r g b a c H0 ltac:(lia)) as H.
  pose proof (H 0 ltac:(lia)) as E0. pose proof (H 1 ltac:(lia)) as E1.
  pose proof (H 2 ltac:(lia)) as E2. pose proof (H 3 ltac:(lia)) as E3.
  rewrite Z.add_0_r in E0. cbn [Z.eqb] in *.
  rewrite (rd8_lookup _ _ _ H0 E0),
    (rd8_lookup _ ((y * width + x) * 4 + 1) _ ltac:(lia) E1),
    (rd8_lookup _ ((y * width + x) * 4 + 2) _ ltac:(lia) E2),
    (rd8_lookup _ ((y * width + x) * 4 + 3) _ ltac:(lia) E3).
  reflexivity.
Qed.

(** X2.  [setPixel] never changes the length of the buffer, and leaves
    every pixel other than the one it writes as it was. *)
Theorem setPixel_frame data width x y r g b a x' y' :
  y' * width + x' <> y * width + x ->
  length (setPixel data width x y r g b a) = length data /\
  getPixel (setPixel data width x y r g b a) width x' y' = getPixel data width x' y'.
Proof.
  intros Hne. split; [apply length_setPixel|].
  assert (forall i j, 0 <= j < 4 -> 0 <= i < 4 ->
            rd8 (setPixel data width x y r g b a) ((y' * width + x') * 4 + j)
            = rd8 data ((y' * width + x') * 4 + j)) as H.
  { intros i j Hj _. unfold rd8.
    destruct (Z.ltb_spec ((y' * width + x') * 4 + j) 0); [reflexivity|].
    unfold setPixel. rewrite !lookup_wr8_other by lia. reflexivity. }
  unfold getPixel. cbv zeta.
  pose proof (H 0 0 ltac:(lia) ltac:(lia)) as E0. rewrite Z.add_0_r in E0.
  rewrite E0, (H 0 1), (H 0 2), (H 0 3) by lia. reflexivity.
Qed.

(** X3.  Outside the buffer nothing is stored and nothing is read: a
    [setPixel] whose index is negative or past the end leaves the buffer
    unchanged, and a [getPixel] there yields four undefined channels (NaN
    as numbers). *)
Theorem pixel_outside data width x y r g b a :
  (y * width + x) * 4 < 0 \/ Z.of_nat (length data) <= (y * width + x) * 4 ->
  setPixel data width x y r g b a = data /\
  let '(r', g', b', a') := getPixel data width x y in
  is_nan r' = true /\ is_nan g' = true /\ is_nan b' = true /\ is_nan a' = true.
Proof.
  intros H. split.
  - unfold setPixel. cbv zeta. rewrite !wr8_outside; [reflexivity | | | |];
      rewrite ?length_wr8; lia.
  - unfold getPixel. cbv zeta. repeat split; apply rd8_outside; lia.
Qed.

Lemma getPixel_setPixel_witness :
  getPixel (setPixel [0; 0; 0; 0; 7; 7; 7; 7] 2 1 0 300 (-3) 127.5 nan) 2 1 0
  = (Z2F 255, Z2F 0, Z2F 128, Z2F 0).
Proof.
  rewrite (getPixel_setPixel [0; 0; 0; 0; 7; 7; 7; 7] 2 1 0 300 (-3) 127.5 nan);
    [reflexivity | lia | cbn; lia].
Defined.

Lemma setPixel_frame_witness :
  length (setPixel [0; 0; 0; 0; 7; 7; 7; 7] 2 1 0 1 2 3 4) = 8%nat /\
  getPixel (setPixel [0; 0; 0; 0; 7; 7; 7; 7] 2 1 0 1 2 3 4) 2 0 0 = (0, 0, 0, 0)%float.
Proof.
  destruct (setPixel_frame [0; 0; 0; 0; 7; 7; 7; 7] 2 1 0 1 2 3 4 0 0) as [H1 H2]; [lia|].
  rewrite H1, H2. split; reflexivity.
Defined.

Lemma pixel_outside_witness :
  setPixel [0; 0; 0; 0] 1 0 1 1 2 3 4 = [0; 0; 0; 0].
Proof.
  destruct (pixel_outside [0; 0; 0; 0] 1 0 1 1 2 3 4) as [H _]; [cbn; lia|].
  exact H.
Defined.

(** ** The output buffers *)

Lemma wr8_bytes d i v : Forall byte d -> Forall byte (wr8 d i v).
Proof.
  intros H. unfold wr8. destruct (i <? 0); [exact H|].
  apply Forall_insert; [exact H | apply ToUint8Clamp_bounds].
Qed.

Lemma setPixel_bytes d w x y r g b a :
  Forall byte d -> Forall byte (setPixel d w x y r g b a).
Proof. intros H. unfold setPixel. by do 4 apply wr8_bytes. Qed.

Lemma render_wf width height f : wf_buffer (render width height f) width height.
Proof.
  split; [apply length_render|]. unfold render.
  assert (Forall byte (replicate (Z.to_nat (width * height * 4)) 0)) as H0.
  { apply Forall_replicate. unfold byte. lia. }
  revert H0. generalize (replicate (Z.to_nat (width * height * 4)) 0) as dst.
  induction (grid 0 width 0 height) as [|p ps IH]; intros dst Hd; [exact Hd|].
  cbn [foldl]. apply IH. unfold paint. destruct (f p.1 p.2) as [[r g] b].
  by apply setPixel_bytes.
Qed.

(** ** The height map and the Sobel window *)

Lemma length_buildHeightMap src width height :
  length (buildHeightMap src width height) = Z.to_nat (width * height).
Proof.
  unfold buildHeightMap.
  rewrite (for_nested 0 width 0 height
             (fun x y hm => let '(r, g, b, _) := getPixel src width x y in
                            wr32 hm (y * width + x) (grayscale r g b / 255)%float)).
  pose proof (length_foldl_fill width
                (fun p => (Spec.luma src width p.1 p.2 / 255)%float)
                (grid 0 width 0 height)
                (replicate (Z.to_nat (width * height)) 0%float)) as H.
  unfold fill, Spec.luma, getPixel in H. unfold getPixel.
  rewrite H. apply length_replicate.
Qed.

(** X5.  The Sobel window never reads outside the height map: for a pixel
    of the image and any kernel offset, the clamped coordinate is a pixel
    of the image (the offset one when that is inside, else the nearest one
    on the border), and the value read there is the height of that pixel,
    its luminance over 255 in single precision. *)
Theorem sobel_reads_inside src width height x y kx ky :
  0 <= x < width -> 0 <= y < height ->
  let nx := clampZ (x + kx) 0 (width - 1) in
  let ny := clampZ (y + ky) 0 (height - 1) in
  (0 <= nx < width /\ 0 <= ny < height) /\
  (0 <= x + kx < width -> nx = x + kx) /\
  (0 <= y + ky < height -> ny = y + ky) /\
  0 <= ny * width + nx < Z.of_nat (length (buildHeightMap src width height)) /\
  rd32 (buildHeightMap src width height) (ny * width + nx)
  = fround (Spec.luma src width nx ny / 255).
Proof.
  intros Hx Hy nx ny.
  assert (0 <= nx < width /\ 0 <= ny < height) as [Hnx Hny] by (unfold nx, ny, clampZ; lia).
  split; [split; assumption|].
  split; [unfold nx, clampZ; lia|]. split; [unfold ny, clampZ; lia|].
  split; [rewrite length_buildHeightMap; nia|].
  rewrite buildHeightMap_spec by assumption. reflexivity.
Qed.

Lemma sobel_reads_inside_witness :
  rd32 (buildHeightMap checker 2 2) (clampZ (1 + 1) 0 (2 - 1) * 2 + clampZ (0 + -1) 0 (2 - 1))
  = fround (Spec.luma checker 2 0 1 / 255).
Proof.
  pose proof (sobel_reads_inside checker 2 2 0 1 (-1) 1 ltac:(lia) ltac:(lia)) as H.
  cbv zeta in H. destruct H as (_ & _ & _ & _ & H). exact H.
Defined.

(** ** Luminance *)

Lemma pixel_wf src width height x y :
  wf_buffer src width height -> 0 <= x < width -> 0 <= y < height ->
  exists r g b a, byte r /\ byte g /\ byte b /\ byte a /\
    stored src width x y 0 = Some r /\ stored src width x y 1 = Some g /\
    stored src width x y 2 = Some b /\ stored src width x y 3 = Some a /\
    getPixel src width x y = (Z2F r, Z2F g, Z2F b, Z2F a).
Proof.
  intros Hwf Hx Hy.
  destruct (rd8_wf src width height x y 0 Hwf Hx Hy) as (r & Hr & Sr & Er); [lia|].
  destruct (rd8_wf src width height x y 1 Hwf Hx Hy) as (g & Hg & Sg & Eg); [lia|].
  destruct (rd8_wf src width height x y 2 Hwf Hx Hy) as (b & Hb & Sb & Eb); [lia|].
  destruct (rd8_wf src width height x y 3 Hwf Hx Hy) as (a & Ha & Sa & Ea); [lia|].
  exists r, g, b, a. unfold stored, getPixel. cbv zeta.
  rewrite Z.add_0_r in Er. rewrite Er, Eg, Eb, Ea.
  split_and!; first [assumption | reflexivity].
Qed.

Lemma luma_wf src width height x y :
  wf_buffer src width height -> 0 <= x < width -> 0 <= y < height ->
  bounded 765 (Spec.luma src width x y).
Proof.
  intros Hwf Hx Hy.
  destruct (pixel_wf src width height x y Hwf Hx Hy)
    as (r & g & b & a & Hr & Hg & Hb & _ & _ & _ & _ & _ & E).
  unfold Spec.luma. rewrite E. by apply grayscale_bounded.
Qed.

(** X6.  On 8-bit samples the luminance [0.299 r + 0.587 g + 0.114 b] is
    a finite number between 0 and 255, it does not decrease when a channel
    increases, and the luminance of a grey pixel [(v, v, v)] rounds to
    [v]: the three weights act as if they summed to exactly 1. *)
Theorem grayscale_bytes r g b :
  byte r -> byte g -> byte b ->
  let lum := grayscale (Z2F r) (Z2F g) (Z2F b) in
  is_finite lum = true /\ (0 <=? lum)%float = true /\ (lum <=? 255)%float = true /\
  (forall r' g' b', byte r' -> byte g' -> byte b' -> r <= r' -> g <= g' -> b <= b' ->
     (lum <=? grayscale (Z2F r') (Z2F g') (Z2F b'))%float = true) /\
  (r = g -> g = b -> ToUint8Clamp lum = r).
Proof.
  intros Hr Hg Hb lum. subst lum.
  assert (byte 0 /\ byte 255) as [H0 H255] by (unfold byte; lia).
  split; [rewrite is_finite_fin; by apply grayscale_bounded|].
  split; [|split; [|split]].
  - change 0%float with (grayscale (Z2F 0) (Z2F 0) (Z2F 0)).
    apply leb_le, grayscale_mono; unfold byte in *; auto; lia.
  - change 255%float with (grayscale (Z2F 255) (Z2F 255) (Z2F 255)).
    apply leb_le, grayscale_mono; unfold byte in *; auto; lia.
  - intros r' g' b' Hr' Hg' Hb' H1 H2 H3. by apply leb_le, grayscale_mono.
  - intros <- <-. apply Z.eqb_eq. revert r Hr Hg Hb.
    intros r Hr _ _. revert r Hr.
    apply (byte_cases (fun v => ToUint8Clamp (grayscale (Z2F v) (Z2F v) (Z2F v)) =? v)).
    vm_compute. reflexivity.
Qed.

Lemma grayscale_bytes_witness :
  (grayscale (Z2F 10) (Z2F 200) (Z2F 30) <=? 255)%float = true.
Proof.
  destruct (grayscale_bytes 10 200 30) as (_ & _ & H & _); [unfold byte; lia ..|].
  exact H.
Defined.

(** ** What the clamp and the store do *)

(** X7.  The call [clamp(v, 0, 255)] in the three grayscale generators
    never changes what is stored: the [Uint8ClampedArray] store clamps
    and rounds by itself, and gives the same sample for [v] as for the
    clamped [v], NaN included. *)
Theorem clamp_redundant src width height (options : PBROptions) x y c :
  wf_buffer src width height -> 0 <= x < width -> 0 <= y < height -> 0 <= c < 3 ->
  let lum := Spec.luma src width x y in
  let '(r, g, b, _) := getPixel src width x y in
  stored (generateAO src width height (aoIntensity options)) width x y c
  = Some (ToUint8Clamp (255 - Spec.contrast src width height x y * aoIntensity options * 2
                            - (255 - lum) * 0.3)) /\
  stored (generateRoughness src width height (roughnessIntensity options)) width x y c
  = Some (ToUint8Clamp (Spec.variance src width height x y * roughnessIntensity options * 0.5
                        + (255 - lum) * 0.3)) /\
  stored (generateMetallic src width height (metallicIntensity options)) width x y c
  = Some (ToUint8Clamp (lum * metallicIntensity options * (1 - Spec.saturation r g b * 0.5))).
Proof.
  intros Hwf Hx Hy Hc lum.
  pose proof (metallicValue_spec src width height (metallicIntensity options) x y Hwf Hx Hy)
    as Hm.
  unfold Spec.metallic in Hm. fold lum in Hm.
  destruct (getPixel src width x y) as [[[r g] b] a].
  rewrite generateAO_render, generateRoughness_render, generateMetallic_render.
  rewrite !stored_render by lia.
  rewrite aoValue_spec, roughnessValue_spec, Hm.
  unfold Spec.ao, Spec.roughness. fold lum.
  assert (forall v : float, channel (v, v, v) c = v) as Hch.
  { intros v. assert (c = 0 \/ c = 1 \/ c = 2) as [-> | [-> | ->]] by lia; reflexivity. }
  cbv zeta. rewrite !Hch, !stored_unclamped. repeat split; reflexivity.
Qed.

Lemma clamp_redundant_witness :
  stored (generateAO checker 2 2 (aoIntensity defaults)) 2 0 0 0
  = Some (ToUint8Clamp (255 - Spec.contrast checker 2 2 0 0 * aoIntensity defaults * 2
                            - (255 - Spec.luma checker 2 0 0) * 0.3)).
Proof.
  assert (wf_buffer checker 2 2) as Hwf.
  { split; [reflexivity|]. repeat constructor; unfold byte; lia. }
  pose proof (clamp_redundant checker 2 2 defaults 0 0 0 Hwf) as H.
  cbv zeta in H. destruct (getPixel checker 2 0 0) as [[[r g] b] a].
  destruct H as [H _]; [lia | lia | lia |]. exact H.
Defined.

(** ** Uniform neighbourhoods *)

Lemma length_grid xlo xhi ylo yhi :
  length (grid xlo xhi ylo yhi) = (Z.to_nat (xhi - xlo) * Z.to_nat (yhi - ylo))%nat.
Proof.
  unfold grid. rewrite <- (length_seqZ ylo (yhi - ylo)).
  induction (seqZ ylo (yhi - ylo)) as [|y l IH]; [cbn; lia|].
  rewrite bind_cons, length_app, IH, length_fmap, length_seqZ. cbn [length]. lia.
Qed.

Lemma window_size radius width height x y :
  0 <= radius ->
  Z.of_nat (length (Spec.window radius width height x y)) <= (2 * radius + 1) * (2 * radius + 1).
Proof.
  intros Hr. unfold Spec.window.
  pose proof (length_filter (λ p : Z * Z, in_bounds width height p.1 p.2 = true)
                (grid (x - radius) (x + radius + 1) (y - radius) (y + radius + 1))) as H.
  rewrite length_grid in H. nia.
Qed.

Lemma window_divisor radius width height x y :
  0 <= radius <= 2 -> 0 <= x < width -> 0 <= y < height ->
  let n := Z2F (Z.of_nat (length (Spec.window radius width height x y))) in
  fin n = true /\ R n <> 0.
Proof.
  intros Hr Hx Hy n.
  pose proof (window_count radius width height x y ltac:(lia) Hx Hy) as H1.
  pose proof (window_size radius width height x y ltac:(lia)) as H2.
  destruct (R_Z2F (Z.of_nat (length (Spec.window radius width height x y)))) as [Hf HR].
  { split; [lia|]. assert ((2 * radius + 1) * (2 * radius + 1) <= 25) by nia. lia. }
  split; [exact Hf|]. subst n. rewrite HR.
  pose proof unit_pos. nia.
Qed.

Lemma mean_zeros radius width height x y (g : Z * Z -> float) :
  0 <= radius <= 2 -> 0 <= x < width -> 0 <= y < height ->
  (forall p, p ∈ Spec.window radius width height x y -> bounded 0 (g p)) ->
  bounded 0 (Spec.mean (g <$> Spec.window radius width height x y)).
Proof.
  intros Hr Hx Hy Hg. unfold Spec.mean. rewrite length_fmap.
  destruct (window_divisor radius width height x y Hr Hx Hy) as [Hf HR].
  apply div_zero; [|exact Hf | exact HR].
  apply sum_zeros, Forall_fmap, Forall_forall. intros p Hp. by apply Hg.
Qed.

Lemma bias_fin src width height x y :
  wf_buffer src width height -> 0 <= x < width -> 0 <= y < height ->
  fin ((255 - Spec.luma src width x y) * 0.3) = true.
Proof.
  intros Hwf Hx Hy. pose proof (luma_wf src width height x y Hwf Hx Hy) as Hl.
  assert (bounded 1 0.3) as H3.
  { pose proof K_ge.
    eapply bounded_finite;
      [vm_compute; reflexivity | lia | apply Z.leb_le; vm_compute; reflexivity]. }
  assert (bounded 255 255) as H255 by (change 255%float with (Z2F 255); apply bounded_Z2F; lia).
  apply (bounded_mul (255 + 765) 1); [apply bounded_sub; auto; lia | exact H3 | lia].
Qed.

(** X8.  Where the luminance is the same over the whole 5x5 window of a
    pixel, the ambient-occlusion sample is the sample of
    [255 - (255 - luma) * 0.3], whatever the finite intensity. *)
Theorem generateAO_flat src width height a x y c :
  wf_buffer src width height -> 0 <= x < width -> 0 <= y < height ->
  is_finite a = true ->
  (forall p, p ∈ Spec.window 2 width height x y ->
     Spec.luma src width p.1 p.2 = Spec.luma src width x y) ->
  0 <= c < 3 ->
  stored (generateAO src width height a) width x y c
  = Some (ToUint8Clamp (255 - (255 - Spec.luma src width x y) * 0.3)).
Proof.
  intros Hwf Hx Hy Ha Hflat Hc. rewrite is_finite_fin in Ha.
  rewrite generateAO_render, stored_render by lia.
  assert (channel (let v := aoValue src width height a x y in (v, v, v)) c
          = aoValue src width height a x y) as ->
    by (assert (c = 0 \/ c = 1 \/ c = 2) as [-> | [-> | ->]] by lia; reflexivity).
  rewrite aoValue_spec. unfold Spec.ao. rewrite stored_unclamped. f_equal.
  pose proof (luma_wf src width height x y Hwf Hx Hy) as [Hl _].
  pose proof (bias_fin src width height x y Hwf Hx Hy) as Hb.
  set (lum := Spec.luma src width x y) in *.
  assert (bounded 0 (Spec.contrast src width height x y)) as Hz.
  { unfold Spec.contrast. apply (mean_zeros 2); try lia.
    intros p Hp. rewrite (Hflat p Hp). fold lum. apply bounded_abs, sub_self, Hl. }
  pose proof (mul_zero_l _ 2 (mul_zero_l _ a Hz Ha) (proj1 fin_2)) as Hz2.
  destruct (sub_zero_r 255 _ fin_255 Hz2) as [Hn HR].
  pose proof (same_R_fin _ 255 Hn (num_fin _ fin_255) HR) as Hf. rewrite fin_255 in Hf.
  destruct (sub_R _ _ Hf Hb) as [Hn1 HR1], (sub_R _ _ fin_255 Hb) as [Hn2 HR2].
  apply same_sample; [congruence|]. rewrite HR1, HR2, HR. reflexivity.
Qed.

(** X9.  Where the 3x3 window of a pixel holds one colour, the roughness
    sample is the sample of [(255 - luma) * 0.3], whatever the finite
    intensity. *)
Theorem generateRoughness_flat src width height a x y c :
  wf_buffer src width height -> 0 <= x < width -> 0 <= y < height ->
  is_finite a = true ->
  (forall p k, p ∈ Spec.window 1 width height x y -> 0 <= k < 3 ->
     stored src width p.1 p.2 k = stored src width x y k) ->
  0 <= c < 3 ->
  stored (generateRoughness src width height a) width x y c
  = Some (ToUint8Clamp ((255 - Spec.luma src width x y) * 0.3)).
Proof.
  intros Hwf Hx Hy Ha Hflat Hc. rewrite is_finite_fin in Ha.
  rewrite generateRoughness_render, stored_render by lia.
  assert (channel (let v := roughnessValue src width height a x y in (v, v, v)) c
          = roughnessValue src width height a x y) as ->
    by (assert (c = 0 \/ c = 1 \/ c = 2) as [-> | [-> | ->]] by lia; reflexivity).
  rewrite roughnessValue_spec. unfold Spec.roughness. rewrite stored_unclamped. f_equal.
  pose proof (bias_fin src width height x y Hwf Hx Hy) as Hb.
  assert (bounded 0 (Spec.variance src width height x y)) as Hz.
  { unfold Spec.variance. apply (mean_zeros 1); try lia.
    intros p Hp.
    assert (0 <= p.1 < width /\ 0 <= p.2 < height) as [Hp1 Hp2].
    { unfold Spec.window in Hp. apply list_elem_of_filter in Hp as [Hin _].
      unfold in_bounds in Hin. lia. }
    destruct (pixel_wf src width height x y Hwf Hx Hy)
      as (r & g & b & al & Hr & Hg & Hb' & _ & Sr & Sg & Sb & _ & E).
    destruct (pixel_wf src width height p.1 p.2 Hwf Hp1 Hp2)
      as (r' & g' & b' & al' & _ & _ & _ & _ & Sr' & Sg' & Sb' & _ & E').
    rewrite (Hflat p 0 Hp ltac:(lia)) in Sr'. rewrite (Hflat p 1 Hp ltac:(lia)) in Sg'.
    rewrite (Hflat p 2 Hp ltac:(lia)) in Sb'.
    assert (r' = r) as -> by congruence. assert (g' = g) as -> by congruence.
    assert (b' = b) as -> by congruence.
    unfold Spec.delta. rewrite E, E'.
    assert (forall v, byte v -> bounded 0 (abs (Z2F v - Z2F v))) as Hv.
    { intros v Hv. apply bounded_abs, sub_self, (R_Z2F v). unfold byte in Hv. lia. }
    change 0 with (0 + 0 + 0).
    apply bounded_add; [apply bounded_add | | lia]; auto; lia. }
  pose proof (mul_zero_l _ 0.5 (mul_zero_l _ a Hz Ha) (proj1 R_half)) as Hz2.
  destruct (add_zero_l _ _ Hz2 Hb) as [Hn HR].
  apply same_sample; [rewrite Hn; symmetry; by apply num_fin | exact HR].
Qed.

Lemma generateAO_flat_witness :
  stored (generateAO [50; 60; 70; 255; 50; 60; 70; 255] 2 1 1.5) 2 0 0 0
  = Some (ToUint8Clamp (255 - (255 - Spec.luma [50; 60; 70; 255; 50; 60; 70; 255] 2 0 0) * 0.3)).
Proof.
  apply generateAO_flat; [| lia | lia | reflexivity | | lia].
  - split; [reflexivity|]. repeat constructor; unfold byte; lia.
  - intros p Hp.
    assert (Spec.window 2 2 1 0 0 = [(0, 0); (1, 0)]) as E by (vm_compute; reflexivity).
    rewrite E in Hp. apply elem_of_cons in Hp as [-> | Hp]; [reflexivity|].
    apply list_elem_of_singleton in Hp as ->. vm_compute. reflexivity.
Defined.

Lemma generateRoughness_flat_witness :
  stored (generateRoughness [50; 60; 70; 255; 50; 60; 70; 9] 2 1 1.5) 2 0 0 0
  = Some (ToUint8Clamp ((255 - Spec.luma [50; 60; 70; 255; 50; 60; 70; 9] 2 0 0) * 0.3)).
Proof.
  apply generateRoughness_flat; [| lia | lia | reflexivity | | lia].
  - split; [reflexivity|]. repeat constructor; unfold byte; lia.
  - intros p k Hp Hk.
    assert (Spec.window 1 2 1 0 0 = [(0, 0); (1, 0)]) as E by (vm_compute; reflexivity).
    rewrite E in Hp. apply elem_of_cons in Hp as [-> | Hp]; [reflexivity|].
    apply list_elem_of_singleton in Hp as ->.
    assert (k = 0 \/ k = 1 \/ k = 2) as [-> | [-> | ->]] by lia; reflexivity.
Defined.

(** ** Grey pixels in the metallic map *)

Lemma Math_min3_grey v : byte v -> Math_min3 (Z2F v) (Z2F v) (Z2F v) = Z2F v.
Proof.
  intros Hv. apply Leibniz.eqb_spec. revert v Hv.
  apply (byte_cases (fun v => Leibniz.eqb (Math_min3 (Z2F v) (Z2F v) (Z2F v)) (Z2F v))).
  vm_compute. reflexivity.
Qed.

Lemma Math_max3_grey v : byte v -> Math_max3 (Z2F v) (Z2F v) (Z2F v) = Z2F v.
Proof.
  intros Hv. rewrite Math_max3_bytes by assumption. f_equal. lia.
Qed.

(** Multiplying by a number whose value is exactly 1 changes no sample. *)
Lemma mul_one_sample z one :
  fin one = true -> R one = 2 ^ K -> ToUint8Clamp (z * one) = ToUint8Clamp z.
Proof.
  intros Hf HR. pose proof unit_pos as HpK.
  destruct (num z) eqn:Hn.
  - destruct (mul_pos_r_R one z Hf ltac:(lia) Hn) as [Hn' HR'].
    apply same_sample; [congruence|]. rewrite HR', HR.
    destruct (fin z); [|reflexivity].
    rewrite Z.mul_comm, Z.div_mul by lia. apply near_R.
  - assert (num (z * one) = false) as Hn'.
    { destruct (num (z * one)) eqn:E; [|reflexivity].
      apply mul_num in E as [E _]. congruence. }
    rewrite !ToUint8Clamp_nan by assumption. reflexivity.
Qed.

(** X10.  A grey pixel [(v, v, v)] has saturation 0 (black included, where
    the code does not divide), so its metallic sample is the sample of
    [luma * metallicIntensity], for every intensity, NaN and the
    infinities included. *)
Theorem generateMetallic_grey src width height a x y v c :
  wf_buffer src width height -> 0 <= x < width -> 0 <= y < height ->
  (forall k, 0 <= k < 3 -> stored src width x y k = Some v) ->
  0 <= c < 3 ->
  stored (generateMetallic src width height a) width x y c
  = Some (ToUint8Clamp (grayscale (Z2F v) (Z2F v) (Z2F v) * a)).
Proof.
  intros Hwf Hx Hy Hgrey Hc.
  rewrite generateMetallic_render, stored_render by lia.
  assert (channel (let m := metallicValue src width a x y in (m, m, m)) c
          = metallicValue src width a x y) as ->
    by (assert (c = 0 \/ c = 1 \/ c = 2) as [-> | [-> | ->]] by lia; reflexivity).
  destruct (pixel_wf src width height x y Hwf Hx Hy)
    as (r & g & b & al & Hr & _ & _ & _ & Sr & Sg & Sb & _ & E).
  rewrite (Hgrey 0 ltac:(lia)) in Sr. rewrite (Hgrey 1 ltac:(lia)) in Sg.
  rewrite (Hgrey 2 ltac:(lia)) in Sb.
  assert (r = v) as -> by congruence. assert (g = v) as -> by congruence.
  assert (b = v) as -> by congruence.
  unfold metallicValue. rewrite E, Math_max3_grey, Math_min3_grey by assumption.
  rewrite stored_unclamped. f_equal.
  destruct (R_Z2F v ltac:(unfold byte in Hr; lia)) as [Hfv HRv].
  assert (bounded 0 (if (Z2F v =? 0)%float then 0%float else ((Z2F v - Z2F v) / Z2F v)%float))
    as Hsat.
  { destruct (Z2F v =? 0)%float eqn:E0; [apply bounded_0_zero|].
    apply div_zero; [by apply sub_self | exact Hfv |].
    rewrite eqb_R in E0 by (auto using num_fin). rewrite R_0 in E0.
    by apply Z.eqb_neq in E0. }
  pose proof (mul_zero_l _ 0.5 Hsat (proj1 R_half)) as Hs2.
  assert (fin 1 = true) as Hf1 by reflexivity.
  destruct (sub_zero_r 1 _ Hf1 Hs2) as [Hn HR].
  pose proof (same_R_fin _ 1 Hn (num_fin _ Hf1) HR) as Hf. rewrite Hf1 in Hf.
  apply mul_one_sample; [exact Hf | by rewrite HR, R_1].
Qed.

Lemma generateMetallic_grey_witness :
  stored (generateMetallic [90; 90; 90; 255] 1 1 infinity) 1 0 0 0
  = Some (ToUint8Clamp (grayscale (Z2F 90) (Z2F 90) (Z2F 90) * infinity)).
Proof.
  apply (generateMetallic_grey [90; 90; 90; 255] 1 1 infinity 0 0 90 0); [| lia | lia | | lia].
  - split; [reflexivity|]. repeat constructor; unfold byte; lia.
  - intros k Hk. assert (k = 0 \/ k = 1 \/ k = 2) as [-> | [-> | ->]] by lia; reflexivity.
Defined.

(** ** The blue channel of the normal map *)

Lemma stored_normal src width height s x y c :
  0 <= x < width -> 0 <= y < height -> 0 <= c < 4 ->
  stored (generateNormal src width height s) width x y c
  = Some (ToUint8Clamp (channel (Spec.normal src width height s x y) c)).
Proof.
  intros Hx Hy Hc. rewrite generateNormal_render, stored_render by lia.
  rewrite normalValue_spec by assumption. reflexivity.
Qed.

Lemma encode_nan v len : num len = false -> ToUint8Clamp (Spec.encode v len) = 0.
Proof.
  intros Hn. apply ToUint8Clamp_nan. unfold Spec.encode.
  destruct (num ((v / len + 1) * 0.5 * 255)) eqn:E; [|reflexivity].
  apply mul_num in E as [E _]. apply mul_num in E as [E _].
  apply add_num in E as [E _]. apply div_num in E as [_ E]. congruence.
Qed.

(** X11.  The normal never points backwards, and a NaN length blanks the
    pixel.  Where the length [sqrt(nx² + ny² + 1)] of the candidate vector
    is a number (infinity included), the stored blue channel is at least
    128; where it is NaN (a NaN strength, or an infinite one on a zero
    gradient), all three channels are stored as 0. *)
Theorem generateNormal_blue src width height s x y :
  0 <= x < width -> 0 <= y < height ->
  let dx := Spec.gradient Spec.kernel_h src width height x y in
  let dy := Spec.gradient Spec.kernel_v src width height x y in
  let len := normalLen (- dx * s) (- dy * s) 1 in
  (is_nan len = false ->
     exists b, stored (generateNormal src width height s) width x y 2 = Some b /\ 128 <= b) /\
  (is_nan len = true ->
     forall c, 0 <= c < 3 ->
       stored (generateNormal src width height s) width x y c = Some 0).
Proof.
  intros Hx Hy dx dy len. rewrite is_nan_num.
  assert (Spec.normal src width height s x y
          = (Spec.encode (- dx * s) len, Spec.encode (- dy * s) len, Spec.encode 1 len)) as E
    by reflexivity.
  split.
  - intros Hn. apply negb_false_iff in Hn.
    exists (ToUint8Clamp (Spec.encode 1 len)). split.
    { rewrite stored_normal, E by lia. reflexivity. }
    destruct (normalLen_ge_1 (- dx * s) (- dy * s)) as [Hge _]. fold len in Hge.
    apply blue_ge_128; auto.
  - intros Hn c Hc. apply negb_true_iff in Hn.
    rewrite stored_normal, E by lia. f_equal.
    assert (c = 0 \/ c = 1 \/ c = 2) as [-> | [-> | ->]] by lia;
      cbn [channel Z.eqb fst snd]; by apply encode_nan.
Qed.

Lemma generateNormal_blue_witness :
  exists b, stored (generateNormal checker 2 2 1) 2 0 0 2 = Some b /\ 128 <= b.
Proof.
  pose proof (generateNormal_blue checker 2 2 1 0 0 ltac:(lia) ltac:(lia)) as H.
  cbv zeta in H. destruct H as [H _]. apply H. vm_compute. reflexivity.
Defined.

(** ** The canvas size *)

(** [1024 / a] for a dimension [a]: the quotient [q] is finite and lies
    between two neighbours [lo], [lo + ulp] of the exact quotient. *)
Lemma ratio_R a :
  1 <= a < 2 ^ 31 ->
  let q := (Z2F maxSize / Z2F a)%float in
  fin q = true /\
  exists lo ulp,
    0 <= lo /\ 0 < ulp /\ lo <= R q <= lo + ulp /\
    lo * a <= 1024 * 2 ^ K /\ 1024 * 2 ^ K < (lo + ulp) * a /\
    2 ^ 41 * (a * ulp) <= 2 ^ K.
Proof.
  intros Ha q. pose proof unit_pos as Hu. pose proof K_ge as HK.
  assert (2 ^ 31 < 2 ^ 53) by (apply Z.pow_lt_mono_r; lia).
  destruct (R_Z2F a ltac:(lia)) as [Hfa HRa].
  destruct (R_Z2F 1024 ltac:(lia)) as [Hf1 HR1].
  change (Z2F maxSize) with (Z2F 1024) in q.
  assert (bounded 1025 q) as [Hfq Hbq].
  { change 1025 with (1024 + 1). apply div_bounded; [|exact Hfa | rewrite HRa; nia |].
    - apply bounded_Z2F; lia.
    - change 1024 with (2 ^ 10). apply Z.pow_le_mono_r; lia. }
  split; [exact Hfq|].
  destruct (div_R (Z2F 1024) (Z2F a) Hf1 Hfa ltac:(rewrite HRa; nia))
    as (_ & lo & ulp & rho & Hlo & Hrho & Hulp & Hstep & Hlow & Hupp & HR).
  fold q in HR. rewrite HR1, HRa in *.
  rewrite !Z.abs_eq in Hlow, Hupp by nia.
  assert (Z.sgn (1024 * 2 ^ K) = 1) as S1 by (apply Z.sgn_pos; lia).
  assert (Z.sgn (a * 2 ^ K) = 1) as S2 by (apply Z.sgn_pos; nia).
  rewrite S1, S2, !Z.mul_1_l in HR.
  assert (lo * a <= 1024 * 2 ^ K) as Hlow'.
  { apply (Z.mul_le_mono_pos_r _ _ (2 ^ K)); [lia|].
    replace (lo * a * 2 ^ K) with (lo * (a * 2 ^ K)) by ring. exact Hlow. }
  assert (1024 * 2 ^ K < (lo + ulp) * a) as Hupp'.
  { apply (Z.mul_lt_mono_pos_r (2 ^ K)); [lia|].
    replace ((lo + ulp) * a * 2 ^ K) with ((lo + ulp) * (a * 2 ^ K)) by ring. exact Hupp. }
  assert (2 ^ (K - 1022) * 2 ^ 31 <= 2 ^ K) as Htiny.
  { rewrite <- Z.pow_add_r by lia. apply Z.pow_le_mono_r; lia. }
  pose proof (Z.pow_pos_nonneg 2 (K - 1022) ltac:(lia) ltac:(lia)) as Hpt.
  assert (2 ^ 41 * (a * ulp) <= 2 ^ K) as Hau.
  { assert (2 ^ 52 * (a * ulp) <= 2 ^ 11 * 2 ^ K) as H52.
    { assert (a * 2 ^ (K - 1022) <= 2 ^ K) by nia.
      replace (2 ^ 11) with 2048 by reflexivity.
      assert (2 ^ 52 * ulp * a <= (lo + 2 ^ (K - 1022)) * a)
        by (apply Z.mul_le_mono_nonneg_r; lia).
      nia. }
    replace (2 ^ 52) with (2 ^ 11 * 2 ^ 41) in H52 by reflexivity.
    assert (0 < 2 ^ 11) by reflexivity. nia. }
  exists lo, ulp. split; [exact Hlo|]. split; [exact Hulp|].
  split; [|split; [exact Hlow'|split; [exact Hupp'|exact Hau]]].
  assert (rho < top); [|lia].
  pose proof (whole_lt_top 1026 ltac:(split; [lia|reflexivity])).
  assert (ulp <= 2 ^ K) by nia.
  assert (lo <= 1024 * 2 ^ K) by nia. lia.
Qed.

Lemma scaled_R w h a :
  1 <= w < 2 ^ 31 -> 1 <= h < 2 ^ 31 -> 1 <= a < 2 ^ 31 ->
  let ratio := Math_min (Z2F maxSize / Z2F w) (Z2F maxSize / Z2F h) in
  R ratio = Z.min (R (Z2F maxSize / Z2F w)) (R (Z2F maxSize / Z2F h)) /\
  floorZ (Z2F a * ratio) = near (a * R ratio) / 2 ^ K.
Proof.
  intros Hw Hh Ha ratio. pose proof unit_pos as Hu.
  destruct (ratio_R w Hw) as (Hfw & low & ulpw & ? & ? & ? & ? & ? & ?).
  destruct (ratio_R h Hh) as (Hfh & loh & ulph & ? & ? & ? & ? & ? & ?).
  destruct (Math_min_R _ _ (num_fin _ Hfw) (num_fin _ Hfh)) as [Hn HR]. fold ratio in Hn, HR.
  assert (2 ^ 31 < 2 ^ 53) by (apply Z.pow_lt_mono_r; lia).
  destruct (R_Z2F a ltac:(lia)) as [Hfa HRa].
  assert (fin ratio = true) as Hf.
  { rewrite (fin_R _ Hn), HR.
    pose proof (finite_R _ Hfw). pose proof (finite_R _ Hfh).
    apply andb_true_iff. rewrite !Z.ltb_lt. lia. }
  split; [exact HR|].
  destruct (mul_R (Z2F a) ratio Hfa Hf) as [Hnp HRp].
  assert (a * 2 ^ K * R ratio / 2 ^ K = a * R ratio) as Ev.
  { replace (a * 2 ^ K * R ratio) with (a * R ratio * 2 ^ K) by ring.
    apply Z.div_mul. lia. }
  rewrite HRa, Ev in HRp.
  assert (0 <= R ratio <= 1025 * 2 ^ K) as Hr.
  { assert (ulpw <= 2 ^ K /\ ulph <= 2 ^ K) as [? ?] by (split; nia).
    assert (low <= 1024 * 2 ^ K /\ loh <= 1024 * 2 ^ K) as [? ?] by (split; nia).
    lia. }
  assert (fin (Z2F a * ratio) = true) as Hfp.
  { apply (bounded_fin _ (2 ^ 31 * 1025)); [exact Hnp | split; [lia | reflexivity] |].
    rewrite HRp. apply near_within; [split; [lia | reflexivity]|].
    rewrite Z.abs_eq by nia. nia. }
  rewrite (floorZ_R _ Hfp), HRp. reflexivity.
Qed.

Lemma near_below v m t :
  0 <= m < 2 ^ 53 -> K - 1074 <= t <= K + 971 -> v <= m * 2 ^ t -> near v <= m * 2 ^ t.
Proof. intros Hm Ht Hv. rewrite <- (near_exact m t Hm Ht). by apply near_mono. Qed.

Lemma near_above v m t :
  0 <= m < 2 ^ 53 -> K - 1074 <= t <= K + 971 -> m * 2 ^ t <= v -> m * 2 ^ t <= near v.
Proof. intros Hm Ht Hv. rewrite <- (near_exact m t Hm Ht). by apply near_mono. Qed.

Lemma product_below a r lo ulp u e :
  0 <= a -> r <= lo + ulp -> lo * a <= 1024 * u -> a * ulp <= e -> a * r <= 1024 * u + e.
Proof.
  intros Ha Hr Hlo Hulp.
  assert (a * r <= a * (lo + ulp)) by (apply Z.mul_le_mono_nonneg_l; lia). lia.
Qed.

Lemma quotient_below_one M lo ulp u e :
  1025 <= M -> 0 <= lo -> 0 <= ulp -> lo * M <= 1024 * u -> M * ulp <= e ->
  1024 * u + e <= 1025 * u -> lo + ulp <= u.
Proof.
  intros HM Hlo Hulp H1 H2 H3.
  assert (1025 * (lo + ulp) <= M * (lo + ulp)) by (apply Z.mul_le_mono_nonneg_r; lia). lia.
Qed.

Lemma dim_bounds w h a :
  1 <= w < 2 ^ 31 -> 1 <= h < 2 ^ 31 -> a = w \/ a = h -> 1024 < w \/ 1024 < h ->
  0 <= floorZ (Z2F a * Math_min (Z2F maxSize / Z2F w) (Z2F maxSize / Z2F h))
    <= Z.min a 1024.
Proof.
  intros Hw Hh Ha Hbig. pose proof unit_pos as Hu. pose proof K_ge as HK.
  assert (1 <= a < 2 ^ 31) as Ha' by (destruct Ha; subst; lia).
  destruct (scaled_R w h a Hw Hh Ha') as [HR ->].
  destruct (ratio_R w Hw) as (_ & low & ulpw & Hlw & Huw & Hqw & Hloww & Huppw & Hauw).
  destruct (ratio_R h Hh) as (_ & loh & ulph & Hlh & Huh & Hqh & Hlowh & Hupph & Hauh).
  revert HR Hqw Hqh.
  generalize (R (Z2F maxSize / Z2F w)), (R (Z2F maxSize / Z2F h)),
    (R (Math_min (Z2F maxSize / Z2F w) (Z2F maxSize / Z2F h))).
  intros qw qh r -> Hqw Hqh.
  assert (2 ^ K = 2 ^ 41 * 2 ^ (K - 41)) as Eu
    by (rewrite <- Z.pow_add_r by lia; f_equal; lia).
  assert (0 < 2 ^ (K - 41)) as He by (apply Z.pow_pos_nonneg; lia).
  assert (2 ^ 31 < 2 ^ 53) as H3153 by (apply Z.pow_lt_mono_r; lia).
  assert (2 ^ 41 = 2199023255552) as E41 by reflexivity.
  assert (2 ^ 51 = 2251799813685248) as E51 by reflexivity.
  revert Eu He. generalize (2 ^ (K - 41)) as e.
  intros e Eu He. rewrite E41 in *.
  assert (w * ulpw <= e /\ h * ulph <= e) as [Hew Heh] by (split; lia).
  assert (0 <= a * Z.min qw qh) as Hv0 by (apply Z.mul_nonneg_nonneg; lia).
  (* at most 1024 *)
  assert (a * Z.min qw qh <= 1024 * 2 ^ K + e) as Hv1.
  { destruct Ha as [-> | ->].
    - apply (product_below w _ low ulpw); lia.
    - apply (product_below h _ loh ulph); lia. }
  (* at most the dimension itself *)
  assert (Z.min qw qh <= 2 ^ K) as Hr1.
  { destruct Hbig as [Hb | Hb].
    - pose proof (quotient_below_one w low ulpw (2 ^ K) e
                    ltac:(lia) Hlw ltac:(lia) Hloww Hew ltac:(lia)). lia.
    - pose proof (quotient_below_one h loh ulph (2 ^ K) e
                    ltac:(lia) Hlh ltac:(lia) Hlowh Heh ltac:(lia)). lia. }
  assert (a * Z.min qw qh <= a * 2 ^ K) as Hv2
    by (apply Z.mul_le_mono_nonneg_l; lia).
  revert Hv0 Hv1 Hv2. generalize (a * Z.min qw qh). intros v Hv0 Hv1 Hv2.
  pose proof (near_mono 0 v Hv0) as N0. rewrite near_0 in N0.
  pose proof (near_below v a K ltac:(lia) ltac:(lia) Hv2) as N2.
  assert (near v <= 1024 * 2 ^ K + e) as N1.
  { assert (e = 2 ^ (K - 41)) as Ee.
    { assert (2 ^ K = 2199023255552 * 2 ^ (K - 41)); [|lia].
      rewrite <- E41, <- Z.pow_add_r by lia. f_equal; lia. }
    replace (1024 * 2 ^ K + e) with ((2 ^ 51 + 1) * 2 ^ (K - 41))
      by (rewrite E51, <- Ee; lia).
    apply near_below; [rewrite E51; split; [lia | reflexivity] | lia |].
    rewrite E51, <- Ee. lia. }
  split; [apply Z.div_pos; lia|].
  apply Z.min_glb.
  - apply Z.div_le_upper_bound; lia.
  - assert (near v / 2 ^ K < 1025); [|lia].
    apply Z.div_lt_upper_bound; lia.
Qed.

(** X12.  The canvas never exceeds the size bound nor the image: for an
    image of [w] x [h] pixels (both at least 1), each side of the canvas
    is between 0 and the smaller of that side of the image and 1024. *)
Theorem canvasSize_bounds w h :
  1 <= w < 2 ^ 31 -> 1 <= h < 2 ^ 31 ->
  0 <= (canvasSize w h).1 <= Z.min w 1024 /\
  0 <= (canvasSize w h).2 <= Z.min h 1024.
Proof.
  intros Hw Hh. unfold canvasSize.
  destruct ((w >? maxSize) || (h >? maxSize)) eqn:E; cbn [fst snd].
  - assert (1024 < w \/ 1024 < h) as Hbig.
    { apply orb_true_iff in E. unfold maxSize in E. rewrite !Z.gtb_lt in E. lia. }
    split; apply dim_bounds; auto.
  - apply orb_false_iff in E as [E1 E2]. unfold maxSize in *.
    rewrite Z.gtb_ltb, Z.ltb_ge in E1, E2. lia.
Qed.

Lemma canvasSize_bounds_witness :
  0 <= (canvasSize 4000 3000).1 <= Z.min 4000 1024 /\
  0 <= (canvasSize 4000 3000).2 <= Z.min 3000 1024.
Proof. apply canvasSize_bounds; split; (lia || reflexivity). Defined.

Lemma product_above a b r lo ulp u e :
  0 <= b <= a -> 0 <= lo -> lo <= r -> 1024 * u < (lo + ulp) * b -> b * ulp <= e ->
  1024 * u - e <= a * r.
Proof.
  intros Hab Hlo Hr Hupp Hulp.
  assert (b * lo <= a * lo) by (apply Z.mul_le_mono_nonneg_r; lia).
  assert (a * lo <= a * r) by (apply Z.mul_le_mono_nonneg_l; lia). lia.
Qed.

Lemma longer_side w h a b :
  1 <= w < 2 ^ 31 -> 1 <= h < 2 ^ 31 -> 1024 < a ->
  (a = w /\ b = h) \/ (a = h /\ b = w) -> b <= a ->
  1023 <= floorZ (Z2F a * Math_min (Z2F maxSize / Z2F w) (Z2F maxSize / Z2F h)) <= 1024.
Proof.
  intros Hw Hh Hbig Hab Hle. pose proof unit_pos as Hu. pose proof K_ge as HK.
  assert (1 <= a < 2 ^ 31 /\ 1 <= b < 2 ^ 31) as [Ha' Hb']
    by (destruct Hab as [[-> ->] | [-> ->]]; lia).
  split.
  2:{ pose proof (dim_bounds w h a Hw Hh) as H.
      destruct H as [_ H]; [destruct Hab as [[-> _] | [-> _]]; auto | | lia].
      destruct Hab as [[-> _] | [-> _]]; lia. }
  destruct (scaled_R w h a Hw Hh Ha') as [HR ->].
  destruct (ratio_R w Hw) as (_ & low & ulpw & Hlw & Huw & Hqw & Hloww & Huppw & Hauw).
  destruct (ratio_R h Hh) as (_ & loh & ulph & Hlh & Huh & Hqh & Hlowh & Hupph & Hauh).
  revert HR Hqw Hqh.
  generalize (R (Z2F maxSize / Z2F w)), (R (Z2F maxSize / Z2F h)),
    (R (Math_min (Z2F maxSize / Z2F w) (Z2F maxSize / Z2F h))).
  intros qw qh r -> Hqw Hqh.
  assert (2 ^ K = 2 ^ 41 * 2 ^ (K - 41)) as Eu
    by (rewrite <- Z.pow_add_r by lia; f_equal; lia).
  assert (0 < 2 ^ (K - 41)) as He by (apply Z.pow_pos_nonneg; lia).
  assert (2 ^ 41 = 2199023255552) as E41 by reflexivity.
  assert (2 ^ 51 = 2251799813685248) as E51 by reflexivity.
  rewrite E41 in *.
  assert (w * ulpw <= 2 ^ (K - 41) /\ h * ulph <= 2 ^ (K - 41)) as [Hew Heh] by (split; lia).
  assert (1024 * 2 ^ K - 2 ^ (K - 41) <= a * Z.min qw qh) as Hv.
  { destruct (Z.min_spec qw qh) as [[_ ->] | [_ ->]].
    - destruct Hab as [[-> ->] | [-> ->]].
      + apply (product_above w w _ low ulpw); lia.
      + apply (product_above h w _ low ulpw); lia.
    - destruct Hab as [[-> ->] | [-> ->]].
      + apply (product_above w h _ loh ulph); lia.
      + apply (product_above h h _ loh ulph); lia. }
  revert Hv. generalize (a * Z.min qw qh). intros v Hv.
  assert (1024 * 2 ^ K - 2 ^ (K - 41) <= near v) as N.
  { replace (1024 * 2 ^ K - 2 ^ (K - 41)) with ((2 ^ 51 - 1) * 2 ^ (K - 41))
      by (rewrite E51; lia).
    apply near_above; [rewrite E51; split; [lia | reflexivity] | lia |].
    rewrite E51. lia. }
  apply Z.div_le_lower_bound; lia.
Qed.

(** X13.  The longer side of a resized image becomes 1024 or 1023: the
    product [side * (1024 / side)] is rounded before it is floored, and
    falls just below 1024 for some sizes (1122 is one). *)
Theorem canvasSize_longer w h :
  1 <= w < 2 ^ 31 -> 1 <= h < 2 ^ 31 -> 1024 < Z.max w h ->
  (h <= w -> 1023 <= (canvasSize w h).1 <= 1024) /\
  (w <= h -> 1023 <= (canvasSize w h).2 <= 1024) /\
  canvasSize 1122 1122 = (1023, 1023) /\ canvasSize 2048 2048 = (1024, 1024).
Proof.
  intros Hw Hh Hbig. unfold canvasSize at 1 2 3 4.
  assert (((w >? maxSize) || (h >? maxSize)) = true) as ->.
  { apply orb_true_iff. unfold maxSize. rewrite !Z.gtb_lt. lia. }
  cbn [fst snd].
  split; [|split; [|split; vm_compute; reflexivity]]; intros Hle.
  - apply (longer_side w h w h); auto; lia.
  - apply (longer_side w h h w); auto; lia.
Qed.

Lemma canvasSize_longer_witness :
  1023 <= (canvasSize 3000 2000).1 <= 1024.
Proof.
  destruct (canvasSize_longer 3000 2000) as [H _];
    [split; (lia || reflexivity) | split; (lia || reflexivity) | lia |].
  apply H. lia.
Defined.

(** X14.  An image more than 1024 times as tall as it is wide gets a
    canvas of width 0 (and one more than 1024 times as wide as tall a
    canvas of height 0): the resize does not keep a side at least 1. *)
Theorem canvasSize_degenerate a b :
  1 <= a -> 1024 * a < b < 2 ^ 31 ->
  (canvasSize a b).1 = 0 /\ (canvasSize b a).2 = 0.
Proof.
  intros Ha Hb. pose proof unit_pos as Hu. pose proof K_ge as HK.
  assert (floorZ (Z2F a * Math_min (Z2F maxSize / Z2F a) (Z2F maxSize / Z2F b)) = 0
          /\ floorZ (Z2F a * Math_min (Z2F maxSize / Z2F b) (Z2F maxSize / Z2F a)) = 0)
    as [E1 E2].
  { assert (forall r, 0 <= r <= R (Z2F maxSize / Z2F b) -> near (a * r) / 2 ^ K = 0) as Hz.
    { intros r Hr.
      destruct (ratio_R b ltac:(lia)) as (_ & lo & ulp & Hlo & Hulp & Hq & Hlow & Hupp & Hau).
      assert (2 ^ K = 2 ^ 32 * 2 ^ (K - 32)) as Eu
        by (rewrite <- Z.pow_add_r by lia; f_equal; lia).
      assert (0 < 2 ^ (K - 32)) as Ht by (apply Z.pow_pos_nonneg; lia).
      assert (2 ^ 41 = 2199023255552) as E41 by reflexivity.
      assert (2 ^ 32 = 4294967296) as E32 by reflexivity.
      assert (2 ^ 31 = 2147483648) as E31 by reflexivity.
      rewrite E41, E32, E31 in *.
      assert (0 <= a * r) as Hv0 by (apply Z.mul_nonneg_nonneg; lia).
      assert (a * r <= (4294967296 - 1) * 2 ^ (K - 32)) as Hv1.
      { revert Eu Ht. generalize (2 ^ (K - 32)) as t. intros t Eu Ht.
        set (s := lo + ulp) in *.
        assert (0 < s) by lia.
        assert (r <= s) by lia.
        assert (1024 * (a * r) <= 1024 * (a * s)) by (apply Z.mul_le_mono_nonneg_l; nia).
        assert (1024 * a * s <= (b - 1) * s) by (apply Z.mul_le_mono_nonneg_r; lia).
        assert (b * s = lo * b + b * ulp) by (unfold s; ring).
        assert (s * 2147483648 > 1024 * 2 ^ K).
        { assert (s * b <= s * 2147483648) by (apply Z.mul_le_mono_nonneg_l; lia). lia. }
        lia. }
      revert Hv0 Hv1. generalize (a * r). intros v Hv0 Hv1.
      pose proof (near_mono 0 v Hv0) as N0. rewrite near_0 in N0.
      pose proof (near_below v (4294967296 - 1) (K - 32)
                    ltac:(split; [lia | reflexivity]) ltac:(lia) Hv1) as N1.
      apply Z.div_small. lia. }
    assert (2 ^ 31 = 2147483648) as E31 by reflexivity.
    destruct (ratio_R a ltac:(lia)) as (_ & loa & ulpa & Hloa & _ & Hqa & _).
    destruct (ratio_R b ltac:(lia)) as (_ & lob & ulpb & Hlob & _ & Hqb & _).
    destruct (scaled_R a b a ltac:(lia) ltac:(lia) ltac:(lia)) as [HR1 ->].
    destruct (scaled_R b a a ltac:(lia) ltac:(lia) ltac:(lia)) as [HR2 ->].
    split; apply Hz; lia. }
  unfold canvasSize.
  assert ((b >? maxSize) = true) as Eb by (unfold maxSize; apply Z.gtb_lt; lia).
  rewrite Eb, orb_true_r, orb_true_l. cbn [fst snd]. split; assumption.
Qed.

Lemma canvasSize_degenerate_witness :
  (canvasSize 1 2048).1 = 0 /\ (canvasSize 2048 1).2 = 0.
Proof. apply (canvasSize_degenerate 1 2048); [lia | split; (lia || reflexivity)]. Defined.

(** ** Monotonicity of the roughness and metallic maps *)

Lemma stored_roughness src width height a x y c :
  0 <= x < width -> 0 <= y < height -> 0 <= c < 3 ->
  stored (generateRoughness src width height a) width x y c
  = Some (ToUint8Clamp (Spec.roughness src width height a x y)).
Proof.
  intros Hx Hy Hc. rewrite generateRoughness_render, stored_render by lia.
  rewrite roughnessValue_spec.
  assert (c = 0 \/ c = 1 \/ c = 2) as [-> | [-> | ->]] by lia; reflexivity.
Qed.

Lemma window_inside radius width height x y p :
  p ∈ Spec.window radius width height x y -> 0 <= p.1 < width /\ 0 <= p.2 < height.
Proof.
  unfold Spec.window. intros Hp. apply list_elem_of_filter in Hp as [Hin _].
  unfold in_bounds in Hin. lia.
Qed.

Lemma delta_bounded src width height x y p :
  wf_buffer src width height -> 0 <= x < width -> 0 <= y < height ->
  0 <= p.1 < width -> 0 <= p.2 < height ->
  bounded 1530 (Spec.delta src width x y p.1 p.2).
Proof.
  intros Hwf Hx Hy Hp1 Hp2.
  destruct (pixel_wf src width height x y Hwf Hx Hy)
    as (r & g & b & al & Hr & Hg & Hb & _ & _ & _ & _ & _ & E).
  destruct (pixel_wf src width height p.1 p.2 Hwf Hp1 Hp2)
    as (r' & g' & b' & al' & Hr' & Hg' & Hb' & _ & _ & _ & _ & _ & E').
  unfold Spec.delta. rewrite E, E'.
  assert (forall u v, byte u -> byte v -> bounded 510 (abs (Z2F u - Z2F v))) as Hd.
  { intros u v Hu Hv. apply bounded_abs. change 510 with (255 + 255).
    unfold byte in *. apply bounded_sub; [apply bounded_Z2F | apply bounded_Z2F |]; lia. }
  change 1530 with (510 + 510 + 510).
  apply bounded_add; [apply bounded_add | | lia]; auto; lia.
Qed.

Lemma variance_bounded src width height x y :
  wf_buffer src width height -> 0 <= x < width -> 0 <= y < height ->
  bounded 13771 (Spec.variance src width height x y).
Proof.
  intros Hwf Hx Hy. unfold Spec.variance, Spec.mean. rewrite length_fmap.
  pose proof (window_count 1 width height x y ltac:(lia) Hx Hy) as H1.
  pose proof (window_size 1 width height x y ltac:(lia)) as H9.
  destruct (window_divisor 1 width height x y ltac:(lia) Hx Hy) as [Hf HR].
  pose proof unit_pos.
  change 13771 with (13770 + 1). apply div_bounded; [| exact Hf | | ].
  - apply (bounded_weaken (1530 * Z.of_nat (length ((λ p, Spec.delta src width x y p.1 p.2)
                                                     <$> Spec.window 1 width height x y)))).
    { rewrite length_fmap. lia. }
    apply sum_bounded; [|lia|rewrite length_fmap; lia].
    apply Forall_fmap, Forall_forall. intros p Hp.
    apply window_inside in Hp as [Hp1 Hp2]. by apply (delta_bounded src width height).
  - destruct (R_Z2F (Z.of_nat (length (Spec.window 1 width height x y)))) as [_ ->]; [lia|].
    rewrite Z.abs_eq by nia. nia.
  - assert (2 ^ 14 <= 2 ^ 51) by (apply Z.pow_le_mono_r; lia).
    change (2 ^ 14) with 16384 in *. lia.
Qed.

(** X15.  For every pixel of a well-formed buffer whose mean colour
    variance is positive, and every two intensities [a1 <= a2], the
    roughness sample stored for [a1] is at most the one stored for [a2]. *)
Theorem generateRoughness_monotone src width height x y a1 a2 c :
  wf_buffer src width height -> 0 <= x < width -> 0 <= y < height ->
  (0 <? Spec.variance src width height x y)%float = true ->
  (a1 <=? a2)%float = true ->
  0 <= c < 3 ->
  exists v1 v2,
    stored (generateRoughness src width height a1) width x y c = Some v1 /\
    stored (generateRoughness src width height a2) width x y c = Some v2 /\
    v1 <= v2.
Proof.
  intros Hwf Hx Hy Hv Ha Hc.
  exists (ToUint8Clamp (Spec.roughness src width height a1 x y)),
         (ToUint8Clamp (Spec.roughness src width height a2 x y)).
  split; [by apply stored_roughness|]. split; [by apply stored_roughness|].
  destruct (variance_bounded src width height x y Hwf Hx Hy) as [Hfv _].
  pose proof (bias_fin src width height x y Hwf Hx Hy) as Hb.
  assert (0 < R (Spec.variance src width height x y)) as Hpos.
  { rewrite ltb_R in Hv by (reflexivity || by apply num_fin).
    rewrite R_0 in Hv. by apply Z.ltb_lt in Hv. }
  apply leb_le in Ha.
  apply (mul_pos_l_mono _ _ _ Hfv Hpos) in Ha.
  apply (mul_pos_r_mono 0.5 _ _ (proj1 R_half)) in Ha;
    [|rewrite (proj2 R_half); apply Z.pow_pos_nonneg; pose proof K_ge; lia].
  apply (add_r_mono _ _ _ Hb) in Ha.
  apply stored_mono in Ha. exact Ha.
Qed.

Lemma generateRoughness_monotone_witness :
  exists v1 v2,
    stored (generateRoughness checker 2 2 0.5) 2 0 0 0 = Some v1 /\
    stored (generateRoughness checker 2 2 2) 2 0 0 0 = Some v2 /\
    v1 <= v2.
Proof.
  apply (generateRoughness_monotone checker 2 2 0 0 0.5 2 0);
    [| lia | lia | vm_compute; reflexivity | vm_compute; reflexivity | lia].
  split; [reflexivity|]. repeat constructor; unfold byte; lia.
Defined.

Lemma Math_min_bytes a b : byte a -> byte b -> Math_min (Z2F a) (Z2F b) = Z2F (Z.min a b).
Proof.
  intros Ha Hb. apply Leibniz.eqb_spec.
  revert a b Ha Hb.
  apply (byte_cases2 (fun a b => Leibniz.eqb (Math_min (Z2F a) (Z2F b)) (Z2F (Z.min a b)))).
  vm_compute. reflexivity.
Qed.

Lemma Math_min3_bytes a b c :
  byte a -> byte b -> byte c ->
  Math_min3 (Z2F a) (Z2F b) (Z2F c) = Z2F (Z.min (Z.min a b) c).
Proof.
  intros Ha Hb Hc. unfold Math_min3.
  rewrite Math_min_bytes by assumption.
  apply Math_min_bytes; [unfold byte in *; lia | assumption].
Qed.

(** The factor [1 - saturation * 0.5] of the metallic formula is a finite
    positive number for all 8-bit extremes. *)
Lemma metallic_factor M m :
  byte M -> byte m ->
  let saturation :=
    if (Z2F M =? 0)%float then 0%float else ((Z2F M - Z2F m) / Z2F M)%float in
  fin (1 - saturation * 0.5) = true /\ 0 < R (1 - saturation * 0.5).
Proof.
  intros HM Hm saturation.
  assert (is_finite (1 - saturation * 0.5) && (0 <? 1 - saturation * 0.5)%float = true) as H.
  { subst saturation. revert M m HM Hm.
    apply (byte_cases2 (fun M m =>
             let s := if (Z2F M =? 0)%float then 0%float
                      else ((Z2F M - Z2F m) / Z2F M)%float in
             is_finite (1 - s * 0.5) && (0 <? 1 - s * 0.5)%float)).
    vm_compute. reflexivity. }
  apply andb_true_iff in H as [Hf Hp]. rewrite is_finite_fin in Hf.
  split; [exact Hf|].
  rewrite ltb_R in Hp by (reflexivity || by apply num_fin).
  rewrite R_0 in Hp. by apply Z.ltb_lt in Hp.
Qed.

(** X16.  For every pixel of a well-formed buffer and every two
    intensities [a1 <= a2], the metallic sample stored for [a1] is at most
    the one stored for [a2]. *)
Theorem generateMetallic_monotone src width height x y a1 a2 c :
  wf_buffer src width height -> 0 <= x < width -> 0 <= y < height ->
  (a1 <=? a2)%float = true ->
  0 <= c < 3 ->
  exists v1 v2,
    stored (generateMetallic src width height a1) width x y c = Some v1 /\
    stored (generateMetallic src width height a2) width x y c = Some v2 /\
    v1 <= v2.
Proof.
  intros Hwf Hx Hy Ha Hc.
  assert (forall a, stored (generateMetallic src width height a) width x y c
                    = Some (ToUint8Clamp (metallicValue src width a x y))) as Hst.
  { intros a. rewrite generateMetallic_render, stored_render by lia.
    assert (c = 0 \/ c = 1 \/ c = 2) as [-> | [-> | ->]] by lia; reflexivity. }
  exists (ToUint8Clamp (metallicValue src width a1 x y)),
         (ToUint8Clamp (metallicValue src width a2 x y)).
  split; [apply Hst|]. split; [apply Hst|].
  destruct (pixel_wf src width height x y Hwf Hx Hy)
    as (r & g & b & al & Hr & Hg & Hb & _ & _ & _ & _ & _ & E).
  unfold metallicValue. rewrite E, Math_max3_bytes, Math_min3_bytes by assumption.
  destruct (metallic_factor (Z.max (Z.max r g) b) (Z.min (Z.min r g) b)) as [Hf Hp];
    [unfold byte in *; lia | unfold byte in *; lia |].
  cbv zeta in Hf, Hp.
  set (F := (1 - (if (Z2F (Z.max (Z.max r g) b) =? 0)%float then 0
                  else (Z2F (Z.max (Z.max r g) b) - Z2F (Z.min (Z.min r g) b))
                       / Z2F (Z.max (Z.max r g) b)) * 0.5)%float) in *.
  pose proof (grayscale_bounded r g b Hr Hg Hb) as [Hfl _].
  assert (byte 0) as H0 by (unfold byte; lia).
  pose proof (grayscale_mono 0 0 0 r g b H0 H0 H0 Hr Hg Hb
                ltac:(unfold byte in *; lia) ltac:(unfold byte in *; lia)
                ltac:(unfold byte in *; lia)) as (_ & _ & Hl0).
  change (grayscale (Z2F 0) (Z2F 0) (Z2F 0)) with 0%float in Hl0. rewrite R_0 in Hl0.
  set (lum := grayscale (Z2F r) (Z2F g) (Z2F b)) in *.
  destruct (Z.eq_dec (R lum) 0) as [Ez | Enz].
  - assert (bounded 0 lum) as Hz by (apply bounded_0; auto).
    rewrite !stored_unclamped, !zero_product_sample by assumption. lia.
  - apply leb_le in Ha.
    apply (mul_pos_l_mono lum _ _ Hfl ltac:(lia)) in Ha.
    apply (mul_pos_r_mono F _ _ Hf Hp) in Ha.
    apply stored_mono in Ha. exact Ha.
Qed.

Lemma generateMetallic_monotone_witness :
  exists v1 v2,
    stored (generateMetallic checker 2 2 0.25) 2 1 1 0 = Some v1 /\
    stored (generateMetallic checker 2 2 1) 2 1 1 0 = Some v2 /\
    v1 <= v2.
Proof.
  apply (generateMetallic_monotone checker 2 2 1 1 0.25 1 0);
    [| lia | lia | vm_compute; reflexivity | lia].
  split; [reflexivity|]. repeat constructor; unfold byte; lia.
Defined.

(** ** The height map and the gradient are finite *)

Lemma luma_nonneg src width height x y :
  wf_buffer src width height -> 0 <= x < width -> 0 <= y < height ->
  0 <= R (Spec.luma src width x y).
Proof.
  intros Hwf Hx Hy.
  destruct (pixel_wf src width height x y Hwf Hx Hy)
    as (r & g & b & a & Hr & Hg & Hb & _ & _ & _ & _ & _ & E).
  unfold Spec.luma. rewrite E.
  assert (byte 0) as H0 by (unfold byte; lia).
  pose proof (grayscale_mono 0 0 0 r g b H0 H0 H0 Hr Hg Hb
                ltac:(unfold byte in *; lia) ltac:(unfold byte in *; lia)
                ltac:(unfold byte in *; lia)) as (_ & _ & Hl0).
  change (grayscale (Z2F 0) (Z2F 0) (Z2F 0)) with 0%float in Hl0.
  rewrite R_0 in Hl0. exact Hl0.
Qed.

Lemma height_R src width height x y :
  wf_buffer src width height -> 0 <= x < width -> 0 <= y < height ->
  let h := Spec.height src width x y in
  bounded 2048 h /\ 0 <= R h /\
  exists m e, 0 <= m < 2 ^ 24 /\ -149 <= e <= 104 /\ Z.abs (R h) = m * 2 ^ (e + K).
Proof.
  intros Hwf Hx Hy h. subst h. unfold Spec.height. pose proof unit_pos as Hu.
  pose proof K_ge.
  pose proof (luma_wf src width height x y Hwf Hx Hy) as Hl.
  pose proof (luma_nonneg src width height x y Hwf Hx Hy) as Hl0.
  assert (2 ^ 10 <= 2 ^ 51) as H1051 by (apply Z.pow_le_mono_r; lia).
  change (2 ^ 10) with 1024 in H1051.
  assert (bounded 766 (Spec.luma src width x y / 255)) as [Hfq Hq].
  { change 766 with (765 + 1). apply div_bounded; [exact Hl | exact fin_255 | | lia].
    rewrite R_255. rewrite Z.abs_eq by lia. lia. }
  destruct (div_nonneg _ 255 (proj1 Hl) fin_255 Hl0 ltac:(rewrite R_255; lia)) as [_ Hq0].
  destruct (fround_R _ 10 Hfq) as (Hf & Hb & H0 & Hs); [|lia|].
  { replace (2 ^ (10 + K)) with (1024 * 2 ^ K)
      by (rewrite Z.pow_add_r by lia; reflexivity). lia. }
  split; [|split; [auto | exact Hs]].
  split; [exact Hf|].
  replace (2 ^ (10 + 1 + K)) with (2048 * 2 ^ K) in Hb
    by (rewrite Z.pow_add_r by lia; reflexivity).
  exact Hb.
Qed.

Lemma kernel_bounded i j :
  0 <= i <= 2 -> 0 <= j <= 2 ->
  bounded 2 (kernel_at Spec.kernel_h i j) /\ bounded 2 (kernel_at Spec.kernel_v i j).
Proof.
  intros Hi Hj.
  assert (i = 0 \/ i = 1 \/ i = 2) as [-> | [-> | ->]] by lia;
    (assert (j = 0 \/ j = 1 \/ j = 2) as [-> | [-> | ->]] by lia);
    split; apply bounded_check; first [reflexivity | split; [lia | reflexivity]].
Qed.

Lemma gradient_bounded src width height x y :
  wf_buffer src width height -> 0 <= x < width -> 0 <= y < height ->
  bounded 36864 (Spec.gradient Spec.kernel_h src width height x y) /\
  bounded 36864 (Spec.gradient Spec.kernel_v src width height x y).
Proof.
  intros Hwf Hx Hy. unfold Spec.gradient.
  assert (forall Kn, (forall i j, 0 <= i <= 2 -> 0 <= j <= 2 -> bounded 2 (kernel_at Kn i j)) ->
            bounded 36864
              (Spec.sum ((λ k, (Spec.height src width (clampZ (x + k.1) 0 (width - 1))
                                                      (clampZ (y + k.2) 0 (height - 1))
                                * kernel_at Kn (k.2 + 1) (k.1 + 1))%float)
                         <$> grid (-1) 2 (-1) 2))) as H.
  { intros Kn HK.
    set (l := (λ k, _) <$> grid (-1) 2 (-1) 2).
    assert (length l = 9%nat) as El by (subst l; rewrite length_fmap, length_grid; reflexivity).
    change 36864 with (4096 * Z.of_nat 9). rewrite <- El.
    apply sum_bounded; [|lia|rewrite El; reflexivity].
    subst l. apply Forall_fmap, Forall_forall. intros p Hp.
    apply elem_of_grid in Hp. cbn beta.
    change 4096 with (2048 * 2). apply bounded_mul; [| apply HK; lia | reflexivity].
    apply (height_R src width height); [exact Hwf | unfold clampZ; lia | unfold clampZ; lia]. }
  split; apply H; intros i j Hi Hj; by apply kernel_bounded.
Qed.

(** X17.  For a well-formed buffer and a finite strength the length of
    the candidate vector is never NaN: it is a number, at least 1, and the
    blue sample is at least 128 at every pixel. *)
Theorem generateNormal_number src width height s x y :
  wf_buffer src width height -> 0 <= x < width -> 0 <= y < height ->
  is_finite s = true ->
  let dx := Spec.gradient Spec.kernel_h src width height x y in
  let dy := Spec.gradient Spec.kernel_v src width height x y in
  let len := normalLen (- dx * s) (- dy * s) 1 in
  is_finite dx = true /\ is_finite dy = true /\
  is_nan len = false /\ (1 <=? len)%float = true /\
  exists b, stored (generateNormal src width height s) width x y 2 = Some b /\ 128 <= b.
Proof.
  intros Hwf Hx Hy Hs dx dy len. rewrite is_finite_fin in Hs. rewrite !is_finite_fin.
  destruct (gradient_bounded src width height x y Hwf Hx Hy) as [[Hfx _] [Hfy _]].
  fold dx in Hfx. fold dy in Hfy.
  split; [exact Hfx|]. split; [exact Hfy|].
  assert (num len = true) as Hn.
  { apply normalLen_num; apply mul_R; auto; by rewrite (proj1 (proj2 (opp_R _))). }
  destruct (normalLen_ge_1 (- dx * s) (- dy * s)) as [Hge _]. fold len in Hge.
  specialize (Hge Hn).
  split; [rewrite is_nan_num, Hn; reflexivity|].
  split; [rewrite leb_R, R_1 by (reflexivity || assumption); by apply Z.leb_le|].
  exists (ToUint8Clamp (Spec.encode 1 len)). split; [|by apply blue_ge_128].
  rewrite stored_normal by lia. reflexivity.
Qed.

Lemma generateNormal_number_witness :
  exists b, stored (generateNormal checker 2 2 1.5) 2 1 0 2 = Some b /\ 128 <= b.
Proof.
  assert (wf_buffer checker 2 2) as Hwf.
  { split; [reflexivity|]. repeat constructor; unfold byte; lia. }
  pose proof (generateNormal_number checker 2 2 1.5 1 0 Hwf
                ltac:(lia) ltac:(lia) eq_refl) as H.
  cbv zeta in H. destruct H as (_ & _ & _ & _ & H). exact H.
Defined.

(** ** A flat neighbourhood gives the straight-up normal *)

Lemma gradient_flat Kn (cf : Z -> Z -> Z) src width height x y :
  wf_buffer src width height -> 0 <= x < width -> 0 <= y < height ->
  (forall kx ky, -1 <= kx <= 1 -> -1 <= ky <= 1 ->
     Spec.luma src width (clampZ (x + kx) 0 (width - 1)) (clampZ (y + ky) 0 (height - 1))
     = Spec.luma src width x y) ->
  (forall i j, 0 <= i <= 2 -> 0 <= j <= 2 ->
     -2 <= cf i j <= 2 /\
     kernel_at Kn i j = (if cf i j <? 0 then (- Z2F (- cf i j))%float else Z2F (cf i j))) ->
  foldr Z.add 0 ((λ k, cf (k.2 + 1) (k.1 + 1)) <$> grid (-1) 2 (-1) 2) = 0 ->
  bounded 0 (Spec.gradient Kn src width height x y).
Proof.
  intros Hwf Hx Hy Hflat HK Hsum.
  destruct (height_R src width height x y Hwf Hx Hy) as (Hb & _ & m & e & Hm & He & EH).
  set (h := Spec.height src width x y) in *.
  unfold Spec.gradient, Spec.sum.
  destruct (weighted_sum h m e Hb EH Hm He
              ((λ k, (Spec.height src width (clampZ (x + k.1) 0 (width - 1))
                                            (clampZ (y + k.2) 0 (height - 1))
                      * kernel_at Kn (k.2 + 1) (k.1 + 1))%float) <$> grid (-1) 2 (-1) 2)
              ((λ k, cf (k.2 + 1) (k.1 + 1)) <$> grid (-1) 2 (-1) 2)) with (acc := 0%float) (A := 0)
    as [Hf HR].
  - apply Forall2_fmap, Forall_Forall2_diag, Forall_forall. intros p Hp.
    apply elem_of_grid in Hp. cbn beta.
    destruct (HK (p.2 + 1) (p.1 + 1) ltac:(lia) ltac:(lia)) as [Hc Ek].
    destruct (small_int_R _ _ Hc Ek) as [Hfk HRk].
    assert (Spec.height src width (clampZ (x + p.1) 0 (width - 1))
              (clampZ (y + p.2) 0 (height - 1)) = h) as ->.
    { unfold h, Spec.height. rewrite Hflat by lia. reflexivity. }
    split; [|lia]. apply (scaled_term h _ _ m e); auto. lia.
  - reflexivity.
  - rewrite R_0. lia.
  - rewrite length_fmap, length_grid. vm_compute. discriminate.
  - apply bounded_0. split; [exact Hf|]. rewrite HR, Hsum. lia.
Qed.

Lemma kernels_flat src width height x y :
  wf_buffer src width height -> 0 <= x < width -> 0 <= y < height ->
  (forall kx ky, -1 <= kx <= 1 -> -1 <= ky <= 1 ->
     Spec.luma src width (clampZ (x + kx) 0 (width - 1)) (clampZ (y + ky) 0 (height - 1))
     = Spec.luma src width x y) ->
  bounded 0 (Spec.gradient Spec.kernel_h src width height x y) /\
  bounded 0 (Spec.gradient Spec.kernel_v src width height x y).
Proof.
  intros Hwf Hx Hy Hflat. split.
  - apply (gradient_flat _ (λ i j, (j - 1) * (if i =? 1 then 2 else 1)) src width height x y
             Hwf Hx Hy Hflat); [|reflexivity].
    intros i j Hi Hj.
    assert (i = 0 \/ i = 1 \/ i = 2) as [-> | [-> | ->]] by lia;
      (assert (j = 0 \/ j = 1 \/ j = 2) as [-> | [-> | ->]] by lia);
      (split; [cbn; lia | reflexivity]).
  - apply (gradient_flat _ (λ i j, (i - 1) * (if j =? 1 then 2 else 1)) src width height x y
             Hwf Hx Hy Hflat); [|reflexivity].
    intros i j Hi Hj.
    assert (i = 0 \/ i = 1 \/ i = 2) as [-> | [-> | ->]] by lia;
      (assert (j = 0 \/ j = 1 \/ j = 2) as [-> | [-> | ->]] by lia);
      (split; [cbn; lia | reflexivity]).
Qed.

(** X18.  Where the luminance is the same over the whole edge-clamped 3x3
    neighbourhood of a pixel, the normal map stores the straight-up
    normal (128, 128, 255) there, whatever the finite strength. *)
Theorem generateNormal_flat src width height s x y :
  wf_buffer src width height -> 0 <= x < width -> 0 <= y < height ->
  is_finite s = true ->
  (forall kx ky, -1 <= kx <= 1 -> -1 <= ky <= 1 ->
     Spec.luma src width (clampZ (x + kx) 0 (width - 1)) (clampZ (y + ky) 0 (height - 1))
     = Spec.luma src width x y) ->
  stored (generateNormal src width height s) width x y 0 = Some 128 /\
  stored (generateNormal src width height s) width x y 1 = Some 128 /\
  stored (generateNormal src width height s) width x y 2 = Some 255.
Proof.
  intros Hwf Hx Hy Hs Hflat. rewrite is_finite_fin in Hs.
  rewrite !stored_normal by lia. unfold Spec.normal.
  destruct (kernels_flat src width height x y Hwf Hx Hy Hflat) as [Hdx Hdy].
  apply bounded_opp in Hdx, Hdy.
  pose proof (mul_zero_l _ s Hdx Hs) as Hnx. pose proof (mul_zero_l _ s Hdy Hs) as Hny.
  apply zero_float in Hnx, Hny. cbv zeta.
  destruct Hnx as [-> | ->], Hny as [-> | ->]; vm_compute; auto.
Qed.

Lemma generateNormal_flat_witness :
  stored (generateNormal [10; 20; 30; 255] 1 1 1.5) 1 0 0 0 = Some 128 /\
  stored (generateNormal [10; 20; 30; 255] 1 1 1.5) 1 0 0 1 = Some 128 /\
  stored (generateNormal [10; 20; 30; 255] 1 1 1.5) 1 0 0 2 = Some 255.
Proof.
  apply generateNormal_flat; try lia; try reflexivity.
  - split; [reflexivity|]. repeat constructor; unfold byte; lia.
  - intros kx ky Hkx Hky.
    replace (clampZ (0 + kx) 0 (1 - 1)) with 0 by (unfold clampZ; lia).
    replace (clampZ (0 + ky) 0 (1 - 1)) with 0 by (unfold clampZ; lia).
    reflexivity.
Defined.

(** ** The sliders at zero *)

Lemma contrast_bounded src width height x y :
  wf_buffer src width height -> 0 <= x < width -> 0 <= y < height ->
  bounded 38251 (Spec.contrast src width height x y).
Proof.
  intros Hwf Hx Hy. unfold Spec.contrast, Spec.mean. rewrite length_fmap.
  pose proof (window_count 2 width height x y ltac:(lia) Hx Hy) as H1.
  pose proof (window_size 2 width height x y ltac:(lia)) as H25.
  destruct (window_divisor 2 width height x y ltac:(lia) Hx Hy) as [Hf HR].
  pose proof unit_pos.
  change 38251 with (38250 + 1). apply div_bounded; [| exact Hf | | ].
  - apply (bounded_weaken
             (1530 * Z.of_nat (length ((λ p, abs (Spec.luma src width x y
                                                  - Spec.luma src width p.1 p.2)%float)
                                         <$> Spec.window 2 width height x y)))).
    { rewrite length_fmap. lia. }
    apply sum_bounded; [|lia|rewrite length_fmap; lia].
    apply Forall_fmap, Forall_forall. intros p Hp.
    apply window_inside in Hp as [Hp1 Hp2]. cbn beta.
    apply bounded_abs. change 1530 with (765 + 765).
    apply bounded_sub; [by apply (luma_wf src width height)
                       | by apply (luma_wf src width height) | lia].
  - destruct (R_Z2F (Z.of_nat (length (Spec.window 2 width height x y)))) as [_ ->]; [lia|].
    rewrite Z.abs_eq by nia. nia.
  - assert (2 ^ 16 <= 2 ^ 51) by (apply Z.pow_le_mono_r; lia).
    change (2 ^ 16) with 65536 in *. lia.
Qed.

(** X19.  With a slider at 0 the neighbourhood no longer matters: for
    every pixel of a well-formed buffer, intensity 0 makes the
    ambient-occlusion sample that of [255 - (255 - luma) * 0.3], the
    roughness sample that of [(255 - luma) * 0.3], and the metallic
    sample 0. *)
Theorem zero_intensity src width height x y c :
  wf_buffer src width height -> 0 <= x < width -> 0 <= y < height ->
  0 <= c < 3 ->
  stored (generateAO src width height 0) width x y c
  = Some (ToUint8Clamp (255 - (255 - Spec.luma src width x y) * 0.3)) /\
  stored (generateRoughness src width height 0) width x y c
  = Some (ToUint8Clamp ((255 - Spec.luma src width x y) * 0.3)) /\
  stored (generateMetallic src width height 0) width x y c = Some 0.
Proof.
  intros Hwf Hx Hy Hc.
  pose proof (bias_fin src width height x y Hwf Hx Hy) as Hb.
  split; [|split].
  - rewrite stored_ao by assumption. unfold Spec.ao. rewrite stored_unclamped. f_equal.
    destruct (contrast_bounded src width height x y Hwf Hx Hy) as [Hfc _].
    pose proof (mul_zero_l _ 2 (mul_zero_r _ 0 Hfc bounded_0_zero) (proj1 fin_2)) as Hz2.
    destruct (sub_zero_r 255 _ fin_255 Hz2) as [Hn HR].
    pose proof (same_R_fin _ 255 Hn (num_fin _ fin_255) HR) as Hf. rewrite fin_255 in Hf.
    destruct (sub_R _ _ Hf Hb) as [Hn1 HR1], (sub_R _ _ fin_255 Hb) as [Hn2 HR2].
    apply same_sample; [congruence|]. rewrite HR1, HR2, HR. reflexivity.
  - rewrite stored_roughness by assumption. unfold Spec.roughness.
    rewrite stored_unclamped. f_equal.
    destruct (variance_bounded src width height x y Hwf Hx Hy) as [Hfv _].
    pose proof (mul_zero_l _ 0.5 (mul_zero_r _ 0 Hfv bounded_0_zero) (proj1 R_half)) as Hz2.
    destruct (add_zero_l _ _ Hz2 Hb) as [Hn HR].
    apply same_sample; [|exact HR]. rewrite Hn. symmetry. by apply num_fin.
  - rewrite generateMetallic_render, stored_render by lia.
    assert (channel (let m := metallicValue src width 0 x y in (m, m, m)) c
            = metallicValue src width 0 x y) as ->
      by (assert (c = 0 \/ c = 1 \/ c = 2) as [-> | [-> | ->]] by lia; reflexivity).
    destruct (pixel_wf src width height x y Hwf Hx Hy)
      as (r & g & b & al & Hr & Hg & Hb' & _ & _ & _ & _ & _ & E).
    unfold metallicValue. rewrite E, Math_max3_bytes, Math_min3_bytes by assumption.
    destruct (metallic_factor (Z.max (Z.max r g) b) (Z.min (Z.min r g) b)) as [Hf _];
      [unfold byte in *; lia | unfold byte in *; lia |].
    cbv zeta in Hf.
    pose proof (grayscale_bounded r g b Hr Hg Hb') as [Hfl _].
    rewrite stored_unclamped. f_equal.
    pose proof (mul_zero_l _ _ (mul_zero_r _ 0 Hfl bounded_0_zero) Hf) as Hz.
    apply bounded_0 in Hz as [Hfz HRz].
    rewrite ToUint8Clamp_R by (by apply num_fin). rewrite HRz. reflexivity.
Qed.

Lemma zero_intensity_witness :
  stored (generateAO checker 2 2 0) 2 1 1 0
  = Some (ToUint8Clamp (255 - (255 - Spec.luma checker 2 1 1) * 0.3)) /\
  stored (generateRoughness checker 2 2 0) 2 1 1 0
  = Some (ToUint8Clamp ((255 - Spec.luma checker 2 1 1) * 0.3)) /\
  stored (generateMetallic checker 2 2 0) 2 1 1 0 = Some 0.
Proof.
  apply (zero_intensity checker 2 2 1 1 0); try lia.
  split; [reflexivity|]. repeat constructor; unfold byte; lia.
Defined.

(** X20.  With normalStrength 0 the normal map is the straight-up normal
    (128, 128, 255) at every pixel of a well-formed buffer. *)
Theorem generateNormal_zero_strength src width height x y :
  wf_buffer src width height -> 0 <= x < width -> 0 <= y < height ->
  stored (generateNormal src width height 0) width x y 0 = Some 128 /\
  stored (generateNormal src width height 0) width x y 1 = Some 128 /\
  stored (generateNormal src width height 0) width x y 2 = Some 255.
Proof.
  intros Hwf Hx Hy.
  rewrite !stored_normal by lia. unfold Spec.normal.
  destruct (gradient_bounded src width height x y Hwf Hx Hy) as [Hdx Hdy].
  apply bounded_opp in Hdx as [Hdx _], Hdy as [Hdy _].
  pose proof (mul_zero_r _ 0 Hdx bounded_0_zero) as Hnx.
  pose proof (mul_zero_r _ 0 Hdy bounded_0_zero) as Hny.
  apply zero_float in Hnx, Hny. cbv zeta.
  destruct Hnx as [-> | ->], Hny as [-> | ->]; vm_compute; auto.
Qed.

Lemma generateNormal_zero_strength_witness :
  stored (generateNormal checker 2 2 0) 2 1 0 0 = Some 128 /\
  stored (generateNormal checker 2 2 0) 2 1 0 1 = Some 128 /\
  stored (generateNormal checker 2 2 0) 2 1 0 2 = Some 255.
Proof.
  apply (generateNormal_zero_strength checker 2 2 1 0); try lia.
  split; [reflexivity|]. repeat constructor; unfold byte; lia.
Defined.

(** ** The albedo map *)

(** X21.  The albedo map does not depend on the sliders: two runs of
    [generatePBRTextures] on the same image source that both resolve,
    with any two sets of options, give the same albedo. *)
Theorem albedo_independent (B : Browser) (imageSrc : string) (o1 o2 : PBROptions)
    (t1 t2 : PBRTextures) :
  generatePBRTextures B imageSrc o1 = Resolved t1 ->
  generatePBRTextures B imageSrc o2 = Resolved t2 ->
  albedo t1 = albedo t2.
Proof.
  unfold generatePBRTextures. destruct (load B imageSrc) as [img|]; [|discriminate].
  unfold onload. destruct (canvasSize (img_width B img) (img_height B img)) as [w h].
  repeat match goal with
         | |- context [try_bind ?c _] => destruct c; cbn [try_bind]; try discriminate
         end.
  intros [= <-] [= <-]. reflexivity.
Qed.

Lemma albedo_independent_witness :
  exists t1 t2,
    generatePBRTextures plain_browser "tile.png" defaults = Resolved t1 /\
    generatePBRTextures plain_browser "tile.png"
      {| aoIntensity := 2; roughnessIntensity := 0; metallicIntensity := 1;
         normalStrength := 2 |} = Resolved t2 /\
    albedo t1 = albedo t2.
Proof.
  eexists _, _. split; [vm_compute; reflexivity|]. split; [vm_compute; reflexivity|].
  apply (albedo_independent plain_browser "tile.png" defaults
           {| aoIntensity := 2; roughnessIntensity := 0; metallicIntensity := 1;
              normalStrength := 2 |}); vm_compute; reflexivity.
Defined.

(** ** Only the colour channels of the source are read *)

Lemma render_ext width height (f g : Z -> Z -> float * float * float) :
  (forall x y, 0 <= x < width -> 0 <= y < height -> f x y = g x y) ->
  render width height f = render width height g.
Proof.
  intros Hfg. unfold render.
  generalize (replicate (Z.to_nat (width * height * 4)) 0) as acc.
  assert (Forall (λ p, 0 <= p.1 < width /\ 0 <= p.2 < height) (grid 0 width 0 height)) as Hl.
  { apply Forall_forall. intros p Hp. apply elem_of_grid in Hp. lia. }
  induction Hl as [|p l [Hp1 Hp2] Hl IH]; intros acc; [reflexivity|].
  cbn [foldl]. unfold paint at 2 4. rewrite (Hfg _ _ Hp1 Hp2). apply IH.
Qed.

Section Colour.
Variables (src1 src2 : list Z) (width height : Z).
Hypothesis Hrgb : forall x y k,
  0 <= x < width -> 0 <= y < height -> 0 <= k < 3 ->
  stored src1 width x y k = stored src2 width x y k.

Lemma colour_rd8 x y k :
  0 <= x < width -> 0 <= y < height -> 0 <= k < 3 ->
  rd8 src1 ((y * width + x) * 4 + k) = rd8 src2 ((y * width + x) * 4 + k).
Proof.
  intros Hx Hy Hk. pose proof (Hrgb x y k Hx Hy Hk) as H. unfold stored in H.
  unfold rd8. rewrite H. reflexivity.
Qed.

Lemma colour_getPixel x y :
  0 <= x < width -> 0 <= y < height ->
  exists r g b a1 a2,
    getPixel src1 width x y = (r, g, b, a1) /\ getPixel src2 width x y = (r, g, b, a2).
Proof.
  intros Hx Hy. unfold getPixel. cbv zeta.
  pose proof (colour_rd8 x y 0 Hx Hy ltac:(lia)) as H0. rewrite Z.add_0_r in H0.
  rewrite H0, (colour_rd8 x y 1 Hx Hy), (colour_rd8 x y 2 Hx Hy) by lia.
  by eexists _, _, _, _, _.
Qed.

Lemma colour_luma x y :
  0 <= x < width -> 0 <= y < height ->
  Spec.luma src1 width x y = Spec.luma src2 width x y.
Proof.
  intros Hx Hy. unfold Spec.luma.
  destruct (colour_getPixel x y Hx Hy) as (r & g & b & a1 & a2 & -> & ->). reflexivity.
Qed.

Lemma colour_ao a x y :
  0 <= x < width -> 0 <= y < height ->
  Spec.ao src1 width height a x y = Spec.ao src2 width height a x y.
Proof.
  intros Hx Hy.
  assert ((λ p, abs (Spec.luma src1 width x y - Spec.luma src1 width p.1 p.2)%float)
            <$> Spec.window 2 width height x y
          = (λ p, abs (Spec.luma src2 width x y - Spec.luma src2 width p.1 p.2)%float)
              <$> Spec.window 2 width height x y) as E.
  { apply list_fmap_ext. intros i p Hp.
    apply list_elem_of_lookup_2, window_inside in Hp as [Hp1 Hp2].
    by rewrite (colour_luma x y), (colour_luma p.1 p.2). }
  unfold Spec.ao, Spec.contrast. rewrite E, (colour_luma x y Hx Hy). reflexivity.
Qed.

Lemma colour_roughness a x y :
  0 <= x < width -> 0 <= y < height ->
  Spec.roughness src1 width height a x y = Spec.roughness src2 width height a x y.
Proof.
  intros Hx Hy.
  assert ((λ p, Spec.delta src1 width x y p.1 p.2) <$> Spec.window 1 width height x y
          = (λ p, Spec.delta src2 width x y p.1 p.2) <$> Spec.window 1 width height x y)
    as E.
  { apply list_fmap_ext. intros i p Hp.
    apply list_elem_of_lookup_2, window_inside in Hp as [Hp1 Hp2].
    unfold Spec.delta.
    destruct (colour_getPixel x y Hx Hy) as (r & g & b & a1 & a2 & -> & ->).
    destruct (colour_getPixel p.1 p.2 Hp1 Hp2) as (r' & g' & b' & a1' & a2' & -> & ->).
    reflexivity. }
  unfold Spec.roughness, Spec.variance. rewrite E, (colour_luma x y Hx Hy). reflexivity.
Qed.

Lemma colour_metallic a x y :
  0 <= x < width -> 0 <= y < height ->
  metallicValue src1 width a x y = metallicValue src2 width a x y.
Proof.
  intros Hx Hy. unfold metallicValue.
  destruct (colour_getPixel x y Hx Hy) as (r & g & b & a1 & a2 & -> & ->). reflexivity.
Qed.

Lemma colour_normal s x y :
  0 <= x < width -> 0 <= y < height ->
  Spec.normal src1 width height s x y = Spec.normal src2 width height s x y.
Proof.
  intros Hx Hy.
  assert (forall Kn, Spec.gradient Kn src1 width height x y
                     = Spec.gradient Kn src2 width height x y) as Hg.
  { intros Kn. unfold Spec.gradient. f_equal. apply list_fmap_ext. intros i p Hp.
    unfold Spec.height. cbn beta.
    rewrite colour_luma; [reflexivity | |]; unfold clampZ; lia. }
  unfold Spec.normal. rewrite !Hg. reflexivity.
Qed.

End Colour.

(** X22.  The generators read only the colour channels: two source
    buffers that agree on R, G and B at every pixel, whatever their alpha
    samples and whatever lies beyond the image, give the same four
    maps. *)
Theorem generators_ignore_alpha src1 src2 width height a :
  (forall x y k, 0 <= x < width -> 0 <= y < height -> 0 <= k < 3 ->
     stored src1 width x y k = stored src2 width x y k) ->
  generateAO src1 width height a = generateAO src2 width height a /\
  generateRoughness src1 width height a = generateRoughness src2 width height a /\
  generateMetallic src1 width height a = generateMetallic src2 width height a /\
  generateNormal src1 width height a = generateNormal src2 width height a.
Proof.
  intros Hrgb. split; [|split; [|split]].
  - rewrite !generateAO_render. apply render_ext. intros x y Hx Hy. cbv zeta.
    rewrite !aoValue_spec, (colour_ao src1 src2 width height Hrgb a x y Hx Hy). reflexivity.
  - rewrite !generateRoughness_render. apply render_ext. intros x y Hx Hy. cbv zeta.
    rewrite !roughnessValue_spec,
      (colour_roughness src1 src2 width height Hrgb a x y Hx Hy). reflexivity.
  - rewrite !generateMetallic_render. apply render_ext. intros x y Hx Hy. cbv zeta.
    rewrite (colour_metallic src1 src2 width height Hrgb a x y Hx Hy). reflexivity.
  - rewrite !generateNormal_render. apply render_ext. intros x y Hx Hy.
    rewrite !normalValue_spec by assumption.
    apply (colour_normal src1 src2 width height Hrgb a x y Hx Hy).
Qed.

Lemma generators_ignore_alpha_witness :
  generateAO checker 2 2 1.5
  = generateAO [0; 0; 0; 0; 255; 255; 255; 128; 255; 255; 255; 7; 10; 200; 30; 0; 99] 2 2 1.5 /\
  generateRoughness checker 2 2 1.5
  = generateRoughness [0; 0; 0; 0; 255; 255; 255; 128; 255; 255; 255; 7; 10; 200; 30; 0; 99] 2 2 1.5 /\
  generateMetallic checker 2 2 1.5
  = generateMetallic [0; 0; 0; 0; 255; 255; 255; 128; 255; 255; 255; 7; 10; 200; 30; 0; 99] 2 2 1.5 /\
  generateNormal checker 2 2 1.5
  = generateNormal [0; 0; 0; 0; 255; 255; 255; 128; 255; 255; 255; 7; 10; 200; 30; 0; 99] 2 2 1.5.
Proof.
  apply generators_ignore_alpha. intros x y k Hx Hy Hk.
  assert (x = 0 \/ x = 1) as [-> | ->] by lia;
    (assert (y = 0 \/ y = 1) as [-> | ->] by lia);
    (assert (k = 0 \/ k = 1 \/ k = 2) as [-> | [-> | ->]] by lia); reflexivity.
Defined.

(** * The generators against the rules of the specification *)

Import Rounding RoundingFacts.


Lemma nan_unique v : num v = false -> v = nan.
Proof.
  unfold num. intros H. rewrite <- (SF2Prim_Prim2SF v).
  destruct (Prim2SF v); try discriminate. reflexivity.
Qed.

Lemma Math_min_255 v :
  num v = true -> Math_min 255 v = if (255 <? v)%float then 255%float else v.
Proof.
  intros Hn. unfold Math_min. rewrite !is_nan_num, Hn. change (num 255) with true.
  cbn [negb orb]. destruct (255 <? v)%float; [reflexivity|].
  change (get_sign 255) with false. destruct (v <? 255)%float; reflexivity.
Qed.

Lemma Math_max_0 w :
  num w = true -> Math_max 0 w = if (0 <? w)%float then w else 0%float.
Proof.
  intros Hn. unfold Math_max. rewrite !is_nan_num, Hn. change (num 0) with true.
  cbn [negb orb]. destruct (0 <? w)%float; [reflexivity|].
  change (get_sign 0) with false. destruct (w <? 0)%float; reflexivity.
Qed.

Lemma limit_clamp v : clamp v 0 255 = Rule.limit v.
Proof.
  unfold Rule.limit, clamp. destruct (num v) eqn:Hn.
  - pose proof unit_pos as Hu.
    rewrite (Math_min_255 v Hn).
    rewrite !leb_R, (ltb_R 255 v), R_0, R_255 by (assumption || reflexivity).
    destruct (Z.ltb_spec (255 * 2 ^ K) (R v)) as [H2|H2].
    + destruct (Z.leb_spec (R v) 0); [lia|].
      destruct (Z.leb_spec (255 * 2 ^ K) (R v)); [reflexivity | lia].
    + rewrite (Math_max_0 v Hn), (ltb_R 0 v), R_0 by (assumption || reflexivity).
      destruct (Z.ltb_spec 0 (R v)), (Z.leb_spec (R v) 0); try lia; [|reflexivity].
      destruct (Z.leb_spec (255 * 2 ^ K) (R v)); [|reflexivity].
      assert (fin v = true) as Hf.
      { rewrite (fin_R v Hn). pose proof (whole_lt_top 255 ltac:(split; [lia|reflexivity])).
        apply andb_true_iff. rewrite !Z.ltb_lt. lia. }
      apply R_inj; [exact Hf | exact fin_255 | rewrite R_255; lia | lia].
  - rewrite (nan_unique v Hn). reflexivity.
Qed.

Lemma rule_colour src width x y c :
  0 <= (y * width + x) * 4 + c ->
  Rule.colour src width x y c = rd8 src ((y * width + x) * 4 + c).
Proof.
  intros H. unfold Rule.colour, rd8. destruct (Z.ltb_spec ((y * width + x) * 4 + c) 0); [lia|].
  reflexivity.
Qed.

Lemma rule_getPixel src width height x y :
  0 <= x < width -> 0 <= y < height ->
  getPixel src width x y
  = (Rule.colour src width x y 0, Rule.colour src width x y 1,
     Rule.colour src width x y 2, Rule.colour src width x y 3).
Proof.
  intros Hx Hy. unfold getPixel. cbv zeta.
  rewrite !rule_colour by nia. rewrite Z.add_0_r. reflexivity.
Qed.

Lemma rule_luma src width height x y :
  0 <= x < width -> 0 <= y < height ->
  Spec.luma src width x y = Rule.luma src width x y.
Proof.
  intros Hx Hy. unfold Spec.luma.
  rewrite (rule_getPixel src width height x y Hx Hy). reflexivity.
Qed.

Lemma rule_window radius width height x y :
  Spec.window radius width height x y = Rule.neighbours radius width height x y.
Proof.
  unfold Spec.window, Rule.neighbours, grid.
  replace (x + radius + 1 - (x - radius)) with (2 * radius + 1) by lia.
  replace (y + radius + 1 - (y - radius)) with (2 * radius + 1) by lia.
  apply list_filter_iff. intros p. unfold in_bounds.
  rewrite !andb_true_iff, !Z.leb_le, !Z.ltb_lt. lia.
Qed.

Lemma rule_ao src width height a x y :
  0 <= x < width -> 0 <= y < height ->
  Spec.ao src width height a x y = Rule.ao src width height a x y.
Proof.
  intros Hx Hy. unfold Spec.ao, Rule.ao, Spec.contrast, Rule.contrast.
  rewrite limit_clamp, (rule_luma src width height x y Hx Hy), rule_window.
  do 4 f_equal. unfold Spec.mean, Rule.mean, Spec.sum.
  assert ((λ p, abs (Rule.luma src width x y - Spec.luma src width p.1 p.2)%float)
            <$> Rule.neighbours 2 width height x y
          = (λ p, abs (Rule.luma src width x y - Rule.luma src width p.1 p.2)%float)
              <$> Rule.neighbours 2 width height x y) as ->; [|reflexivity].
  apply list_fmap_ext. intros i p Hp.
  apply list_elem_of_lookup_2 in Hp. rewrite <- rule_window in Hp.
  apply window_inside in Hp as [Hp1 Hp2].
  by rewrite (rule_luma src width height p.1 p.2).
Qed.

Lemma rule_roughness src width height a x y :
  0 <= x < width -> 0 <= y < height ->
  Spec.roughness src width height a x y = Rule.roughness src width height a x y.
Proof.
  intros Hx Hy. unfold Spec.roughness, Rule.roughness, Spec.variance, Rule.variance.
  rewrite limit_clamp, (rule_luma src width height x y Hx Hy), rule_window.
  assert ((λ p, Spec.delta src width x y p.1 p.2) <$> Rule.neighbours 1 width height x y
          = (λ p, Rule.delta src width x y p.1 p.2) <$> Rule.neighbours 1 width height x y)
    as ->; [|reflexivity].
  apply list_fmap_ext. intros i p Hp.
  apply list_elem_of_lookup_2 in Hp. rewrite <- rule_window in Hp.
  apply window_inside in Hp as [Hp1 Hp2].
  unfold Spec.delta, Rule.delta.
  rewrite (rule_getPixel src width height x y Hx Hy),
    (rule_getPixel src width height p.1 p.2 Hp1 Hp2). reflexivity.
Qed.

Lemma larger_bytes a b : byte a -> byte b -> Rule.larger (Z2F a) (Z2F b) = Z2F (Z.max a b).
Proof.
  intros Ha Hb. unfold byte in *. unfold Rule.larger. pose proof unit_pos.
  destruct (R_Z2F a ltac:(lia)) as [Fa Ra], (R_Z2F b ltac:(lia)) as [Fb Rb].
  rewrite ltb_R, Ra, Rb by (by apply num_fin).
  destruct (Z.ltb_spec (a * 2 ^ K) (b * 2 ^ K)); f_equal; nia.
Qed.

Lemma smaller_bytes a b : byte a -> byte b -> Rule.smaller (Z2F a) (Z2F b) = Z2F (Z.min a b).
Proof.
  intros Ha Hb. unfold byte in *. unfold Rule.smaller. pose proof unit_pos.
  destruct (R_Z2F a ltac:(lia)) as [Fa Ra], (R_Z2F b ltac:(lia)) as [Fb Rb].
  rewrite ltb_R, Ra, Rb by (by apply num_fin).
  destruct (Z.ltb_spec (b * 2 ^ K) (a * 2 ^ K)); f_equal; nia.
Qed.

Lemma rule_metallic src width height a x y :
  wf_buffer src width height -> 0 <= x < width -> 0 <= y < height ->
  metallicValue src width a x y = Rule.metallic src width a x y /\
  (is_finite a = true -> is_nan (metallicValue src width a x y) = false).
Proof.
  intros Hwf Hx Hy.
  destruct (pixel_wf src width height x y Hwf Hx Hy)
    as (r & g & b & al & Hr & Hg & Hb & _ & _ & _ & _ & _ & E).
  pose proof (rule_getPixel src width height x y Hx Hy) as E'. rewrite E in E'.
  injection E' as Er Eg Eb _.
  assert (byte (Z.max (Z.max r g) b)) as HM by (unfold byte in *; lia).
  assert (byte (Z.min (Z.min r g) b)) as Hm by (unfold byte in *; lia).
  unfold metallicValue, Rule.metallic, Rule.saturation, Rule.luma.
  rewrite E, Math_max3_bytes, Math_min3_bytes, <- Er, <- Eg, <- Eb by assumption.
  rewrite !larger_bytes, !smaller_bytes by (assumption || (unfold byte in *; lia)).
  rewrite (byte_zero_or_positive _ HM), limit_clamp. cbv zeta.
  split.
  - unfold grayscale. destruct (0 <? Z2F (Z.max (Z.max r g) b))%float; reflexivity.
  - intros Ha. rewrite is_finite_fin in Ha.
    destruct (metallic_factor _ _ HM Hm) as [Hf Hp]. cbv zeta in Hf, Hp.
    rewrite (byte_zero_or_positive _ HM) in Hf, Hp.
    pose proof (grayscale_bounded r g b Hr Hg Hb) as [Hfl _].
    destruct (mul_R _ _ Hfl Ha) as [Hn1 _].
    destruct (mul_pos_r_R _ _ Hf Hp Hn1) as [Hn2 _].
    rewrite <- limit_clamp. destruct (clamp_R _ Hn2) as [Hn3 _].
    rewrite is_nan_num, Hn3. reflexivity.
Qed.

(** C1.  For every pixel [(x, y)] of the source buffer, the value
    [generateAO] passes to [setPixel] is the rule's
    [clamp(255 - avgContrast * aoIntensity * 2 - (255 - luma(x,y)) * 0.3, 0, 255)],
    with [luma = 0.299 R + 0.587 G + 0.114 B] over the samples of the
    buffer and [avgContrast] the mean of [|luma(centre) - luma(neighbour)|]
    over the in-image positions of the 5x5 window, divided by their
    count; R, G and B of the output hold its sample, alpha holds 255. *)
Theorem generateAO_pixel src width height aoIntensity x y :
  0 <= x < width -> 0 <= y < height ->
  let out := generateAO src width height aoIntensity in
  let v := Rule.ao src width height aoIntensity x y in
  aoValue src width height aoIntensity x y = v /\
  stored out width x y 0 = Some (ToUint8Clamp v) /\
  stored out width x y 1 = Some (ToUint8Clamp v) /\
  stored out width x y 2 = Some (ToUint8Clamp v) /\
  stored out width x y 3 = Some 255.
Proof.
  intros Hx Hy out v. subst out v.
  rewrite <- (rule_ao src width height aoIntensity x y Hx Hy).
  split; [apply aoValue_spec|].
  rewrite !stored_ao by lia. repeat split.
  rewrite generateAO_render, stored_render by lia. reflexivity.
Qed.

Lemma generateAO_pixel_witness :
  stored (generateAO checker 2 2 1) 2 1 1 0 = Some 23 /\
  stored (generateAO checker 2 2 1) 2 1 1 1 = Some 23 /\
  stored (generateAO checker 2 2 1) 2 1 1 2 = Some 23 /\
  stored (generateAO checker 2 2 1) 2 1 1 3 = Some 255.
Proof.
  destruct (generateAO_pixel checker 2 2 1 1 1 ltac:(lia) ltac:(lia)) as (_ & H0 & H1 & H2 & H3).
  rewrite H0, H1, H2, H3. repeat split; vm_compute; reflexivity.
Defined.

(** C3.  For every pixel, the value [generateRoughness] passes to
    [setPixel] is the rule's
    [clamp(avgVariance * roughnessIntensity * 0.5 + (255 - luma) * 0.3, 0, 255)],
    [avgVariance] being the mean of [|dR| + |dG| + |dB|] between the
    centre and each in-image position of the 3x3 window, divided by their
    count; R, G and B of the output hold its sample, alpha holds 255. *)
Theorem generateRoughness_pixel src width height roughnessIntensity x y :
  0 <= x < width -> 0 <= y < height ->
  let out := generateRoughness src width height roughnessIntensity in
  let v := Rule.roughness src width height roughnessIntensity x y in
  roughnessValue src width height roughnessIntensity x y = v /\
  stored out width x y 0 = Some (ToUint8Clamp v) /\
  stored out width x y 1 = Some (ToUint8Clamp v) /\
  stored out width x y 2 = Some (ToUint8Clamp v) /\
  stored out width x y 3 = Some 255.
Proof.
  intros Hx Hy out v. subst out v.
  rewrite <- (rule_roughness src width height roughnessIntensity x y Hx Hy).
  split; [apply roughnessValue_spec|].
  rewrite !stored_roughness by lia. repeat split.
  rewrite generateRoughness_render, stored_render by lia. reflexivity.
Qed.

Lemma generateRoughness_pixel_witness :
  stored (generateRoughness checker 2 2 0.25) 2 1 1 0 = Some 80 /\
  stored (generateRoughness checker 2 2 0.25) 2 1 1 1 = Some 80 /\
  stored (generateRoughness checker 2 2 0.25) 2 1 1 2 = Some 80 /\
  stored (generateRoughness checker 2 2 0.25) 2 1 1 3 = Some 255.
Proof.
  destruct (generateRoughness_pixel checker 2 2 0.25 1 1 ltac:(lia) ltac:(lia))
    as (_ & H0 & H1 & H2 & H3).
  rewrite H0, H1, H2, H3. repeat split; vm_compute; reflexivity.
Defined.

(** C4.  For every pixel of a well-formed buffer, the value
    [generateMetallic] passes to [setPixel] is the rule's
    [clamp(luma * metallicIntensity * (1 - saturation * 0.5), 0, 255)] with
    [saturation = (max - min) / max] where [max(R,G,B) > 0] and
    [saturation = 0] where [max(R,G,B) = 0]: the quotient 0/0 is never
    formed, so the value is a number whenever the intensity is finite;
    R, G and B of the output hold its sample, alpha holds 255. *)
Theorem generateMetallic_pixel src width height metallicIntensity x y :
  wf_buffer src width height -> 0 <= x < width -> 0 <= y < height ->
  let out := generateMetallic src width height metallicIntensity in
  let v := Rule.metallic src width metallicIntensity x y in
  metallicValue src width metallicIntensity x y = v /\
  (is_finite metallicIntensity = true -> is_nan v = false) /\
  stored out width x y 0 = Some (ToUint8Clamp v) /\
  stored out width x y 1 = Some (ToUint8Clamp v) /\
  stored out width x y 2 = Some (ToUint8Clamp v) /\
  stored out width x y 3 = Some 255.
Proof.
  intros Hwf Hx Hy out v. subst out v.
  destruct (rule_metallic src width height metallicIntensity x y Hwf Hx Hy) as [E Hn].
  rewrite <- E. split; [reflexivity|]. split; [exact Hn|].
  rewrite generateMetallic_render, !stored_render by lia. repeat split.
Qed.

Lemma generateMetallic_pixel_witness :
  (metallicValue checker 2 0.5 0 0 = 0%float /\
   stored (generateMetallic checker 2 2 0.5) 2 0 0 0 = Some 0) /\
  (stored (generateMetallic checker 2 2 0.5) 2 1 1 0 = Some 33 /\
   stored (generateMetallic checker 2 2 0.5) 2 1 1 1 = Some 33 /\
   stored (generateMetallic checker 2 2 0.5) 2 1 1 2 = Some 33 /\
   stored (generateMetallic checker 2 2 0.5) 2 1 1 3 = Some 255).
Proof.
  assert (wf_buffer checker 2 2) as Hwf.
  { split; [reflexivity|]. repeat constructor; unfold byte; lia. }
  split.
  - destruct (generateMetallic_pixel checker 2 2 0.5 0 0 Hwf ltac:(lia) ltac:(lia))
      as (E & _ & H0 & _).
    rewrite E, H0. split; vm_compute; reflexivity.
  - destruct (generateMetallic_pixel checker 2 2 0.5 1 1 Hwf ltac:(lia) ltac:(lia))
      as (_ & _ & H0 & H1 & H2 & H3).
    rewrite H0, H1, H2, H3. repeat split; vm_compute; reflexivity.
Defined.


(** * The resize rule *)


Lemma scaled_max a w h :
  0 <= a -> 0 < w -> 0 < h -> Rule.scaled a w h = 1024 * a / Z.max w h.
Proof.
  intros Ha Hw Hh. unfold Rule.scaled.
  destruct (Z.max_spec w h) as [[Hlt ->] | [Hle ->]].
  - apply Z.min_r. apply Z.div_le_compat_l; lia.
  - apply Z.min_l. apply Z.div_le_compat_l; lia.
Qed.

Lemma scaled_between U e M a v E rho :
  0 < U -> 0 <= e -> 1 <= a <= M -> 2 * (M * e) <= U ->
  M * v <= 1024 * a * U + M * e ->
  1024 * a * U - M * e <= M * v ->
  1024 * a = E * M + rho -> 0 <= rho < M ->
  (E - 1) * U <= v <= (E + 1) * U - e /\ (rho <> 0 -> E * U <= v).
Proof.
  intros HU He Ha Hsmall Hup Hlow HE Hrho.
  assert (0 <= M * e) as HMe by (apply Z.mul_nonneg_nonneg; lia).
  assert (1024 * a * U = E * M * U + rho * U) as EX by (rewrite HE; ring).
  assert (0 <= rho * U) by (apply Z.mul_nonneg_nonneg; lia).
  assert (rho * U <= (M - 1) * U) by (apply Z.mul_le_mono_nonneg_r; lia).
  split; [split|].
  - apply (Z.mul_le_mono_pos_l _ _ M); [lia|].
    replace (M * ((E - 1) * U)) with (E * M * U - M * U) by ring.
    assert (1 * U <= M * U) by (apply Z.mul_le_mono_nonneg_r; lia). lia.
  - apply (Z.mul_le_mono_pos_l _ _ M); [lia|].
    replace (M * ((E + 1) * U - e)) with (E * M * U + M * U - M * e) by ring.
    replace ((M - 1) * U) with (M * U - U) in * by ring. lia.
  - intros Hne. apply (Z.mul_le_mono_pos_l _ _ M); [lia|].
    replace (M * (E * U)) with (E * M * U) by ring.
    assert (1 * U <= rho * U) by (apply Z.mul_le_mono_nonneg_r; lia). lia.
Qed.

Lemma side_exact w h a :
  1 <= w < 2 ^ 31 -> 1 <= h < 2 ^ 31 -> a = w \/ a = h ->
  let c := floorZ (Z2F a * Math_min (Z2F maxSize / Z2F w) (Z2F maxSize / Z2F h)) in
  let E := 1024 * a / Z.max w h in
  E - 1 <= c <= E /\ ((1024 * a) mod Z.max w h <> 0 -> c = E).
Proof.
  intros Hw Hh Ha c E. pose proof unit_pos as Hu. pose proof K_ge as HK.
  assert (1 <= a < 2 ^ 31) as Ha' by (destruct Ha; subst; lia).
  subst c. destruct (scaled_R w h a Hw Hh Ha') as [HR ->].
  destruct (ratio_R w Hw) as (_ & low & ulpw & Hlw & Huw & Hqw & Hloww & Huppw & Hauw).
  destruct (ratio_R h Hh) as (_ & loh & ulph & Hlh & Huh & Hqh & Hlowh & Hupph & Hauh).
  revert HR Hqw Hqh.
  generalize (R (Z2F maxSize / Z2F w)), (R (Z2F maxSize / Z2F h)),
    (R (Math_min (Z2F maxSize / Z2F w) (Z2F maxSize / Z2F h))).
  intros qw qh r -> Hqw Hqh.
  assert (2 ^ K = 2 ^ 41 * 2 ^ (K - 41)) as Eu
    by (rewrite <- Z.pow_add_r by lia; f_equal; lia).
  assert (0 < 2 ^ (K - 41)) as He by (apply Z.pow_pos_nonneg; lia).
  assert (2 ^ 41 = 2199023255552) as E41 by reflexivity.
  assert (2 ^ 31 = 2147483648) as E31 by reflexivity.
  set (e := 2 ^ (K - 41)) in *.
  set (M := Z.max w h) in *.
  assert (1 <= a <= M /\ M < 2 ^ 31) as [HaM HM] by (unfold M; destruct Ha; subst; lia).
  assert (w * ulpw <= e /\ h * ulph <= e) as [Hew Heh] by (rewrite E41 in *; split; lia).
  assert (0 <= E) as HE0 by (apply Z.div_pos; lia).
  assert (E <= 1024) as HE1.
  { apply Z.div_le_upper_bound; [lia|]. rewrite (Z.mul_comm M).
    apply Z.mul_le_mono_nonneg_l; lia. }
  pose proof (Z.div_mod (1024 * a) M ltac:(lia)) as Hdm. fold E in Hdm.
  pose proof (Z.mod_pos_bound (1024 * a) M ltac:(lia)) as Hrho.
  set (rho := (1024 * a) mod M) in *.
  assert (0 <= Z.min qw qh) as Hr0 by lia.
  assert (0 <= a * Z.min qw qh) as Hv0 by (apply Z.mul_nonneg_nonneg; lia).
  (* the product against the exact quotient, from above *)
  assert (M * Z.min qw qh <= 1024 * 2 ^ K + e) as HupM.
  { unfold M. destruct (Z.max_spec w h) as [[_ ->] | [_ ->]].
    - rewrite (Z.mul_comm h). apply (Z.le_trans _ ((loh + ulph) * h)); [|lia].
      apply Z.mul_le_mono_nonneg_r; lia.
    - rewrite (Z.mul_comm w). apply (Z.le_trans _ ((low + ulpw) * w)); [|lia].
      apply Z.mul_le_mono_nonneg_r; lia. }
  assert (M * (a * Z.min qw qh) <= 1024 * a * 2 ^ K + M * e) as Hup.
  { replace (M * (a * Z.min qw qh)) with (a * (M * Z.min qw qh)) by ring.
    apply (Z.le_trans _ (a * (1024 * 2 ^ K + e))); [apply Z.mul_le_mono_nonneg_l; lia|].
    assert (a * e <= M * e) by (apply Z.mul_le_mono_nonneg_r; lia). lia. }
  (* and from below *)
  assert (1024 * 2 ^ K - e <= M * Z.min qw qh) as HlowM.
  { destruct (Z.min_spec qw qh) as [[_ ->] | [_ ->]].
    - apply (Z.le_trans _ (w * low)); [lia|].
      apply (Z.le_trans _ (w * qw)); [apply Z.mul_le_mono_nonneg_l; lia|].
      apply Z.mul_le_mono_nonneg_r; unfold M; lia.
    - apply (Z.le_trans _ (h * loh)); [lia|].
      apply (Z.le_trans _ (h * qh)); [apply Z.mul_le_mono_nonneg_l; lia|].
      apply Z.mul_le_mono_nonneg_r; unfold M; lia. }
  assert (1024 * a * 2 ^ K - M * e <= M * (a * Z.min qw qh)) as Hlow.
  { replace (M * (a * Z.min qw qh)) with (a * (M * Z.min qw qh)) by ring.
    apply (Z.le_trans _ (a * (1024 * 2 ^ K - e))); [|apply Z.mul_le_mono_nonneg_l; lia].
    assert (a * e <= M * e) by (apply Z.mul_le_mono_nonneg_r; lia). lia. }
  assert (2 * (M * e) <= 2 ^ K) as Hsmall.
  { rewrite Eu, E41. rewrite E31 in HM.
    assert (M * e <= 2147483648 * e) by (apply Z.mul_le_mono_nonneg_r; lia). lia. }
  destruct (scaled_between (2 ^ K) e M a (a * Z.min qw qh) E rho
              Hu ltac:(lia) HaM Hsmall Hup Hlow ltac:(lia) Hrho) as [[Hv1 Hv2] Hv3].
  revert Hv0 Hv1 Hv2 Hv3. generalize (a * Z.min qw qh). intros v Hv0 Hv1 Hv2 Hv3.
  pose proof (near_mono 0 v Hv0) as N0. rewrite near_0 in N0.
  assert (near v <= (E + 1) * 2 ^ K - e) as N2.
  { replace ((E + 1) * 2 ^ K - e) with (((E + 1) * 2 ^ 41 - 1) * e)
      by (rewrite Eu; ring).
    apply near_below; [rewrite E41; split; [lia|] | lia | rewrite Eu in Hv2; lia].
    apply (Z.le_lt_trans _ (1025 * 2199023255552)); [lia | reflexivity]. }
  assert ((E - 1) * 2 ^ K <= near v) as N1.
  { destruct (Z.eq_dec E 0) as [-> | Hne]; [lia|].
    apply near_above; [split; [lia|] | lia | exact Hv1].
    apply (Z.le_lt_trans _ 1024); [lia | reflexivity]. }
  split; [split|].
  - apply Z.div_le_lower_bound; lia.
  - assert (near v / 2 ^ K < E + 1); [|lia]. apply Z.div_lt_upper_bound; lia.
  - intros Hne. specialize (Hv3 Hne).
    assert (E * 2 ^ K <= near v) as N3.
    { apply near_above; [split; [lia|] | lia | exact Hv3].
      apply (Z.le_lt_trans _ 1024); [lia | reflexivity]. }
    apply Z.le_antisymm.
    + assert (near v / 2 ^ K < E + 1); [|lia]. apply Z.div_lt_upper_bound; lia.
    + apply Z.div_le_lower_bound; lia.
Qed.

(** C5, as stated, fails where the rule is read exactly: an image of
    1122 x 1122 pixels has factor 1024/1122 and scaled sides
    [1122 * (1024/1122) = 1024], but the canvas is 1023 x 1023. *)
Lemma resize_not_exact :
  canvasSize 1122 1122 = (1023, 1023) /\ Rule.canvasSize 1122 1122 = (1024, 1024).
Proof. split; vm_compute; reflexivity. Qed.

(** C5, amended.  An image of at most 1024 x 1024 pixels keeps its size.
    A larger one gets, on each side, the floor of the side scaled by
    [min(1024 / w, 1024 / h)], or one pixel less: the product is rounded to
    binary64 before it is floored, so it can fall short only where the
    exact scaled side is a whole number.  2048 x 1024 becomes 1024 x 512,
    and 512 x 256 stays as it is. *)
Theorem canvasSize_rule w h :
  1 <= w < 2 ^ 31 -> 1 <= h < 2 ^ 31 ->
  (w <= 1024 /\ h <= 1024 -> canvasSize w h = (w, h)) /\
  (Rule.canvasSize w h).1 - 1 <= (canvasSize w h).1 <= (Rule.canvasSize w h).1 /\
  (Rule.canvasSize w h).2 - 1 <= (canvasSize w h).2 <= (Rule.canvasSize w h).2 /\
  ((1024 * w) mod Z.max w h <> 0 -> (canvasSize w h).1 = (Rule.canvasSize w h).1) /\
  ((1024 * h) mod Z.max w h <> 0 -> (canvasSize w h).2 = (Rule.canvasSize w h).2) /\
  canvasSize 2048 1024 = (1024, 512) /\ canvasSize 512 256 = (512, 256).
Proof.
  intros Hw Hh.
  assert (canvasSize 2048 1024 = (1024, 512) /\ canvasSize 512 256 = (512, 256)) as Hex
    by (split; vm_compute; reflexivity).
  unfold canvasSize at 1 2 3 4 5 6 7, Rule.canvasSize, maxSize.
  rewrite !Z.gtb_ltb.
  destruct (Z.ltb_spec 1024 w) as [Hbw|Hsw], (Z.ltb_spec 1024 h) as [Hbh|Hsh];
    cbn [orb];
    repeat match goal with
           | |- context [?a <=? 1024] => destruct (Z.leb_spec a 1024); try lia
           end; cbn [andb fst snd].
  4:{ split; [reflexivity|]. repeat split; try lia; exact (proj1 Hex) || exact (proj2 Hex). }
  all: rewrite !scaled_max by lia;
    destruct (side_exact w h w Hw Hh ltac:(auto)) as [Hb1 He1];
    destruct (side_exact w h h Hw Hh ltac:(auto)) as [Hb2 He2];
    cbv zeta in Hb1, He1, Hb2, He2; unfold maxSize in *;
    split; [lia|]; split; [exact Hb1|]; split; [exact Hb2|];
    split; [exact He1|]; split; [exact He2|]; exact Hex.
Qed.

Lemma canvasSize_rule_witness :
  (canvasSize 3000 2000).2 = 682 /\ 1023 <= (canvasSize 3000 2000).1 <= 1024.
Proof.
  destruct (canvasSize_rule 3000 2000) as (_ & H1 & _ & _ & H2 & _);
    [split; (lia || reflexivity) | split; (lia || reflexivity) |].
  change (Rule.canvasSize 3000 2000) with (1024, 682) in *. cbn [fst snd] in *.
  split; [|exact H1]. apply H2. vm_compute. discriminate.
Defined.


(** * The outcome of the promise *)


Section Outcome.
Variable B : Browser.


End Outcome.



(** * Finite values *)









(** * Invocations on a shared heap *)


(** ** One invocation leaves nothing behind but its own fresh buffers *)






Section Fresh.
Variables (h : Heap) (srcData : nat) (width height : Z).
Hypothesis Hsrc : (srcData < length h)%nat.






End Fresh.






(** * The length of the decoded normal *)

(** *** The error of one rounding *)

(** Rounding moves a value by at most one unit in its last place: by
    [2^-52] of its magnitude, or by the least positive number. *)
Lemma round_err v : 0 <= v -> 2 ^ 52 * Z.abs (Rounding.round K v - v) <= v + 2 ^ (K - 1022).
Proof.
  intros Hv. pose proof K_ge as HK. unfold Rounding.round.
  pose proof (place_nonneg K HK v) as Hj.
  set (j := place K v) in *.
  pose proof (pow2_pos j Hj) as Hp.
  pose proof (rne_bounds j v Hj) as Hr.
  pose proof (Z.div_mod v (2 ^ j) ltac:(lia)) as Hdm.
  pose proof (Z.mod_pos_bound v (2 ^ j) Hp) as Hmb.
  assert (Z.abs (rne j v * 2 ^ j - v) <= 2 ^ j) as He by nia.
  assert (2 ^ 52 * 2 ^ j <= v + 2 ^ (K - 1022)) as Hs.
  { subst j. unfold place.
    destruct (Z.max_spec (digits v - 53) (K - 1074)) as [[_ ->] | [Hd ->]].
    - rewrite <- Z.pow_add_r by lia. replace (52 + (K - 1074)) with (K - 1022) by lia. lia.
    - assert (0 < v).
      { destruct (Z.eq_dec v 0) as [-> | ]; [|lia]. unfold digits in Hd. cbn in Hd. lia. }
      pose proof (digits_bounds v ltac:(lia)) as [Hb _].
      rewrite <- Z.pow_add_r by lia. replace (52 + (digits v - 53)) with (digits v - 1) by lia.
      pose proof (pow2_pos (K - 1022) ltac:(lia)). lia. }
  assert (0 < 2 ^ 52) by (apply pow2_pos; lia). nia.
Qed.

Lemma near_err v :
  Z.abs (near v) < top -> 2 ^ 52 * Z.abs (near v - v) <= Z.abs v + 2 ^ (K - 1022).
Proof.
  unfold near, fl, cap, sround, top. intros Hn.
  destruct (Z.ltb_spec v 0) as [Hv | Hv].
  - pose proof (round_err (- v) ltac:(lia)). lia.
  - pose proof (round_err v Hv). lia.
Qed.

(** The least positive number, against the unit. *)
Lemma tiny_unit : 2 ^ 100 * 2 ^ (K - 1022) <= 2 ^ K /\ 0 < 2 ^ (K - 1022) /\ 2 ^ 100 <= 2 ^ K.
Proof.
  pose proof K_ge. split; [|split].
  - rewrite <- Z.pow_add_r by lia. apply Z.pow_le_mono_r; lia.
  - apply pow2_pos; lia.
  - apply Z.pow_le_mono_r; lia.
Qed.

Lemma fin_lt_top x : fin x = true -> Z.abs (R x) < top.
Proof. intros H. pose proof (finite_R x H). lia. Qed.

Ltac literals :=
  change (2 ^ 100) with 1267650600228229401496703205376 in *;
  change (2 ^ 52) with 4503599627370496 in *.

Lemma mul_close x y :
  fin x = true -> fin y = true -> fin (x * y) = true ->
  2 ^ 52 * Z.abs (R (x * y) * 2 ^ K - R x * R y)
  <= Z.abs (R x * R y) + 2 ^ 100 * 2 ^ (K - 1022) * 2 ^ K.
Proof.
  intros Hx Hy Hxy. pose proof unit_pos as Hu. pose proof tiny_unit as (Ht & Htp & HL).
  pose proof (fin_lt_top _ Hxy) as Hlt.
  destruct (mul_R x y Hx Hy) as [_ HR]. rewrite HR in *.
  pose proof (near_err _ Hlt) as He.
  pose proof (Z.div_mod (R x * R y) (2 ^ K) ltac:(lia)) as Hdm.
  pose proof (Z.mod_pos_bound (R x * R y) (2 ^ K) Hu) as Hmb.
  set (q := R x * R y / 2 ^ K) in *. set (p := R x * R y) in *.
  set (r := p mod 2 ^ K) in *. set (n := near q) in *.
  literals.
  clearbody q p r n. clear HR Hlt Hx Hy Hxy.
  set (U := 2 ^ K) in *. set (T := 2 ^ (K - 1022)) in *. clearbody U T.
  assert (4503599627370496 * Z.abs (n - q) * U <= (Z.abs q + T) * U) as H1
    by (apply Z.mul_le_mono_nonneg_r; [clear - Hu | clear - He]; lia).
  assert (Z.abs (q * U) = Z.abs q * U) as Eq
    by (rewrite Z.abs_mul, (Z.abs_eq U); [reflexivity | clear - Hu; lia]).
  assert (Z.abs ((n - q) * U) = Z.abs (n - q) * U) as En
    by (rewrite Z.abs_mul, (Z.abs_eq U); [reflexivity | clear - Hu; lia]).
  assert (Z.abs q * U <= Z.abs p + U) as H2 by (rewrite <- Eq; clear - Hdm Hmb; lia).
  assert (Z.abs (n * U - p) <= Z.abs (n - q) * U + U) as H3
    by (rewrite <- En; clear - Hdm Hmb; lia).
  assert (U <= T * U) as H4 by (clear - Hu Htp; nia).
  clear - H1 H2 H3 H4 Hu. lia.
Qed.

Lemma add_close x y :
  fin x = true -> fin y = true -> fin (x + y) = true ->
  2 ^ 52 * Z.abs (R (x + y) - (R x + R y)) <= Z.abs (R x + R y) + 2 ^ (K - 1022).
Proof.
  intros Hx Hy Hxy. pose proof (fin_lt_top _ Hxy) as Hlt.
  destruct (add_R x y Hx Hy) as [_ HR]. rewrite HR in *. by apply near_err.
Qed.

(** *** The length of the candidate vector *)

Lemma scale_close c U a b t :
  0 < U -> c * Z.abs a <= Z.abs b + t -> c * Z.abs (a * U) <= Z.abs (b * U) + t * U.
Proof. intros HU H. rewrite !Z.abs_mul, (Z.abs_eq U) by lia. nia. Qed.

(** The squares are summed with a relative error below [2^-49]. *)
Lemma squares_close (U T X Y xx yy s1 s2 : Z) :
  0 < U -> 0 < T -> 2 ^ 100 * T <= U ->
  2 ^ 52 * Z.abs (xx * U - X * X) <= Z.abs (X * X) + 2 ^ 100 * T * U ->
  2 ^ 52 * Z.abs (yy * U - Y * Y) <= Z.abs (Y * Y) + 2 ^ 100 * T * U ->
  2 ^ 52 * Z.abs (s1 - (xx + yy)) <= Z.abs (xx + yy) + T ->
  2 ^ 52 * Z.abs (s2 - (s1 + U)) <= Z.abs (s1 + U) + T ->
  2 ^ 49 * Z.abs (s2 * U - (X * X + Y * Y + U * U)) <= X * X + Y * Y + U * U.
Proof.
  intros HU HT HTU Hx Hy H1 H2.
  pose proof (Z.square_nonneg X) as Px. pose proof (Z.square_nonneg Y) as Py.
  assert (2 ^ 100 * T * U <= U * U) as Hc by (clear - HU HT HTU; nia).
  assert (2 ^ 52 * Z.abs (s1 * U - (xx * U + yy * U)) <= Z.abs (xx * U + yy * U) + T * U) as H1'.
  { replace (s1 * U - (xx * U + yy * U)) with ((s1 - (xx + yy)) * U) by ring.
    replace (xx * U + yy * U) with ((xx + yy) * U) by ring.
    by apply scale_close. }
  assert (2 ^ 52 * Z.abs (s2 * U - (s1 * U + U * U)) <= Z.abs (s1 * U + U * U) + T * U) as H2'.
  { replace (s2 * U - (s1 * U + U * U)) with ((s2 - (s1 + U)) * U) by ring.
    replace (s1 * U + U * U) with ((s1 + U) * U) by ring.
    by apply scale_close. }
  assert (0 <= T * U <= 2 ^ 100 * T * U) as Htu by (clear - HU HT; nia).
  literals. change (2 ^ 49) with 562949953421312.
  set (a := X * X) in *. set (b := Y * Y) in *. set (c := U * U) in *.
  set (p := xx * U) in *. set (q := yy * U) in *. set (r := s1 * U) in *. set (s := s2 * U) in *.
  set (t := T * U) in *. set (t' := 1267650600228229401496703205376 * T * U) in *.
  clearbody a b c p q r s t t'. clear H1 H2.
  set (W := a + b + c) in *.
  assert (4503599627370496 * Z.abs (p - a) <= W) as Ex by lia.
  assert (4503599627370496 * Z.abs (q - b) <= W) as Ey by lia.
  clear Hx Hy.
  assert (Z.abs (p + q) <= 2 * W) as B1 by lia.
  assert (4503599627370496 * Z.abs (r - (a + b)) <= 5 * W) as E1 by lia.
  clear H1' Ex Ey B1.
  assert (Z.abs (r + c) <= 2 * W) as B2 by lia.
  assert (4503599627370496 * Z.abs (s - (r + c)) <= 3 * W) as E2 by lia.
  clear H2' B2. lia.
Qed.

(** The square root keeps it: the square of the length is the sum of the
    squares up to [2^-46]. *)
Lemma root_close (U T W s lo ulp L : Z) :
  0 < U -> 0 < T -> 2 ^ 100 * T <= U -> U * U <= W ->
  2 ^ 49 * Z.abs (s - W) <= W ->
  0 <= lo -> 0 < ulp -> 2 ^ 52 * ulp <= lo + T ->
  lo * lo <= s -> s < (lo + ulp) * (lo + ulp) -> lo <= L <= lo + ulp ->
  2 ^ 46 * Z.abs (L * L - W) <= W.
Proof.
  intros HU HT HTU HW Hs Hlo Hulp Hstep Hlow Hupp HL.
  change (2 ^ 49) with 562949953421312 in *. change (2 ^ 46) with 70368744177664.
  literals.
  assert (0 < U * U) as HUU by (clear - HU; nia).
  assert (U <= 2 * (lo + ulp)) as H1.
  { destruct (Z.le_gt_cases U (2 * (lo + ulp))) as [|Hlt]; [assumption|exfalso].
    assert (4 * ((lo + ulp) * (lo + ulp)) < U * U) by (clear - Hlt Hlo Hulp; nia).
    clear - H Hupp Hs HW HUU. lia. }
  assert (2251799813685248 * ulp <= lo) as H3 by (clear - H1 Hstep HTU HT; lia).
  assert (2251799813685248 * (lo * ulp) <= lo * lo) as H4 by (clear - H3 Hlo; nia).
  assert (2251799813685248 * (ulp * ulp) <= lo * ulp) as H5 by (clear - H3 Hulp; nia).
  assert ((lo + ulp) * (lo + ulp) = lo * lo + 2 * (lo * ulp) + ulp * ulp) as E by ring.
  assert (lo * lo <= L * L <= (lo + ulp) * (lo + ulp)) as H6 by (clear - HL Hlo Hulp; nia).
  rewrite E in *.
  assert (0 <= ulp * ulp) by (clear; nia). assert (0 <= lo * ulp) by (clear - Hlo Hulp; nia).
  set (A := lo * lo) in *. set (B := lo * ulp) in *. set (C := ulp * ulp) in *.
  set (L2 := L * L) in *. clearbody A B C L2.
  clear - Hs Hlow Hupp H4 H5 H6 HW HUU H H0. lia.
Qed.

(** One component of the normalized vector: its rank times the length is
    the rank of the numerator times the unit, up to [2^-52]. *)
Lemma quotient_close x y :
  fin x = true -> fin y = true -> 0 < R y -> fin (x / y) = true ->
  2 ^ 52 * Z.abs (Z.abs (R (x / y)) * R y - Z.abs (R x) * 2 ^ K)
  <= Z.abs (R x) * 2 ^ K + 2 ^ (K - 1022) * R y.
Proof.
  intros Hx Hy Hp Hq. pose proof unit_pos as HU.
  destruct (div_R x y Hx Hy ltac:(lia))
    as (_ & lo & ulp & rho & Hlo & Hrho & Hulp & Hstep & Hlow & Hupp & HR).
  pose proof (fin_lt_top _ Hq) as Hlt. rewrite HR in *.
  rewrite (Z.abs_eq (R y)) in * by lia.
  rewrite (Z.sgn_pos (R y)) in * by lia. rewrite Z.mul_1_r in *.
  pose proof (pow2_pos (K - 1022) ltac:(pose proof K_ge; lia)) as HT.
  literals.
  set (T := 2 ^ (K - 1022)) in *. set (U := 2 ^ K) in *. set (l := R y) in *.
  destruct (Z.sgn_spec (R x)) as [[Hs ->] | [[Hs ->] | [Hs ->]]].
  - rewrite Z.mul_1_l in *.
    assert (Z.min rho top = rho) as -> by lia.
    rewrite (Z.abs_eq rho), (Z.abs_eq (R x)) in * by lia.
    set (a := R x) in *. clearbody T U l a. clear - Hlo Hrho Hulp Hstep Hlow Hupp Hp.
    assert (lo * l <= rho * l <= (lo + ulp) * l) by nia.
    assert (4503599627370496 * (ulp * l) <= lo * l + T * l) by nia.
    nia.
  - rewrite <- Hs in *. cbn [Z.abs Z.mul] in *.
    assert (lo = 0) as -> by (clear - Hlow Hlo Hp; nia).
    clearbody T U l. clear - HT Hp. nia.
  - assert (Z.min rho top = rho) as -> by lia.
    replace (Z.abs (-1 * rho)) with rho in * by lia.
    rewrite (Z.abs_neq (R x)) in * by lia.
    set (a := - R x) in *. clearbody T U l a. clear - Hlo Hrho Hulp Hstep Hlow Hupp Hp.
    assert (lo * l <= rho * l <= (lo + ulp) * l) by nia.
    assert (4503599627370496 * (ulp * l) <= lo * l + T * l) by nia.
    nia.
Qed.

Lemma square_close (N B C : Z) :
  0 < N -> 0 <= B <= 2 * N -> 2 ^ 50 * Z.abs (C - B) <= N ->
  2 ^ 47 * Z.abs (C * C - B * B) <= N * N.
Proof.
  intros HN HB HC. change (2 ^ 50) with 1125899906842624 in *.
  change (2 ^ 47) with 140737488355328.
  replace (C * C - B * B) with ((C - B) * (C + B)) by ring. rewrite Z.abs_mul.
  assert (Z.abs (C + B) <= 5 * N) as H1 by lia.
  set (d := Z.abs (C - B)) in *. set (e := Z.abs (C + B)) in *.
  assert (0 <= d) by apply Z.abs_nonneg. assert (0 <= e) by apply Z.abs_nonneg.
  clearbody d e. clear - H H0 H1 HC HN.
  assert (1125899906842624 * d * e <= N * (5 * N)) by (apply Z.mul_le_mono_nonneg; lia).
  nia.
Qed.

(** The three quotients by the length form a vector of length 1, up to
    [2^-44] in the square. *)
Lemma unit_close (U T L W X Y A1 A2 A3 : Z) :
  0 < U -> 0 < T -> 2 ^ 100 * T <= U -> U <= L -> W = X * X + Y * Y + U * U ->
  2 ^ 46 * Z.abs (L * L - W) <= W ->
  2 ^ 52 * Z.abs (A1 * L - Z.abs X * U) <= Z.abs X * U + T * L ->
  2 ^ 52 * Z.abs (A2 * L - Z.abs Y * U) <= Z.abs Y * U + T * L ->
  2 ^ 52 * Z.abs (A3 * L - U * U) <= U * U + T * L ->
  2 ^ 44 * Z.abs (A1 * A1 + A2 * A2 + A3 * A3 - U * U) <= U * U.
Proof.
  intros HU HT HTU HL EW HLW H1 H2 H3.
  change (2 ^ 46) with 70368744177664 in *. change (2 ^ 44) with 17592186044416.
  literals.
  pose proof (Z.square_nonneg X) as Px. pose proof (Z.square_nonneg Y) as Py.
  assert (0 < U * U) as HUU by (clear - HU; nia).
  assert (0 < L * L) as HLL by (clear - HU HL; nia).
  assert (W <= 2 * (L * L)) as HW2 by (clear - HLW HLL; lia).
  assert (0 < W) as HW0 by (clear - EW Px Py HUU; lia).
  set (N := L * U).
  assert (0 < N) as HN by (subst N; clear - HU HL; nia).
  assert (1267650600228229401496703205376 * (T * L) <= N) as HTL by (subst N; clear - HTU HL HU; nia).
  assert (0 <= T * L) as HTL0 by (clear - HT HL HU; nia).
  assert (forall V, V * V <= W -> 0 <= Z.abs V * U <= 2 * N) as Hb.
  { intros V HV. assert (Z.abs V <= 2 * L) as Hv.
    { destruct (Z.le_gt_cases (Z.abs V) (2 * L)) as [|Hgt]; [assumption|exfalso].
      assert (4 * (L * L) < V * V) by (clear - Hgt HL HU; nia).
      clear - H HV HW2 HLL. lia. }
    subst N. pose proof (Z.abs_nonneg V). clear - Hv H HU. nia. }
  assert (U * U <= 2 * N /\ 0 <= U * U) as Hb3 by (subst N; clear - HL HU; nia).
  pose proof (Hb X ltac:(clear - EW Py HUU; lia)) as Hb1.
  pose proof (Hb Y ltac:(clear - EW Px HUU; lia)) as Hb2.
  pose proof (square_close N (Z.abs X * U) (A1 * L) HN Hb1) as S1.
  pose proof (square_close N (Z.abs Y * U) (A2 * L) HN Hb2) as S2.
  pose proof (square_close N (U * U) (A3 * L) HN ltac:(clear - Hb3; lia)) as S3.
  change (2 ^ 50) with 1125899906842624 in *. change (2 ^ 47) with 140737488355328 in *.
  specialize (S1 ltac:(clear - H1 Hb1 HTL HTL0; lia)).
  specialize (S2 ltac:(clear - H2 Hb2 HTL HTL0; lia)).
  specialize (S3 ltac:(clear - H3 Hb3 HTL HTL0; lia)).
  assert (Z.abs X * U * (Z.abs X * U) + Z.abs Y * U * (Z.abs Y * U) + U * U * (U * U)
          = U * U * W) as EB.
  { rewrite EW. replace (Z.abs X * U * (Z.abs X * U)) with (Z.abs X * Z.abs X * (U * U)) by ring.
    replace (Z.abs Y * U * (Z.abs Y * U)) with (Z.abs Y * Z.abs Y * (U * U)) by ring.
    rewrite <- !Z.abs_mul, !Z.abs_eq by assumption. ring. }
  assert (A1 * L * (A1 * L) + A2 * L * (A2 * L) + A3 * L * (A3 * L)
          = L * L * (A1 * A1 + A2 * A2 + A3 * A3)) as EC by ring.
  assert (35184372088832 * Z.abs (U * U * W - N * N) <= N * N) as HD.
  { subst N. replace (U * U * W - L * U * (L * U)) with (U * U * (W - L * L)) by ring.
    rewrite Z.abs_mul, (Z.abs_eq (U * U)) by lia.
    replace (L * U * (L * U)) with (U * U * (L * L)) by ring.
    assert (70368744177664 * Z.abs (W - L * L) <= 2 * (L * L)) as Hd by (clear - HLW HW2; lia).
    set (d := Z.abs (W - L * L)) in *. set (l2 := L * L) in *. set (u2 := U * U) in *.
    clearbody d l2 u2. clear - Hd HUU. nia. }
  set (S := A1 * A1 + A2 * A2 + A3 * A3) in *.
  assert (17592186044416 * Z.abs (L * L * S - N * N) <= N * N) as HE.
  { rewrite <- EC.
    set (c1 := A1 * L * (A1 * L)) in *. set (c2 := A2 * L * (A2 * L)) in *.
    set (c3 := A3 * L * (A3 * L)) in *.
    set (b1 := Z.abs X * U * (Z.abs X * U)) in *. set (b2 := Z.abs Y * U * (Z.abs Y * U)) in *.
    set (b3 := U * U * (U * U)) in *. set (n2 := N * N) in *. set (uw := U * U * W) in *.
    clearbody c1 c2 c3 b1 b2 b3 n2 uw. clear - S1 S2 S3 EB HD. lia. }
  subst N. replace (L * U * (L * U)) with (L * L * (U * U)) in HE by ring.
  replace (L * L * S - L * L * (U * U)) with (L * L * (S - U * U)) in HE by ring.
  rewrite Z.abs_mul, (Z.abs_eq (L * L)) in HE by lia.
  set (d := Z.abs (S - U * U)) in *. set (l2 := L * L) in *. set (u2 := U * U) in *.
  clearbody d l2 u2. clear - HE HLL. nia.
Qed.

Lemma abs_square a : Z.abs a * Z.abs a = a * a.
Proof. rewrite <- Z.abs_mul. apply Z.abs_eq, Z.square_nonneg. Qed.

(** The vector the generator normalizes has length 1 up to [2^-44] in the
    square, whatever the two gradients below [2^416] are. *)
Lemma normalized_unit nx ny :
  bounded (2 ^ 416) nx -> bounded (2 ^ 416) ny ->
  let len := normalLen nx ny 1 in
  let ux := (nx / len)%float in
  let uy := (ny / len)%float in
  let uz := (1 / len)%float in
  (fin len = true /\ 2 ^ K <= R len) /\
  (fin ux = true /\ fin uy = true /\ fin uz = true) /\
  2 ^ 44 * Z.abs (R ux * R ux + R uy * R uy + R uz * R uz - 2 ^ K * 2 ^ K) <= 2 ^ K * 2 ^ K.
Proof.
  intros Hnx Hny len ux uy uz. pose proof K_ge as HK. pose proof unit_pos as HU.
  pose proof tiny_unit as (HTU & HT & _).
  pose proof (bounded_mul_pow 416 416 nx nx ltac:(lia) ltac:(lia) ltac:(lia) Hnx Hnx) as Hxx.
  pose proof (bounded_mul_pow 416 416 ny ny ltac:(lia) ltac:(lia) ltac:(lia) Hny Hny) as Hyy.
  pose proof (bounded_add_pow (416 + 416) _ _ ltac:(lia) Hxx Hyy) as Hs1.
  pose proof (bounded_add_pow (416 + 416 + 1) _ 1 ltac:(lia) Hs1
                (bounded_one (416 + 416 + 1) ltac:(lia))) as Hs2.
  pose proof (square_nonneg nx (num_fin _ (proj1 Hxx))) as Px.
  pose proof (square_nonneg ny (num_fin _ (proj1 Hyy))) as Py.
  pose proof (add_nonneg _ _ (num_fin _ (proj1 Hs1)) Px Py) as Ps.
  pose proof (add_1_ge_1 _ (num_fin _ (proj1 Hs2)) Ps) as P1.
  pose proof (proj1 Hnx) as Fnx. pose proof (proj1 Hny) as Fny.
  destruct Hxx as [Fxx _], Hyy as [Fyy _], Hs1 as [Fs1 _], Hs2 as [Fs2 _].
  assert (len = sqrt (nx * nx + ny * ny + 1)) as El by reflexivity.
  assert (fin len = true) as Fl by (rewrite El; apply sqrt_fin; [exact Fs2 | lia]).
  assert (2 ^ K <= R len) as Hl1 by (rewrite El; apply sqrt_ge_1; [by apply num_fin | exact P1]).
  assert (0 < R len) as Hl0 by (clear - Hl1 HU; lia).
  assert (fin ux = true /\ fin uy = true /\ fin uz = true) as (Fux & Fuy & Fuz).
  { split; [|split].
    - apply (bounded_div_pow 416 nx len); [lia | exact Hnx | exact Fl | clear - Hl1 HU; lia].
    - apply (bounded_div_pow 416 ny len); [lia | exact Hny | exact Fl | clear - Hl1 HU; lia].
    - apply (bounded_div_pow 0 1 len);
        [lia | apply bounded_one; lia | exact Fl | clear - Hl1 HU; lia]. }
  split; [by split|]. split; [by repeat split|].
  pose proof (mul_close nx nx Fnx Fnx Fxx) as Cx.
  pose proof (mul_close ny ny Fny Fny Fyy) as Cy.
  pose proof (add_close _ _ Fxx Fyy Fs1) as C1.
  pose proof (add_close (nx * nx + ny * ny) 1 Fs1 eq_refl Fs2) as C2.
  rewrite R_1 in C2.
  pose proof (squares_close _ _ _ _ _ _ _ _ HU HT HTU Cx Cy C1 C2) as CW.
  destruct (sqrt_R _ Fs2 ltac:(clear - P1 HU; lia))
    as (_ & lo & ulp & rho & Hlo & Hulp & Hstep & Hlow & Hupp & Hrho & HR).
  assert (R len = rho) as EL.
  { pose proof (fin_lt_top _ Fl) as Hlt. rewrite El, HR in *. clear - Hlt Hlo Hrho. lia. }
  set (W := R nx * R nx + R ny * R ny + 2 ^ K * 2 ^ K) in *.
  assert (2 ^ K * 2 ^ K <= W) as HW.
  { subst W. pose proof (Z.square_nonneg (R nx)). pose proof (Z.square_nonneg (R ny)).
    clear - H H0. lia. }
  pose proof (root_close (2 ^ K) (2 ^ (K - 1022)) W _ lo ulp (R len) HU HT HTU HW CW Hlo Hulp
                Hstep Hlow Hupp ltac:(clear - EL Hrho; lia)) as CL.
  pose proof (quotient_close nx len Fnx Fl Hl0 Fux) as Qx.
  pose proof (quotient_close ny len Fny Fl Hl0 Fuy) as Qy.
  pose proof (quotient_close 1 len eq_refl Fl Hl0 Fuz) as Qz.
  rewrite R_1, (Z.abs_eq (2 ^ K)) in Qz by (clear - HU; lia).
  pose proof (unit_close (2 ^ K) (2 ^ (K - 1022)) (R len) W (R nx) (R ny)
                (Z.abs (R ux)) (Z.abs (R uy)) (Z.abs (R uz)) HU HT HTU Hl1 eq_refl CL Qx Qy Qz) as H.
  by rewrite !abs_square in H.
Qed.

(** *** From a component to its sample *)

(** The sample of a rank just outside 0..255 is still within half a unit
    of it, up to the excess. *)
Lemma sample_close rho t :
  0 <= t -> - t <= rho <= 255 * 2 ^ K + t ->
  2 * Z.abs (sample rho * 2 ^ K - rho) <= 2 ^ K + 2 * t.
Proof.
  intros Ht Hr. pose proof unit_pos as HU.
  destruct (Z.le_gt_cases rho 0) as [H0 | H0].
  { unfold sample. destruct (Z.leb_spec rho 0); lia. }
  destruct (Z.le_gt_cases (255 * 2 ^ K) rho) as [H1 | H1].
  { unfold sample. destruct (Z.leb_spec rho 0); [lia|].
    destruct (Z.leb_spec (255 * 2 ^ K) rho); lia. }
  pose proof (sample_error rho ltac:(lia)). lia.
Qed.

(** The three roundings of the encoding, and the one of the store. *)
Lemma encode_close (U T t e1 e2 e3 r b : Z) :
  0 < U -> 0 < T -> 2 ^ 100 * T <= U -> 2 ^ 33 * t = U ->
  2 ^ 40 * Z.abs r <= (2 ^ 40 + 1) * U ->
  2 ^ 52 * Z.abs (e1 - (r + U)) <= Z.abs (r + U) + T ->
  2 ^ 52 * Z.abs (2 * e2 - e1) <= Z.abs e1 + 2 * 2 ^ 100 * T ->
  2 ^ 52 * Z.abs (e3 - 255 * e2) <= 255 * Z.abs e2 + 2 ^ 100 * T ->
  (- t <= e3 <= 255 * U + t -> 2 * Z.abs (b * U - e3) <= U + 2 * t) ->
  2 ^ 30 * Z.abs ((2 * b - 255) * U - 255 * r) <= (2 ^ 30 + 1) * U.
Proof.
  intros HU HT HTU Ht Hr C1 C2 C3. literals.
  change (2 ^ 40) with 1099511627776 in *. change (2 ^ 30) with 1073741824 in *.
  change (2 ^ 33) with 8589934592 in *.
  assert (Z.abs (r + U) <= 3 * U) as A0 by lia.
  assert (4503599627370496 * Z.abs (e1 - (r + U)) <= 4 * U) as D1 by lia.
  clear C1.
  assert (Z.abs e1 <= 4 * U) as A1 by lia.
  assert (4503599627370496 * Z.abs (2 * e2 - e1) <= 5 * U) as D2 by lia.
  clear C2.
  assert (Z.abs e2 <= 3 * U) as A2 by lia.
  assert (4503599627370496 * Z.abs (e3 - 255 * e2) <= 766 * U) as D3 by lia.
  clear C3 HTU HT.
  assert (4503599627370496 * Z.abs (2 * e3 - 255 * (r + U)) <= 3827 * U) as D4 by lia.
  clear D1 D2 D3 A0 A1 A2.
  assert (- t <= e3 <= 255 * U + t) as Hin by lia.
  intros HS. specialize (HS Hin). clear Hin. lia.
Qed.

(** A component [u] of the normalized vector is stored as the sample [b]
    with [(2 b - 255) / 255] within [1 / 255] of [u], up to [2^-30]. *)
Lemma channel_close u :
  fin u = true -> 2 ^ 40 * Z.abs (R u) <= (2 ^ 40 + 1) * 2 ^ K ->
  let b := ToUint8Clamp ((u + 1) * 0.5 * 255) in
  0 <= b <= 255 /\
  2 ^ 30 * Z.abs ((2 * b - 255) * 2 ^ K - 255 * R u) <= (2 ^ 30 + 1) * 2 ^ K.
Proof.
  intros Fu Hu b. pose proof unit_pos as HU. pose proof K_ge as HK.
  pose proof tiny_unit as (HTU & HT & _).
  split; [apply ToUint8Clamp_bounds|].
  assert (bounded 2 u) as Bu.
  { split; [exact Fu|]. change (2 ^ 40) with 1099511627776 in Hu. lia. }
  pose proof (bounded_add 2 1 u 1 Bu (bounded_Z2F 1 1 ltac:(lia) ltac:(reflexivity))
                ltac:(reflexivity)) as [F1 _].
  assert (bounded 1 0.5) as Bh.
  { destruct R_half as [Fh Rh]. split; [exact Fh|]. rewrite Rh, Z.abs_eq.
    - rewrite Z.mul_1_l. apply Z.pow_le_mono_r; lia.
    - apply Z.pow_nonneg. lia. }
  pose proof (bounded_mul (2 + 1) 1 (u + 1) 0.5
                (bounded_add 2 1 u 1 Bu (bounded_Z2F 1 1 ltac:(lia) ltac:(reflexivity))
                   ltac:(reflexivity)) Bh ltac:(reflexivity)) as B2.
  pose proof (bounded_mul ((2 + 1) * 1) 255 _ 255 B2
                (bounded_Z2F 255 255 ltac:(lia) ltac:(reflexivity)) ltac:(reflexivity))
    as [F3 _].
  destruct B2 as [F2 _].
  pose proof (add_close u 1 Fu eq_refl F1) as C1. rewrite R_1 in C1.
  pose proof (mul_close (u + 1) 0.5 F1 (proj1 Bh) F2) as C2.
  rewrite (proj2 R_half) in C2.
  pose proof (mul_close ((u + 1) * 0.5) 255 F2 eq_refl F3) as C3.
  rewrite R_255 in C3.
  subst b. rewrite ToUint8Clamp_R by (apply num_fin, F3).
  assert (2 ^ K = 2 * 2 ^ (K - 1)) as EU.
  { replace K with (1 + (K - 1)) at 1 by lia. rewrite Z.pow_add_r by lia. reflexivity. }
  assert (0 < 2 ^ (K - 1)) as HH by (apply pow2_pos; lia).
  assert (2 ^ 33 * 2 ^ (K - 33) = 2 ^ K) as Et
    by (rewrite <- Z.pow_add_r by lia; f_equal; lia).
  assert (0 <= 2 ^ (K - 33)) as Ht0 by (apply Z.pow_nonneg; lia).
  refine (encode_close (2 ^ K) (2 ^ (K - 1022)) (2 ^ (K - 33)) (R (u + 1)) (R ((u + 1) * 0.5))
            (R ((u + 1) * 0.5 * 255)) (R u) _ HU HT HTU Et Hu C1 _ _ _).
  - rewrite EU in C2. clear - C2 HH HT.
    replace (R ((u + 1) * 0.5) * (2 * 2 ^ (K - 1)) - R (u + 1) * 2 ^ (K - 1))
      with ((2 * R ((u + 1) * 0.5) - R (u + 1)) * 2 ^ (K - 1)) in C2 by ring.
    rewrite !Z.abs_mul, (Z.abs_eq (2 ^ (K - 1))) in C2 by lia.
    set (H := 2 ^ (K - 1)) in *. set (T := 2 ^ (K - 1022)) in *.
    set (d := Z.abs (2 * R ((u + 1) * 0.5) - R (u + 1))) in *. set (e := Z.abs (R (u + 1))) in *.
    clearbody H T d e. literals. nia.
  - clear - C3 HU HT.
    replace (R ((u + 1) * 0.5 * 255) * 2 ^ K - R ((u + 1) * 0.5) * (255 * 2 ^ K))
      with ((R ((u + 1) * 0.5 * 255) - 255 * R ((u + 1) * 0.5)) * 2 ^ K) in C3 by ring.
    replace (R ((u + 1) * 0.5) * (255 * 2 ^ K)) with (255 * R ((u + 1) * 0.5) * 2 ^ K)
      in C3 by ring.
    rewrite !Z.abs_mul, (Z.abs_eq (2 ^ K)), (Z.abs_eq 255) in C3 by lia.
    set (U := 2 ^ K) in *. set (T := 2 ^ (K - 1022)) in *.
    set (d := Z.abs (R ((u + 1) * 0.5 * 255) - 255 * R ((u + 1) * 0.5))) in *.
    set (e := Z.abs (R ((u + 1) * 0.5))) in *.
    clearbody U T d e. literals. nia.
  - intros Hin. apply sample_close; assumption.
Qed.

(** *** The stored vector *)

Lemma component_bound (U r s : Z) :
  0 < U -> 0 <= s -> 2 ^ 44 * (r * r + s) <= (2 ^ 44 + 1) * (U * U) ->
  2 ^ 40 * Z.abs r <= (2 ^ 40 + 1) * U.
Proof.
  intros HU Hs H. change (2 ^ 44) with 17592186044416 in *.
  change (2 ^ 40) with 1099511627776 in *.
  destruct (Z.le_gt_cases (1099511627776 * Z.abs r) ((1099511627776 + 1) * U)) as [|Hgt];
    [assumption|exfalso].
  assert ((1099511627776 + 1) * U * ((1099511627776 + 1) * U)
          < 1099511627776 * Z.abs r * (1099511627776 * Z.abs r)) as H1
    by (apply Z.mul_lt_mono_nonneg; lia).
  replace (1099511627776 * Z.abs r * (1099511627776 * Z.abs r))
    with (1099511627776 * 1099511627776 * (Z.abs r * Z.abs r)) in H1 by ring.
  rewrite abs_square in H1.
  replace ((1099511627776 + 1) * U * ((1099511627776 + 1) * U))
    with ((1099511627776 + 1) * (1099511627776 + 1) * (U * U)) in H1 by ring.
  set (r2 := r * r) in *. set (u2 := U * U) in *.
  assert (0 < u2) by (subst u2; nia). clearbody r2 u2. lia.
Qed.

Lemma stored_square (U r n : Z) :
  0 < U -> 2 ^ 40 * Z.abs r <= (2 ^ 40 + 1) * U ->
  2 ^ 30 * Z.abs (n * U - 255 * r) <= (2 ^ 30 + 1) * U ->
  1000 * Z.abs (n * n * (U * U) - 65025 * (r * r)) <= 511001 * (U * U).
Proof.
  intros HU Hr Hn. change (2 ^ 40) with 1099511627776 in *.
  change (2 ^ 30) with 1073741824 in *.
  replace (n * n * (U * U) - 65025 * (r * r)) with ((n * U - 255 * r) * (n * U + 255 * r)) by ring.
  rewrite Z.abs_mul.
  assert (1073741824 * Z.abs (n * U + 255 * r) <= 548682072066 * U) as H1 by lia.
  set (d := Z.abs (n * U - 255 * r)) in *. set (e := Z.abs (n * U + 255 * r)) in *.
  assert (0 <= d) by apply Z.abs_nonneg. assert (0 <= e) by apply Z.abs_nonneg.
  clearbody d e.
  assert (1073741824 * d * (1073741824 * e) <= (1073741824 + 1) * U * (548682072066 * U))
    by (apply Z.mul_le_mono_nonneg; lia).
  set (de := d * e) in *.
  replace (1073741824 * d * (1073741824 * e)) with (1073741824 * 1073741824 * (d * e)) in H2 by ring.
  replace ((1073741824 + 1) * U * (548682072066 * U))
    with ((1073741824 + 1) * 548682072066 * (U * U)) in H2 by ring.
  fold de in H2. assert (0 < U * U) by nia.
  set (u2 := U * U) in *. clearbody de u2. lia.
Qed.

(** The three samples, read as odd integers [n = 2 b - 255], have a sum of
    squares within 1535 of [255²]. *)
Lemma stored_norm (U r1 r2 r3 n1 n2 n3 : Z) :
  0 < U ->
  2 ^ 44 * Z.abs (r1 * r1 + r2 * r2 + r3 * r3 - U * U) <= U * U ->
  2 ^ 30 * Z.abs (n1 * U - 255 * r1) <= (2 ^ 30 + 1) * U ->
  2 ^ 30 * Z.abs (n2 * U - 255 * r2) <= (2 ^ 30 + 1) * U ->
  2 ^ 30 * Z.abs (n3 * U - 255 * r3) <= (2 ^ 30 + 1) * U ->
  63490 <= n1 * n1 + n2 * n2 + n3 * n3 <= 66560.
Proof.
  intros HU HS H1 H2 H3.
  pose proof (Z.square_nonneg r1) as P1. pose proof (Z.square_nonneg r2) as P2.
  pose proof (Z.square_nonneg r3) as P3.
  assert (0 < U * U) as HUU by nia.
  assert (2 ^ 44 * (r1 * r1 + r2 * r2 + r3 * r3) <= (2 ^ 44 + 1) * (U * U)) as HS'
    by (change (2 ^ 44) with 17592186044416 in *; lia).
  pose proof (component_bound U r1 (r2 * r2 + r3 * r3) HU ltac:(lia)
                ltac:(rewrite Z.add_assoc; exact HS')) as B1.
  pose proof (component_bound U r2 (r1 * r1 + r3 * r3) HU ltac:(lia)
                ltac:(replace (r2 * r2 + (r1 * r1 + r3 * r3))
                        with (r1 * r1 + r2 * r2 + r3 * r3) by ring; exact HS')) as B2.
  pose proof (component_bound U r3 (r1 * r1 + r2 * r2) HU ltac:(lia)
                ltac:(replace (r3 * r3 + (r1 * r1 + r2 * r2))
                        with (r1 * r1 + r2 * r2 + r3 * r3) by ring; exact HS')) as B3.
  pose proof (stored_square U r1 n1 HU B1 H1) as S1.
  pose proof (stored_square U r2 n2 HU B2 H2) as S2.
  pose proof (stored_square U r3 n3 HU B3 H3) as S3.
  change (2 ^ 44) with 17592186044416 in *.
  set (N := n1 * n1 + n2 * n2 + n3 * n3).
  assert (1000 * Z.abs (N * (U * U) - 65025 * (U * U)) <= 1533004 * (U * U)) as HN.
  { subst N. rewrite !Z.mul_add_distr_r.
    set (a1 := n1 * n1 * (U * U)) in *. set (a2 := n2 * n2 * (U * U)) in *.
    set (a3 := n3 * n3 * (U * U)) in *.
    set (q1 := r1 * r1) in *. set (q2 := r2 * r2) in *. set (q3 := r3 * r3) in *.
    set (u2 := U * U) in *. clearbody a1 a2 a3 q1 q2 q3 u2.
    clear - S1 S2 S3 HS HUU. lia. }
  set (u2 := U * U) in *. clearbody N u2. clear - HN HUU. nia.
Qed.

(** *** The length of the decoded vector *)

(** The square of a decoded sample [c] is [((2 c - 255) / 255)²] up to
    [2^-34]: checked on the 256 samples. *)
Lemma decode_square c :
  byte c ->
  fin (decode c * decode c) = true /\
  Z.abs (65025 * R (decode c * decode c) - (2 * c - 255) * (2 * c - 255) * 2 ^ K)
  <= 2 ^ (K - 34).
Proof.
  intros Hc. rewrite <- Z.leb_le. apply andb_prop. revert c Hc.
  apply (byte_cases (fun c =>
           fin (decode c * decode c)
           && (Z.abs (65025 * R (decode c * decode c) - (2 * c - 255) * (2 * c - 255) * 2 ^ K)
               <=? 2 ^ (K - 34)))).
  vm_compute. reflexivity.
Qed.

Lemma margin_R : num 0.012 = true /\ 1191 * 2 ^ K <= 100000 * R 0.012.
Proof. split; [reflexivity|]. apply Z.leb_le. vm_compute. reflexivity. Qed.

Lemma odd_square c : byte c -> 0 <= (2 * c - 255) * (2 * c - 255) <= 65025.
Proof.
  unfold byte. intros Hc. set (d := 2 * c - 255).
  assert (-255 <= d <= 255) as Hd by lia. clearbody d. clear Hc. nia.
Qed.

Lemma scale_abs c a U : 0 < U -> c * Z.abs a <= U -> c * Z.abs (a * U) <= U * U.
Proof. intros HU H. rewrite Z.abs_mul, (Z.abs_eq U) by lia. nia. Qed.

(** Two roundings of the sum keep it within [2^-30]. *)
Lemma sum_close (U T V x1 x2 x3 x12 xs m1 m2 m3 : Z) :
  0 < U -> 0 < T -> 2 ^ 100 * T <= U -> 2 ^ 34 * V <= U ->
  Z.abs x1 <= 2 * U -> Z.abs x2 <= 2 * U -> Z.abs x3 <= 2 * U -> Z.abs x12 <= 4 * U ->
  2 ^ 52 * Z.abs (x12 - (x1 + x2)) <= Z.abs (x1 + x2) + T ->
  2 ^ 52 * Z.abs (xs - (x12 + x3)) <= Z.abs (x12 + x3) + T ->
  Z.abs (65025 * x1 - m1) <= V -> Z.abs (65025 * x2 - m2) <= V ->
  Z.abs (65025 * x3 - m3) <= V ->
  2 ^ 30 * Z.abs (65025 * xs - (m1 + m2 + m3)) <= U.
Proof.
  intros HU HT HTU HV B1 B2 B3 B12 C1 C2 Cr Cg Cb. literals.
  change (2 ^ 34) with 17179869184 in *. change (2 ^ 30) with 1073741824.
  assert (4503599627370496 * Z.abs (x12 - (x1 + x2)) <= 5 * U) as D1 by lia.
  assert (4503599627370496 * Z.abs (xs - (x12 + x3)) <= 7 * U) as D2 by lia.
  clear C1 C2 B1 B2 B3 B12 HTU HT.
  assert (4503599627370496 * Z.abs (xs - (x1 + x2 + x3)) <= 12 * U) as D3 by lia.
  clear D1 D2.
  assert (Z.abs (65025 * (x1 + x2 + x3) - (m1 + m2 + m3)) <= 3 * V) as D4 by lia.
  clear Cr Cg Cb. lia.
Qed.

(** The root of a value near 1. *)
Lemma root_near_one (U T S lo ulp m : Z) :
  0 < U -> 0 < T -> 2 ^ 100 * T <= U ->
  63490 * (U * U) - U * U <= 65025 * S -> 65025 * S <= 66560 * (U * U) + U * U ->
  0 <= lo -> 0 < ulp -> 2 ^ 52 * ulp <= lo + T ->
  lo * lo <= S -> S < (lo + ulp) * (lo + ulp) -> lo <= m <= lo + ulp ->
  100000 * Z.abs (m - U) <= 1191 * U.
Proof.
  intros HU HT HTU HS1 HS2 Hlo Hulp Hstep Hlow Hupp Hm. literals.
  assert (0 < U * U) as HUU by (clear - HU; nia).
  assert (100000 * lo <= 101180 * U) as H1.
  { destruct (Z.le_gt_cases (100000 * lo) (101180 * U)) as [|Hgt]; [assumption|exfalso].
    assert (101180 * U * (101180 * U) < 100000 * lo * (100000 * lo)) as H
      by (apply Z.mul_lt_mono_nonneg; lia).
    replace (101180 * U * (101180 * U)) with (101180 * 101180 * (U * U)) in H by ring.
    replace (100000 * lo * (100000 * lo)) with (100000 * 100000 * (lo * lo)) in H by ring.
    set (u2 := U * U) in *. set (l2 := lo * lo) in *. clearbody u2 l2.
    clear - H Hlow HS2 HUU. lia. }
  assert (98810 * U <= 100000 * (lo + ulp)) as H2.
  { destruct (Z.le_gt_cases (98810 * U) (100000 * (lo + ulp))) as [|Hgt]; [assumption|exfalso].
    assert (100000 * (lo + ulp) * (100000 * (lo + ulp)) < 98810 * U * (98810 * U)) as H
      by (apply Z.mul_lt_mono_nonneg; lia).
    replace (98810 * U * (98810 * U)) with (98810 * 98810 * (U * U)) in H by ring.
    replace (100000 * (lo + ulp) * (100000 * (lo + ulp)))
      with (100000 * 100000 * ((lo + ulp) * (lo + ulp))) in H by ring.
    set (u2 := U * U) in *. set (l2 := (lo + ulp) * (lo + ulp)) in *. clearbody u2 l2.
    clear - H Hupp HS1 HUU. lia. }
  clear - H1 H2 Hstep HTU HT HU Hm Hlo Hulp. lia.
Qed.

(** Three samples whose sum of squares is near [255²] decode to a vector
    whose length, as binary64 computes it, is within 0.012 of 1. *)
Lemma magnitude_close r g b :
  byte r -> byte g -> byte b ->
  let n c := 2 * c - 255 in
  63490 <= n r * n r + n g * n g + n b * n b <= 66560 ->
  (abs (magnitude r g b - 1) <=? 0.012)%float = true.
Proof.
  intros Hr Hg Hb n HN. pose proof unit_pos as HU. pose proof K_ge as HK.
  pose proof tiny_unit as (HTU & HT & HL).
  destruct (decode_square r Hr) as [Fr Cr], (decode_square g Hg) as [Fg Cg],
    (decode_square b Hb) as [Fb Cb].
  fold (n r) in Cr. fold (n g) in Cg. fold (n b) in Cb.
  unfold magnitude. cbv zeta.
  set (a1 := (decode r * decode r)%float) in *.
  set (a2 := (decode g * decode g)%float) in *.
  set (a3 := (decode b * decode b)%float) in *.
  assert (2 ^ (K - 34) <= 2 ^ K) as H34 by (apply Z.pow_le_mono_r; lia).
  assert (forall c a, byte c -> Z.abs (65025 * R a - n c * n c * 2 ^ K) <= 2 ^ (K - 34) ->
            Z.abs (R a) <= 2 * 2 ^ K) as Hb2.
  { intros c a Hc Ha. pose proof (odd_square c Hc) as H. fold (n c) in H.
    set (nn := n c * n c) in *. clearbody nn. clear - Ha H H34 HU. nia. }
  assert (bounded 2 a1) as B1 by (split; [exact Fr | exact (Hb2 r a1 Hr Cr)]).
  assert (bounded 2 a2) as B2 by (split; [exact Fg | exact (Hb2 g a2 Hg Cg)]).
  assert (bounded 2 a3) as B3 by (split; [exact Fb | exact (Hb2 b a3 Hb Cb)]).
  pose proof (bounded_add 2 2 a1 a2 B1 B2 ltac:(reflexivity)) as B12.
  pose proof (bounded_add (2 + 2) 2 _ a3 B12 B3 ltac:(reflexivity)) as B123.
  pose proof (proj1 B12) as F12. pose proof (proj1 B123) as F123.
  pose proof (add_close a1 a2 Fr Fg F12) as C1.
  pose proof (add_close (a1 + a2) a3 F12 Fb F123) as C2.
  set (s := (a1 + a2 + a3)%float) in *.
  assert (1073741824 * Z.abs (65025 * R s - (n r * n r + n g * n g + n b * n b) * 2 ^ K)
          <= 2 ^ K) as CS.
  { assert (2 ^ 34 * 2 ^ (K - 34) <= 2 ^ K) as HV
      by (rewrite <- Z.pow_add_r by lia; apply Z.pow_le_mono_r; lia).
    destruct B1 as [_ B1], B2 as [_ B2], B3 as [_ B3], B12 as [_ B12].
    change (2 + 2) with 4 in B12. rewrite !Z.mul_add_distr_r.
    exact (sum_close (2 ^ K) (2 ^ (K - 1022)) (2 ^ (K - 34)) (R a1) (R a2) (R a3) (R (a1 + a2))
             (R s) _ _ _ HU HT HTU HV B1 B2 B3 B12 C1 C2 Cr Cg Cb). }
  assert (2 ^ K <= 65025 * R s) as Hpos.
  { set (N := n r * n r + n g * n g + n b * n b) in *.
    assert (63490 * 2 ^ K <= N * 2 ^ K)
      by (apply Z.mul_le_mono_nonneg_r; [clear - HU; lia | clear - HN; lia]).
    set (nu := N * 2 ^ K) in *. clearbody nu. clear - CS H HU. lia. }
  assert (0 < R s) as Hs0 by (clear - Hpos HU; lia).
  destruct (sqrt_R s F123 Hs0)
    as (Hn & lo & ulp & rho & Hlo & Hulp & Hstep & Hlow & Hupp & Hrho & HR).
  pose proof (sqrt_fin s F123 Hs0) as Fm.
  assert (R (sqrt s) = rho) as Em.
  { pose proof (fin_lt_top _ Fm) as Hlt. rewrite HR in *. clear - Hlt Hlo Hrho. lia. }
  assert (100000 * Z.abs (R (sqrt s) - 2 ^ K) <= 1191 * 2 ^ K) as Hm.
  { set (N := n r * n r + n g * n g + n b * n b) in *.
    refine (root_near_one (2 ^ K) (2 ^ (K - 1022)) (R s * 2 ^ K) lo ulp _ HU HT HTU _ _
              Hlo Hulp Hstep Hlow Hupp _).
    - assert (63490 * (2 ^ K * 2 ^ K) <= N * 2 ^ K * 2 ^ K) by (clear - HN HU; nia).
      pose proof (scale_abs _ _ _ HU CS) as CS'.
      replace ((65025 * R s - N * 2 ^ K) * 2 ^ K)
        with (65025 * (R s * 2 ^ K) - N * 2 ^ K * 2 ^ K) in CS' by ring.
      set (su := R s * 2 ^ K) in *. set (nu := N * 2 ^ K * 2 ^ K) in *.
      set (u2 := 2 ^ K * 2 ^ K) in *. assert (0 < u2) by (subst u2; clear - HU; nia).
      clearbody su nu u2. clear - CS' H H0. lia.
    - assert (N * 2 ^ K * 2 ^ K <= 66560 * (2 ^ K * 2 ^ K)) by (clear - HN HU; nia).
      pose proof (scale_abs _ _ _ HU CS) as CS'.
      replace ((65025 * R s - N * 2 ^ K) * 2 ^ K)
        with (65025 * (R s * 2 ^ K) - N * 2 ^ K * 2 ^ K) in CS' by ring.
      set (su := R s * 2 ^ K) in *. set (nu := N * 2 ^ K * 2 ^ K) in *.
      set (u2 := 2 ^ K * 2 ^ K) in *. assert (0 < u2) by (subst u2; clear - HU; nia).
      clearbody su nu u2. clear - CS' H H0. lia.
    - rewrite Em. exact Hrho. }
  destruct margin_R as [Nt Ht].
  destruct (sub_R (sqrt s) 1 Fm eq_refl) as [Nd Rd]. rewrite R_1 in Rd.
  destruct (abs_R (sqrt s - 1)) as (Na & _ & Ra).
  rewrite leb_R by (rewrite ?Na; assumption). apply Z.leb_le.
  rewrite Ra, Rd.
  assert (Z.abs (R (sqrt s) - 2 ^ K) <= R 0.012) as Hle by (clear - Hm Ht HU; lia).
  pose proof (near_mono (R (sqrt s) - 2 ^ K) (R 0.012) ltac:(clear - Hle; lia)) as M1.
  pose proof (near_mono (- R 0.012) (R (sqrt s) - 2 ^ K) ltac:(clear - Hle; lia)) as M2.
  rewrite near_opp in M2. rewrite near_R in M1, M2. clear - M1 M2. lia.
Qed.

(** Beyond the range of the theorem below the squares overflow: with the
    strength [2^700] the length is infinite, every quotient is 0, and the pixel
    stores (128, 128, 128), which decodes to a vector of length 0.0068. *)
Lemma decoded_normal_overflow :
  stored (generateNormal checker 2 2 0x1p700) 2 0 0 0 = Some 128 /\
  stored (generateNormal checker 2 2 0x1p700) 2 0 0 1 = Some 128 /\
  stored (generateNormal checker 2 2 0x1p700) 2 0 0 2 = Some 128 /\
  (magnitude 128 128 128 <? 0.007)%float = true.
Proof. repeat split; vm_compute; reflexivity. Qed.

(** C8, amended.  For every pixel of a well-formed buffer and every
    strength up to [2^400] in magnitude, the three stored channels of the
    normal map decode ([c / 255 * 2 - 1]) to a vector whose length, computed
    in binary64, is within 0.012 of 1: the vector the generator normalizes
    has length 1 up to rounding, and each channel is rounded to one of 256
    samples, which moves each decoded component by up to [1 / 255]. *)
Theorem decoded_normal_near_unit src width height strength x y :
  wf_buffer src width height -> 0 <= x < width -> 0 <= y < height ->
  (abs strength <=? 0x1p400)%float = true ->
  exists r g b,
    stored (generateNormal src width height strength) width x y 0 = Some r /\
    stored (generateNormal src width height strength) width x y 1 = Some g /\
    stored (generateNormal src width height strength) width x y 2 = Some b /\
    (abs (magnitude r g b - 1) <=? 0.012)%float = true.
Proof.
  intros Hwf Hx Hy Hs. pose proof unit_pos as HU.
  rewrite !stored_normal by lia. unfold Spec.normal. cbv zeta.
  set (dx := Spec.gradient Spec.kernel_h src width height x y).
  set (dy := Spec.gradient Spec.kernel_v src width height x y).
  apply strength_bounded in Hs.
  destruct (gradient_bounded src width height x y Hwf Hx Hy) as [Hdx Hdy].
  fold dx in Hdx. fold dy in Hdy.
  assert (forall d, bounded 36864 d -> bounded (2 ^ 416) (- d * strength)) as Hn.
  { intros d Hd. change 416 with (16 + 400). apply bounded_mul_pow; try lia; [|exact Hs].
    apply bounded_opp. apply (bounded_weaken 36864); [change (2 ^ 16) with 65536; lia | exact Hd]. }
  pose proof (Hn dx Hdx) as Hnx. pose proof (Hn dy Hdy) as Hny.
  set (nx := (- dx * strength)%float) in *. set (ny := (- dy * strength)%float) in *.
  destruct (normalized_unit nx ny Hnx Hny) as (_ & (Fx & Fy & Fz) & Hunit).
  change (normalLen nx ny 1) with (sqrt (nx * nx + ny * ny + 1 * 1)) in *.
  set (len := sqrt (nx * nx + ny * ny + 1 * 1)) in *.
  unfold channel, Spec.encode. cbn [Z.eqb fst snd].
  set (ux := (nx / len)%float) in *. set (uy := (ny / len)%float) in *.
  set (uz := (1 / len)%float) in *.
  pose proof (Z.square_nonneg (R ux)) as Px. pose proof (Z.square_nonneg (R uy)) as Py.
  pose proof (Z.square_nonneg (R uz)) as Pz.
  assert (2 ^ 44 * (R ux * R ux + R uy * R uy + R uz * R uz) <= (2 ^ 44 + 1) * (2 ^ K * 2 ^ K))
    as HS by (change (2 ^ 44) with 17592186044416 in *; clear - Hunit; lia).
  pose proof (component_bound (2 ^ K) (R ux) (R uy * R uy + R uz * R uz) HU ltac:(lia)
                ltac:(rewrite Z.add_assoc; exact HS)) as Bx.
  pose proof (component_bound (2 ^ K) (R uy) (R ux * R ux + R uz * R uz) HU ltac:(lia)
                ltac:(replace (R uy * R uy + (R ux * R ux + R uz * R uz))
                        with (R ux * R ux + R uy * R uy + R uz * R uz) by ring; exact HS)) as By.
  pose proof (component_bound (2 ^ K) (R uz) (R ux * R ux + R uy * R uy) HU ltac:(lia)
                ltac:(replace (R uz * R uz + (R ux * R ux + R uy * R uy))
                        with (R ux * R ux + R uy * R uy + R uz * R uz) by ring; exact HS)) as Bz.
  destruct (channel_close ux Fx Bx) as [Hr Cr], (channel_close uy Fy By) as [Hg Cg],
    (channel_close uz Fz Bz) as [Hb Cb].
  eexists _, _, _. split; [reflexivity|]. split; [reflexivity|]. split; [reflexivity|].
  refine (magnitude_close _ _ _ Hr Hg Hb _).
  exact (stored_norm (2 ^ K) (R ux) (R uy) (R uz) _ _ _ HU Hunit Cr Cg Cb).
Qed.

Lemma decoded_normal_near_unit_witness :
  stored (generateNormal checker 2 2 1) 2 0 0 0 = Some 41 /\
  stored (generateNormal checker 2 2 1) 2 0 0 1 = Some 41 /\
  stored (generateNormal checker 2 2 1) 2 0 0 2 = Some 162 /\
  (abs (magnitude 41 41 162 - 1) <=? 0.012)%float = true.
Proof.
  assert (wf_buffer checker 2 2) as Hwf.
  { split; [reflexivity|]. repeat constructor; unfold byte; lia. }
  destruct (decoded_normal_near_unit checker 2 2 1 0 0 Hwf ltac:(lia) ltac:(lia) eq_refl)
    as (r & g & b & Hr & Hg & Hb & Hm).
  assert (stored (generateNormal checker 2 2 1) 2 0 0 0 = Some 41) as E0
    by (vm_compute; reflexivity).
  assert (stored (generateNormal checker 2 2 1) 2 0 0 1 = Some 41) as E1
    by (vm_compute; reflexivity).
  assert (stored (generateNormal checker 2 2 1) 2 0 0 2 = Some 162) as E2
    by (vm_compute; reflexivity).
  rewrite E0 in Hr. rewrite E1 in Hg. rewrite E2 in Hb.
  injection Hr as <-. injection Hg as <-. injection Hb as <-.
  repeat split; assumption.
Defined.
